(** * A-Texts trajectory-matching engine: model and verification

    The TypeScript sources are embedded as Rocq functions, one per source
    function and under the source's name:

    - [JS]         the part of the JavaScript runtime the sources rely on
                   (numbers, strings, [Array.prototype.sort], exceptions);
    - [Embedding]  packages/utils/src/embedding.ts;
    - [Conformal]  the conformal-prediction functions;
    - [Platt]      the Platt-scaling calibrator;
    - [Inverted]   the inverted index;
    - [IVF], [HNSW] packages/search/src/vector;
    - [Matcher]    packages/predictor/src/matcher.ts.

    JavaScript numbers are IEEE-754 binary64 values and are modelled by
    Rocq's primitive floats, so that every arithmetic step rounds as it does
    in the engine.  Quantities that the sources keep integral (array
    lengths, indices, the 32-bit words of the hash) are modelled by [nat]
    and [Z]: doubles are exact on integers below 2^53 and a JavaScript array
    is shorter than 2^32.  Strings are sequences of code units below 256. *)

From Stdlib Require Import ZArith String Ascii DecimalString Bool Lia Floats.
From Stdlib Require Import List Permutation Sorted ZifyNat.
From Stdlib Require Uint63.
Import ListNotations.

#[local] Set Warnings "-inexact-float".
#[local] Open Scope float_scope.

(* ================================================================== *)
(** * The JavaScript runtime                                            *)
(* ================================================================== *)

Module JS.

(** Exceptions.  A call either returns a value or throws.  [Exhausted] is
    not an exception of the language: it marks the bound of an unrolled
    [while] loop. *)
Inductive Exn : Type :=
| TypeError
| RangeError
| Error (msg : string)
| Exhausted.

Inductive Result (A : Type) : Type :=
| Ok (a : A)
| Throw (e : Exn).

Arguments Ok {A} a.
Arguments Throw {A} e.

Definition bind {A B : Type} (r : Result A) (k : A -> Result B) : Result B :=
  match r with
  | Ok a => k a
  | Throw e => Throw e
  end.

(** A result that is not the loop bound. *)
Definition notExhausted {A : Type} (r : Result A) : Prop :=
  r <> Throw Exhausted.

(** ** Numbers *)

(** The number whose value is the integer [z] (rounded to nearest for
    |z| >= 2^53, as the runtime does). *)
Definition NumZ (z : Z) : float :=
  match z with
  | Z0 => 0
  | Zpos p => SF2Prim (binary_normalize prec emax (Zpos p) 0 false)
  | Zneg p => SF2Prim (binary_normalize prec emax (Zneg p) 0 false)
  end.

Definition Num (n : nat) : float := NumZ (Z.of_nat n).

Definition NaN : float := nan.
Definition Infinity : float := infinity.

(** The relational operators [>] and [>=] of the language. *)
Definition gtb (x y : float) : bool := y <? x.
Definition geb (x y : float) : bool := y <=? x.

(** An integer-valued number: the result of [Math.ceil] and [Math.floor]. *)
Inductive integral : Type :=
| NaNI
| InfI (negative : bool)
| IntI (z : Z).

Definition Math_ceil (x : float) : integral :=
  match Prim2SF x with
  | S754_nan => NaNI
  | S754_infinity s => InfI s
  | S754_zero _ => IntI 0
  | S754_finite s m e =>
      let v := if s then Zneg m else Zpos m in
      IntI (match e with
            | Zneg k => (- ((- v) / 2 ^ Zpos k))%Z
            | _ => (v * 2 ^ e)%Z
            end)
  end.

Definition Math_floor (x : float) : integral :=
  match Prim2SF x with
  | S754_nan => NaNI
  | S754_infinity s => InfI s
  | S754_zero _ => IntI 0
  | S754_finite s m e =>
      let v := if s then Zneg m else Zpos m in
      IntI (match e with
            | Zneg k => (v / 2 ^ Zpos k)%Z
            | _ => (v * 2 ^ e)%Z
            end)
  end.

(** [i - k], [Math.min(k, i)] and [Math.max(k, i)] for an integer [k]. *)
Definition integral_sub (i : integral) (k : Z) : integral :=
  match i with
  | IntI z => IntI (z - k)
  | _ => i
  end.

Definition Math_min_int (k : Z) (i : integral) : integral :=
  match i with
  | NaNI => NaNI
  | InfI true => InfI true
  | InfI false => IntI k
  | IntI z => IntI (Z.min k z)
  end.

Definition Math_max_int (k : Z) (i : integral) : integral :=
  match i with
  | NaNI => NaNI
  | InfI true => IntI k
  | InfI false => InfI false
  | IntI z => IntI (Z.max k z)
  end.

(** [Math.max(x, y)] and [Math.min(x, y)] on numbers: NaN is contagious,
    and of two zeros the maximum is +0 unless both are -0 (dually for the
    minimum), which is what adding them gives. *)
Definition is_nan (x : float) : bool := negb (x =? x).

Definition Math_max (x y : float) : float :=
  if is_nan x || is_nan y then NaN
  else if (x =? 0) && (y =? 0) then x + y
  else if x <? y then y else x.

Definition Math_min (x y : float) : float :=
  if is_nan x || is_nan y then NaN
  else if (x =? 0) && (y =? 0) then - (- x + - y)
  else if y <? x then y else x.

(** ** [Math.exp] and [Math.log]

    The language leaves both implementation-approximated, so the functions
    that call them take them as parameters.  The two definitions below are
    a reference implementation (argument reduction and a truncated series)
    used to run the model on concrete inputs; like every engine's, they are
    exact at the points the standard fixes: [exp(0) = 1], [log(1) = 0]. *)
Definition ln2_hi : float := 0x1.62e42feep-1.
Definition ln2_lo : float := 0x1.a39ef35793c76p-33.
Definition ln2 : float := 0x1.62e42fefa39efp-1.

Fixpoint exp_series (r : float) (i n : nat) : float :=
  match n with
  | O => 1
  | S n' => 1 + r / Num i * exp_series r (S i) n'
  end.

Definition Math_exp_ref (x : float) : float :=
  if is_nan x then NaN
  else if 709.782712893384 <? x then Infinity
  else if x <? -745.2 then 0
  else
    let k := match Math_floor (x / ln2 + 0.5) with IntI z => z | _ => 0%Z end in
    let r := x - NumZ k * ln2_hi - NumZ k * ln2_lo in
    Z.ldexp (exp_series r 1 16) k.

Fixpoint atanh_series (s2 : float) (i n : nat) : float :=
  match n with
  | O => 0
  | S n' => 1 / Num i + s2 * atanh_series s2 (S (S i)) n'
  end.

Definition Math_log_ref (x : float) : float :=
  if is_nan x || (x <? 0) then NaN
  else if x =? 0 then - Infinity
  else if x =? Infinity then Infinity
  else
    let (m, e) := Z.frexp x in
    let (m, e) := if m <? 0x1.6a09e667f3bcdp-1 then (m * 2, (e - 1)%Z)
                  else (m, e) in
    let s := (m - 1) / (m + 1) in
    2 * s * atanh_series (s * s) 1 20 + NumZ e * ln2.

(** [Math.fround]: the binary32 value nearest to [x], which is what a
    store into a [Float32Array] keeps. *)
Definition fround (x : float) : float :=
  match Prim2SF x with
  | S754_finite s m e => SF2Prim (binary_round 24 128 s m e)
  | _ => x
  end.

(** Magnitudes of numbers, as the specification of the arithmetic sees
    them.  [within b beta x]: [x] is a zero or a finite number of absolute
    value at most [b * 2^beta], written at an exponent that is not above
    [beta]. *)
Definition within (b beta : Z) (x : spec_float) : Prop :=
  match x with
  | S754_zero _ => True
  | S754_finite _ m e => (e <= beta /\ Zpos m <= b * 2 ^ (beta - e))%Z
  | _ => False
  end.

(** The exponent of a finite number is at least [lo]. *)
Definition exponentFrom (lo : Z) (x : spec_float) : Prop :=
  match x with
  | S754_finite _ _ e => (lo <= e)%Z
  | _ => True
  end.

(** A finite number of absolute value at least 1. *)
Definition atLeastOne (x : spec_float) : Prop :=
  match x with
  | S754_finite _ m e => (e <= 0 -> 2 ^ (- e) <= Zpos m)%Z
  | _ => False
  end.

(** ** [Math.random]

    The calls draw, in order, from a stream of numbers that the model takes
    as given. *)
Record World : Type := {
  random : nat -> float;
  drawn : nat
}.

Definition Math_random (w : World) : float * World :=
  (random w (drawn w), {| random := random w; drawn := S (drawn w) |}).

(** [Math.min(...xs)]. *)
Definition Math_min_list (xs : list float) : float :=
  fold_left Math_min xs Infinity.

(** ** Arrays *)

(** [a[i] = v] on a typed array: ignored when [i] is not an index. *)
Fixpoint Array_set {A : Type} (a : list A) (i : nat) (v : A) : list A :=
  match a, i with
  | [], _ => []
  | _ :: a', O => v :: a'
  | x :: a', S i' => x :: Array_set a' i' v
  end.

(** [a[i]] for an integer-valued number [i]: [None] is [undefined]. *)
Definition Array_get {A : Type} (a : list A) (i : integral) : option A :=
  match i with
  | IntI z => if (z <? 0)%Z then None else nth_error a (Z.to_nat z)
  | _ => None
  end.

(** [a.slice(0, k)]. *)
Definition Array_slice0 {A : Type} (a : list A) (k : Z) : list A :=
  if (k <? 0)%Z then firstn (length a - Z.to_nat (- k)) a
  else firstn (Z.to_nat k) a.

(** [Array.prototype.sort(cmp)].  The sort is stable; [b] is moved in front
    of [a] only when [cmp(a, b) > 0], and a comparator result of NaN counts
    as 0.  For a consistent comparator every stable sort returns the list
    computed here. *)
Fixpoint sort_insert {A : Type} (cmp : A -> A -> float) (x : A) (l : list A)
  : list A :=
  match l with
  | [] => [x]
  | y :: l' => if gtb (cmp x y) 0 then y :: sort_insert cmp x l'
               else x :: y :: l'
  end.

Definition Array_sort {A : Type} (cmp : A -> A -> float) (l : list A)
  : list A :=
  fold_right (sort_insert cmp) [] l.

(** [l.map(f)] for an [f] that may throw. *)
Fixpoint mapResult {A B : Type} (f : A -> Result B) (l : list A)
  : Result (list B) :=
  match l with
  | [] => Ok []
  | x :: l' => bind (f x) (fun y => bind (mapResult f l') (fun ys => Ok (y :: ys)))
  end.

(** ** Strings *)

Definition chars (s : string) : list ascii := list_ascii_of_string s.
Definition str (l : list ascii) : string := string_of_list_ascii l.

Definition charCode (c : ascii) : Z := Z.of_nat (nat_of_ascii c).

(** [\s] and [\w] on code units below 256. *)
Definition is_space (c : ascii) : bool :=
  let n := nat_of_ascii c in
  ((9 <=? n) && (n <=? 13) || (n =? 32) || (n =? 160))%nat.

Definition is_word (c : ascii) : bool :=
  let n := nat_of_ascii c in
  ((48 <=? n) && (n <=? 57) || (65 <=? n) && (n <=? 90) || (n =? 95)
   || (97 <=? n) && (n <=? 122))%nat.

(** [String.prototype.toLowerCase] on code units below 256. *)
Definition lower_char (c : ascii) : ascii :=
  let n := nat_of_ascii c in
  if ((65 <=? n) && (n <=? 90)
      || (192 <=? n) && (n <=? 222) && negb (n =? 215))%nat
  then ascii_of_nat (n + 32) else c.

Definition toLowerCase (s : string) : string :=
  str (map lower_char (chars s)).

(** [s.includes(sub)]. *)
Fixpoint starts_with (sub s : list ascii) : bool :=
  match sub, s with
  | [], _ => true
  | _ :: _, [] => false
  | a :: sub', b :: s' => Ascii.eqb a b && starts_with sub' s'
  end.

Fixpoint includes_chars (s sub : list ascii) : bool :=
  starts_with sub s ||
  match s with
  | [] => false
  | _ :: s' => includes_chars s' sub
  end.

Definition includes (s sub : string) : bool :=
  includes_chars (chars s) (chars sub).

(** [parts.join(' ')]. *)
Fixpoint join_space (parts : list string) : string :=
  match parts with
  | [] => EmptyString
  | [p] => p
  | p :: rest => (p ++ " " ++ join_space rest)%string
  end.

(** Truthiness of a string-valued property that may be absent. *)
Definition truthy (o : option string) : bool :=
  match o with
  | Some s => negb (String.eqb s EmptyString)
  | None => false
  end.

(** ** Maps

    A [Map] iterates in insertion order and [set] on a present key keeps
    the key's position: an association list. *)
Section MapOps.
Context {V : Type}.

Fixpoint Map_get (m : list (string * V)) (k : string) : option V :=
  match m with
  | [] => None
  | (k', v) :: m' => if String.eqb k' k then Some v else Map_get m' k
  end.

Fixpoint Map_set (m : list (string * V)) (k : string) (v : V)
  : list (string * V) :=
  match m with
  | [] => [(k, v)]
  | (k', v') :: m' =>
      if String.eqb k' k then (k, v) :: m' else (k', v') :: Map_set m' k v
  end.

Definition Map_has (m : list (string * V)) (k : string) : bool :=
  match Map_get m k with Some _ => true | None => false end.

Definition Map_keys (m : list (string * V)) : list string := map fst m.

End MapOps.

(** [l1] is [l2] with some elements left out, the rest in the same order. *)
Inductive subseq {A : Type} : list A -> list A -> Prop :=
| subseq_nil : subseq [] []
| subseq_skip (x : A) (l1 l2 : list A) : subseq l1 l2 -> subseq l1 (x :: l2)
| subseq_keep (x : A) (l1 l2 : list A) :
    subseq l1 l2 -> subseq (x :: l1) (x :: l2).

(** [new Set(ids).has(id)]. *)
Definition Set_has (ids : list string) (id : string) : bool :=
  existsb (String.eqb id) ids.

(** [set.add(id)] on a [Set] kept in insertion order. *)
Definition Set_add (s : list string) (id : string) : list string :=
  if Set_has s id then s else s ++ [id].

End JS.

Import JS.

(* ================================================================== *)
(** * Embedding                                                         *)
(* ================================================================== *)

Module Embedding.

(** 32-bit integer operations; a word is kept as its unsigned value. *)
Definition u32 (z : Z) : Z := (z mod 2 ^ 32)%Z.
Definition xor32 (x y : Z) : Z := Z.lxor (u32 x) (u32 y).
Definition imul (x y : Z) : Z := u32 (x * y).
Definition ushr (x n : Z) : Z := Z.shiftr (u32 x) n.

Definition simpleHash (s : string) (seed : Z) : Z :=
  let h1 := xor32 0xdeadbeef seed in
  let h2 := xor32 0x41c6ce57 seed in
  let '(h1, h2) :=
    fold_left
      (fun (h : Z * Z) (c : ascii) =>
         let ch := charCode c in
         (imul (xor32 (fst h) ch) 2654435761,
          imul (xor32 (snd h) ch) 1597334677))
      (chars s) (h1, h2) in
  let h1 := xor32 (imul (xor32 h1 (ushr h1 16)) 2246822507)
                  (imul (xor32 h2 (ushr h2 13)) 3266489909) in
  let h2 := xor32 (imul (xor32 h2 (ushr h2 16)) 2246822507)
                  (imul (xor32 h1 (ushr h1 13)) 3266489909) in
  (4294967296 * Z.land 2097151 h2 + ushr h1 0)%Z.

(** [text.split(/\s+/)]: [cur] is the token being read, reversed, and
    [in_ws] tells whether the previous character was a separator. *)
Fixpoint split_ws (s cur : list ascii) (in_ws : bool) : list string :=
  match s with
  | [] => [str (rev cur)]
  | c :: s' =>
      if is_space c then
        if in_ws then split_ws s' cur true
        else str (rev cur) :: split_ws s' [] true
      else split_ws s' (c :: cur) false
  end.

Definition tokenize (text : string) : list string :=
  let lowered := map lower_char (chars text) in
  let replaced :=
    map (fun c => if negb (is_word c || is_space c) then " "%char else c)
        lowered in
  filter (fun token => (2 <? String.length token)%nat)
         (split_ws replaced [] false).

(** [termFreq.set(token, (termFreq.get(token) || 0) + 1)] for each token. *)
Definition countTerms (tokens : list string) : list (string * nat) :=
  fold_left
    (fun termFreq token =>
       Map_set termFreq token
         (match Map_get termFreq token with Some n => n | None => O end + 1)%nat)
    tokens [].

Definition numHashes : nat := 3.

(** The body of [embed] once the input is a string; the result is the
    content of the [Float32Array]. *)
Definition embedText (text : string) (dimensions : nat) : list float :=
  let tokens := tokenize text in
  let vector := repeat 0 dimensions in
  let termFreq := countTerms tokens in
  let vector :=
    fold_left
      (fun (vector : list float) (entry : string * nat) =>
         let '(token, freq) := entry in
         let tf := Num freq / Num (length tokens) in
         fold_left
           (fun (vector : list float) (h : nat) =>
              let idx :=
                Z.to_nat (Z.abs (simpleHash token (Z.of_nat h))
                          mod Z.of_nat dimensions) in
              let sign :=
                if Z.even (simpleHash token (Z.of_nat h + 1000)) then 1
                else -1 in
              Array_set vector idx
                (fround (nth idx vector 0 + sign * tf / Num numHashes)))
           (seq 0 numHashes) vector)
      termFreq vector in
  let norm := fold_left (fun norm x => norm + x * x) vector 0 in
  let norm := sqrt norm in
  if gtb norm 0 then map (fun x => fround (x / norm)) vector else vector.

(** What the accumulation keeps: every component is a zero or a finite
    number of absolute value at most 2^100. *)
Definition componentsWithin (vector : list float) : Prop :=
  Forall (fun x => within 1 100 (Prim2SF x)) vector.

(** The input of [embed]: a string, or an object that [JSON.stringify]
    turns into one (or fails on). *)
Inductive Input (object : Type) : Type :=
| Text (s : string)
| Object (o : object).

Arguments Text {object} s.
Arguments Object {object} o.

Definition embed {object : Type} (JSON_stringify : object -> Result string)
    (input : Input object) (dimensions : nat) : Result (list float) :=
  bind (match input with
        | Text s => Ok s
        | Object o => JSON_stringify o
        end)
       (fun text => Ok (embedText text dimensions)).

Definition cosineSimilarity (a b : list float) : Result float :=
  if negb (length a =? length b)%nat
  then Throw (Error "Vector dimensions must match")
  else
    let '(dotProduct, normA, normB) :=
      fold_left
        (fun (acc : float * float * float) (xy : float * float) =>
           let '(dotProduct, normA, normB) := acc in
           let '(x, y) := xy in
           (dotProduct + x * y, normA + x * x, normB + y * y))
        (combine a b) (0, 0, 0) in
    let denominator := sqrt normA * sqrt normB in
    Ok (if denominator =? 0 then 0 else dotProduct / denominator).

(** ** Base64 transport of an embedding

    Neither function reads an element of the typed array: one reads the
    bytes of its buffer, the other builds an array over bytes.  A
    [Float32Array] is therefore modelled by the bytes of its buffer and
    the part of the buffer it views. *)
Record Float32Array : Type := {
  buffer : list ascii;
  byteOffset : nat;
  elements : nat
}.

(** [btoa] and [atob] of the runtime, on strings of code units below 256
    (on which [btoa] never fails): the base64 encoding with padding, and
    the forgiving decoding, which drops ASCII whitespace, accepts a
    missing padding and rejects everything else. *)
Definition base64Alphabet : list ascii :=
  chars "ABCDEFGHIJKLMNOPQRSTUVWXYZabcdefghijklmnopqrstuvwxyz0123456789+/".

Definition base64Char (i : nat) : ascii := nth i base64Alphabet "="%char.

Fixpoint indexOf (c : ascii) (l : list ascii) (i : nat) : option nat :=
  match l with
  | [] => None
  | x :: l' => if Ascii.eqb x c then Some i else indexOf c l' (S i)
  end.

Definition base64Value (c : ascii) : option nat := indexOf c base64Alphabet 0.

(** The 6-bit groups of a byte string, three bytes giving four groups, and
    the padding that completes the last four characters. *)
Fixpoint sextets (s : list ascii) : list nat :=
  match s with
  | [] => []
  | [a] =>
      let a := nat_of_ascii a in
      [a / 4; a mod 4 * 16]%nat
  | [a; b] =>
      let a := nat_of_ascii a in
      let b := nat_of_ascii b in
      [a / 4; a mod 4 * 16 + b / 16; b mod 16 * 4]%nat
  | a :: b :: c :: s' =>
      let a := nat_of_ascii a in
      let b := nat_of_ascii b in
      let c := nat_of_ascii c in
      (a / 4 :: a mod 4 * 16 + b / 16 :: b mod 16 * 4 + c / 64 :: c mod 64
       :: sextets s')%nat
  end.

Definition padding (n : nat) : list ascii :=
  match (n mod 3)%nat with
  | 0%nat => []
  | 1%nat => ["="%char; "="%char]
  | _ => ["="%char]
  end.

Definition btoa (s : string) : string :=
  str (map base64Char (sextets (chars s)) ++ padding (String.length s)).

Definition is_ascii_whitespace (c : ascii) : bool :=
  let n := nat_of_ascii c in
  ((n =? 9) || (n =? 10) || (n =? 12) || (n =? 13) || (n =? 32))%nat.

(** One or two [=] at the end are removed. *)
Definition stripPadding (data : list ascii) : list ascii :=
  match rev data with
  | c1 :: r1 =>
      if Ascii.eqb c1 "="%char then
        match r1 with
        | c2 :: r2 => if Ascii.eqb c2 "="%char then rev r2 else rev r1
        | [] => rev r1
        end
      else data
  | [] => data
  end.

Fixpoint base64Values (data : list ascii) : option (list nat) :=
  match data with
  | [] => Some []
  | c :: data' =>
      match base64Value c, base64Values data' with
      | Some v, Some vs => Some (v :: vs)
      | _, _ => None
      end
  end.

Fixpoint decodeGroups (vs : list nat) : list ascii :=
  match vs with
  | v1 :: v2 :: v3 :: v4 :: vs' =>
      ascii_of_nat (v1 * 4 + v2 / 16)
      :: ascii_of_nat (v2 mod 16 * 16 + v3 / 4)
      :: ascii_of_nat (v3 mod 4 * 64 + v4)
      :: decodeGroups vs'
  | [v1; v2; v3] =>
      [ascii_of_nat (v1 * 4 + v2 / 16); ascii_of_nat (v2 mod 16 * 16 + v3 / 4)]
  | [v1; v2] => [ascii_of_nat (v1 * 4 + v2 / 16)]
  | _ => []
  end.

Definition atob (data : string) : Result string :=
  let data := filter (fun c => negb (is_ascii_whitespace c)) (chars data) in
  let data :=
    if (length data mod 4 =? 0)%nat then stripPadding data else data in
  if (length data mod 4 =? 1)%nat then Throw (Error "InvalidCharacterError")
  else
    match base64Values data with
    | Some vs => Ok (str (decodeGroups vs))
    | None => Throw (Error "InvalidCharacterError")
    end.

Section Engine.

(** The largest number of arguments a call may spread: beyond it
    [String.fromCharCode(...bytes)] throws a RangeError.  The bound is the
    engine's. *)
Variable maxArguments : nat.

Definition embeddingToBase64 (embedding : Float32Array) : Result string :=
  let bytes := buffer embedding in
  if (maxArguments <? length bytes)%nat then Throw RangeError
  else Ok (btoa (str bytes)).

Definition embeddingFromBase64 (base64 : string) : Result Float32Array :=
  bind (atob base64) (fun binary =>
  let bytes := chars binary in
  if (length bytes mod 4 =? 0)%nat
  then Ok {| buffer := bytes; byteOffset := 0;
             elements := (length bytes / 4)%nat |}
  else Throw RangeError).

End Engine.

End Embedding.

(* ================================================================== *)
(** * Conformal prediction                                              *)
(* ================================================================== *)

Module Conformal.

Record ConformalInterval : Type := {
  lower : float;
  upper : float;
  coverage : float
}.

(** The index [Math.max(0, Math.min(n - 1, Math.ceil((n + 1) * (1 - alpha)) - 1))]. *)
Definition quantileIndex (n : nat) (alpha : float) : integral :=
  let quantileIdx := integral_sub (Math_ceil (Num (n + 1) * (1 - alpha))) 1 in
  Math_max_int 0 (Math_min_int (Z.of_nat n - 1) quantileIdx).

Definition calibrate (scores : list float) (alpha : float)
  : Result (option float) :=
  if (length scores =? 0)%nat
  then Throw (Error "Cannot calibrate with empty scores array")
  else
    let sorted := Array_sort (fun a b => a - b) scores in
    let n := length sorted in
    Ok (Array_get sorted (quantileIndex n alpha)).

Definition interval (prediction quantile alpha : float) : ConformalInterval :=
  {| lower := prediction - quantile;
     upper := prediction + quantile;
     coverage := 1 - alpha |}.

(** A value that may be [undefined], used as an operand of [-], [+] or
    [<=]: [undefined] converts to NaN. *)
Definition toNumber (x : option float) : float :=
  match x with
  | Some v => v
  | None => NaN
  end.

Definition splitConformal (calibrationScores : list float)
    (newScore alpha : float) : Result ConformalInterval :=
  bind (calibrate calibrationScores alpha) (fun quantile =>
  Ok (interval newScore (toNumber quantile) alpha)).

(** [scores] is the [Map] from label to conformity score. *)
Definition predictionSet (scores : list (string * float))
    (calibrationScores : list float) (alpha : float) : Result (list string) :=
  bind (calibrate calibrationScores alpha) (fun threshold =>
  Ok (fold_left
        (fun (result : list string) (entry : string * float) =>
           let '(label, score) := entry in
           if score <=? toNumber threshold then result ++ [label] else result)
        scores [])).

End Conformal.

(* ================================================================== *)
(** * Platt scaling                                                     *)
(* ================================================================== *)

Module Platt.

Record CalibrationModel : Type := {
  a : float;
  b : float
}.

Section Runtime.
Variables Math_exp Math_log : float -> float.

Definition applyPlatt (score : float) (model : CalibrationModel) : float :=
  let linearCombination := a model * score + b model in
  1 / (1 + Math_exp linearCombination).

(** One pass of the inner loop over the samples: the gradients (and the
    log-likelihood, which the function computes and never reads). *)
Definition gradients (hiTarget loTarget : float) (a0 b0 : float)
    (samples : list (float * float)) : float * float * float :=
  fold_left
    (fun (acc : float * float * float) (sample : float * float) =>
       let '(gradA, gradB, logLikelihood) := acc in
       let '(score, label) := sample in
       let target := if gtb label 0.5 then hiTarget else loTarget in
       let pred := applyPlatt score {| a := a0; b := b0 |} in
       let logLikelihood :=
         logLikelihood
         + (target * Math_log (pred + 1e-10)
            + (1 - target) * Math_log (1 - pred + 1e-10)) in
       let error := pred - target in
       (gradA + error * score, gradB + error, logLikelihood))
    samples (0, 0, 0).

(** The outer loop, [iters] iterations left. *)
Fixpoint descend (iters : nat) (hiTarget loTarget : float)
    (samples : list (float * float)) (a0 b0 : float) : CalibrationModel :=
  match iters with
  | O => {| a := a0; b := b0 |}
  | S iters' =>
      let '(gradA, gradB, _) := gradients hiTarget loTarget a0 b0 samples in
      let learningRate := 0.01 in
      let tolerance := 1e-6 in
      let newA := a0 - learningRate * gradA in
      let newB := b0 - learningRate * gradB in
      let change := abs (newA - a0) + abs (newB - b0) in
      if change <? tolerance then {| a := newA; b := newB |}
      else descend iters' hiTarget loTarget samples newA newB
  end.

Definition fitPlatt (scores labels : list float) : Result CalibrationModel :=
  if negb (length scores =? length labels)%nat
  then Throw (Error "scores and labels must have same length")
  else if (length scores =? 0)%nat then Ok {| a := -1; b := 0 |}
  else
    let a0 := -1.0 in
    let b0 := 0.0 in
    let nPos := length (filter (fun l => gtb l 0.5) labels) in
    let nNeg := (length labels - nPos)%nat in
    if (nPos =? 0)%nat || (nNeg =? 0)%nat then Ok {| a := a0; b := b0 |}
    else
      let hiTarget := (Num nPos + 1) / (Num nPos + 2) in
      let loTarget := 1 / (Num nNeg + 2) in
      let maxIter := 100%nat in
      Ok (descend maxIter hiTarget loTarget (combine scores labels) a0 b0).

Definition calibrateConfidence (score : float) (model : option CalibrationModel)
  : float :=
  match model with
  | None => Math_max 0 (Math_min 100 score)
  | Some m => applyPlatt score m * 100
  end.

Definition plattScaling (score : float) (model : CalibrationModel) : float :=
  applyPlatt score model.

Definition trainCalibration (scores : list float) (labels : list bool)
  : Result CalibrationModel :=
  let numericLabels := map (fun l : bool => if l then 1 else 0) labels in
  fitPlatt scores numericLabels.

End Runtime.

End Platt.

(* ================================================================== *)
(** * Inverted index                                                    *)
(* ================================================================== *)

Module Inverted.

(** [Map<string, Map<string, string[]>>]: field -> value -> span ids. *)
Definition FieldIndex : Type := list (string * list string).
Definition InvertedIndex : Type := list (string * FieldIndex).

Definition empty : InvertedIndex := [].

Definition add (indices : InvertedIndex) (spanId field value : string)
  : InvertedIndex :=
  let indices :=
    if negb (Map_has indices field) then Map_set indices field [] else indices in
  let fieldIndex :=
    match Map_get indices field with Some fi => fi | None => [] end in
  let fieldIndex :=
    if negb (Map_has fieldIndex value) then Map_set fieldIndex value []
    else fieldIndex in
  let ids :=
    match Map_get fieldIndex value with Some l => l | None => [] end in
  Map_set indices field (Map_set fieldIndex value (ids ++ [spanId])).

(** A call [add(spanId, field, value)], and a sequence of such calls made
    on an index. *)
Record AddCall : Type := {
  call_id : string;
  call_field : string;
  call_value : string
}.

Definition addAll (indices : InvertedIndex) (calls : list AddCall)
  : InvertedIndex :=
  fold_left
    (fun idx c => add idx (call_id c) (call_field c) (call_value c))
    calls indices.

Definition find (indices : InvertedIndex) (field value : string)
  : list string :=
  match Map_get indices field with
  | Some fieldIndex =>
      match Map_get fieldIndex value with
      | Some ids => ids
      | None => []
      end
  | None => []
  end.

(** The matrix of the dynamic program, one row per prefix of [b]:
    [matrix[i][j]] is the distance between the first [i] characters of [b]
    and the first [j] characters of [a]. *)
Fixpoint levenshteinRow (a : list ascii) (bc : ascii) (prev : list nat)
    (left : nat) : list nat :=
  match a, prev with
  | ac :: a', diag :: ((up :: _) as prev') =>
      let cell :=
        if Ascii.eqb bc ac then diag
        else Nat.min (diag + 1) (Nat.min (left + 1) (up + 1)) in
      cell :: levenshteinRow a' bc prev' cell
  | _, _ => []
  end.

Fixpoint levenshteinMatrix (a b : list ascii) (i : nat) (prev : list nat)
  : list (list nat) :=
  match b with
  | [] => []
  | bc :: b' =>
      let row := i :: levenshteinRow a bc prev i in
      row :: levenshteinMatrix a b' (S i) row
  end.

Definition levenshteinDistance (a b : string) : nat :=
  let row0 := seq 0 (S (String.length a)) in
  let matrix := row0 :: levenshteinMatrix (chars a) (chars b) 1 row0 in
  nth (String.length a) (nth (String.length b) matrix []) 0%nat.

(** The edit distance in the spec's words.  [edits a b n]: [a] becomes [b]
    by [n] single-character insertions, deletions and substitutions; the
    distance of [a] and [b] is the least such [n]. *)
Inductive edits : list ascii -> list ascii -> nat -> Prop :=
| edits_nil : edits [] [] O
| edits_keep c a b n : edits a b n -> edits (c :: a) (c :: b) n
| edits_substitute c d a b n : edits a b n -> edits (c :: a) (d :: b) (S n)
| edits_delete c a b n : edits a b n -> edits (c :: a) b (S n)
| edits_insert d a b n : edits a b n -> edits a (d :: b) (S n).

Definition editDistanceIs (a b : list ascii) (d : nat) : Prop :=
  edits a b d /\ forall n, edits a b n -> (d <= n)%nat.

(** The textbook recurrence for that distance, on the first characters. *)
Fixpoint editDistance (a b : list ascii) : nat :=
  match a with
  | [] => length b
  | x :: a' =>
      (fix against (b : list ascii) : nat :=
         match b with
         | [] => length a
         | y :: b' =>
             if Ascii.eqb x y then editDistance a' b'
             else S (Nat.min (editDistance a' b')
                       (Nat.min (editDistance a' b) (against b')))
         end) b
  end.

(** The row of the matrix computed for the prefix [pre] of [b]: cell [j]
    holds the edit distance between the first [j] characters of [a] and
    [pre], both read from their last character. *)
Definition rowDistances (a pre : list ascii) (row : list nat) : Prop :=
  length row = S (length a)
  /\ forall j, (j <= length a)%nat ->
       nth j row 0%nat = editDistance (rev (firstn j a)) (rev pre).

(** What holds of the row of the matrix computed for the prefix [pre] of
    [b]: cell [j] compares [pre] with the first [j] characters of [a]. *)
Definition rowOf (a pre : list ascii) (row : list nat) : Prop :=
  length row = S (length a)
  /\ forall j, (j <= length a)%nat ->
       (nth j row 0%nat = 0%nat <-> firstn j a = pre)
       /\ (nth j row 0 <= Nat.max (length pre) j)%nat
       /\ (length pre - j <= nth j row 0)%nat
       /\ (j - length pre <= nth j row 0)%nat.

Definition levenshteinSimilarity (a b : string) : float :=
  let distance := levenshteinDistance a b in
  let maxLen := Nat.max (String.length a) (String.length b) in
  if (maxLen =? 0)%nat then 1 else 1 - Num distance / Num maxLen.

(** The test of the fuzzy scan. *)
Definition fuzzyMatch (lowerAction lowerStored : string) : bool :=
  includes lowerStored lowerAction
  || includes lowerAction lowerStored
  || gtb (levenshteinSimilarity lowerAction lowerStored) 0.7.

Definition intersectSeed (ids : option (list string)) (result : list string)
  : list string :=
  match ids with
  | Some ids => filter (Set_has ids) result
  | None => result
  end.

Definition filterByAction (indices : InvertedIndex)
    (ids : option (list string)) (action : string) (fuzzy : bool)
  : list string :=
  if negb fuzzy then
    let matches := find indices "action" action in
    intersectSeed ids matches
  else
    match Map_get indices "action" with
    | None => []
    | Some actionIndex =>
        let lowerAction := toLowerCase action in
        let allMatches :=
          fold_left
            (fun (allMatches : list string) (entry : string * list string) =>
               let '(storedAction, spanIds) := entry in
               let lowerStored := toLowerCase storedAction in
               if fuzzyMatch lowerAction lowerStored
               then fold_left Set_add spanIds allMatches
               else allMatches)
            actionIndex [] in
        intersectSeed ids allMatches
    end.

Definition filterByTags (indices : InvertedIndex)
    (ids : option (list string)) (tags : list string) : list string :=
  let matches :=
    fold_left
      (fun (matches : list string) (tag : string) =>
         fold_left Set_add (find indices "tag" tag) matches)
      tags [] in
  intersectSeed ids matches.

Definition filterByDomain (indices : InvertedIndex)
    (ids : option (list string)) (domain : string) : list string :=
  let matches := find indices "domain" domain in
  intersectSeed ids matches.

(** [filters] holds the entries of the [filters] object in the order in
    which [Object.entries] yields them. *)
Definition findAll (indices : InvertedIndex) (filters : list (string * string))
  : list string :=
  let results :=
    fold_left
      (fun (results : option (list string)) (entry : string * string) =>
         let '(field, value) := entry in
         let matches := fold_left Set_add (find indices field value) [] in
         match results with
         | None => Some matches
         | Some results =>
             Some (fold_left
                     (fun (intersection : list string) (id : string) =>
                        if Set_has matches id then Set_add intersection id
                        else intersection)
                     results [])
         end)
      filters None in
  match results with
  | Some results => results
  | None => []
  end.

Definition getFieldValues (indices : InvertedIndex) (field : string)
  : list string :=
  match Map_get indices field with
  | None => []
  | Some fieldIndex => Map_keys fieldIndex
  end.

Definition getCount (indices : InvertedIndex) (field value : string) : nat :=
  length (find indices field value).

End Inverted.

(* ================================================================== *)
(** * IVF index                                                         *)
(* ================================================================== *)

Module IVF.

Definition Vector : Type := list float.

Record IVFConfig : Type := {
  cfg_nClusters : option nat;
  cfg_nProbe : option nat;
  cfg_maxIter : option nat
}.

(** [x || d] on an optional count: absent and 0 give the default. *)
Definition orDefault (x : option nat) (d : nat) : nat :=
  match x with
  | Some (S n) => S n
  | _ => d
  end.

Record Config : Type := {
  nClusters : nat;
  nProbe : nat;
  maxIter : nat
}.

Record IVFIndex : Type := {
  config : Config;
  centroids : list (option Vector);
  clusters : list (nat * list string);
  vectors : list (string * Vector);
  built : bool
}.

Definition new (c : IVFConfig) : IVFIndex :=
  {| config := {| nClusters := orDefault (cfg_nClusters c) 100;
                  nProbe := orDefault (cfg_nProbe c) 10;
                  maxIter := orDefault (cfg_maxIter c) 20 |};
     centroids := [];
     clusters := [];
     vectors := [];
     built := false |}.

Definition add (this : IVFIndex) (id : string) (vector : Vector) : IVFIndex :=
  {| config := config this;
     centroids := centroids this;
     clusters := clusters this;
     vectors := Map_set (vectors this) id vector;
     built := false |}.

Definition size (this : IVFIndex) : nat := length (vectors this).

(** All ids of the posting lists, list after list. *)
Definition postings (this : IVFIndex) : list string :=
  concat (map snd (clusters this)).

(** [None] is [undefined]: reading [a.length] or [b[i]] of it throws, and a
    component that [b] lacks reads as [undefined], which makes the
    difference NaN. *)
Definition euclideanDistance (a b : option Vector) : Result float :=
  match a with
  | None => Throw TypeError
  | Some a =>
      match b with
      | None => if (length a =? 0)%nat then Ok (sqrt 0) else Throw TypeError
      | Some b =>
          Ok (sqrt (fold_left
                      (fun sum i =>
                         let diff := nth i a NaN - nth i b NaN in
                         sum + diff * diff)
                      (seq 0 (length a)) 0))
      end
  end.

Definition findNearestCentroidFrom (vector : Vector)
    (centroids : list (option Vector)) : Result nat :=
  bind
    (fold_left
       (fun (acc : Result (float * nat * nat)) (c : option Vector) =>
          bind acc (fun '(minDist, nearest, i) =>
          bind (euclideanDistance (Some vector) c) (fun dist =>
          Ok (if dist <? minDist then (dist, i, S i)
              else (minDist, nearest, S i)))))
       centroids (Ok (Infinity, O, O)))
    (fun '(_, nearest, _) => Ok nearest).

Definition computeCentroid (vectors : list Vector) : Result Vector :=
  match vectors with
  | [] => Throw (Error "Cannot compute centroid of empty set")
  | v0 :: _ =>
      let dim := length v0 in
      let centroid :=
        fold_left
          (fun centroid vector =>
             map (fun i => nth i centroid 0 + nth i vector NaN) (seq 0 dim))
          vectors (repeat 0 dim) in
      Ok (map (fun x => x / Num (length vectors)) centroid)
  end.

Definition maxCentroidChange (oldCentroids newCentroids : list (option Vector))
  : Result float :=
  bind
    (fold_left
       (fun (acc : Result (float * nat)) (old : option Vector) =>
          bind acc (fun '(maxChange, i) =>
          bind (euclideanDistance old (nth i newCentroids None)) (fun change =>
          Ok (Math_max maxChange change, S i))))
       oldCentroids (Ok (0, O)))
    (fun '(maxChange, _) => Ok maxChange).

(** The weighted draw: the first [j] at which [randVal] has dropped to 0 or
    below, if any. *)
Fixpoint weightedPick (vectors : list Vector) (distances : list float)
    (randVal : float) : option Vector :=
  match vectors, distances with
  | v :: vectors', d :: distances' =>
      let randVal := randVal - d in
      if randVal <=? 0 then Some v else weightedPick vectors' distances' randVal
  | _, _ => None
  end.

(** The loop [for (let i = 1; i < k; i++)] of the initialisation, [steps]
    iterations left. *)
Fixpoint initializeMore (steps : nat) (vectors : list Vector)
    (centroids : list (option Vector)) (w : World)
  : Result (list (option Vector)) * World :=
  match steps with
  | O => (Ok centroids, w)
  | S steps' =>
      match mapResult
              (fun v =>
                 bind (mapResult (fun c => euclideanDistance (Some v) c)
                         centroids)
                      (fun ds => let nearestDist := Math_min_list ds in
                                 Ok (nearestDist * nearestDist)))
              vectors with
      | Throw e => (Throw e, w)
      | Ok distances =>
          let totalDist := fold_left (fun sum d => sum + d) distances 0 in
          let '(r, w) := Math_random w in
          let randVal := r * totalDist in
          let centroids :=
            match weightedPick vectors distances randVal with
            | Some v => centroids ++ [Some v]
            | None => centroids
            end in
          initializeMore steps' vectors centroids w
      end
  end.

Definition initializeCentroidsKMeansPlusPlus (vectors : list Vector) (k : nat)
    (w : World) : Result (list (option Vector)) * World :=
  let '(r, w) := Math_random w in
  let first := Array_get vectors (Math_floor (r * Num (length vectors))) in
  initializeMore (k - 1) vectors [first] w.

(** One Lloyd iteration: the new centroids and the largest movement. *)
Definition lloydStep (vectors : list Vector) (k : nat)
    (centroids : list (option Vector))
  : Result (list (option Vector) * float) :=
  bind (mapResult (fun v => findNearestCentroidFrom v centroids) vectors)
       (fun assignments =>
  bind (mapResult
          (fun i =>
             let clusterVectors :=
               map fst
                 (filter (fun va => (snd va =? i)%nat)
                         (combine vectors assignments)) in
             if (length clusterVectors =? 0)%nat then Ok (nth i centroids None)
             else bind (computeCentroid clusterVectors)
                       (fun c => Ok (Some c)))
          (seq 0 k))
       (fun newCentroids =>
  bind (maxCentroidChange centroids newCentroids)
       (fun maxChange => Ok (newCentroids, maxChange)))).

Fixpoint lloyd (iters : nat) (vectors : list Vector) (k : nat)
    (centroids : list (option Vector)) : Result (list (option Vector)) :=
  match iters with
  | O => Ok centroids
  | S iters' =>
      bind (lloydStep vectors k centroids) (fun '(newCentroids, maxChange) =>
      if maxChange <? 1e-4 then Ok newCentroids
      else lloyd iters' vectors k newCentroids)
  end.

Definition kMeans (cfg : Config) (vectors : list Vector) (k : nat) (w : World)
  : Result (list (option Vector)) * World :=
  if (length vectors <=? k)%nat then (Ok (map Some vectors), w)
  else
    match initializeCentroidsKMeansPlusPlus vectors k w with
    | (Throw e, w) => (Throw e, w)
    | (Ok centroids, w) => (lloyd (maxIter cfg) vectors k centroids, w)
    end.

(** [this.clusters.get(clusterIdx)!.push(id)]. *)
Fixpoint pushTo (clusters : list (nat * list string)) (clusterIdx : nat)
    (id : string) : Result (list (nat * list string)) :=
  match clusters with
  | [] => Throw TypeError
  | (i, ids) :: clusters' =>
      if (i =? clusterIdx)%nat then Ok ((i, ids ++ [id]) :: clusters')
      else bind (pushTo clusters' clusterIdx id)
                (fun clusters'' => Ok ((i, ids) :: clusters''))
  end.

(** The loop over [this.vectors.entries()] that fills the posting lists;
    when an iteration throws, the lists filled so far stay. *)
Fixpoint assign (centroids : list (option Vector))
    (entries : list (string * Vector)) (clusters : list (nat * list string))
  : Result unit * list (nat * list string) :=
  match entries with
  | [] => (Ok tt, clusters)
  | (id, vector) :: entries' =>
      match findNearestCentroidFrom vector centroids with
      | Throw e => (Throw e, clusters)
      | Ok clusterIdx =>
          match pushTo clusters clusterIdx id with
          | Throw e => (Throw e, clusters)
          | Ok clusters' => assign centroids entries' clusters'
          end
      end
  end.

Definition build (this : IVFIndex) (vectors_arg : option (list (string * Vector)))
    (w : World) : Result unit * IVFIndex * World :=
  let this :=
    match vectors_arg with
    | Some vs =>
        {| config := config this; centroids := centroids this;
           clusters := clusters this; vectors := vs; built := built this |}
    | None => this
    end in
  if (length (vectors this) =? 0)%nat then (Ok tt, this, w)
  else
    let vectorArray := map snd (vectors this) in
    let k := Nat.min (nClusters (config this)) (length vectorArray) in
    match kMeans (config this) vectorArray k w with
    | (Throw e, w) => (Throw e, this, w)
    | (Ok cs, w) =>
        let cleared := map (fun i => (i, @nil string)) (seq 0 k) in
        let '(r, filled) := assign cs (vectors this) cleared in
        match r with
        | Throw e =>
            (Throw e,
             {| config := config this; centroids := cs; clusters := filled;
                vectors := vectors this; built := built this |}, w)
        | Ok _ =>
            (Ok tt,
             {| config := config this; centroids := cs; clusters := filled;
                vectors := vectors this; built := true |}, w)
        end
    end.

Record SearchResult : Type := {
  result_id : string;
  distance : float;
  similarity : float
}.

Definition cosineSimilarity (a b : Vector) : Result float :=
  Embedding.cosineSimilarity a b.

Definition byDistance (x y : SearchResult) : float := distance x - distance y.

Definition exactSearch (this : IVFIndex) (query : Vector) (k : Z)
  : Result (list SearchResult) :=
  bind (mapResult
          (fun entry : string * Vector =>
             let '(id, vector) := entry in
             bind (cosineSimilarity query vector) (fun similarity =>
             Ok {| result_id := id;
                   distance := 1 - similarity;
                   similarity := similarity |}))
          (vectors this))
       (fun results => Ok (Array_slice0 (Array_sort byDistance results) k)).

Definition findNearestCentroids (this : IVFIndex) (query : Vector)
    (nProbe0 : nat) : Result (list nat) :=
  bind (mapResult
          (fun entry : nat * option Vector =>
             let '(idx, centroid) := entry in
             bind (euclideanDistance (Some query) centroid) (fun dist =>
             Ok (idx, dist)))
          (combine (seq 0 (length (centroids this))) (centroids this)))
       (fun distances =>
  Ok (map fst
        (firstn nProbe0
           (Array_sort (fun x y : nat * float => snd x - snd y) distances)))).

(** [this.clusters.get(clusterIdx)]. *)
Fixpoint clusterGet (clusters : list (nat * list string)) (clusterIdx : nat)
  : option (list string) :=
  match clusters with
  | [] => None
  | (i, ids) :: clusters' =>
      if (i =? clusterIdx)%nat then Some ids else clusterGet clusters' clusterIdx
  end.

Definition search (this : IVFIndex) (query : Vector) (k : Z)
  : Result (list SearchResult) :=
  if (size this =? 0)%nat then Ok []
  else if negb (built this) || (length (centroids this) =? 0)%nat
  then exactSearch this query k
  else
    bind (findNearestCentroids this query (nProbe (config this)))
         (fun nearestCentroids =>
    bind (mapResult
            (fun clusterIdx =>
               let vectorIds :=
                 match clusterGet (clusters this) clusterIdx with
                 | Some ids => ids
                 | None => []
                 end in
               mapResult
                 (fun id =>
                    match Map_get (vectors this) id with
                    | None => Throw TypeError
                    | Some vector =>
                        bind (cosineSimilarity query vector) (fun similarity =>
                        Ok {| result_id := id;
                              distance := 1 - similarity;
                              similarity := similarity |})
                    end)
                 vectorIds)
            nearestCentroids)
         (fun groups =>
    Ok (Array_slice0 (Array_sort byDistance (concat groups)) k))).

(** A call made on the index, and a sequence of calls; the outcome of
    every call is recorded. *)
Inductive Call : Type :=
| CallAdd (id : string) (vector : Vector)
| CallBuild (vectors_arg : option (list (string * Vector))).

Fixpoint run (this : IVFIndex) (calls : list Call) (w : World)
  : list (Result unit) * IVFIndex * World :=
  match calls with
  | [] => ([], this, w)
  | CallAdd id vector :: calls' =>
      let '(rs, this', w') := run (add this id vector) calls' w in
      (Ok tt :: rs, this', w')
  | CallBuild vectors_arg :: calls' =>
      let '(r, this1, w1) := build this vectors_arg w in
      let '(rs, this', w') := run this1 calls' w1 in
      (r :: rs, this', w')
  end.

(** What the claims ask of a built index. *)
Definition Consistent (this : IVFIndex) : Prop :=
  built this = true ->
  NoDup (postings this)
  /\ (forall id, In id (postings this) <-> In id (Map_keys (vectors this)))
  /\ length (postings this) = size this
  /\ length (centroids this) = length (clusters this).

End IVF.

(* ================================================================== *)
(** * HNSW index                                                        *)
(* ================================================================== *)

Module HNSW.

Definition Vector : Type := list float.

Record HNSWConfig : Type := {
  cfg_M : option nat;
  cfg_efConstruction : option nat;
  cfg_efSearch : option nat
}.

Record Config : Type := {
  M : nat;
  efConstruction : nat;
  efSearch : nat
}.

Record SearchResult : Type := {
  result_id : string;
  distance : float;
  similarity : float
}.

Record HNSWNode : Type := {
  id : string;
  vector : Vector;
  level : nat;
  connections : list (list string)
}.

(** The node map holds the node objects; the arrays of nodes that the
    source passes around are arrays of references into it and are modelled
    by the nodes' ids. *)
Record HNSWIndex : Type := {
  config : Config;
  nodes : list (string * HNSWNode);
  entryPoint : option string
}.

Definition new (c : HNSWConfig) : HNSWIndex :=
  {| config := {| M := IVF.orDefault (cfg_M c) 16;
                  efConstruction := IVF.orDefault (cfg_efConstruction c) 200;
                  efSearch := IVF.orDefault (cfg_efSearch c) 50 |};
     nodes := [];
     entryPoint := None |}.

Definition size (this : HNSWIndex) : nat := length (nodes this).

(** [selectLevel()] is [Math.floor(-Math.log(Math.random()) * mL)] with
    [mL = 1 / Math.log(M)]: a natural number, or [Infinity] when [M] is 1
    or [Math.random()] returns 0.  The outcomes of the successive calls are
    taken as given; [None] is [Infinity]. *)
Record Levels : Type := {
  level_at : nat -> option nat;
  levels_drawn : nat
}.

Definition selectLevel (w : Levels) : option nat * Levels :=
  (level_at w (levels_drawn w),
   {| level_at := level_at w; levels_drawn := S (levels_drawn w) |}).

Definition cosineSimilarity (a b : Vector) : Result float :=
  Embedding.cosineSimilarity a b.

Definition distanceBetween (a b : Vector) : Result float :=
  bind (cosineSimilarity a b) (fun c => Ok (1 - c)).

(** [this.nodes.get(id)!] followed by a property read. *)
Definition getNode (this : HNSWIndex) (nodeId : string) : Result HNSWNode :=
  match Map_get (nodes this) nodeId with
  | Some n => Ok n
  | None => Throw TypeError
  end.

Definition byDist (x y : string * float) : float := snd x - snd y.

(** [results[results.length - 1].dist]. *)
Definition worstDist (results : list (string * float)) : Result float :=
  match last (map Some results) None with
  | Some r => Ok (snd r)
  | None => Throw TypeError
  end.

(** The loop over the neighbours of the current node in [searchLayer];
    the state is the visited set, the frontier and the result list. *)
Definition SearchState : Type :=
  (list string * list (string * float) * list (string * float))%type.

Definition visit (this : HNSWIndex) (query : Vector) (ef : nat)
    (st : SearchState) (neighborId : string) : Result SearchState :=
  let '(visited, candidates, results) := st in
  if Set_has visited neighborId then Ok st
  else
    let visited := visited ++ [neighborId] in
    bind (getNode this neighborId) (fun neighbor =>
    bind (distanceBetween query (vector neighbor)) (fun dist =>
    bind (if (length results <? ef)%nat then Ok true
          else bind (worstDist results) (fun worst => Ok (dist <? worst)))
         (fun better =>
    if better : bool then
      let candidates := Array_sort byDist (candidates ++ [(neighborId, dist)]) in
      let results := Array_sort byDist (results ++ [(neighborId, dist)]) in
      let results :=
        if (ef <? length results)%nat then removelast results else results in
      Ok (visited, candidates, results)
    else Ok (visited, candidates, results)))).

Fixpoint visitAll (this : HNSWIndex) (query : Vector) (ef : nat)
    (neighbors : list string) (st : SearchState) : Result SearchState :=
  match neighbors with
  | [] => Ok st
  | neighborId :: neighbors' =>
      bind (visit this query ef st neighborId)
           (visitAll this query ef neighbors')
  end.

(** The [while (candidates.length > 0)] loop, unrolled at most [fuel]
    times; [searchLayer] passes a bound that the loop cannot reach. *)
Fixpoint searchLoop (fuel : nat) (this : HNSWIndex) (query : Vector)
    (layer ef : nat) (st : SearchState) : Result (list (string * float)) :=
  let '(visited, candidates, results) := st in
  match candidates with
  | [] => Ok results
  | current :: candidates =>
      bind (if (ef <=? length results)%nat
            then bind (worstDist results)
                      (fun worst => Ok (gtb (snd current) worst))
            else Ok false)
           (fun stop =>
      if stop : bool then Ok results
      else
        match fuel with
        | O => Throw Exhausted
        | S fuel' =>
            bind (getNode this (fst current)) (fun node =>
            let neighbors := nth layer (connections node) [] in
            bind (visitAll this query ef neighbors
                    (visited, candidates, results))
                 (searchLoop fuel' this query layer ef))
        end)
  end.

Definition searchLayer (this : HNSWIndex) (query : Vector)
    (entryPoints : list string) (layer ef : nat) : Result (list string) :=
  bind (mapResult
          (fun ep =>
             bind (getNode this ep) (fun node =>
             bind (distanceBetween query (vector node)) (fun dist =>
             Ok (ep, dist))))
          entryPoints)
       (fun initial =>
  let visited := map fst initial in
  let candidates := Array_sort byDist initial in
  let results := Array_sort byDist initial in
  bind (searchLoop (length initial + length (nodes this)) this query layer ef
          (visited, candidates, results))
       (fun results => Ok (map fst results))).

Definition exactSearch (this : HNSWIndex) (query : Vector) (k : Z)
  : Result (list SearchResult) :=
  bind (mapResult
          (fun entry : string * HNSWNode =>
             bind (cosineSimilarity query (vector (snd entry)))
                  (fun similarity =>
             Ok {| result_id := id (snd entry);
                   distance := 1 - similarity;
                   similarity := similarity |}))
          (nodes this))
       (fun results =>
  Ok (Array_slice0
        (Array_sort (fun x y => distance x - distance y) results) k)).

Definition selectNeighbors (this : HNSWIndex) (vector0 : Vector)
    (candidates : list string) (M0 : nat) : Result (list string) :=
  if (length candidates <=? M0)%nat then Ok candidates
  else
    bind (mapResult
            (fun c =>
               bind (getNode this c) (fun node =>
               bind (distanceBetween vector0 (vector node)) (fun dist =>
               Ok (c, dist))))
            candidates)
         (fun sorted => Ok (map fst (firstn M0 (Array_sort byDist sorted)))).

Definition pruneConnections (this : HNSWIndex) (node : HNSWNode)
    (layer M0 : nat) : Result (list string) :=
  let connections0 := nth layer (connections node) [] in
  if (length connections0 <=? M0)%nat then Ok connections0
  else
    bind (mapResult
            (fun nid =>
               bind (getNode this nid) (fun neighbor =>
               bind (distanceBetween (vector node) (vector neighbor))
                    (fun dist => Ok (nid, dist))))
            connections0)
         (fun sorted => Ok (map fst (firstn M0 (Array_sort byDist sorted)))).

(** A write to [node.connections[layer]]: [None] when the node has no
    such layer. *)
Definition setConnections (node : HNSWNode) (layer : nat)
    (conns : list string) : option HNSWNode :=
  if (layer <? length (connections node))%nat
  then Some {| id := id node; vector := vector node; level := level node;
               connections := Array_set (connections node) layer conns |}
  else None.

Definition putNode (this : HNSWIndex) (node : HNSWNode) : HNSWIndex :=
  {| config := config this;
     nodes := Map_set (nodes this) (id node) node;
     entryPoint := entryPoint this |}.

(** [nodes.get(nodeId).connections[layer].push(x)]. *)
Definition pushConnection (this : HNSWIndex) (nodeId : string) (layer : nat)
    (x : string) : Result HNSWIndex :=
  bind (getNode this nodeId) (fun node =>
  match setConnections node layer (nth layer (connections node) [] ++ [x]) with
  | Some node' =>
      Ok {| config := config this;
            nodes := Map_set (nodes this) nodeId node';
            entryPoint := entryPoint this |}
  | None => Throw TypeError
  end).

(** One iteration of [for (const neighbor of neighbors)] at layer [lc].
    The state is returned on both outcomes: what was written before a
    throw stays written. *)
Definition connect (this : HNSWIndex) (newId : string) (lc M0 : nat)
    (neighborId : string) : Result unit * HNSWIndex :=
  match pushConnection this newId lc neighborId with
  | Throw e => (Throw e, this)
  | Ok this1 =>
      match pushConnection this1 neighborId lc newId with
      | Throw e => (Throw e, this1)
      | Ok this2 =>
          match getNode this2 neighborId with
          | Throw e => (Throw e, this2)
          | Ok neighborNode =>
              if (M0 <? length (nth lc (connections neighborNode) []))%nat
              then
                match pruneConnections this2 neighborNode lc M0 with
                | Throw e => (Throw e, this2)
                | Ok pruned =>
                    match setConnections neighborNode lc pruned with
                    | Some n' =>
                        (Ok tt,
                         {| config := config this2;
                            nodes := Map_set (nodes this2) neighborId n';
                            entryPoint := entryPoint this2 |})
                    | None => (Throw TypeError, this2)
                    end
                end
              else (Ok tt, this2)
          end
      end
  end.

Fixpoint connectAll (this : HNSWIndex) (newId : string) (lc M0 : nat)
    (neighbors : list string) : Result unit * HNSWIndex :=
  match neighbors with
  | [] => (Ok tt, this)
  | neighborId :: neighbors' =>
      match connect this newId lc M0 neighborId with
      | (Throw e, this') => (Throw e, this')
      | (Ok _, this') => connectAll this' newId lc M0 neighbors'
      end
  end.

(** [for (let lc = entryNode.level; lc > level; lc--)]: the layers
    [level + steps], ..., [level + 1]. *)
Fixpoint descend (steps : nat) (this : HNSWIndex) (query : Vector)
    (level0 : nat) (nearest : list string) : Result (list string) :=
  match steps with
  | O => Ok nearest
  | S steps' =>
      bind (searchLayer this query nearest (level0 + steps) 1)
           (descend steps' this query level0)
  end.

(** [for (let lc = level; lc >= 0; lc--)]: the layers [layers - 1], ..., 0. *)
Fixpoint insertLayers (layers : nat) (this : HNSWIndex) (newId : string)
    (vector0 : Vector) (nearest : list string) : Result unit * HNSWIndex :=
  match layers with
  | O => (Ok tt, this)
  | S lc =>
      match searchLayer this vector0 nearest lc
              (efConstruction (config this)) with
      | Throw e => (Throw e, this)
      | Ok candidates =>
          let M0 := if (lc =? 0)%nat then (M (config this) * 2)%nat
                    else M (config this) in
          match selectNeighbors this vector0 candidates M0 with
          | Throw e => (Throw e, this)
          | Ok neighbors =>
              match connectAll this newId lc M0 neighbors with
              | (Throw e, this') => (Throw e, this')
              | (Ok _, this') =>
                  insertLayers lc this' newId vector0 candidates
              end
          end
      end
  end.

Definition insert (this : HNSWIndex) (newId : string) (vector0 : Vector)
    (w : Levels) : Result unit * HNSWIndex * Levels :=
  let '(drawn, w) := selectLevel w in
  match drawn with
  | None => (Throw RangeError, this, w)
  | Some level0 =>
      let node := {| id := newId; vector := vector0; level := level0;
                     connections := repeat [] (level0 + 1) |} in
      let this := putNode this node in
      match entryPoint this with
      | None =>
          (Ok tt,
           {| config := config this; nodes := nodes this;
              entryPoint := Some newId |}, w)
      | Some ep =>
          match getNode this ep with
          | Throw e => (Throw e, this, w)
          | Ok entryNode =>
              match descend (level entryNode - level0) this vector0 level0
                      [ep] with
              | Throw e => (Throw e, this, w)
              | Ok nearest =>
                  match insertLayers (level0 + 1) this newId vector0 nearest
                  with
                  | (Throw e, this') => (Throw e, this', w)
                  | (Ok _, this') =>
                      (Ok tt,
                       if (level entryNode <? level0)%nat
                       then {| config := config this'; nodes := nodes this';
                               entryPoint := Some newId |}
                       else this', w)
                  end
              end
          end
      end
  end.

Definition search (this : HNSWIndex) (query : Vector) (k : Z)
  : Result (list SearchResult) :=
  if (length (nodes this) =? 0)%nat then Ok []
  else
    match entryPoint this with
    | None => exactSearch this query k
    | Some ep =>
        if (length (nodes this) =? 1)%nat then exactSearch this query k
        else
          bind (getNode this ep) (fun entryNode =>
          bind (descend (level entryNode) this query 0 [ep]) (fun nearest =>
          let ef := Nat.max (efSearch (config this)) (Z.to_nat k) in
          bind (searchLayer this query nearest 0 ef) (fun nearest =>
          mapResult
            (fun nid =>
               bind (getNode this nid) (fun node =>
               bind (distanceBetween query (vector node)) (fun d =>
               bind (cosineSimilarity query (vector node)) (fun s =>
               Ok {| result_id := id node; distance := d;
                     similarity := s |}))))
            (Array_slice0 nearest k))))
    end.

(** A call [insert(id, vector)] and a sequence of such calls.  A call that
    throws leaves the index as it was at the throw, and the caller goes
    on; the outcome of every call is recorded. *)
Fixpoint insertAll (this : HNSWIndex) (calls : list (string * Vector))
    (w : Levels) : list (Result unit) * HNSWIndex * Levels :=
  match calls with
  | [] => ([], this, w)
  | (newId, vector0) :: calls' =>
      let '(r, this, w) := insert this newId vector0 w in
      let '(rs, this, w) := insertAll this calls' w in
      (r :: rs, this, w)
  end.

(** ** The graph as the claims see it *)

(** The layer-[l] neighbour list of the node [u] ([] when there is no
    such node or layer). *)
Definition neighborsAt (this : HNSWIndex) (u : string) (l : nat)
  : list string :=
  match Map_get (nodes this) u with
  | Some n => nth l (connections n) []
  | None => []
  end.

(** The cap of a layer: [2M] at layer 0, [M] above. *)
Definition layerCap (this : HNSWIndex) (l : nat) : nat :=
  if (l =? 0)%nat then (M (config this) * 2)%nat else M (config this).

(** The invariant that holds between two [insert] calls. *)
Record Inv (this : HNSWIndex) : Prop := {
  inv_cap : forall u l,
    (length (neighborsAt this u l) <= layerCap this l)%nat;
  inv_edges : forall u v l,
    In v (neighborsAt this u l) ->
    In u (neighborsAt this v l)
    \/ length (neighborsAt this v l) = layerCap this l;
  inv_closed : forall u v l,
    In v (neighborsAt this u l) -> Map_has (nodes this) v = true;
  inv_entry : forall ep,
    entryPoint this = Some ep -> Map_has (nodes this) ep = true
}.

(** The invariant while the new node [newId] is being connected at layer
    [lc]: its own layer-[lc] list is still growing, every edge into it at
    that layer has its reverse edge, and no lower layer mentions it. *)
Record Mid (this : HNSWIndex) (newId : string) (lc : nat) : Prop := {
  mid_cap : forall u l,
    u <> newId \/ l <> lc ->
    (length (neighborsAt this u l) <= layerCap this l)%nat;
  mid_edges : forall u v l,
    In v (neighborsAt this u l) ->
    v <> newId \/ l <> lc ->
    In u (neighborsAt this v l)
    \/ length (neighborsAt this v l) = layerCap this l;
  mid_new : forall u,
    In newId (neighborsAt this u lc) -> In u (neighborsAt this newId lc);
  mid_closed : forall u v l,
    In v (neighborsAt this u l) -> Map_has (nodes this) v = true;
  mid_entry : forall ep,
    entryPoint this = Some ep -> Map_has (nodes this) ep = true;
  mid_below : forall u l,
    (l < lc)%nat -> ~ In newId (neighborsAt this u l);
  mid_new_below : forall l,
    (l < lc)%nat -> neighborsAt this newId l = []
}.

(** The invariant between two layers of one [insert]: the layers below
    [layers] do not mention the new node yet. *)
Record Between (this : HNSWIndex) (newId : string) (layers : nat) : Prop := {
  btw_inv : Inv this;
  btw_below : forall u l,
    (l < layers)%nat -> ~ In newId (neighborsAt this u l);
  btw_new_below : forall l,
    (l < layers)%nat -> neighborsAt this newId l = []
}.

(** What a write to one neighbour list changes. *)
Definition writes (this this' : HNSWIndex) (n : string) (l : nat)
    (c : list string) : Prop :=
  (forall u l', neighborsAt this' u l'
                = if String.eqb n u && (l' =? l)%nat then c
                  else neighborsAt this u l')
  /\ (forall k, Map_has (nodes this') k = Map_has (nodes this) k)
  /\ config this' = config this
  /\ entryPoint this' = entryPoint this.

(** What no step of an insertion changes after the node is stored. *)
Definition sameFrame (this this' : HNSWIndex) : Prop :=
  config this' = config this
  /\ entryPoint this' = entryPoint this
  /\ forall k, Map_has (nodes this') k = Map_has (nodes this) k.

(** The measure of the loop: the frontier plus the nodes not yet visited. *)
Definition unvisited (this : HNSWIndex) (visited : list string) : nat :=
  length (filter (fun k => negb (Set_has visited k)) (Map_keys (nodes this))).

Definition measure (this : HNSWIndex) (st : SearchState) : nat :=
  (length (snd (fst st)) + unvisited this (fst (fst st)))%nat.

(** The id, the level and the number of layers of the node stored under
    [k], and what the steps of an insertion keep of the index: these, the
    configuration and the entry point. *)
Definition shapeAt (this : HNSWIndex) (k : string)
  : option (string * nat * nat) :=
  match Map_get (nodes this) k with
  | Some n => Some (id n, level n, length (connections n))
  | None => None
  end.

Definition sameShape (this this' : HNSWIndex) : Prop :=
  config this' = config this
  /\ entryPoint this' = entryPoint this
  /\ Map_keys (nodes this') = Map_keys (nodes this)
  /\ forall k, shapeAt this' k = shapeAt this k.

(** Every node is stored under its id, has the layers 0 to its level, and
    is not above the entry node. *)
Record Levelled (this : HNSWIndex) : Prop := {
  lev_shape : forall k n,
    Map_get (nodes this) k = Some n ->
    id n = k /\ length (connections n) = (level n + 1)%nat;
  lev_entry : forall ep,
    entryPoint this = Some ep ->
    exists entryNode,
      Map_get (nodes this) ep = Some entryNode
      /\ forall k n, Map_get (nodes this) k = Some n ->
                     (level n <= level entryNode)%nat;
  lev_empty : entryPoint this = None -> nodes this = []
}.

End HNSW.

(* ================================================================== *)
(** * Trajectory matcher                                                *)
(* ================================================================== *)

Module Matcher.

Record Evidence : Type := {
  ev_id : string;
  score : float;
  content : string;
  meta_action : option string;
  meta_status : option string;
  meta_quality : option float;
  meta_when : option string
}.

Inductive Method : Type :=
| trajectory_matching
| synthesis
| fallback
| low_confidence.

Record MatcherConfig : Type := {
  cfg_minTopK : option Z;
  cfg_minScore : option float;
  cfg_minConfidence : option float;
  cfg_embeddingDim : option nat;
  cfg_defaultTopK : option Z
}.

Record Config : Type := {
  minTopK : Z;
  minScore : float;
  minConfidence : float;
  embeddingDim : nat;
  defaultTopK : Z
}.

(** [x ?? d]. *)
Definition orElse {A : Type} (x : option A) (d : A) : A :=
  match x with Some v => v | None => d end.

(** A span, with the properties the matcher reads. *)
Record Span : Type := {
  span_id : string;
  who : option string;
  did : option string;
  this : option string;
  if_ok : option string;
  if_not : option string;
  environment : option string;
  status : option string;
  when : option string;
  total_score : option float
}.

Record Context : Type := {
  ctx_environment : option string;
  stakes : option string;
  previous_actions : option (list string)
}.

(** [s] when the property is truthy. *)
Definition pushIf (o : option string) : list string :=
  match o with
  | Some s => if truthy o then [s] else []
  | None => []
  end.

Definition spanToText (span : Span) : string :=
  join_space (pushIf (who span) ++ pushIf (did span) ++ pushIf (this span)
              ++ pushIf (if_ok span) ++ pushIf (environment span)).

Definition contextToText (context : Context) (action : string) : string :=
  join_space ([action] ++ pushIf (ctx_environment context)
              ++ pushIf (stakes context)
              ++ match previous_actions context with
                 | Some l => [join_space l]
                 | None => []
                 end).

(** [confidence.toFixed(0)] for a number of [0, 100], the range of the
    confidence; NaN prints as "NaN". *)
Definition toFixed0 (x : float) : string :=
  match Prim2SF x with
  | S754_nan => "NaN"
  | S754_infinity s => if s then "-Infinity" else "Infinity"
  | S754_zero _ => "0"
  | S754_finite s m e =>
      let n := match e with
               | Zneg k => ((2 * Zpos m + 2 ^ Zpos k) / 2 ^ (Zpos k + 1))%Z
               | _ => (Zpos m * 2 ^ e)%Z
               end in
      ((if s && negb (n =? 0)%Z then "-" else "")
       ++ DecimalString.NilZero.string_of_uint (N.to_uint (Z.to_N n)))%string
  end.

Section Collaborators.

(** The temporal and the quality index are not part of the sources at
    hand; the matcher is parametric in them. *)
Variables TemporalIndex QualityIndex TimeRange : Type.
Variable temporal_add : TemporalIndex -> string -> string -> TemporalIndex.
Variable temporal_findInRange : TemporalIndex -> TimeRange -> list string.
Variable quality_add : QualityIndex -> string -> float -> QualityIndex.
Variable quality_findAbove : QualityIndex -> Z -> list string.
Variable Math_exp : float -> float.

Record SearchPlan : Type := {
  topK : Z;
  minQuality : Z;
  timeRange : option TimeRange;
  filters : option (list (string * string))
}.

Record Prediction : Type := {
  output : string;
  confidence : float;
  trajectories_used : nat;
  method : Method;
  evidence : option (list Evidence);
  plan : option SearchPlan
}.

Record TrajectoryMatcher : Type := {
  config : Config;
  vectorIndex : option HNSW.HNSWIndex;
  invertedIndex : option Inverted.InvertedIndex;
  temporalIndex : option TemporalIndex;
  qualityIndex : option QualityIndex;
  spans : list (string * Span)
}.

Definition new (c : MatcherConfig) : TrajectoryMatcher :=
  {| config := {| minTopK := orElse (cfg_minTopK c) 3%Z;
                  minScore := orElse (cfg_minScore c) 0.3;
                  minConfidence := orElse (cfg_minConfidence c) 20;
                  embeddingDim := orElse (cfg_embeddingDim c) 384%nat;
                  defaultTopK := orElse (cfg_defaultTopK c) 10%Z |};
     vectorIndex := None;
     invertedIndex := None;
     temporalIndex := None;
     qualityIndex := None;
     spans := [] |}.

Definition setIndices (m : TrajectoryMatcher)
    (vector : option HNSW.HNSWIndex) (inverted : option Inverted.InvertedIndex)
    (temporal : option TemporalIndex) (quality : option QualityIndex)
  : TrajectoryMatcher :=
  {| config := config m;
     vectorIndex := vector;
     invertedIndex := inverted;
     temporalIndex := temporal;
     qualityIndex := quality;
     spans := spans m |}.

Definition addSpan (m : TrajectoryMatcher) (span : Span) (w : HNSW.Levels)
  : Result unit * TrajectoryMatcher * HNSW.Levels :=
  let spans1 := Map_set (spans m) (span_id span) span in
  let '(r, vector1, w) :=
    match vectorIndex m with
    | Some index =>
        let spanText := spanToText span in
        let embedding := Embedding.embedText spanText (embeddingDim (config m)) in
        let '(r, index, w) := HNSW.insert index (span_id span) embedding w in
        (r, Some index, w)
    | None => (Ok tt, None, w)
    end in
  match r with
  | Throw e =>
      (Throw e,
       {| config := config m; vectorIndex := vector1;
          invertedIndex := invertedIndex m; temporalIndex := temporalIndex m;
          qualityIndex := qualityIndex m; spans := spans1 |}, w)
  | Ok _ =>
      let inverted1 :=
        match invertedIndex m, did span with
        | Some idx, Some d =>
            if truthy (did span)
            then Some (Inverted.add idx (span_id span) "action" d)
            else Some idx
        | i, _ => i
        end in
      let inverted2 :=
        match inverted1, environment span with
        | Some idx, Some env =>
            if truthy (environment span)
            then Some (Inverted.add idx (span_id span) "domain" env)
            else Some idx
        | i, _ => i
        end in
      let temporal1 :=
        match temporalIndex m, when span with
        | Some t, Some d =>
            if truthy (when span) then Some (temporal_add t (span_id span) d)
            else Some t
        | t, _ => t
        end in
      let quality1 :=
        match qualityIndex m, total_score span with
        | Some q, Some s => Some (quality_add q (span_id span) s)
        | q, _ => q
        end in
      (Ok tt,
       {| config := config m; vectorIndex := vector1;
          invertedIndex := inverted2; temporalIndex := temporal1;
          qualityIndex := quality1; spans := spans1 |}, w)
  end.

Definition byScoreDesc (x y : Evidence) : float := score y - score x.

Definition findMostCommonOutcome (outcomes : list string) : string :=
  match outcomes with
  | [] => ""
  | first :: _ =>
      let counts :=
        fold_left
          (fun counts outcome =>
             Map_set counts outcome
               (match Map_get counts outcome with Some n => n | None => O end
                + 1)%nat)
          outcomes [] in
      snd (fold_left
             (fun (best : nat * string) (entry : string * nat) =>
                if (fst best <? snd entry)%nat then (snd entry, fst entry)
                else best)
             counts (O, first))
  end.

Definition synthesize (evidence : list Evidence) : string :=
  match Array_sort byScoreDesc evidence with
  | [] => "Unable to generate prediction from available data."
  | (top :: _) as sorted =>
      if gtb (score top) 0.8 then content top
      else if (3 <=? length sorted)%nat
           then findMostCommonOutcome (map content (firstn 5 sorted))
           else content top
  end.

Definition calculateConfidence (evidence : list Evidence)
    (totalCandidates : nat) : float :=
  if (length evidence =? 0)%nat then 0
  else
    let n := Num (length evidence) in
    let avgScore := fold_left (fun sum e => sum + score e) evidence 0 / n in
    let countFactor := Math_min (n / 5) 1.0 in
    let variance :=
      fold_left
        (fun sum e => let diff := score e - avgScore in sum + diff * diff)
        evidence 0 / n in
    let varianceFactor := Math_exp (- variance * 5) in
    let rawConfidence :=
      avgScore * 0.6 + countFactor * 0.2 + varianceFactor * 0.2 in
    Math_max 0 (Math_min 100 (rawConfidence * 100)).

(** The evidence loop of [predict] over the first [topK] candidates. *)
Fixpoint collectEvidence (m : TrajectoryMatcher) (queryEmbedding : list float)
    (ids : list string) : Result (list Evidence) :=
  match ids with
  | [] => Ok []
  | candidate :: ids' =>
      match Map_get (spans m) candidate with
      | None => collectEvidence m queryEmbedding ids'
      | Some span =>
          let spanText := spanToText span in
          let spanEmbedding :=
            Embedding.embedText spanText (embeddingDim (config m)) in
          bind (Embedding.cosineSimilarity queryEmbedding spanEmbedding)
               (fun score0 =>
          bind (collectEvidence m queryEmbedding ids') (fun rest =>
          if score0 <? minScore (config m) then Ok rest
          else
            Ok ({| ev_id := span_id span;
                   score := score0;
                   content :=
                     if truthy (if_ok span) then orElse (if_ok span) EmptyString
                     else if truthy (if_not span) then orElse (if_not span) EmptyString
                     else spanText;
                   meta_action := did span;
                   meta_status := status span;
                   meta_quality := total_score span;
                   meta_when := when span |} :: rest)))
      end
  end.

(** Steps 2 to 5 of [predict]: the candidate ids after the vector search
    and the inverted, temporal and quality filters. *)
Definition findCandidates (m : TrajectoryMatcher) (queryEmbedding : list float)
    (action : string) (searchPlan : SearchPlan) : Result (list string) :=
  bind (match vectorIndex m with
        | Some index =>
            if (0 <? HNSW.size index)%nat then
              bind (HNSW.search index queryEmbedding (topK searchPlan * 3))
                   (fun searchResults =>
                      Ok (map HNSW.result_id searchResults))
            else Ok (Map_keys (spans m))
        | None => Ok (Map_keys (spans m))
        end)
       (fun candidateIds =>
  let candidateIds :=
    match invertedIndex m with
    | Some idx =>
        if negb (String.eqb action "")
        then Inverted.filterByAction idx (Some candidateIds) action true
        else candidateIds
    | None => candidateIds
    end in
  let candidateIds :=
    match temporalIndex m, timeRange searchPlan with
    | Some t, Some range =>
        filter (Set_has (temporal_findInRange t range)) candidateIds
    | _, _ => candidateIds
    end in
  let candidateIds :=
    match qualityIndex m with
    | Some q =>
        if negb (minQuality searchPlan =? 0)%Z
        then filter (Set_has (quality_findAbove q (minQuality searchPlan)))
                    candidateIds
        else candidateIds
    | None => candidateIds
    end in
  Ok candidateIds).

Definition predict (m : TrajectoryMatcher) (context : Context)
    (action : string) (plan0 : option SearchPlan) : Result Prediction :=
  let searchPlan :=
    match plan0 with
    | Some p => p
    | None => {| topK := defaultTopK (config m); minQuality := 60%Z;
                 timeRange := None; filters := None |}
    end in
  if (topK searchPlan <? minTopK (config m))%Z then
    Ok {| output :=
            "Insufficient search parameters. Please request more results.";
          confidence := 10;
          trajectories_used := 0%nat;
          method := low_confidence;
          evidence := None;
          plan := Some searchPlan |}
  else
    let queryText := contextToText context action in
    let queryEmbedding :=
      Embedding.embedText queryText (embeddingDim (config m)) in
    bind (findCandidates m queryEmbedding action searchPlan)
         (fun candidateIds =>
    if (length candidateIds =? 0)%nat then
      Ok {| output :=
              "No matching trajectories found. Please try a different query or relax filters.";
            confidence := 5;
            trajectories_used := 0%nat;
            method := low_confidence;
            evidence := None;
            plan := Some searchPlan |}
    else
      bind (collectEvidence m queryEmbedding
              (Array_slice0 candidateIds (topK searchPlan)))
           (fun evidence0 =>
      if (length evidence0 =? 0)%nat then
        Ok {| output :=
                "Found trajectories but confidence too low. Unable to provide reliable prediction.";
              confidence := 15;
              trajectories_used := length candidateIds;
              method := low_confidence;
              evidence := Some [];
              plan := Some searchPlan |}
      else
        let output0 := synthesize evidence0 in
        let confidence0 :=
          calculateConfidence evidence0 (length candidateIds) in
        if confidence0 <? minConfidence (config m) then
          Ok {| output :=
                  ("Low confidence (" ++ toFixed0 confidence0
                   ++ "%). Suggested answer: " ++ output0)%string;
                confidence := confidence0;
                trajectories_used := length evidence0;
                method := low_confidence;
                evidence := Some evidence0;
                plan := Some searchPlan |}
        else
          Ok {| output := output0;
                confidence := confidence0;
                trajectories_used := length evidence0;
                method := trajectory_matching;
                evidence := Some evidence0;
                plan := Some searchPlan |})).

End Collaborators.

(** Whether the scores of an evidence array are in descending order. *)
Fixpoint sortedByScoreDesc (evidence : list Evidence) : bool :=
  match evidence with
  | [] => true
  | e1 :: rest =>
      match rest with
      | [] => true
      | e2 :: _ => geb (score e1) (score e2) && sortedByScoreDesc rest
      end
  end.

End Matcher.

(* ================================================================== *)
(** * Scenarios                                                         *)
(* ================================================================== *)

(** Concrete runs used by the examples below: a matcher without indices
    and without collaborators, and an index whose level draws are all 0. *)
Module Scenario.

Definition levels0 : HNSW.Levels :=
  {| HNSW.level_at := fun _ => Some 0%nat; HNSW.levels_drawn := 0 |}.

Definition predict :=
  Matcher.predict unit unit unit (fun _ _ => []) (fun _ _ => []) Math_exp_ref.

Definition addSpan (m : Matcher.TrajectoryMatcher unit unit)
    (span : Matcher.Span) : Matcher.TrajectoryMatcher unit unit :=
  snd (fst (Matcher.addSpan unit unit (fun t _ _ => t) (fun q _ _ => q)
              m span levels0)).

Definition defaults : Matcher.MatcherConfig :=
  {| Matcher.cfg_minTopK := None; Matcher.cfg_minScore := None;
     Matcher.cfg_minConfidence := None; Matcher.cfg_embeddingDim := None;
     Matcher.cfg_defaultTopK := None |}.

Definition span (id who did this if_ok : string) : Matcher.Span :=
  {| Matcher.span_id := id; Matcher.who := Some who; Matcher.did := Some did;
     Matcher.this := Some this; Matcher.if_ok := Some if_ok;
     Matcher.if_not := None; Matcher.environment := None;
     Matcher.status := Some "completed"%string; Matcher.when := None;
     Matcher.total_score := None |}.

(** [new TrajectoryMatcher()] followed by two [addSpan] calls. *)
Definition deploy_matcher : Matcher.TrajectoryMatcher unit unit :=
  addSpan
    (addSpan (Matcher.new unit unit defaults)
       (span "span1" "user" "deploy" "database" "done"))
    (span "span2" "user" "deploy" "service" "deployed").

Definition no_context : Matcher.Context :=
  {| Matcher.ctx_environment := None; Matcher.stakes := None;
     Matcher.previous_actions := None |}.

(** [new HNSWIndex({ M: 2 })] and six inserts. *)
Definition hnsw2 : HNSW.HNSWIndex :=
  HNSW.new {| HNSW.cfg_M := Some 2%nat; HNSW.cfg_efConstruction := None;
              HNSW.cfg_efSearch := None |}.

Definition six_inserts : list (string * HNSW.Vector) :=
  [ ("n1"%string, [1; 0]); ("n2"%string, [0.9; 0.1]);
    ("n3"%string, [0.8; 0.2]); ("n4"%string, [0.7; 0.3]);
    ("n5"%string, [0.6; 0.4]); ("n6"%string, [1; 0.01]) ].

End Scenario.

(* ================================================================== *)
(** * Properties                                                        *)
(* ================================================================== *)

(** ** Facts about binary64 rounding *)

Section Rounding.

Lemma shr_1_nonneg (mrs : shr_record) :
  (0 <= shr_m mrs)%Z -> (0 <= shr_m (shr_1 mrs))%Z.
Proof.
  destruct mrs as [m r s]; destruct m as [|p|p]; simpl; try lia;
    destruct p; simpl; lia.
Qed.

Lemma iter_shr_1_nonneg (p : positive) :
  forall mrs, (0 <= shr_m mrs)%Z -> (0 <= shr_m (iter_pos shr_1 p mrs))%Z.
Proof.
  induction p as [p IH|p IH|]; simpl; intros mrs H.
  - apply IH, IH, shr_1_nonneg, H.
  - apply IH, IH, H.
  - apply shr_1_nonneg, H.
Qed.

Lemma shr_fexp_nonneg (m e : Z) (l : location) :
  (0 <= m)%Z -> (0 <= shr_m (fst (shr_fexp prec emax m e l)))%Z.
Proof.
  intro H. unfold shr_fexp, shr.
  assert (H0 : (0 <= shr_m (shr_record_of_loc m l))%Z)
    by (destruct l as [|[]]; simpl; exact H).
  destruct (fexp prec emax (Zdigits2 m + e) - e)%Z; simpl; auto.
  apply iter_shr_1_nonneg, H0.
Qed.

Lemma round_nearest_even_nonneg (m : Z) (l : location) :
  (0 <= m)%Z -> (0 <= round_nearest_even m l)%Z.
Proof.
  intro H. destruct l as [|[]]; simpl; try lia.
  destruct (Z.even m); lia.
Qed.

(** Rounding a non-negative mantissa never produces NaN. *)
Lemma binary_round_aux_not_nan (s : bool) (m e : Z) (l : location) :
  (0 <= m)%Z -> binary_round_aux prec emax s m e l <> S754_nan.
Proof.
  intro H. unfold binary_round_aux.
  pose proof (shr_fexp_nonneg m e l H) as H1.
  destruct (shr_fexp prec emax m e l) as [mrs' e'] eqn:E1. simpl in H1.
  pose proof (shr_fexp_nonneg _ e' loc_Exact
                (round_nearest_even_nonneg _ (loc_of_shr_record mrs') H1)) as H2.
  destruct (shr_fexp prec emax _ e' loc_Exact) as [mrs'' e''] eqn:E2.
  simpl in H2.
  destruct (shr_m mrs'') as [|p|p]; try discriminate; try lia.
  destruct (e'' <=? emax - prec)%Z; discriminate.
Qed.

Lemma binary_normalize_not_nan (m e : Z) (sz : bool) :
  binary_normalize prec emax m e sz <> S754_nan.
Proof.
  destruct m as [|p|p]; simpl; try discriminate;
    unfold binary_round;
    destruct (shl_align _ _ _) as [mz ez];
    apply binary_round_aux_not_nan; lia.
Qed.

Lemma digits2_pos_iter_xO (k m : positive) :
  digits2_pos (Pos.iter xO m k) = (digits2_pos m + k)%positive.
Proof.
  induction k as [|k IH] using Pos.peano_ind.
  - simpl. lia.
  - rewrite Pos.iter_succ. simpl. rewrite IH. lia.
Qed.

Lemma digits2_pos_lower (p : positive) :
  (2 ^ (Zpos (digits2_pos p) - 1) <= Zpos p)%Z.
Proof.
  induction p as [p IH|p IH|]; simpl digits2_pos.
  - rewrite Pos2Z.inj_succ.
    replace (Z.succ (Zpos (digits2_pos p)) - 1)%Z
      with (Z.succ (Zpos (digits2_pos p) - 1))%Z by lia.
    rewrite Z.pow_succ_r by lia. lia.
  - rewrite Pos2Z.inj_succ.
    replace (Z.succ (Zpos (digits2_pos p)) - 1)%Z
      with (Z.succ (Zpos (digits2_pos p) - 1))%Z by lia.
    rewrite Z.pow_succ_r by lia. lia.
  - simpl. lia.
Qed.

Lemma digits2_pos_le_53 (p : positive) :
  (Zpos p < 2 ^ 53)%Z -> (Zpos (digits2_pos p) <= 53)%Z.
Proof.
  intro H. pose proof (digits2_pos_lower p) as L.
  destruct (Z_le_gt_dec (Zpos (digits2_pos p)) 53) as [|G]; [assumption|].
  exfalso.
  assert (2 ^ 53 <= 2 ^ (Zpos (digits2_pos p) - 1))%Z
    by (apply Z.pow_le_mono_r; lia).
  lia.
Qed.

Lemma shr_fexp_canonical (mz : positive) (ez : Z) :
  Zpos (digits2_pos mz) = 53%Z -> (-1074 <= ez <= 0)%Z ->
  shr_fexp prec emax (Zpos mz) ez loc_Exact
  = ({| shr_m := Zpos mz; shr_r := false; shr_s := false |}, ez).
Proof.
  intros Hd He. unfold shr_fexp.
  change (Zdigits2 (Zpos mz)) with (Zpos (digits2_pos mz)). rewrite Hd.
  replace (fexp prec emax (53 + ez) - ez)%Z with 0%Z
    by (unfold fexp, SpecFloat.emin, prec, emax; lia).
  reflexivity.
Qed.

Lemma binary_round_aux_canonical (mz : positive) (ez : Z) :
  Zpos (digits2_pos mz) = 53%Z -> (-1074 <= ez <= 0)%Z ->
  binary_round_aux prec emax false (Zpos mz) ez loc_Exact
  = S754_finite false mz ez
  /\ valid_binary (S754_finite false mz ez) = true.
Proof.
  intros Hd He. unfold binary_round_aux.
  rewrite (shr_fexp_canonical mz ez Hd He).
  cbn [shr_m loc_of_shr_record round_nearest_even].
  rewrite (shr_fexp_canonical mz ez Hd He).
  cbn [shr_m]. split.
  - destruct (ez <=? emax - prec)%Z eqn:E; [reflexivity|].
    apply Z.leb_gt in E. unfold emax, prec in E. lia.
  - unfold valid_binary, bounded, canonical_mantissa. rewrite Hd.
    apply andb_true_intro; split.
    + apply Z.eqb_eq. unfold fexp, SpecFloat.emin, prec, emax. lia.
    + apply Z.leb_le. unfold emax, prec. lia.
Qed.

Lemma binary_round_small (p : positive) :
  (Zpos p < 2 ^ 53)%Z ->
  exists m e, binary_round prec emax false p 0 = S754_finite false m e
              /\ valid_binary (S754_finite false m e) = true.
Proof.
  intro H. pose proof (digits2_pos_le_53 p H) as D.
  unfold binary_round, shl_align.
  replace (fexp prec emax (Zpos (digits2_pos p) + 0))
    with (Zpos (digits2_pos p) - 53)%Z
    by (unfold fexp, SpecFloat.emin, prec, emax; lia).
  destruct (Zpos (digits2_pos p) - 53 - 0)%Z as [|q|q] eqn:E.
  - exists p, 0%Z. apply binary_round_aux_canonical; lia.
  - lia.
  - exists (Pos.iter xO p q), (Zpos (digits2_pos p) - 53)%Z.
    apply binary_round_aux_canonical.
    + rewrite digits2_pos_iter_xO. lia.
    + lia.
Qed.

Lemma Num_finite (n : nat) :
  (0 < n)%nat -> (Z.of_nat n < 2 ^ 53)%Z ->
  exists m e, Prim2SF (Num n) = S754_finite false m e.
Proof.
  intros Hpos Hlt. unfold Num, NumZ.
  destruct (Z.of_nat n) as [|p|p] eqn:E; try lia.
  cbn [binary_normalize].
  destruct (binary_round_small p Hlt) as (m & e & -> & V).
  exists m, e. apply Prim2SF_SF2Prim, V.
Qed.

Lemma alpha_unit_finite (alpha : float) :
  (0 <? alpha)%float = true -> (alpha <? 1)%float = true ->
  exists m e, Prim2SF alpha = S754_finite false m e.
Proof.
  rewrite !ltb_spec. intros H0 H1.
  change (Prim2SF 0) with (S754_zero false) in H0.
  destruct (Prim2SF alpha) as [s|s| |s m e]; try discriminate.
  - destruct s; discriminate.
  - destruct s; [discriminate|]. exists m, e. reflexivity.
Qed.

Lemma quantile_product_not_nan (n : nat) (alpha : float) :
  (Z.of_nat n + 1 < 2 ^ 53)%Z ->
  (0 <? alpha)%float = true -> (alpha <? 1)%float = true ->
  Prim2SF (Num (n + 1) * (1 - alpha))%float <> S754_nan.
Proof.
  intros Hn H0 H1.
  destruct (Num_finite (n + 1)) as (mx & ex & EX); [lia|lia|].
  destruct (alpha_unit_finite alpha H0 H1) as (ma & ea & EA).
  rewrite mul_spec, sub_spec, EX, EA.
  assert (Y : SF64sub (Prim2SF 1) (S754_finite false ma ea) <> S754_nan).
  { change (Prim2SF 1) with (S754_finite false 4503599627370496 (-52)).
    unfold SF64sub, SFsub. apply binary_normalize_not_nan. }
  destruct (SF64sub (Prim2SF 1) (S754_finite false ma ea)) as [s|s| |s my ey];
    try discriminate; try congruence.
  unfold SF64mul, SFmul. apply binary_round_aux_not_nan. lia.
Qed.

End Rounding.

(** ** Magnitudes of rounded results

    Rounding to nearest drops the low bits of a mantissa.  The lemmas
    below follow the mantissa through [shr], [shr_fexp] and
    [binary_round_aux], for any precision and exponent range, and bound
    the results of the arithmetic that [embed] performs. *)

Section Shifts.
#[local] Open Scope Z_scope.

Lemma iter_pos_nat {A : Type} (f : A -> A) (p : positive) :
  forall x, iter_pos f p x = Nat.iter (Pos.to_nat p) f x.
Proof.
  induction p as [p IH|p IH|]; intro x; simpl iter_pos.
  - rewrite !IH. rewrite Pos2Nat.inj_xI.
    replace (S (2 * Pos.to_nat p))%nat
      with (Pos.to_nat p + (Pos.to_nat p + 1))%nat by lia.
    rewrite !Nat.iter_add. reflexivity.
  - rewrite !IH. rewrite Pos2Nat.inj_xO.
    replace (2 * Pos.to_nat p)%nat with (Pos.to_nat p + Pos.to_nat p)%nat
      by lia.
    rewrite Nat.iter_add. reflexivity.
  - reflexivity.
Qed.

(** One shift halves the mantissa. *)
Lemma shr_1_m (mrs : shr_record) :
  0 <= shr_m mrs -> shr_m (shr_1 mrs) = shr_m mrs / 2.
Proof.
  destruct mrs as [m r s]. simpl shr_m. intro H.
  destruct m as [|p|p]; [reflexivity| |lia].
  destruct p as [p|p|]; cbn [shr_1 shr_m].
  - rewrite Pos2Z.inj_xI. apply Z.div_unique with (r := 1); lia.
  - rewrite Pos2Z.inj_xO. apply Z.div_unique with (r := 0); lia.
  - reflexivity.
Qed.

Lemma shr_1_r (mrs : shr_record) :
  0 <= shr_m mrs -> shr_r (shr_1 mrs) = Z.odd (shr_m mrs).
Proof.
  destruct mrs as [m r s]. simpl shr_m. intro H.
  destruct m as [|p|p]; [reflexivity| |lia].
  destruct p; reflexivity.
Qed.

Lemma shr_1_s (mrs : shr_record) :
  shr_s (shr_1 mrs) = shr_r mrs || shr_s mrs.
Proof.
  destruct mrs as [m r s]. destruct m as [|p|p]; [reflexivity| |];
    destruct p; reflexivity.
Qed.

(** [k] shifts of an exact mantissa [m]. *)
Lemma iter_shr_1 (m : Z) (k : nat) :
  0 <= m ->
  let mrs := Nat.iter k shr_1 {| shr_m := m; shr_r := false; shr_s := false |} in
  shr_m mrs = m / 2 ^ Z.of_nat k
  /\ (shr_r mrs = true -> 2 ^ Z.of_nat k <= 2 * (m mod 2 ^ Z.of_nat k))
  /\ (m mod 2 ^ Z.of_nat k = 0 -> shr_r mrs = false /\ shr_s mrs = false)
  /\ (shr_r mrs = false -> shr_s mrs = false -> m mod 2 ^ Z.of_nat k = 0).
Proof.
  intro Hm. induction k as [|k IH].
  - simpl. rewrite Z.div_1_r, Z.mod_1_r. repeat split; auto; discriminate.
  - cbn zeta in *. rewrite Nat.iter_succ.
    set (mrs := Nat.iter k shr_1 _) in *.
    destruct IH as (Em & Er & Ez & Ee).
    assert (H0 : 0 <= shr_m mrs) by (rewrite Em; apply Z.div_pos; lia).
    rewrite shr_1_m, shr_1_r, shr_1_s by exact H0. rewrite Em.
    rewrite Nat2Z.inj_succ, Z.pow_succ_r by lia.
    set (T := 2 ^ Z.of_nat k) in *.
    assert (HT : 0 < T) by (apply Z.pow_pos_nonneg; lia).
    pose proof (Z.div_mod m T ltac:(lia)) as D1.
    pose proof (Z.mod_pos_bound m T HT) as B1.
    pose proof (Z.div_mod (m / T) 2 ltac:(lia)) as D2.
    pose proof (Z.mod_pos_bound (m / T) 2 ltac:(lia)) as B2.
    assert (Ediv : m / (2 * T) = m / T / 2).
    { rewrite (Z.mul_comm 2 T). rewrite Z.div_div by lia. reflexivity. }
    assert (Emod : m mod (2 * T) = m mod T + T * ((m / T) mod 2)).
    { rewrite (Z.mul_comm 2 T). rewrite Z.rem_mul_r by lia. reflexivity. }
    rewrite Ediv, Emod.
    assert (Odd : Z.odd (m / T) = true <-> (m / T) mod 2 = 1).
    { rewrite Zodd_mod. destruct (Z.eqb_spec ((m / T) mod 2) 1); split; auto;
        try discriminate; try lia. }
    repeat split.
    + intro Ho. apply Odd in Ho. nia.
    + destruct (Z.odd (m / T)) eqn:Eo; [|reflexivity].
      assert ((m / T) mod 2 = 1) by (apply Odd; reflexivity). nia.
    + assert (Hz : m mod T = 0) by nia.
      destruct (Ez Hz) as [-> ->]. reflexivity.
    + intros Ho Hs. apply orb_false_iff in Hs. destruct Hs as [Hr Hs].
      rewrite (Ee Hr Hs).
      destruct (Z.eq_dec ((m / T) mod 2) 1) as [E1|E1].
      * apply Odd in E1. congruence.
      * nia.
Qed.

End Shifts.

Section DroppedBits.
#[local] Open Scope Z_scope.

Lemma iter_shr_1_m (k : nat) :
  forall mrs, 0 <= shr_m mrs ->
    shr_m (Nat.iter k shr_1 mrs) = shr_m mrs / 2 ^ Z.of_nat k.
Proof.
  induction k as [|k IH]; intros mrs H.
  - simpl. rewrite Z.div_1_r. reflexivity.
  - rewrite Nat.iter_succ, shr_1_m, IH by (try rewrite IH; try apply Z.div_pos; try lia; assumption).
    rewrite Nat2Z.inj_succ, Z.pow_succ_r by lia.
    rewrite Z.div_div by (try apply Z.pow_pos_nonneg; lia).
    f_equal. lia.
Qed.

Lemma digits2_pos_upper (p : positive) :
  Zpos p < 2 ^ Zpos (digits2_pos p).
Proof.
  induction p as [p IH|p IH|]; simpl digits2_pos.
  - rewrite Pos2Z.inj_succ, Z.pow_succ_r by lia. lia.
  - rewrite Pos2Z.inj_succ, Z.pow_succ_r by lia. lia.
  - simpl. lia.
Qed.

Lemma Zdigits2_nonneg (m : Z) : 0 <= Zdigits2 m.
Proof. destruct m; simpl; lia. Qed.

Lemma Zdigits2_le (m k : Z) :
  0 <= m -> 0 <= k -> m < 2 ^ k -> Zdigits2 m <= k.
Proof.
  intros Hm Hk H. destruct m as [|p|p]; simpl; try lia.
  pose proof (digits2_pos_lower p) as L.
  destruct (Z_le_gt_dec (Zpos (digits2_pos p)) k) as [|G]; [assumption|].
  exfalso.
  assert (2 ^ k <= 2 ^ (Zpos (digits2_pos p) - 1))
    by (apply Z.pow_le_mono_r; lia).
  lia.
Qed.

Lemma Zdigits2_ge (m k : Z) :
  0 <= k -> 2 ^ k <= m -> k + 1 <= Zdigits2 m.
Proof.
  intros Hk H.
  assert (0 < 2 ^ k) by (apply Z.pow_pos_nonneg; lia).
  destruct m as [|p|p]; simpl; try lia.
  pose proof (digits2_pos_upper p) as U.
  destruct (Z_le_gt_dec (k + 1) (Zpos (digits2_pos p))) as [|G]; [assumption|].
  exfalso.
  assert (2 ^ Zpos (digits2_pos p) <= 2 ^ k)
    by (apply Z.pow_le_mono_r; lia).
  lia.
Qed.

Section Format.
Variables P E : Z.

(** What [shr_fexp] does to a non-negative mantissa: [t] bits are dropped. *)
Lemma shr_fexp_spec (m e : Z) (l : location) :
  0 <= m ->
  let t := Z.max 0 (fexp P E (Zdigits2 m + e) - e) in
  let mrs := fst (shr_fexp P E m e l) in
  snd (shr_fexp P E m e l) = e + t
  /\ shr_m mrs = m / 2 ^ t
  /\ (loc_of_shr_record mrs <> loc_Exact ->
      l <> loc_Exact \/ m mod 2 ^ t <> 0)
  /\ (l = loc_Exact -> shr_r mrs = true -> 2 ^ t <= 2 * (m mod 2 ^ t)).
Proof.
  intros Hm t mrs. subst t mrs. unfold shr_fexp, shr.
  destruct (fexp P E (Zdigits2 m + e) - e) as [|p|p] eqn:En.
  - cbn [fst snd]. change (Z.max 0 0) with 0. simpl (2 ^ 0).
    rewrite Z.div_1_r, Z.mod_1_r.
    repeat split; try lia.
    + destruct l as [|[]]; reflexivity.
    + intro H. left. intro L. subst l. apply H. reflexivity.
    + intros ->. simpl. discriminate.
  - cbn [fst snd]. change (Z.max 0 (Zpos p)) with (Zpos p).
    rewrite iter_pos_nat.
    replace (Zpos p) with (Z.of_nat (Pos.to_nat p)) by lia.
    split; [lia|].
    split.
    { rewrite iter_shr_1_m by (destruct l as [|[]]; simpl; exact Hm).
      destruct l as [|[]]; reflexivity. }
    destruct l as [|c].
    + pose proof (iter_shr_1 m (Pos.to_nat p) Hm) as (Em' & Er & Ez & Ee).
      cbn [shr_record_of_loc]. split.
      * intro Hl. right. intro Hz. apply Hl.
        destruct (Ez Hz) as [R S].
        destruct (Nat.iter _ _ _) as [m' r' s']. simpl in R, S. subst.
        reflexivity.
      * intros _ Hr. apply Er, Hr.
    + split; [intros _; left; discriminate | discriminate].
  - cbn [fst snd]. change (Z.max 0 (Zneg p)) with 0. simpl (2 ^ 0).
    rewrite Z.div_1_r, Z.mod_1_r.
    repeat split; try lia.
    + destruct l as [|[]]; reflexivity.
    + intro Hl. left. intro L. subst l. apply Hl. reflexivity.
    + intros ->. simpl. discriminate.
Qed.

Lemma round_nearest_even_bounds (mrs : shr_record) :
  let mr := round_nearest_even (shr_m mrs) (loc_of_shr_record mrs) in
  shr_m mrs <= mr <= shr_m mrs + 1
  /\ (loc_of_shr_record mrs = loc_Exact -> mr = shr_m mrs)
  /\ (shr_r mrs = false -> mr = shr_m mrs).
Proof.
  destruct mrs as [m r s]. destruct r, s; simpl;
    repeat split; try lia; try discriminate;
    destruct (Z.even m); lia.
Qed.

End Format.
End DroppedBits.

Section RoundingToBound.
#[local] Open Scope Z_scope.
Variables P E : Z.
Hypothesis HP : 2 <= P.
Hypothesis HE : 3 <= 2 * E.

Lemma pow2_split (a t : Z) : 0 <= a -> 0 <= t -> 2 ^ (a + t) = 2 ^ a * 2 ^ t.
Proof. intros. apply Z.pow_add_r; assumption. Qed.

(** Rounding does not pass a bound [b * 2^beta] that the format can
    represent at the exponent of the result. *)
Lemma binary_round_aux_within (s : bool) (m e : Z) (l : location)
    (b beta : Z) :
  0 <= m -> e <= beta ->
  m + (match l with loc_Exact => 0 | _ => 1 end) <= b * 2 ^ (beta - e) ->
  0 <= b < 2 ^ (P - 1) ->
  SpecFloat.emin P E <= beta -> beta <= E - P -> e <= E - P ->
  within b beta (binary_round_aux P E s m e l)
  /\ exponentFrom (SpecFloat.emin P E) (binary_round_aux P E s m e l).
Proof.
  intros Hm He Hb Hb0 Hlo Hhi HeE.
  unfold binary_round_aux.
  pose proof (shr_fexp_spec P E m e l Hm) as S1. cbv zeta in S1.
  destruct (shr_fexp P E m e l) as [mrs1 e1]. cbn [fst snd] in S1.
  destruct S1 as (E1 & M1 & L1 & _).
  set (t := Z.max 0 (fexp P E (Zdigits2 m + e) - e)) in *.
  assert (Ht : 0 <= t) by lia.
  assert (HT : 0 < 2 ^ t) by (apply Z.pow_pos_nonneg; lia).
  assert (Hpow : 0 < 2 ^ (beta - e)) by (apply Z.pow_pos_nonneg; lia).
  assert (HPp : 0 < 2 ^ (P - 1)) by (apply Z.pow_pos_nonneg; lia).
  (* the digits of [m] *)
  assert (Hd : Zdigits2 m + e - P <= beta - 1).
  { assert (m < 2 ^ (P - 1 + (beta - e))).
    { rewrite pow2_split by lia.
      destruct l; nia. }
    pose proof (Zdigits2_le m (P - 1 + (beta - e)) Hm ltac:(lia) H). lia. }
  assert (He1 : e1 <= beta).
  { rewrite E1. unfold t, fexp. lia. }
  assert (He1lo : SpecFloat.emin P E <= e1).
  { rewrite E1. unfold t, fexp. lia. }
  assert (He1E : e1 <= E - P).
  { rewrite E1. unfold t, fexp, SpecFloat.emin in *. lia. }
  set (C := b * 2 ^ (beta - e1)).
  assert (HC : b * 2 ^ (beta - e) = C * 2 ^ t).
  { unfold C. replace (beta - e) with ((beta - e1) + t) by lia.
    rewrite pow2_split by lia. ring. }
  pose proof (round_nearest_even_bounds mrs1) as (B1 & X1 & _).
  set (mr := round_nearest_even (shr_m mrs1) (loc_of_shr_record mrs1)) in *.
  pose proof (Z.div_mod m (2 ^ t) ltac:(lia)) as D.
  pose proof (Z.mod_pos_bound m (2 ^ t) HT) as Bm.
  assert (Hm1 : 0 <= shr_m mrs1) by (rewrite M1; apply Z.div_pos; lia).
  assert (Hmr : 0 <= mr <= C).
  { split; [lia|].
    destruct (loc_of_shr_record mrs1) eqn:Eloc.
    - rewrite X1 by reflexivity. rewrite M1.
      apply Z.div_le_upper_bound; [lia|]. rewrite Z.mul_comm, <- HC.
      destruct l; lia.
    - assert (m < C * 2 ^ t).
      { destruct L1 as [L1|L1]; [discriminate| |].
        - destruct l; [congruence|lia].
        - destruct l; [|lia].
          assert (m <> C * 2 ^ t)
            by (intro X; apply L1; rewrite X; apply Z.mod_mul; lia).
          lia. }
      assert (m / 2 ^ t < C)
        by (apply Z.div_lt_upper_bound; [lia|]; rewrite Z.mul_comm; lia).
      lia. }
  pose proof (shr_fexp_spec P E mr e1 loc_Exact ltac:(lia)) as S2.
  cbv zeta in S2.
  destruct (shr_fexp P E mr e1 loc_Exact) as [mrs2 e2]. cbn [fst snd] in S2.
  destruct S2 as (E2 & M2 & _ & _).
  set (t2 := Z.max 0 (fexp P E (Zdigits2 mr + e1) - e1)) in *.
  assert (Hpow1 : 0 < 2 ^ (beta - e1)) by (apply Z.pow_pos_nonneg; lia).
  assert (Hd2 : Zdigits2 mr + e1 - P <= beta - 1).
  { assert (mr < 2 ^ (P - 1 + (beta - e1))).
    { rewrite pow2_split by lia. unfold C in Hmr. nia. }
    pose proof (Zdigits2_le mr (P - 1 + (beta - e1)) ltac:(lia) ltac:(lia) H).
    lia. }
  assert (He2 : e2 <= beta) by (rewrite E2; unfold t2, fexp; lia).
  assert (Ht2 : 0 <= t2) by lia.
  assert (HT2 : 0 < 2 ^ t2) by (apply Z.pow_pos_nonneg; lia).
  assert (Hm2 : 0 <= shr_m mrs2 <= b * 2 ^ (beta - e2)).
  { rewrite M2. split; [apply Z.div_pos; lia|].
    apply Z.div_le_upper_bound; [lia|].
    replace (2 ^ t2 * (b * 2 ^ (beta - e2))) with C; [lia|].
    unfold C. replace (beta - e1) with ((beta - e2) + t2) by lia.
    rewrite pow2_split by lia. ring. }
  destruct (shr_m mrs2) as [|p|p]; [split; exact I| |lia].
  destruct (e2 <=? E - P) eqn:El.
  - split; simpl; lia.
  - apply Z.leb_gt in El. lia.
Qed.

End RoundingToBound.

Section RoundingSaturates.
#[local] Open Scope Z_scope.
Variables P E : Z.
Hypothesis HP : 2 <= P.
Hypothesis HE : 3 <= 2 * E.

Lemma Pos_iter_xO (d m : positive) :
  Zpos (Pos.iter xO m d) = Zpos m * 2 ^ Zpos d.
Proof.
  induction d as [|d IH] using Pos.peano_ind.
  - simpl. lia.
  - rewrite Pos.iter_succ, Pos2Z.inj_xO, IH, Pos2Z.inj_succ.
    rewrite Z.pow_succ_r by lia. ring.
Qed.

(** [shl_align] keeps the value and does not raise the exponent. *)
Lemma shl_align_spec (m : positive) (e e' : Z) :
  let '(mz, ez) := shl_align m e e' in
  ez = Z.min e e' /\ Zpos mz = Zpos m * 2 ^ (e - ez).
Proof.
  unfold shl_align. destruct (e' - e) as [|d|d] eqn:Ed.
  - replace (Z.min e e') with e by lia. rewrite Z.sub_diag. simpl. lia.
  - replace (Z.min e e') with e by lia. rewrite Z.sub_diag. simpl. lia.
  - replace (Z.min e e') with e' by lia. split; [reflexivity|].
    rewrite Pos_iter_xO. f_equal. f_equal. lia.
Qed.

Lemma binary_round_within (s : bool) (m : positive) (e b beta : Z) :
  Zpos m <= b * 2 ^ (beta - e) ->
  0 <= b < 2 ^ (P - 1) ->
  SpecFloat.emin P E <= beta -> beta <= E - P ->
  within b beta (binary_round P E s m e)
  /\ exponentFrom (SpecFloat.emin P E) (binary_round P E s m e).
Proof.
  intros Hb Hb0 Hlo Hhi.
  assert (He : e <= beta).
  { destruct (Z_le_gt_dec e beta) as [|G]; [assumption|].
    exfalso. rewrite (Z.pow_neg_r 2 (beta - e)) in Hb by lia. lia. }
  assert (HPp : 0 < 2 ^ (P - 1)) by (apply Z.pow_pos_nonneg; lia).
  assert (Hpow : 0 < 2 ^ (beta - e)) by (apply Z.pow_pos_nonneg; lia).
  unfold binary_round.
  pose proof (shl_align_spec m e (fexp P E (Zpos (digits2_pos m) + e))) as A.
  destruct (shl_align m e _) as [mz ez]. destruct A as [Ez Mz].
  assert (Hd : Zpos (digits2_pos m) + e - P <= beta - 1).
  { assert (Zpos m < 2 ^ (P - 1 + (beta - e))).
    { rewrite pow2_split by lia. nia. }
    pose proof (Zdigits2_le (Zpos m) (P - 1 + (beta - e)) ltac:(lia)
                  ltac:(lia) H) as D. simpl in D. lia. }
  apply binary_round_aux_within; try assumption; try lia.
  - rewrite Mz.
    replace (beta - ez) with ((beta - e) + (e - ez)) by lia.
    rewrite pow2_split by lia.
    assert (0 < 2 ^ (e - ez)) by (apply Z.pow_pos_nonneg; lia).
    nia.
Qed.

(** Round to nearest: a value that exceeds a power of two by less than
    half a unit in the last place is rounded down to it. *)
Lemma binary_round_saturates (s : bool) (m : positive) (e K : Z) :
  e <= K - P - 1 ->
  Zpos m <= 2 ^ (K - e) + 2 ^ (K - P - 1 - e) ->
  SpecFloat.emin P E <= K + 1 - P -> K <= E - P ->
  within 1 K (binary_round P E s m e)
  /\ exponentFrom (SpecFloat.emin P E) (binary_round P E s m e).
Proof.
  intros He Hm Hlo Hhi.
  assert (HPp : 1 < 2 ^ (P - 1)) by (apply Z.pow_gt_1; lia).
  destruct (Z_le_gt_dec (Zpos m) (2 ^ (K - e))) as [Hle|Hgt].
  { apply binary_round_within; lia. }
  set (t := K + 1 - P - e) in *.
  assert (Ht : 2 <= t) by (unfold t; lia).
  assert (E1 : 2 ^ (K - e) = 2 ^ (P - 1) * 2 ^ t).
  { rewrite <- pow2_split by lia. f_equal. unfold t. lia. }
  assert (E2 : 2 ^ t = 4 * 2 ^ (K - P - 1 - e)).
  { replace t with (2 + (K - P - 1 - e)) by (unfold t; lia).
    rewrite pow2_split by lia. reflexivity. }
  assert (Hq : 0 < 2 ^ (K - P - 1 - e)) by (apply Z.pow_pos_nonneg; lia).
  assert (Hdig : Zpos (digits2_pos m) = K - e + 1).
  { apply Z.le_antisymm.
    - apply (Zdigits2_le (Zpos m) (K - e + 1)); try lia.
      rewrite Z.pow_add_r by lia. simpl (2 ^ 1). nia.
    - apply (Zdigits2_ge (Zpos m) (K - e)); lia. }
  unfold binary_round.
  assert (F : fexp P E (Zpos (digits2_pos m) + e) = K + 1 - P)
    by (rewrite Hdig; unfold fexp; lia).
  rewrite F.
  pose proof (shl_align_spec m e (K + 1 - P)) as A.
  destruct (shl_align m e (K + 1 - P)) as [mz ez]. destruct A as [Ez Mz].
  assert (Hez : ez = e) by lia.
  replace (e - ez) with 0 in Mz by lia. simpl (2 ^ 0) in Mz.
  assert (Hmz : mz = m) by lia. rewrite Hez, Hmz. clear Hez Hmz Mz Ez mz ez.
  unfold binary_round_aux.
  pose proof (shr_fexp_spec P E (Zpos m) e loc_Exact ltac:(lia)) as S1.
  cbv zeta in S1. change (Zdigits2 (Zpos m)) with (Zpos (digits2_pos m)) in S1.
  rewrite F in S1.
  replace (Z.max 0 (K + 1 - P - e)) with t in S1 by (unfold t; lia).
  destruct (shr_fexp P E (Zpos m) e loc_Exact) as [mrs1 e1].
  cbn [fst snd] in S1. destruct S1 as (Ee1 & M1 & _ & R1).
  specialize (R1 eq_refl).
  assert (HT : 0 < 2 ^ t) by (apply Z.pow_pos_nonneg; lia).
  pose proof (Z.div_mod (Zpos m) (2 ^ t) ltac:(lia)) as D.
  pose proof (Z.mod_pos_bound (Zpos m) (2 ^ t) HT) as Bm.
  assert (Q : Zpos m / 2 ^ t = 2 ^ (P - 1)).
  { symmetry. apply Z.div_unique with (r := Zpos m - 2 ^ (P - 1) * 2 ^ t).
    - lia.
    - lia. }
  assert (Rm : Zpos m mod 2 ^ t = Zpos m - 2 ^ (P - 1) * 2 ^ t).
  { rewrite Q in D. lia. }
  assert (Hr : shr_r mrs1 = false).
  { destruct (shr_r mrs1); [|reflexivity]. specialize (R1 eq_refl). lia. }
  pose proof (round_nearest_even_bounds mrs1) as (_ & _ & X).
  rewrite (X Hr), M1, Q.
  pose proof (shr_fexp_spec P E (2 ^ (P - 1)) e1 loc_Exact ltac:(lia)) as S2.
  cbv zeta in S2.
  assert (D2 : Zdigits2 (2 ^ (P - 1)) = P).
  { apply Z.le_antisymm.
    - apply Zdigits2_le; try lia.
      replace P with (1 + (P - 1)) at 2 by lia.
      rewrite pow2_split by lia. simpl (2 ^ 1). lia.
    - pose proof (Zdigits2_ge (2 ^ (P - 1)) (P - 1) ltac:(lia) ltac:(lia)).
      lia. }
  rewrite D2 in S2.
  replace (Z.max 0 (fexp P E (P + e1) - e1)) with 0 in S2
    by (unfold fexp; lia).
  destruct (shr_fexp P E (2 ^ (P - 1)) e1 loc_Exact) as [mrs2 e2].
  cbn [fst snd] in S2. destruct S2 as (Ee2 & M2 & _ & _).
  simpl (2 ^ 0) in M2. rewrite Z.div_1_r in M2. rewrite M2.
  destruct (2 ^ (P - 1)) as [|p|p] eqn:Ep; try lia.
  assert (e2 = K + 1 - P) by (unfold t in *; lia).
  destruct (e2 <=? E - P) eqn:El.
  - split; cbn [within exponentFrom].
    + split; [lia|]. rewrite H. replace (K - (K + 1 - P)) with (P - 1) by lia.
      lia.
    + lia.
  - apply Z.leb_gt in El. lia.
Qed.

End RoundingSaturates.

Section Binary64Bounds.
#[local] Open Scope Z_scope.

Lemma emin64 : SpecFloat.emin prec emax = -1074.
Proof. reflexivity. Qed.

Lemma emin32 : SpecFloat.emin 24 128 = -149.
Proof. reflexivity. Qed.

Lemma within_weaken (b beta b' beta' : Z) (x : spec_float) :
  within b beta x -> beta <= beta' -> 0 <= b <= b' ->
  within b' beta' x.
Proof.
  destruct x as [s|s| |s m e]; simpl; auto.
  intros [He Hm] Hbeta Hb. split; [lia|].
  assert (0 < 2 ^ (beta - e)) by (apply Z.pow_pos_nonneg; lia).
  assert (2 ^ (beta - e) <= 2 ^ (beta' - e)) by (apply Z.pow_le_mono_r; lia).
  nia.
Qed.

Lemma within_opp (b beta : Z) (x : spec_float) :
  within b beta x -> within b beta (SFopp x).
Proof. destruct x; simpl; auto. Qed.

(** The exponent of a double that is within [2^K]. *)
Lemma valid_exponent (s : bool) (m : positive) (e K : Z) :
  valid_binary (S754_finite s m e) = true ->
  Zpos m <= 2 ^ (K - e) -> -1074 <= K - 52 ->
  -1074 <= e <= K - 52 /\ e <= 971.
Proof.
  unfold valid_binary, bounded, canonical_mantissa. intros V Hm HK.
  apply andb_prop in V. destruct V as [V1 V2].
  apply Z.eqb_eq in V1. apply Z.leb_le in V2.
  change (emax - prec) with 971 in V2.
  unfold fexp in V1. rewrite emin64 in V1. change prec with 53 in V1.
  assert (He : e <= K).
  { destruct (Z_le_gt_dec e K) as [|G]; [assumption|].
    rewrite (Z.pow_neg_r 2 (K - e)) in Hm by lia. lia. }
  assert (Zpos m < 2 ^ (K - e + 1)).
  { rewrite Z.pow_add_r by lia. simpl (2 ^ 1).
    assert (0 < 2 ^ (K - e)) by (apply Z.pow_pos_nonneg; lia). lia. }
  pose proof (Zdigits2_le (Zpos m) (K - e + 1) ltac:(lia) ltac:(lia) H) as D.
  simpl in D. lia.
Qed.

(** Addition: a double within [2^100] plus one within [2^32]. *)
Lemma SFadd_within (x y : spec_float) :
  valid_binary x = true -> valid_binary y = true ->
  within 1 100 x -> within 1 32 y ->
  within (2 ^ 25 + 1) 75 (SFadd prec emax x y).
Proof.
  intros Vx Vy Hx Hy.
  destruct x as [sx|sx| |sx mx ex]; try contradiction;
    destruct y as [sy|sy| |sy my ey]; try contradiction.
  - destruct sx, sy; exact I.
  - cbn [SFadd]. apply (within_weaken 1 32); [exact Hy|lia|lia].
  - cbn [SFadd]. destruct Hx as [_ Hx]. rewrite Z.mul_1_l in Hx.
    pose proof (valid_exponent sx mx ex 100 Vx Hx ltac:(lia)) as [Ex _].
    split; [lia|].
    replace (100 - ex) with (25 + (75 - ex)) in Hx by lia.
    rewrite Z.pow_add_r in Hx by lia.
    assert (0 < 2 ^ (75 - ex)) by (apply Z.pow_pos_nonneg; lia).
    lia.
  - destruct Hx as [_ Hx]. destruct Hy as [_ Hy].
    rewrite Z.mul_1_l in Hx, Hy.
    pose proof (valid_exponent sx mx ex 100 Vx Hx ltac:(lia)) as [Ex _].
    pose proof (valid_exponent sy my ey 32 Vy Hy ltac:(lia)) as [Ey _].
    cbn [SFadd].
    set (ez := Z.min ex ey).
    pose proof (shl_align_spec mx ex ez) as Ax.
    pose proof (shl_align_spec my ey ez) as Ay.
    destruct (shl_align mx ex ez) as [X ex'].
    destruct (shl_align my ey ez) as [Y ey'].
    destruct Ax as [Ex' MX]. destruct Ay as [Ey' MY]. cbn [fst].
    replace ex' with ez in MX by (unfold ez in *; lia).
    replace ey' with ez in MY by (unfold ez in *; lia).
    assert (HX : Zpos X <= 2 ^ (100 - ez)).
    { rewrite MX. replace (100 - ez) with ((100 - ex) + (ex - ez))
        by lia.
      rewrite Z.pow_add_r by (unfold ez; lia).
      assert (0 < 2 ^ (ex - ez)) by (apply Z.pow_pos_nonneg; unfold ez; lia).
      nia. }
    assert (HY : Zpos Y <= 2 ^ (32 - ez)).
    { rewrite MY. replace (32 - ez) with ((32 - ey) + (ey - ez)) by lia.
      rewrite Z.pow_add_r by (unfold ez; lia).
      assert (0 < 2 ^ (ey - ez)) by (apply Z.pow_pos_nonneg; unfold ez; lia).
      nia. }
    assert (Hbound : 2 ^ (100 - ez) + 2 ^ (32 - ez)
                     <= (2 ^ 25 + 1) * 2 ^ (75 - ez)).
    { replace (100 - ez) with (25 + (75 - ez)) by lia.
      rewrite Z.pow_add_r by (unfold ez; lia).
      assert (2 ^ (32 - ez) <= 2 ^ (75 - ez))
        by (apply Z.pow_le_mono_r; unfold ez; lia).
      lia. }
    assert (Hb : 0 <= 2 ^ 25 + 1 < 2 ^ (prec - 1)) by (cbv; split; congruence).
    destruct (cond_Zopp sx (Zpos X) + cond_Zopp sy (Zpos Y)) as [|p|p] eqn:Ez;
      cbn [binary_normalize].
    + exact I.
    + apply binary_round_within; try assumption; try (cbv; congruence).
      destruct sx, sy; unfold cond_Zopp in Ez; lia.
    + apply binary_round_within; try assumption; try (cbv; congruence).
      destruct sx, sy; unfold cond_Zopp in Ez; lia.
Qed.

End Binary64Bounds.

Section Binary32Store.
#[local] Open Scope Z_scope.

(** Reading back a stored value: [SF2Prim] converts mantissa and exponent
    with [of_uint63] and [ldexp], neither of which raises the value. *)
Lemma Prim2SF_SF2Prim_within (sf : spec_float) (K : Z) :
  within 1 K sf -> exponentFrom (-149) sf -> 0 <= K <= 800 ->
  within 1 K (Prim2SF (SF2Prim sf)).
Proof.
  intros Hw Hlo HK.
  destruct sf as [s|s| |s m e]; try contradiction.
  - destruct s; exact I.
  - destruct Hw as [He Hm]. rewrite Z.mul_1_l in Hm. simpl in Hlo.
    assert (W : within 1 K
                  (Prim2SF (Z.ldexp (of_uint63 (Uint63Axioms.of_Z (Zpos m))) e))).
    { rewrite Z_ldexp_spec, of_uint63_spec.
      pose proof (Uint63.of_Z_spec (Zpos m)) as Hz.
      change (Uint63Axioms.to_Z (Uint63Axioms.of_Z (Zpos m))) with
        (Uint63Axioms.to_Z (Uint63Axioms.of_Z (Zpos m))) in Hz.
      set (z := Uint63Axioms.to_Z (Uint63Axioms.of_Z (Zpos m))) in *.
      assert (Hzb : 0 <= z <= Zpos m).
      { rewrite Hz. split.
        - apply Z.mod_pos_bound. reflexivity.
        - apply Z.mod_le; [lia|reflexivity]. }
      destruct z as [|p|p]; [exact I| |lia].
      cbn [binary_normalize].
      destruct (binary_round_within prec emax ltac:(cbv; congruence)
                  ltac:(cbv; congruence) false p 0 1 (K - e)) as [W1 _];
        try (rewrite ?emin64; change (emax - prec) with 971; lia).
      { rewrite Z.sub_0_r. lia. }
      { cbv. split; congruence. }
      destruct (binary_round prec emax false p 0) as [s1|s1| |s1 m1 e1];
        try contradiction; [exact I|].
      destruct W1 as [He1 Hm1]. rewrite Z.mul_1_l in Hm1.
      cbn [SFldexp].
      apply binary_round_within;
        try (rewrite ?emin64; change (emax - prec) with 971; lia);
        try (cbv; congruence).
      - rewrite Z.mul_1_l. replace (K - (e1 + e)) with (K - e - e1) by lia.
        exact Hm1.
      - cbv. split; congruence. }
    unfold SF2Prim. destruct s; [|exact W].
    rewrite opp_spec. apply within_opp, W.
Qed.

(** A store into the [Float32Array]: a sum within [2^100 + 2^75] is kept
    as a value within [2^100]. *)
Lemma fround_within (x : float) :
  within (2 ^ 25 + 1) 75 (Prim2SF x) ->
  within 1 100 (Prim2SF (fround x)).
Proof.
  intro H. unfold fround.
  destruct (Prim2SF x) as [s|s| |s m e] eqn:Ex; try contradiction.
  - rewrite Ex. exact I.
  - destruct H as [He Hm].
    destruct (binary_round_saturates 24 128 ltac:(lia) ltac:(lia) s m e 100)
      as [W L]; try (rewrite ?emin32; lia).
    { replace (100 - e) with (25 + (75 - e)) by lia.
      rewrite Z.pow_add_r by lia.
      replace (100 - 24 - 1 - e) with (75 - e) by lia. lia. }
    rewrite emin32 in L.
    apply Prim2SF_SF2Prim_within; [exact W|exact L|lia].
Qed.

End Binary32Store.

Section Binary64Quotients.
#[local] Open Scope Z_scope.

(** An integer below 2^53 is a double, exactly. *)
Lemma Num_value (n : nat) :
  (0 < n)%nat -> Z.of_nat n < 2 ^ 53 ->
  exists m e, Prim2SF (Num n) = S754_finite false m e
              /\ e <= 0 /\ Zpos m = Z.of_nat n * 2 ^ (- e).
Proof.
  intros Hpos Hlt. unfold Num, NumZ.
  destruct (Z.of_nat n) as [|p|p] eqn:E; try lia.
  cbn [binary_normalize].
  pose proof (digits2_pos_le_53 p Hlt) as D.
  unfold binary_round, shl_align.
  replace (fexp prec emax (Zpos (digits2_pos p) + 0))
    with (Zpos (digits2_pos p) - 53)
    by (unfold fexp, SpecFloat.emin, prec, emax; lia).
  destruct (Zpos (digits2_pos p) - 53 - 0) as [|q|q] eqn:Eq.
  - destruct (binary_round_aux_canonical p 0) as [R V]; [lia|lia|].
    rewrite R. exists p, 0. rewrite (Prim2SF_SF2Prim _ V).
    split; [reflexivity|]. split; [lia|]. simpl. lia.
  - lia.
  - destruct (binary_round_aux_canonical (Pos.iter xO p q)
                (Zpos (digits2_pos p) - 53)) as [R V].
    + rewrite digits2_pos_iter_xO. lia.
    + lia.
    + rewrite R. exists (Pos.iter xO p q), (Zpos (digits2_pos p) - 53).
      rewrite (Prim2SF_SF2Prim _ V).
      split; [reflexivity|]. split; [lia|].
      rewrite Pos_iter_xO. f_equal. f_equal. lia.
Qed.

Lemma Num_within (n : nat) (K : Z) :
  (0 < n)%nat -> 0 <= K <= 53 -> Z.of_nat n <= 2 ^ K -> Z.of_nat n < 2 ^ 53 ->
  within 1 K (Prim2SF (Num n)) /\ atLeastOne (Prim2SF (Num n)).
Proof.
  intros Hpos HK Hn H53.
  destruct (Num_value n Hpos H53) as (m & e & -> & He & Hm).
  assert (0 < 2 ^ (- e)) by (apply Z.pow_pos_nonneg; lia).
  split; cbn [within atLeastOne].
  - split; [lia|]. rewrite Z.mul_1_l, Hm.
    replace (K - e) with (K + - e) by lia. rewrite Z.pow_add_r by lia.
    nia.
  - intros _. nia.
Qed.

Lemma new_location_exact (nb k : Z) :
  new_location nb k <> loc_Exact -> k <> 0.
Proof.
  unfold new_location, new_location_even, new_location_odd.
  intros H ->. destruct (Z.even nb); simpl in H; congruence.
Qed.

(** Dividing by a number that is at least 1 does not raise the bound. *)
Lemma SFdiv_within (x y : spec_float) (A : Z) :
  within 1 A x -> atLeastOne y -> -1074 <= A <= 971 ->
  within 1 A (SFdiv prec emax x y).
Proof.
  intros Hx Hy HA.
  destruct x as [sx|sx| |sx mx ex]; try contradiction;
    destruct y as [sy|sy| |sy my ey]; try contradiction.
  - exact I.
  - destruct Hx as [Hex Hmx]. rewrite Z.mul_1_l in Hmx. simpl in Hy.
    cbn [SFdiv]. unfold SFdiv_core_binary.
    change (Zdigits2 (Zpos mx)) with (Zpos (digits2_pos mx)).
    change (Zdigits2 (Zpos my)) with (Zpos (digits2_pos my)).
    set (d1 := Zpos (digits2_pos mx)). set (d2 := Zpos (digits2_pos my)).
    set (e' := Z.min (fexp prec emax (d1 + ex - (d2 + ey))) (ex - ey)).
    set (s := ex - ey - e').
    assert (Hs : 0 <= s) by (unfold s, e'; lia).
    set (m' := match s with
               | 0 => Zpos mx
               | Zpos _ => Z.shiftl (Zpos mx) s
               | Zneg _ => 0
               end).
    assert (Hm' : m' = Zpos mx * 2 ^ s).
    { unfold m'. destruct s as [|p|p] eqn:Es; [simpl; lia| |lia].
      rewrite Z.shiftl_mul_pow2 by lia. reflexivity. }
    pose proof (Z_div_mod m' (Zpos my) ltac:(lia)) as DM.
    destruct (Z.div_eucl m' (Zpos my)) as [q r]. destruct DM as [DM Br].
    assert (Hd1 : d1 + ex <= A + 1).
    { assert (Zpos mx < 2 ^ (A - ex + 1)).
      { rewrite Z.pow_add_r by lia. simpl (2 ^ 1).
        assert (0 < 2 ^ (A - ex)) by (apply Z.pow_pos_nonneg; lia). lia. }
      pose proof (Zdigits2_le (Zpos mx) (A - ex + 1) ltac:(lia) ltac:(lia) H)
        as D. simpl in D. unfold d1. lia. }
    assert (Hd2 : 1 <= d2 + ey).
    { destruct (Z_le_gt_dec ey 0) as [L|G].
      - pose proof (Zdigits2_ge (Zpos my) (- ey) ltac:(lia) (Hy L)) as D.
        simpl in D. unfold d2. lia.
      - unfold d2. lia. }
    assert (He' : e' <= A).
    { unfold e', fexp. rewrite emin64. change prec with 53. lia. }
    assert (Hq0 : 0 <= q).
    { assert (0 <= m') by (rewrite Hm'; apply Z.mul_nonneg_nonneg;
                           [lia | apply Z.pow_nonneg; lia]).
      nia. }
    assert (HG : m' <= 2 ^ (A - e') * Zpos my).
    { rewrite Hm'.
      assert (Zpos mx * 2 ^ s <= 2 ^ (A - ex) * 2 ^ s).
      { apply Z.mul_le_mono_nonneg_r; [apply Z.pow_nonneg; lia | exact Hmx]. }
      rewrite <- Z.pow_add_r in H by lia.
      replace (A - ex + s) with (A - e' - ey) in H by (unfold s; lia).
      destruct (Z_le_gt_dec ey 0) as [L|G].
      - replace (A - e' - ey) with ((A - e') + - ey) in H by lia.
        rewrite Z.pow_add_r in H by lia.
        assert (0 < 2 ^ (A - e')) by (apply Z.pow_pos_nonneg; lia).
        specialize (Hy L). nia.
      - assert (2 ^ (A - e' - ey) <= 2 ^ (A - e')).
        { destruct (Z_le_gt_dec 0 (A - e' - ey)).
          - apply Z.pow_le_mono_r; lia.
          - rewrite Z.pow_neg_r by lia. apply Z.pow_nonneg. lia. }
        assert (0 < 2 ^ (A - e')) by (apply Z.pow_pos_nonneg; lia).
        nia. }
    apply binary_round_aux_within; try (cbv; congruence);
      try (rewrite ?emin64; change (emax - prec) with 971; lia).
    + rewrite Z.mul_1_l.
      assert (0 < 2 ^ (A - e')) by (apply Z.pow_pos_nonneg; lia).
      destruct (new_location (Zpos my) r) eqn:El.
      * nia.
      * assert (r <> 0) by (apply (new_location_exact (Zpos my)); congruence).
        nia.
    + cbv. split; congruence.
Qed.

(** The bound of a product is the product of the bounds. *)
Lemma SFmul_within (x y : spec_float) (A B : Z) :
  within 1 A x -> within 1 B y -> -1074 <= A + B <= 971 ->
  within 1 (A + B) (SFmul prec emax x y).
Proof.
  intros Hx Hy HA.
  destruct x as [sx|sx| |sx mx ex]; try contradiction;
    destruct y as [sy|sy| |sy my ey]; try contradiction; try exact I.
  destruct Hx as [Hex Hmx]. destruct Hy as [Hey Hmy].
  rewrite Z.mul_1_l in Hmx, Hmy.
  cbn [SFmul].
  apply binary_round_aux_within; try (cbv; congruence);
    try (rewrite ?emin64; change (emax - prec) with 971; lia).
  - rewrite Z.mul_1_l, Z.add_0_r, Pos2Z.inj_mul.
    replace (A + B - (ex + ey)) with ((A - ex) + (B - ey)) by lia.
    rewrite Z.pow_add_r by lia.
    apply Z.mul_le_mono_nonneg; lia.
  - cbv. split; congruence.
Qed.

End Binary64Quotients.

(** ** NaN *)

Lemma SFcompare_refl (x : spec_float) :
  x <> S754_nan -> SFcompare x x = Some Eq.
Proof.
  destruct x as [s|s| |s m e]; intro H; simpl; try congruence.
  - destruct s; reflexivity.
  - rewrite Z.compare_refl, Pos.compare_cont_refl. destruct s; reflexivity.
Qed.

(** [x !== x] holds of NaN only. *)
Lemma is_nan_spec (x : float) : is_nan x = true <-> Prim2SF x = S754_nan.
Proof.
  unfold is_nan. rewrite eqb_spec. unfold SFeqb. split.
  - intro H. destruct (Prim2SF x) as [s|s| |s m e] eqn:E; try reflexivity;
      rewrite SFcompare_refl in H by discriminate; discriminate.
  - intros ->. reflexivity.
Qed.

Lemma is_nan_false (x : float) : is_nan x = false <-> Prim2SF x <> S754_nan.
Proof.
  rewrite <- is_nan_spec. destruct (is_nan x); split; congruence.
Qed.

Lemma nan_of_spec (x : float) : Prim2SF x = S754_nan -> x = NaN.
Proof. intro H. apply Prim2SF_inj. rewrite H. reflexivity. Qed.

Lemma sub_nan_r (x y : float) : is_nan y = true -> x - y = NaN.
Proof.
  intro H. apply is_nan_spec in H. apply nan_of_spec.
  rewrite sub_spec, H. destruct (Prim2SF x); reflexivity.
Qed.

Lemma add_nan_r (x y : float) : is_nan y = true -> x + y = NaN.
Proof.
  intro H. apply is_nan_spec in H. apply nan_of_spec.
  rewrite add_spec, H. destruct (Prim2SF x); reflexivity.
Qed.

Lemma mul_nan_r (x y : float) : is_nan y = true -> x * y = NaN.
Proof.
  intro H. apply is_nan_spec in H. apply nan_of_spec.
  rewrite mul_spec, H. destruct (Prim2SF x); reflexivity.
Qed.

Lemma leb_nan_r (x y : float) : is_nan y = true -> (x <=? y) = false.
Proof.
  intro H. apply is_nan_spec in H. rewrite leb_spec, H. unfold SFleb.
  destruct (Prim2SF x); reflexivity.
Qed.

Section NotNaN.

Lemma binary_round_aux_never_nan (P E : Z) (s : bool) (m e : Z) (l : location) :
  (0 <= m)%Z -> binary_round_aux P E s m e l <> S754_nan.
Proof.
  intro H. unfold binary_round_aux.
  pose proof (shr_fexp_spec P E m e l H) as S1. cbv zeta in S1.
  destruct (shr_fexp P E m e l) as [mrs1 e1]. cbn [fst snd] in S1.
  destruct S1 as (_ & M1 & _ & _).
  pose proof (round_nearest_even_bounds mrs1) as (B1 & _ & _).
  assert (H1 : (0 <= shr_m mrs1)%Z)
    by (rewrite M1; apply Z.div_pos; [lia | apply Z.pow_pos_nonneg; lia]).
  pose proof (shr_fexp_spec P E _ e1 loc_Exact
                (Z.le_trans _ _ _ H1 (proj1 B1))) as S2.
  cbv zeta in S2.
  destruct (shr_fexp P E _ e1 loc_Exact) as [mrs2 e2]. cbn [fst snd] in S2.
  destruct S2 as (_ & M2 & _ & _).
  assert (H2 : (0 <= shr_m mrs2)%Z)
    by (rewrite M2; apply Z.div_pos; [lia | apply Z.pow_pos_nonneg; lia]).
  destruct (shr_m mrs2) as [|p|p]; try discriminate; try lia.
  destruct (e2 <=? E - P)%Z; discriminate.
Qed.

Lemma binary_round_not_nan (P E : Z) (s : bool) (m : positive) (e : Z) :
  binary_round P E s m e <> S754_nan.
Proof.
  unfold binary_round. destruct (shl_align _ _ _) as [mz ez].
  apply binary_round_aux_never_nan. lia.
Qed.

Lemma Prim2SF_SF2Prim_not_nan (sf : spec_float) :
  sf <> S754_nan -> Prim2SF (SF2Prim sf) <> S754_nan.
Proof.
  intro H. destruct sf as [s|s| |s m e]; try congruence.
  - destruct s; discriminate.
  - destruct s; discriminate.
  - assert (W : Prim2SF (Z.ldexp (of_uint63 (Uint63Axioms.of_Z (Zpos m))) e)
                <> S754_nan).
    { rewrite Z_ldexp_spec, of_uint63_spec.
      pose proof (binary_normalize_not_nan
                    (Uint63Axioms.to_Z (Uint63Axioms.of_Z (Zpos m))) 0 false)
        as N.
      destruct (binary_normalize prec emax _ 0 false) as [s1|s1| |s1 m1 e1];
        try congruence; try discriminate.
      cbn [SFldexp]. apply binary_round_not_nan. }
    unfold SF2Prim. destruct s; [|exact W].
    rewrite opp_spec.
    destruct (Prim2SF (Z.ldexp _ e)); try discriminate. congruence.
Qed.

Lemma fround_not_nan (x : float) :
  Prim2SF x <> S754_nan -> Prim2SF (fround x) <> S754_nan.
Proof.
  intro H. unfold fround.
  destruct (Prim2SF x) as [s|s| |s m e] eqn:Ex; try congruence.
  apply Prim2SF_SF2Prim_not_nan, binary_round_not_nan.
Qed.

Lemma within_not_nan (b beta : Z) (x : spec_float) :
  within b beta x -> x <> S754_nan.
Proof. destruct x; simpl; try contradiction; discriminate. Qed.

(** A quotient by a positive number (finite or infinite) is not NaN when
    the dividend is zero or finite. *)
Lemma div_positive_not_nan (x norm : float) :
  within 1 100 (Prim2SF x) -> gtb norm 0 = true ->
  Prim2SF (x / norm) <> S754_nan.
Proof.
  intros Hx Hn. unfold gtb in Hn. rewrite ltb_spec in Hn.
  change (Prim2SF 0) with (S754_zero false) in Hn.
  rewrite div_spec.
  destruct (Prim2SF norm) as [s|s| |s m e]; try discriminate;
    destruct (Prim2SF x) as [sx|sx| |sx mx ex]; try contradiction;
    try discriminate.
  cbn [SF64div SFdiv].
  unfold SFdiv_core_binary.
  set (s' := (ex - e - _)%Z).
  set (m' := match s' with 0%Z => _ | Zpos _ => _ | Zneg _ => _ end).
  assert (Hm' : (0 <= m')%Z).
  { unfold m'. destruct s'; try lia. apply Z.shiftl_nonneg. lia. }
  pose proof (Z_div_mod m' (Zpos m) ltac:(lia)) as DM.
  destruct (Z.div_eucl m' (Zpos m)) as [q r].
  apply binary_round_aux_not_nan. nia.
Qed.

End NotNaN.

(** ** [Array.prototype.sort] *)

Lemma sort_insert_perm {A : Type} (cmp : A -> A -> float) (x : A) (l : list A) :
  Permutation (sort_insert cmp x l) (x :: l).
Proof.
  induction l as [|y l IH]; simpl; [apply Permutation_refl|].
  destruct (gtb (cmp x y) 0).
  - eapply perm_trans; [apply perm_skip, IH | apply perm_swap].
  - apply Permutation_refl.
Qed.

Lemma Array_sort_perm {A : Type} (cmp : A -> A -> float) (l : list A) :
  Permutation (Array_sort cmp l) l.
Proof.
  induction l as [|x l IH]; simpl; [constructor|].
  eapply perm_trans; [apply sort_insert_perm | apply perm_skip, IH].
Qed.

Lemma Array_sort_length {A : Type} (cmp : A -> A -> float) (l : list A) :
  length (Array_sort cmp l) = length l.
Proof. apply Permutation_length, Array_sort_perm. Qed.

(** For a consistent comparator the result is sorted: no element is
    followed, anywhere later, by one that the comparator puts before it. *)
Lemma Array_sort_sorted {A : Type} (cmp : A -> A -> float) (l : list A) :
  (forall a b, gtb (cmp a b) 0 = true -> gtb (cmp b a) 0 = false) ->
  (forall a b c, gtb (cmp a b) 0 = false -> gtb (cmp b c) 0 = false ->
                 gtb (cmp a c) 0 = false) ->
  StronglySorted (fun a b => gtb (cmp a b) 0 = false) (Array_sort cmp l).
Proof.
  intros Hasym Htrans.
  assert (Hins : forall x s,
            StronglySorted (fun a b => gtb (cmp a b) 0 = false) s ->
            StronglySorted (fun a b => gtb (cmp a b) 0 = false)
                           (sort_insert cmp x s)).
  { intros x s Hs. induction Hs as [|y s Hs IH Hy]; simpl.
    - constructor; constructor.
    - destruct (gtb (cmp x y) 0) eqn:E.
      + constructor; [exact IH|].
        apply Forall_forall. intros z Hz.
        apply (Permutation_in z (sort_insert_perm cmp x s)) in Hz.
        destruct Hz as [<-|Hz]; [apply Hasym, E|].
        rewrite Forall_forall in Hy. apply Hy, Hz.
      + constructor; [constructor; assumption|].
        constructor; [exact E|].
        apply Forall_forall. intros z Hz. rewrite Forall_forall in Hy.
        apply (Htrans x y z E), Hy, Hz. }
  induction l as [|x l IH]; simpl; [constructor | apply Hins, IH].
Qed.

(** ** Conformal calibration *)

Section ConformalFacts.
Import Conformal.

(** The clamped quantile index is a valid position of a non-empty array,
    whatever [Math.ceil] returned, as long as it is not NaN. *)
Lemma quantileIndex_in_range (n : nat) (alpha : float) :
  (0 < n)%nat ->
  Math_ceil (Num (n + 1) * (1 - alpha)) <> NaNI ->
  exists k, quantileIndex n alpha = IntI (Z.of_nat k) /\ (k < n)%nat.
Proof.
  intros Hn Hc. unfold quantileIndex.
  destruct (Math_ceil (Num (n + 1) * (1 - alpha))) as [|[|]|z]; try congruence.
  - exists 0%nat. simpl. split; [reflexivity|lia].
  - exists (n - 1)%nat. simpl. split; [f_equal; lia|lia].
  - exists (Z.to_nat (Z.max 0 (Z.min (Z.of_nat n - 1) (z - 1)))).
    simpl. split; [f_equal; lia|lia].
Qed.

Lemma Math_ceil_nan (x : float) :
  Math_ceil x = NaNI -> Prim2SF x = S754_nan.
Proof.
  unfold Math_ceil. destruct (Prim2SF x); try discriminate. reflexivity.
Qed.

End ConformalFacts.

(** C4.  [calibrate(scores, alpha)] throws exactly when [scores] is empty.
    For a non-empty array (a JavaScript array is shorter than 2^32) and
    [0 < alpha < 1] it returns [sorted[idx]], where [sorted] is the sorted
    copy of [scores] and [idx] is [ceil((n + 1) * (1 - alpha)) - 1] clamped
    to [0, n - 1]; the result is therefore an element of [scores].  On the
    scores 0.10, 0.15, 0.18, 0.20, 0.25, 0.30 with alpha = 0.1 the quantile
    is 0.30 and [interval(0.5, q, 0.1)] is (0.20, 0.80, 0.9). *)
Theorem calibrate_quantile (scores : list float) (alpha : float) :
  ((exists e, Conformal.calibrate scores alpha = Throw e) <-> scores = [])
  /\ (scores <> [] ->
      (Z.of_nat (length scores) < 2 ^ 32)%Z ->
      (0 <? alpha) = true -> (alpha <? 1) = true ->
      let n := length scores in
      let sorted := Array_sort (fun a b => a - b) scores in
      exists (k : nat) (q : float),
        Math_max_int 0
          (Math_min_int (Z.of_nat n - 1)
             (integral_sub (Math_ceil (Num (n + 1) * (1 - alpha))) 1))
        = IntI (Z.of_nat k)
        /\ (k < n)%nat
        /\ Permutation sorted scores
        /\ nth_error sorted k = Some q
        /\ Conformal.calibrate scores alpha = Ok (Some q)
        /\ In q scores)
  /\ (Array_sort (fun a b => a - b) [0.1; 0.2; 0.15; 0.25; 0.3; 0.18]
      = [0.10; 0.15; 0.18; 0.20; 0.25; 0.30]
      /\ Conformal.calibrate [0.10; 0.15; 0.18; 0.20; 0.25; 0.30] 0.1
         = Ok (Some 0.30)
      /\ Conformal.interval 0.5 0.30 0.1
         = {| Conformal.lower := 0.20;
              Conformal.upper := 0.80;
              Conformal.coverage := 0.9 |}).
Proof.
  split; [|split].
  - unfold Conformal.calibrate. destruct scores as [|x l]; simpl.
    + split; [reflexivity | intros _; eexists; reflexivity].
    + split; [intros [e H]; discriminate | discriminate].
  - intros Hne Hlen H0 H1 n sorted.
    assert (Hn : (0 < n)%nat) by (subst n; destruct scores; simpl; [congruence|lia]).
    assert (Hc : Math_ceil (Num (n + 1) * (1 - alpha)) <> NaNI).
    { intro C. apply Math_ceil_nan in C. revert C.
      apply quantile_product_not_nan; try assumption.
      subst n. assert (2 ^ 32 < 2 ^ 53)%Z by reflexivity. lia. }
    destruct (quantileIndex_in_range n alpha Hn Hc) as (k & Hk & Hlt).
    assert (Hs : length sorted = n) by apply Array_sort_length.
    destruct (nth_error sorted k) as [q|] eqn:Hq.
    2:{ apply nth_error_None in Hq. lia. }
    exists k, q. split; [exact Hk|]. split; [exact Hlt|].
    split; [apply Array_sort_perm|]. split; [exact Hq|]. split.
    + unfold Conformal.calibrate.
      destruct (length scores =? 0)%nat eqn:E.
      * apply Nat.eqb_eq in E. subst n. lia.
      * fold sorted. rewrite Hs. rewrite Hk. unfold Array_get.
        destruct (Z.of_nat k <? 0)%Z eqn:E2; [apply Z.ltb_lt in E2; lia|].
        rewrite Nat2Z.id, Hq. reflexivity.
    + apply (Permutation_in q (Array_sort_perm (fun a b => a - b) scores)).
      eapply nth_error_In, Hq.
  - repeat split; vm_compute; reflexivity.
Qed.

Lemma calibrate_quantile_witness :
  exists (k : nat) (q : float),
    Math_max_int 0
      (Math_min_int (Z.of_nat 6 - 1)
         (integral_sub (Math_ceil (Num (6 + 1) * (1 - 0.1))) 1))
    = IntI (Z.of_nat k)
    /\ (k < 6)%nat
    /\ Permutation (Array_sort (fun a b => a - b)
                      [0.1; 0.2; 0.15; 0.25; 0.3; 0.18])
                   [0.1; 0.2; 0.15; 0.25; 0.3; 0.18]
    /\ nth_error (Array_sort (fun a b => a - b)
                    [0.1; 0.2; 0.15; 0.25; 0.3; 0.18]) k = Some q
    /\ Conformal.calibrate [0.1; 0.2; 0.15; 0.25; 0.3; 0.18] 0.1 = Ok (Some q)
    /\ In q [0.1; 0.2; 0.15; 0.25; 0.3; 0.18].
Proof.
  destruct (calibrate_quantile [0.1; 0.2; 0.15; 0.25; 0.3; 0.18] 0.1)
    as (_ & H & _).
  apply H; [discriminate | reflexivity | reflexivity | reflexivity].
Defined.

(** ** Platt scaling *)

Section PlattFacts.
Variables Math_exp Math_log : float -> float.

Lemma filter_all_true {A : Type} (f : A -> bool) (l : list A) :
  Forall (fun x => f x = true) l -> filter f l = l.
Proof.
  induction 1 as [|x l Hx _ IH]; simpl; [reflexivity|].
  rewrite Hx, IH. reflexivity.
Qed.

Lemma filter_all_false {A : Type} (f : A -> bool) (l : list A) :
  Forall (fun x => f x = false) l -> filter f l = [].
Proof.
  induction 1 as [|x l Hx _ IH]; simpl; [reflexivity|].
  rewrite Hx. exact IH.
Qed.

End PlattFacts.

Lemma fitPlatt_same_length
    (Math_exp Math_log : float -> float) (scores labels : list float) :
  length scores = length labels ->
  exists m, Platt.fitPlatt Math_exp Math_log scores labels = Ok m.
Proof.
  intro E. unfold Platt.fitPlatt. rewrite E, Nat.eqb_refl. simpl negb.
  cbv iota.
  destruct (length labels =? 0)%nat; [eexists; reflexivity|].
  destruct (_ || _); eexists; reflexivity.
Qed.

Lemma fitPlatt_length_mismatch
    (Math_exp Math_log : float -> float) (scores labels : list float) :
  length scores <> length labels ->
  Platt.fitPlatt Math_exp Math_log scores labels
  = Throw (Error "scores and labels must have same length").
Proof.
  intro E. unfold Platt.fitPlatt.
  apply Nat.eqb_neq in E. rewrite E. reflexivity.
Qed.

(** C10.  [fitPlatt(scores, labels)] throws exactly when the two arrays
    differ in length, and returns a model exactly when they have the same
    length (both empty included), whatever [Math.exp] and [Math.log]
    compute.  The function is total: its loops are bounded by the array
    length and by [maxIter]. *)
Theorem fitPlatt_throws_iff_length_mismatch
    (Math_exp Math_log : float -> float) (scores labels : list float) :
  ((exists e, Platt.fitPlatt Math_exp Math_log scores labels = Throw e)
   <-> length scores <> length labels)
  /\ ((exists m, Platt.fitPlatt Math_exp Math_log scores labels = Ok m)
      <-> length scores = length labels).
Proof.
  destruct (Nat.eq_dec (length scores) (length labels)) as [E|E].
  - destruct (fitPlatt_same_length Math_exp Math_log scores labels E)
      as [m Hm].
    rewrite Hm. split; split.
    + intros [e H]. discriminate.
    + intro H. contradiction.
    + intros _. exact E.
    + intros _. exists m. reflexivity.
  - rewrite (fitPlatt_length_mismatch Math_exp Math_log scores labels E).
    split; split.
    + intros _. exact E.
    + intros _. eexists. reflexivity.
    + intros [m H]. discriminate.
    + intro H. contradiction.
Qed.

(** C7, as the code has it.  On inputs of equal length, [fitPlatt] returns
    the initial model (a = -1, b = 0) when the input is empty, when every
    label is above 0.5, and when no label is above 0.5.  The positive class
    is [label > 0.5]; a label equal to 0.5 counts as negative. *)
Theorem fitPlatt_one_class_initial
    (Math_exp Math_log : float -> float) (scores labels : list float) :
  length scores = length labels ->
  scores = []
  \/ Forall (fun l => gtb l 0.5 = true) labels
  \/ Forall (fun l => gtb l 0.5 = false) labels ->
  Platt.fitPlatt Math_exp Math_log scores labels
  = Ok {| Platt.a := -1; Platt.b := 0 |}.
Proof.
  intros Hlen Hcls. unfold Platt.fitPlatt.
  rewrite Hlen, Nat.eqb_refl. simpl negb. cbv iota.
  destruct (length labels =? 0)%nat eqn:E0; [reflexivity|].
  destruct Hcls as [-> | [Hall | Hnone]].
  - simpl in Hlen. rewrite <- Hlen in E0. discriminate.
  - rewrite (filter_all_true _ _ Hall), Nat.sub_diag.
    rewrite orb_true_r. reflexivity.
  - rewrite (filter_all_false _ _ Hnone). reflexivity.
Qed.

Lemma fitPlatt_one_class_initial_witness :
  Platt.fitPlatt Math_exp_ref Math_log_ref [0.2; 0.9] [1; 1]
  = Ok {| Platt.a := -1; Platt.b := 0 |}.
Proof.
  apply (fitPlatt_one_class_initial Math_exp_ref Math_log_ref [0.2; 0.9] [1; 1]).
  - reflexivity.
  - right; left. repeat constructor.
Defined.

(** C7 as stated fails: the labels 0.5, 1, 1 are all at least 0.5, yet the
    code sees one negative and two positive samples and runs the descent;
    the first step already moves [b] away from 0. *)
Lemma fitPlatt_label_half_not_initial :
  Forall (fun l => geb l 0.5 = true) [0.5; 1; 1]
  /\ length [0; 0; 0] = length [0.5; 1; 1]
  /\ Platt.fitPlatt Math_exp_ref Math_log_ref [0; 0; 0] [0.5; 1; 1]
     <> Ok {| Platt.a := -1; Platt.b := 0 |}.
Proof.
  split; [repeat constructor|]. split; [reflexivity|].
  intro H. apply (f_equal (fun r => match r with
                                  | Ok m => Prim2SF (Platt.b m)
                                  | Throw _ => S754_nan
                                  end)) in H.
  vm_compute in H. discriminate.
Qed.

(** ** Maps and sets of the runtime *)

Section MapFacts.
Context {V : Type}.

Lemma Map_get_set (m : list (string * V)) (k k' : string) (v : V) :
  Map_get (Map_set m k v) k'
  = if String.eqb k k' then Some v else Map_get m k'.
Proof.
  induction m as [|[k0 v0] m IH]; simpl.
  - reflexivity.
  - destruct (String.eqb k0 k) eqn:E0; simpl.
    + apply String.eqb_eq in E0. subst k0.
      destruct (String.eqb k k'); reflexivity.
    + rewrite IH. destruct (String.eqb k0 k') eqn:E1; [|reflexivity].
      apply String.eqb_eq in E1. subst k0.
      rewrite String.eqb_sym, E0. reflexivity.
Qed.

Lemma Map_get_In (m : list (string * V)) (k : string) (v : V) :
  Map_get m k = Some v -> In (k, v) m.
Proof.
  induction m as [|[k0 v0] m IH]; simpl; [discriminate|].
  destruct (String.eqb k0 k) eqn:E.
  - apply String.eqb_eq in E. intro H. inversion H. subst. left. reflexivity.
  - intro H. right. apply IH, H.
Qed.

End MapFacts.

Lemma Set_has_In (ids : list string) (id : string) :
  Set_has ids id = true <-> In id ids.
Proof.
  unfold Set_has. rewrite existsb_exists. split.
  - intros (x & Hx & E). apply String.eqb_eq in E. subst. exact Hx.
  - intro H. exists id. split; [exact H | apply String.eqb_refl].
Qed.

Lemma Set_add_In (s : list string) (id x : string) :
  In x (Set_add s id) <-> In x s \/ x = id.
Proof.
  unfold Set_add. destruct (Set_has s id) eqn:E.
  - apply Set_has_In in E. split; [tauto|]. intros [H| ->]; assumption.
  - rewrite in_app_iff. simpl. split.
    + intros [H|[H|[]]]; [left; exact H | right; symmetry; exact H].
    + intros [H|H]; [left; exact H | right; left; symmetry; exact H].
Qed.

Lemma Set_add_NoDup (s : list string) (id : string) :
  NoDup s -> NoDup (Set_add s id).
Proof.
  intro H. unfold Set_add. destruct (Set_has s id) eqn:E; [exact H|].
  apply NoDup_app; [exact H | repeat constructor; intros [] | ].
  intros x Hx [Hid|[]]. subst x.
  apply Set_has_In in Hx. congruence.
Qed.

Lemma fold_Set_add_In (ids s : list string) (x : string) :
  In x (fold_left Set_add ids s) <-> In x s \/ In x ids.
Proof.
  revert s. induction ids as [|i ids IH]; intro s; simpl; [tauto|].
  rewrite IH, Set_add_In. split; intros H.
  - destruct H as [[H|H]|H]; auto.
  - destruct H as [H|[H|H]]; auto.
Qed.

Lemma fold_Set_add_NoDup (ids s : list string) :
  NoDup s -> NoDup (fold_left Set_add ids s).
Proof.
  revert s. induction ids as [|i ids IH]; intros s H; simpl; [exact H|].
  apply IH, Set_add_NoDup, H.
Qed.

Lemma filter_subseq {A : Type} (f : A -> bool) (l : list A) :
  subseq (filter f l) l.
Proof.
  induction l as [|x l IH]; simpl; [constructor|].
  destruct (f x); constructor; exact IH.
Qed.

Lemma starts_with_spec (sub s : list ascii) :
  starts_with sub s = true <-> exists post, s = sub ++ post.
Proof.
  revert s. induction sub as [|a sub IH]; intro s; simpl.
  - split; [intros _; exists s; reflexivity | reflexivity].
  - destruct s as [|b s].
    + split; [discriminate | intros [post H]; discriminate].
    + rewrite andb_true_iff, IH, Ascii.eqb_eq. split.
      * intros [-> [post ->]]. exists post. reflexivity.
      * intros [post H]. inversion H. subst. split; [reflexivity|].
        exists post. reflexivity.
Qed.

(** [s.includes(sub)] holds exactly when [sub] occurs in [s]. *)
Lemma includes_chars_spec (s sub : list ascii) :
  includes_chars s sub = true <-> exists pre post, s = pre ++ sub ++ post.
Proof.
  induction s as [|c s IH].
  - simpl. rewrite orb_false_r, starts_with_spec. split.
    + intros [post H]. exists [], post. exact H.
    + intros (pre & post & H). destruct pre; simpl in H.
      * exists post. exact H.
      * discriminate.
  - cbn [includes_chars]. rewrite orb_true_iff, starts_with_spec, IH. split.
    + intros [[post H] | (pre & post & H)].
      * exists [], post. exact H.
      * exists (c :: pre), post. simpl. f_equal. exact H.
    + intros (pre & post & H). destruct pre as [|c' pre]; simpl in H.
      * left. exists post. exact H.
      * right. inversion H. subst. exists pre, post. reflexivity.
Qed.

(** ** Strings of the runtime *)

Lemma chars_str (l : list ascii) : chars (str l) = l.
Proof. apply list_ascii_of_string_of_list_ascii. Qed.

Lemma string_length_chars (s : string) : String.length s = length (chars s).
Proof.
  induction s as [|c s IH]; simpl; [reflexivity | f_equal; exact IH].
Qed.

Lemma chars_inj (s t : string) : chars s = chars t -> s = t.
Proof.
  intro H. rewrite <- (string_of_list_ascii_of_string s),
             <- (string_of_list_ascii_of_string t).
  unfold chars in H. rewrite H. reflexivity.
Qed.

(** ** Inverted index *)

Section InvertedFacts.
Import Inverted.

Lemma intersectSeed_In (ids : option (list string)) (result : list string)
    (x : string) :
  In x (intersectSeed ids result)
  <-> In x result /\ (forall seed, ids = Some seed -> In x seed).
Proof.
  destruct ids as [seed|]; simpl.
  - rewrite filter_In, Set_has_In. split.
    + intros [H1 H2]. split; [exact H1|]. intros s E. inversion E. subst.
      exact H2.
    + intros [H1 H2]. split; [exact H1 | apply H2; reflexivity].
  - split; [intro H; split; [exact H | discriminate] | tauto].
Qed.

Lemma intersectSeed_NoDup (ids : option (list string)) (result : list string) :
  NoDup result -> NoDup (intersectSeed ids result).
Proof.
  destruct ids; simpl; [apply NoDup_filter | trivial].
Qed.

Lemma intersectSeed_subseq (ids : option (list string)) (result : list string) :
  subseq (intersectSeed ids result) (intersectSeed None result).
Proof.
  destruct ids; simpl; [apply filter_subseq|].
  induction result; constructor; assumption.
Qed.

(** The scan of the fuzzy branch collects the ids of the matching entries. *)
Lemma fuzzy_scan_In (lowerAction : string) (entries : FieldIndex)
    (acc : list string) (x : string) :
  In x (fold_left
          (fun (allMatches : list string) (entry : string * list string) =>
             let '(storedAction, spanIds) := entry in
             let lowerStored := toLowerCase storedAction in
             if fuzzyMatch lowerAction lowerStored
             then fold_left Set_add spanIds allMatches
             else allMatches)
          entries acc)
  <-> In x acc
      \/ exists stored spanIds,
           In (stored, spanIds) entries
           /\ fuzzyMatch lowerAction (toLowerCase stored) = true
           /\ In x spanIds.
Proof.
  revert acc. induction entries as [|[stored spanIds] entries IH]; intro acc.
  - simpl. split; [auto | intros [H | (s & l & [] & _)]; exact H].
  - cbn [fold_left]. rewrite IH. clear IH.
    destruct (fuzzyMatch lowerAction (toLowerCase stored)) eqn:E.
    + rewrite fold_Set_add_In. split.
      * intros [[H|H] | (s & l & Hin & Hm & Hx)].
        -- left. exact H.
        -- right. exists stored, spanIds. simpl. auto.
        -- right. exists s, l. simpl. auto.
      * intros [H | (s & l & [Heq|Hin] & Hm & Hx)].
        -- left. left. exact H.
        -- inversion Heq. subst. left. right. exact Hx.
        -- right. exists s, l. auto.
    + split.
      * intros [H | (s & l & Hin & Hm & Hx)].
        -- left. exact H.
        -- right. exists s, l. simpl. auto.
      * intros [H | (s & l & [Heq|Hin] & Hm & Hx)].
        -- left. exact H.
        -- inversion Heq. subst. congruence.
        -- right. exists s, l. auto.
Qed.

Lemma fuzzy_scan_NoDup (lowerAction : string) (entries : FieldIndex)
    (acc : list string) :
  NoDup acc ->
  NoDup (fold_left
           (fun (allMatches : list string) (entry : string * list string) =>
              let '(storedAction, spanIds) := entry in
              let lowerStored := toLowerCase storedAction in
              if fuzzyMatch lowerAction lowerStored
              then fold_left Set_add spanIds allMatches
              else allMatches)
           entries acc).
Proof.
  revert acc. induction entries as [|[stored spanIds] entries IH];
    intros acc H; [exact H|].
  cbn [fold_left]. apply IH.
  destruct (fuzzyMatch lowerAction (toLowerCase stored));
    [apply fold_Set_add_NoDup|]; exact H.
Qed.

(** [find] after one more [add]. *)
Lemma find_add (indices : InvertedIndex) (spanId f v field value : string) :
  find (add indices spanId f v) field value
  = if String.eqb f field && String.eqb v value
    then find indices field value ++ [spanId]
    else find indices field value.
Proof.
  unfold find, add, Map_has.
  rewrite Map_get_set.
  destruct (String.eqb f field) eqn:Ef; simpl.
  - apply String.eqb_eq in Ef. subst field.
    rewrite Map_get_set.
    destruct (String.eqb v value) eqn:Ev;
      [apply String.eqb_eq in Ev; subst value|];
      destruct (Map_get indices f) as [fi|] eqn:Gf; simpl;
      rewrite ?Gf, ?Map_get_set, ?String.eqb_refl; simpl;
      try destruct (Map_get fi v) as [ids|] eqn:Gv; simpl;
      rewrite ?Gv, ?Map_get_set, ?String.eqb_refl, ?Ev; simpl;
      reflexivity.
  - destruct (Map_get indices f) as [fi|] eqn:Gf; simpl.
    + reflexivity.
    + rewrite Map_get_set, Ef. reflexivity.
Qed.

Lemma find_addAll (calls : list AddCall) :
  forall (indices : InvertedIndex) (field value : string),
    find (addAll indices calls) field value
    = find indices field value
      ++ map call_id
           (filter (fun c => String.eqb (call_field c) field
                             && String.eqb (call_value c) value) calls).
Proof.
  induction calls as [|c calls IH]; intros indices field value; simpl.
  - rewrite app_nil_r. reflexivity.
  - unfold addAll in *. simpl. rewrite IH, find_add.
    destruct (String.eqb (call_field c) field
              && String.eqb (call_value c) value); simpl.
    + rewrite <- app_assoc. reflexivity.
    + reflexivity.
Qed.

End InvertedFacts.

(** ** The edit distance computed by the dynamic program *)

Section LevenshteinSpec.
Import Inverted.
#[local] Open Scope nat_scope.

Lemma editDistance_nil_r a : editDistance a [] = length a.
Proof. destruct a; reflexivity. Qed.

Lemma editDistance_cons x a y b :
  editDistance (x :: a) (y :: b)
  = if Ascii.eqb x y then editDistance a b
    else S (Nat.min (editDistance a b)
              (Nat.min (editDistance a (y :: b)) (editDistance (x :: a) b))).
Proof. reflexivity. Qed.

Lemma edits_only_insert b : edits [] b (length b).
Proof. induction b; simpl; constructor; assumption. Qed.

Lemma edits_only_delete a : edits a [] (length a).
Proof. induction a; simpl; constructor; assumption. Qed.

Lemma edits_editDistance a : forall b, edits a b (editDistance a b).
Proof.
  induction a as [|x a IHa]; intro b.
  - apply edits_only_insert.
  - induction b as [|y b IHb].
    + apply (edits_only_delete (x :: a)).
    + rewrite editDistance_cons.
      destruct (Ascii.eqb x y) eqn:E.
      * apply Ascii.eqb_eq in E. subst y. constructor. apply IHa.
      * destruct (Nat.min_spec (editDistance a b)
                    (Nat.min (editDistance a (y :: b)) (editDistance (x :: a) b)))
          as [[_ ->]|[_ ->]].
        -- apply edits_substitute, IHa.
        -- destruct (Nat.min_spec (editDistance a (y :: b))
                       (editDistance (x :: a) b)) as [[_ ->]|[_ ->]].
           ++ apply edits_delete, IHa.
           ++ apply edits_insert, IHb.
Qed.

(** One character more or less on either side moves the distance by at
    most one. *)
Lemma editDistance_lipschitz (k : nat) :
  forall a b, length a + length b <= k ->
    (forall x, editDistance (x :: a) b <= S (editDistance a b))
    /\ (forall y, editDistance a (y :: b) <= S (editDistance a b))
    /\ (forall x, editDistance a b <= S (editDistance (x :: a) b))
    /\ (forall y, editDistance a b <= S (editDistance a (y :: b))).
Proof.
  induction k as [|k IH]; intros a b Hk.
  - destruct a; [|simpl in Hk; lia]. destruct b; [|simpl in Hk; lia].
    simpl. repeat split; intros; lia.
  - assert (A1 : forall x, editDistance (x :: a) b <= S (editDistance a b)).
    { intro x. destruct b as [|y b].
      - rewrite !editDistance_nil_r. simpl. lia.
      - rewrite editDistance_cons. destruct (Ascii.eqb x y) eqn:E; [|lia].
        apply Ascii.eqb_eq in E. subst y.
        destruct (IH a b) as (_ & _ & _ & R2); [simpl in Hk; lia|].
        apply R2. }
    assert (A2 : forall y, editDistance a (y :: b) <= S (editDistance a b)).
    { intro y. destruct a as [|x a].
      - simpl. lia.
      - rewrite editDistance_cons. destruct (Ascii.eqb x y) eqn:E; [|lia].
        apply Ascii.eqb_eq in E. subst y.
        destruct (IH a b) as (_ & _ & R1 & _); [simpl in Hk; lia|].
        apply R1. }
    assert (R1 : forall x, editDistance a b <= S (editDistance (x :: a) b)).
    { intro x. destruct b as [|y b].
      - rewrite !editDistance_nil_r. simpl. lia.
      - rewrite (editDistance_cons x a y b).
        destruct (IH a b) as (B1 & B2 & B3 & B4); [simpl in Hk; lia|].
        destruct (Ascii.eqb x y) eqn:E.
        + apply B2.
        + pose proof (B2 y). pose proof (B3 x). lia. }
    assert (R2 : forall y, editDistance a b <= S (editDistance a (y :: b))).
    { intro y. destruct a as [|x a].
      - simpl. lia.
      - rewrite (editDistance_cons x a y b).
        destruct (IH a b) as (B1 & B2 & B3 & B4); [simpl in Hk; lia|].
        destruct (Ascii.eqb x y) eqn:E.
        + apply B1.
        + pose proof (B1 x). pose proof (B4 y). lia. }
    auto.
Qed.

Lemma editDistance_least a b n : edits a b n -> editDistance a b <= n.
Proof.
  induction 1 as [|c a b n H IH|c d a b n H IH|c a b n H IH|d a b n H IH].
  - reflexivity.
  - rewrite editDistance_cons, Ascii.eqb_refl. exact IH.
  - rewrite editDistance_cons. destruct (Ascii.eqb c d); lia.
  - destruct (editDistance_lipschitz _ a b (Nat.le_refl _)) as (A1 & _).
    pose proof (A1 c). lia.
  - destruct (editDistance_lipschitz _ a b (Nat.le_refl _)) as (_ & A2 & _).
    pose proof (A2 d). lia.
Qed.

Lemma editDistance_spec a b : editDistanceIs a b (editDistance a b).
Proof. split; [apply edits_editDistance | apply editDistance_least]. Qed.

Lemma editDistanceIs_unique a b d d' :
  editDistanceIs a b d -> editDistanceIs a b d' -> d = d'.
Proof.
  intros [E1 L1] [E2 L2]. apply Nat.le_antisymm; auto.
Qed.

(** An edit script can be read from either end. *)
Lemma edits_snoc_keep c a b n : edits a b n -> edits (a ++ [c]) (b ++ [c]) n.
Proof.
  induction 1; simpl; try (constructor; assumption).
  apply edits_keep, edits_nil.
Qed.

Lemma edits_snoc_substitute c d a b n :
  edits a b n -> edits (a ++ [c]) (b ++ [d]) (S n).
Proof.
  induction 1; simpl; try (constructor; assumption).
  apply edits_substitute, edits_nil.
Qed.

Lemma edits_snoc_delete c a b n : edits a b n -> edits (a ++ [c]) b (S n).
Proof.
  induction 1; simpl; try (constructor; assumption).
  apply edits_delete, edits_nil.
Qed.

Lemma edits_snoc_insert d a b n : edits a b n -> edits a (b ++ [d]) (S n).
Proof.
  induction 1; simpl; try (constructor; assumption).
  apply edits_insert, edits_nil.
Qed.

Lemma edits_rev a b n : edits a b n -> edits (rev a) (rev b) n.
Proof.
  induction 1; simpl.
  - constructor.
  - apply edits_snoc_keep. assumption.
  - apply edits_snoc_substitute. assumption.
  - apply edits_snoc_delete. assumption.
  - apply edits_snoc_insert. assumption.
Qed.

Lemma editDistanceIs_rev a b d :
  editDistanceIs (rev a) (rev b) d -> editDistanceIs a b d.
Proof.
  intros [E L]. split.
  - rewrite <- (rev_involutive a), <- (rev_involutive b). apply edits_rev, E.
  - intros n H. apply L, edits_rev, H.
Qed.

(** The recurrence of one row: cell [j + 1] from the cell to its left and
    the two cells above. *)
Lemma levenshteinRow_cells (a : list ascii) (bc : ascii) :
  forall prev left,
    length prev = S (length a) ->
    length (left :: levenshteinRow a bc prev left) = S (length a)
    /\ forall j, (j < length a)%nat ->
         nth (S j) (left :: levenshteinRow a bc prev left) 0%nat
         = if Ascii.eqb bc (nth j a Ascii.zero) then nth j prev 0%nat
           else Nat.min (nth j prev 0 + 1)
                  (Nat.min (nth j (left :: levenshteinRow a bc prev left) 0 + 1)
                           (nth (S j) prev 0 + 1)).
Proof.
  induction a as [|ac a IH]; intros prev left Hlen.
  - split; [reflexivity | intros j Hj; simpl in Hj; lia].
  - destruct prev as [|diag [|up prev]]; simpl in Hlen; try lia.
    cbn [levenshteinRow].
    set (cell := if Ascii.eqb bc ac then diag
                 else Nat.min (diag + 1) (Nat.min (left + 1) (up + 1))).
    destruct (IH (up :: prev) cell) as [L R]; [simpl; lia|].
    split; [simpl in *; lia|].
    intros [|j] Hj.
    + reflexivity.
    + simpl in Hj. apply (R j). lia.
Qed.

Lemma firstn_succ_snoc (a : list ascii) (j : nat) :
  (j < length a)%nat -> firstn (S j) a = firstn j a ++ [nth j a Ascii.zero].
Proof.
  revert j. induction a as [|x a IH]; intros j H; simpl in H; [lia|].
  destruct j as [|j]; [reflexivity|].
  change (x :: firstn (S j) a = x :: (firstn j a ++ [nth j a Ascii.zero])).
  f_equal. apply IH. lia.
Qed.

Lemma rowDistances_first (a : list ascii) :
  rowDistances a [] (seq 0 (S (length a))).
Proof.
  split; [apply length_seq|].
  intros j Hj. rewrite seq_nth by lia. simpl rev.
  rewrite editDistance_nil_r, length_rev, length_firstn. lia.
Qed.

Lemma rowDistances_next (a pre : list ascii) (bc : ascii) (prev : list nat) :
  rowDistances a pre prev ->
  rowDistances a (pre ++ [bc])
    (S (length pre) :: levenshteinRow a bc prev (S (length pre))).
Proof.
  intros [Hlen Hprev].
  destruct (levenshteinRow_cells a bc prev (S (length pre)) Hlen) as [L R].
  split; [exact L|].
  set (row := S (length pre) :: levenshteinRow a bc prev (S (length pre))) in *.
  rewrite rev_app_distr. simpl rev. simpl app.
  induction j as [|j IHj]; intro Hj.
  - simpl. rewrite length_rev. reflexivity.
  - rewrite (R j) by lia. rewrite (firstn_succ_snoc a j) by lia.
    rewrite rev_app_distr. simpl rev. simpl app.
    rewrite editDistance_cons.
    rewrite (IHj ltac:(lia)), (Hprev j ltac:(lia)), (Hprev (S j) Hj).
    rewrite (firstn_succ_snoc a j) by lia.
    rewrite rev_app_distr. simpl rev. simpl app.
    rewrite (Ascii.eqb_sym bc).
    destruct (Ascii.eqb (nth j a Ascii.zero) bc); lia.
Qed.

Lemma levenshteinMatrix_distances (a : list ascii) :
  forall b pre prev k,
    rowDistances a pre prev ->
    k <= length b ->
    rowDistances a (pre ++ firstn k b)
      (nth k (prev :: levenshteinMatrix a b (S (length pre)) prev) []).
Proof.
  induction b as [|bc b IH]; intros pre prev k Hrow Hk.
  - simpl in Hk. replace k with 0 by lia. simpl.
    rewrite app_nil_r. exact Hrow.
  - destruct k as [|k].
    + simpl. rewrite app_nil_r. exact Hrow.
    + cbn [levenshteinMatrix nth firstn].
      replace (pre ++ bc :: firstn k b) with ((pre ++ [bc]) ++ firstn k b)
        by (rewrite <- app_assoc; reflexivity).
      replace (S (S (length pre))) with (S (length (pre ++ [bc])))
        by (rewrite length_app; simpl; lia).
      apply IH; [apply rowDistances_next, Hrow | simpl in Hk; lia].
Qed.

(** The dynamic program computes the edit distance. *)
Lemma levenshteinDistance_is_editDistance (a b : string) :
  editDistanceIs (chars a) (chars b) (levenshteinDistance a b).
Proof.
  apply editDistanceIs_rev.
  unfold levenshteinDistance. rewrite !string_length_chars.
  pose proof (levenshteinMatrix_distances (chars a) (chars b) []
                (seq 0 (S (length (chars a)))) (length (chars b))
                (rowDistances_first (chars a)) (Nat.le_refl _)) as [_ H].
  simpl length in H. rewrite firstn_all in H. simpl app in H.
  rewrite (H (length (chars a)) (Nat.le_refl _)), firstn_all.
  apply editDistance_spec.
Qed.

End LevenshteinSpec.

(** The third test of the fuzzy scan, in terms of the edit distance.  Two
    empty strings have similarity 1 by the code's special case, and each
    contains the other. *)
Lemma levenshtein_test (lowerAction lowerStored : string) :
  includes lowerStored lowerAction = true
  \/ gtb (Inverted.levenshteinSimilarity lowerAction lowerStored) 0.7 = true
  <-> includes lowerStored lowerAction = true
      \/ exists distance : nat,
           Inverted.editDistanceIs (chars lowerAction) (chars lowerStored)
             distance
           /\ gtb (1 - Num distance
                       / Num (Nat.max (String.length lowerAction)
                                      (String.length lowerStored))) 0.7
              = true.
Proof.
  unfold Inverted.levenshteinSimilarity.
  pose proof (levenshteinDistance_is_editDistance lowerAction lowerStored)
    as Hd.
  destruct (Nat.max (String.length lowerAction) (String.length lowerStored)
            =? 0)%nat eqn:E.
  - apply Nat.eqb_eq in E.
    assert (includes lowerStored lowerAction = true) as ->.
    { assert (L : String.length lowerAction = 0%nat
                  /\ String.length lowerStored = 0%nat) by lia.
      destruct L as [L1 L2].
      destruct lowerAction; [|discriminate L1].
      destruct lowerStored; [reflexivity | discriminate L2]. }
    tauto.
  - split.
    + intros [H|H]; [left; exact H|].
      right. exists (Inverted.levenshteinDistance lowerAction lowerStored).
      split; assumption.
    + intros [H|(distance & Hd' & H)]; [left; exact H|].
      right. rewrite (editDistanceIs_unique _ _ _ _ Hd Hd'). exact H.
Qed.

(** C6.  In fuzzy mode [filterByAction] returns, without repetition,
    exactly the ids listed under a stored action value that, lower-cased,
    contains the lower-cased query, is contained in it, or whose similarity
    [1 - distance / maxLen] with it is above 0.7, where [distance] is the
    edit distance of the two lower-cased strings (the least number of
    single-character insertions, deletions and substitutions that turn
    one into the other) and [maxLen] the larger of their lengths; with a
    seed, only the ids of the seed are kept.  After the three [add] calls
    of the scenario, [find("action", "create_user")] is [span1] and the
    fuzzy filter for "create" returns span1 and span2. *)
Theorem filterByAction_fuzzy_exact
    (indices : Inverted.InvertedIndex) (seed : option (list string))
    (action id : string) :
  (In id (Inverted.filterByAction indices seed action true)
   <-> (exists (actionIndex : Inverted.FieldIndex) (stored : string)
               (spanIds : list string),
          Map_get indices "action" = Some actionIndex
          /\ In (stored, spanIds) actionIndex
          /\ In id spanIds
          /\ (includes (toLowerCase stored) (toLowerCase action) = true
              \/ includes (toLowerCase action) (toLowerCase stored) = true
              \/ exists distance : nat,
                   Inverted.editDistanceIs (chars (toLowerCase action))
                     (chars (toLowerCase stored)) distance
                   /\ gtb (1 - Num distance
                               / Num (Nat.max
                                        (String.length (toLowerCase action))
                                        (String.length (toLowerCase stored))))
                          0.7
                      = true))
       /\ (forall ids, seed = Some ids -> In id ids))
  /\ NoDup (Inverted.filterByAction indices seed action true)
  /\ (let scenario :=
        Inverted.addAll Inverted.empty
          [ {| Inverted.call_id := "span1"; Inverted.call_field := "action";
               Inverted.call_value := "create_user" |};
            {| Inverted.call_id := "span2"; Inverted.call_field := "action";
               Inverted.call_value := "create_account" |};
            {| Inverted.call_id := "span3"; Inverted.call_field := "action";
               Inverted.call_value := "delete_user" |} ] in
      Inverted.find scenario "action" "create_user" = ["span1"%string]
      /\ Inverted.filterByAction scenario None "create" true
         = ["span1"%string; "span2"%string]).
Proof.
  split; [|split].
  - unfold Inverted.filterByAction. cbn [negb].
    destruct (Map_get indices "action") as [actionIndex|] eqn:G.
    + rewrite intersectSeed_In, fuzzy_scan_In. unfold Inverted.fuzzyMatch.
      split.
      * intros [[[]|(stored & spanIds & Hin & Hm & Hx)] Hseed].
        split; [|exact Hseed].
        exists actionIndex, stored, spanIds.
        repeat split; try assumption.
        apply orb_true_iff in Hm. destruct Hm as [Hm|Hm].
        -- apply orb_true_iff in Hm. tauto.
        -- pose proof (proj1 (levenshtein_test (toLowerCase action)
                                (toLowerCase stored))) as T.
           tauto.
      * intros [(ai & stored & spanIds & E & Hin & Hx & Hm) Hseed].
        inversion E. subst ai. split; [|exact Hseed].
        right. exists stored, spanIds. repeat split; try assumption.
        rewrite !orb_true_iff.
        pose proof (proj2 (levenshtein_test (toLowerCase action)
                             (toLowerCase stored))) as T.
        tauto.
    + simpl. split; [intros [] | intros [(ai & _ & _ & E & _) _]; discriminate].
  - unfold Inverted.filterByAction. cbn [negb].
    destruct (Map_get indices "action"); [|constructor].
    apply intersectSeed_NoDup, fuzzy_scan_NoDup. constructor.
  - split; vm_compute; reflexivity.
Qed.

(** C8, as the code has it.  [find] returns the ids of the matching [add]
    calls in call order.  A seed is intersected by filtering the found list
    ([matches.filter(id => idSet.has(id))]): the result keeps the order of
    the found list, whichever operand is shorter. *)
Theorem inverted_order_preserved :
  (forall (calls : list Inverted.AddCall) (field value : string),
     Inverted.find (Inverted.addAll Inverted.empty calls) field value
     = map Inverted.call_id
         (filter (fun c => String.eqb (Inverted.call_field c) field
                           && String.eqb (Inverted.call_value c) value)
                 calls))
  /\ (forall indices seed action fuzzy,
        Inverted.filterByAction indices (Some seed) action fuzzy
        = filter (Set_has seed)
            (Inverted.filterByAction indices None action fuzzy)
        /\ subseq (Inverted.filterByAction indices (Some seed) action fuzzy)
                  (Inverted.filterByAction indices None action fuzzy))
  /\ (forall indices seed domain,
        Inverted.filterByDomain indices (Some seed) domain
        = filter (Set_has seed) (Inverted.find indices "domain" domain)
        /\ subseq (Inverted.filterByDomain indices (Some seed) domain)
                  (Inverted.find indices "domain" domain))
  /\ (forall indices seed tags,
        Inverted.filterByTags indices (Some seed) tags
        = filter (Set_has seed) (Inverted.filterByTags indices None tags)
        /\ subseq (Inverted.filterByTags indices (Some seed) tags)
                  (Inverted.filterByTags indices None tags)).
Proof.
  split; [|split; [|split]].
  - intros calls field value. rewrite find_addAll. reflexivity.
  - intros indices seed action fuzzy. unfold Inverted.filterByAction.
    destruct fuzzy; cbn [negb].
    + destruct (Map_get indices "action"); simpl.
      * split; [reflexivity | apply filter_subseq].
      * split; [reflexivity | constructor].
    + simpl. split; [reflexivity | apply filter_subseq].
  - intros indices seed domain. unfold Inverted.filterByDomain. simpl.
    split; [reflexivity | apply filter_subseq].
  - intros indices seed tags. unfold Inverted.filterByTags. simpl.
    split; [reflexivity | apply filter_subseq].
Qed.

(** C8 as stated fails: with the found list a, b, c and the shorter seed
    b, a, the intersection is a, b, which is the order of the found list
    and not the order of the seed. *)
Lemma intersection_keeps_found_order_not_shorter :
  let indices :=
    Inverted.addAll Inverted.empty
      [ {| Inverted.call_id := "a"; Inverted.call_field := "domain";
           Inverted.call_value := "x" |};
        {| Inverted.call_id := "b"; Inverted.call_field := "domain";
           Inverted.call_value := "x" |};
        {| Inverted.call_id := "c"; Inverted.call_field := "domain";
           Inverted.call_value := "x" |} ] in
  let seed := ["b"%string; "a"%string] in
  Inverted.find indices "domain" "x" = ["a"%string; "b"%string; "c"%string]
  /\ (length seed < length (Inverted.find indices "domain" "x"))%nat
  /\ Inverted.filterByDomain indices (Some seed) "x"
     = ["a"%string; "b"%string]
  /\ ~ subseq (Inverted.filterByDomain indices (Some seed) "x") seed.
Proof.
  cbv zeta. split; [reflexivity|]. split; [vm_compute; lia|].
  split; [reflexivity|].
  change (~ subseq ["a"%string; "b"%string] ["b"%string; "a"%string]).
  intro H.
  repeat match goal with
         | S : subseq _ _ |- _ => inversion S; clear S; subst
         end.
Qed.

(** ** IVF index *)

Section IVFFacts.
Import IVF.

Lemma mapResult_length {A B : Type} (f : A -> Result B) (l : list A) :
  forall ys, mapResult f l = Ok ys -> length ys = length l.
Proof.
  induction l as [|x l IH]; simpl; intros ys H.
  - inversion H. reflexivity.
  - destruct (f x) as [y|e]; simpl in H; [|discriminate].
    destruct (mapResult f l) as [ys'|e]; simpl in H; [|discriminate].
    inversion H. simpl. f_equal. apply IH. reflexivity.
Qed.

Lemma lloyd_length (iters : nat) (vs : list Vector) (k : nat) :
  forall cs cs', (0 < iters)%nat -> lloyd iters vs k cs = Ok cs' ->
                 length cs' = k.
Proof.
  induction iters as [|iters IH]; intros cs cs' Hpos H; [lia|].
  simpl in H.
  destruct (lloydStep vs k cs) as [[newCentroids maxChange]|e] eqn:E;
    simpl in H; [|discriminate].
  assert (L : length newCentroids = k).
  { unfold lloydStep in E.
    destruct (mapResult _ vs) as [assignments|]; simpl in E; [|discriminate].
    destruct (mapResult _ (seq 0 k)) as [nc|] eqn:M; simpl in E;
      [|discriminate].
    destruct (maxCentroidChange cs nc); simpl in E; [|discriminate].
    injection E as <- _. apply mapResult_length in M.
    rewrite length_seq in M. exact M. }
  destruct (maxChange <? 1e-4).
  - injection H as <-. exact L.
  - destruct iters as [|iters'].
    + simpl in H. injection H as <-. exact L.
    + apply (IH newCentroids); [lia | exact H].
Qed.

Lemma kMeans_length (cfg : Config) (vs : list Vector) (k : nat) (w w' : World)
    (cs : list (option Vector)) :
  (0 < maxIter cfg)%nat -> (k <= length vs)%nat ->
  kMeans cfg vs k w = (Ok cs, w') -> length cs = k.
Proof.
  intros Hit Hk H. unfold kMeans in H.
  destruct (length vs <=? k)%nat eqn:E.
  - inversion H. subst. rewrite length_map. apply Nat.leb_le in E. lia.
  - destruct (initializeCentroidsKMeansPlusPlus vs k w) as [[c0|e] w1].
    + inversion H. subst. eapply lloyd_length; eauto.
    + discriminate.
Qed.

Lemma pushTo_perm (cl : list (nat * list string)) (i : nat) (id : string) :
  forall cl', pushTo cl i id = Ok cl' ->
    Permutation (concat (map snd cl')) (id :: concat (map snd cl))
    /\ length cl' = length cl.
Proof.
  induction cl as [|[j ids] cl IH]; simpl; intros cl' H; [discriminate|].
  destruct (j =? i)%nat.
  - inversion H. subst. simpl. split; [|reflexivity].
    rewrite <- app_assoc. simpl.
    apply Permutation_sym, Permutation_middle.
  - destruct (pushTo cl i id) as [cl''|e]; simpl in H; [|discriminate].
    inversion H. subst. simpl. destruct (IH cl'' eq_refl) as [P L].
    split; [|f_equal; exact L].
    eapply perm_trans; [apply Permutation_app_head, P|].
    apply Permutation_sym, Permutation_middle.
Qed.

Lemma assign_perm (cs : list (option Vector)) (entries : list (string * Vector)) :
  forall cl cl', assign cs entries cl = (Ok tt, cl') ->
    Permutation (concat (map snd cl')) (concat (map snd cl) ++ map fst entries)
    /\ length cl' = length cl.
Proof.
  induction entries as [|[id v] entries IH]; simpl; intros cl cl' H.
  - inversion H. subst. rewrite app_nil_r. split; reflexivity.
  - destruct (findNearestCentroidFrom v cs) as [idx|e]; [|inversion H].
    destruct (pushTo cl idx id) as [cl1|e] eqn:P; [|inversion H].
    destruct (pushTo_perm cl idx id cl1 P) as [P1 L1].
    destruct (IH cl1 cl' H) as [P2 L2].
    split; [|congruence].
    eapply perm_trans; [exact P2|].
    eapply perm_trans; [apply Permutation_app_tail, P1|].
    simpl. apply Permutation_middle.
Qed.

Lemma cleared_postings (k : nat) :
  concat (map snd (map (fun i => (i, @nil string)) (seq 0 k))) = [].
Proof.
  generalize 0%nat. induction k as [|k IH]; intro s; simpl; auto.
Qed.

(** A [build] that runs the clustering and returns leaves the index built
    and consistent: the posting lists hold every id of the vector map
    once, and there are as many centroids as posting lists. *)
Lemma build_consistent (this st' : IVFIndex)
    (arg : option (list (string * Vector))) (w w' : World) :
  (0 < maxIter (config this))%nat ->
  build this arg w = (Ok tt, st', w') ->
  vectors st' <> [] ->
  built st' = true
  /\ Permutation (postings st') (Map_keys (vectors st'))
  /\ length (postings st') = size st'
  /\ length (centroids st') = length (clusters st').
Proof.
  intros Hit H Hne. unfold build in H.
  set (this1 := match arg with
                | Some vs => _
                | None => this
                end) in H.
  assert (Hcfg : config this1 = config this) by (destruct arg; reflexivity).
  destruct (length (vectors this1) =? 0)%nat eqn:E0.
  - inversion H. subst st'. apply Nat.eqb_eq in E0.
    destruct (vectors this1); [congruence | discriminate].
  - destruct (kMeans (config this1) (map snd (vectors this1)) _ w)
      as [[cs|e] w1] eqn:K; [|inversion H].
    destruct (assign cs (vectors this1) _) as [r filled] eqn:A.
    destruct r as [[]|e]; [|inversion H].
    inversion H. subst st' w'. clear H. simpl.
    destruct (assign_perm _ _ _ _ A) as [P L].
    rewrite cleared_postings in P. simpl in P.
    rewrite length_map, length_seq in L.
    apply kMeans_length in K; [|rewrite Hcfg; exact Hit|apply Nat.le_min_r].
    unfold postings, size, Map_keys. simpl.
    split; [reflexivity|]. split; [exact P|]. split.
    + rewrite (Permutation_length P). apply length_map.
    + congruence.
Qed.

(** [build] never touches the configuration, and the vector map only by
    taking the one it is given. *)
Lemma build_frame (this st' : IVFIndex)
    (arg : option (list (string * Vector))) (w w' : World) (r : Result unit) :
  build this arg w = (r, st', w') ->
  config st' = config this
  /\ vectors st' = match arg with
                   | Some vs => vs
                   | None => vectors this
                   end.
Proof.
  intro H. unfold build in H.
  set (this1 := match arg with
                | Some vs => _
                | None => this
                end) in H.
  assert (Hcfg : config this1 = config this /\
                 vectors this1 = match arg with
                                 | Some vs => vs
                                 | None => vectors this
                                 end) by (destruct arg; split; reflexivity).
  destruct (length (vectors this1) =? 0)%nat.
  - injection H as _ <- _. exact Hcfg.
  - destruct (kMeans (config this1) (map snd (vectors this1)) _ w)
      as [[cs|e] w1].
    + destruct (assign cs (vectors this1) _) as [[[]|e] filled];
        injection H as _ <- _; exact Hcfg.
    + injection H as _ <- _. exact Hcfg.
Qed.

Lemma Map_set_keys_NoDup {V : Type} (m : list (string * V)) (k : string)
    (v : V) :
  NoDup (Map_keys m) -> NoDup (Map_keys (Map_set m k v)).
Proof.
  unfold Map_keys. induction m as [|[k0 v0] m IH]; simpl; intro H.
  - constructor; [intros []|constructor].
  - inversion H as [|? ? Hnot Hnd]; subst.
    destruct (String.eqb k0 k) eqn:E; simpl.
    + apply String.eqb_eq in E. subst k0. constructor; assumption.
    + constructor; [|apply IH, Hnd].
      intro Hin. apply Hnot. clear IH H Hnd Hnot.
      induction m as [|[k1 v1] m IHm]; simpl in *.
      * destruct Hin as [->|[]]. rewrite String.eqb_refl in E. discriminate.
      * destruct (String.eqb k1 k) eqn:E1; simpl in Hin.
        -- apply String.eqb_eq in E1. subst k1.
           destruct Hin as [->|Hin];
             [rewrite String.eqb_refl in E; discriminate | right; exact Hin].
        -- destruct Hin as [->|Hin]; [left; reflexivity | right; auto].
Qed.

(** Every state reached by [add], [build()] and [build(map)] with a
    non-empty map is consistent when it is built, as long as every call
    returned.  (Only the replacement by an empty map, and a rebuild that
    throws, can leave a built index out of step with its vector map.) *)
Lemma run_consistent (calls : list Call) :
  forall this st w w' rs,
    (0 < maxIter (config this))%nat ->
    NoDup (Map_keys (vectors this)) ->
    Consistent this ->
    Forall (fun c => match c with
                     | CallBuild (Some vs) => vs <> [] /\ NoDup (Map_keys vs)
                     | _ => True
                     end) calls ->
    run this calls w = (rs, st, w') ->
    Forall (fun r => r = Ok tt) rs ->
    Consistent st.
Proof.
  induction calls as [|c calls IH]; intros this st w w' rs Hit Hnd HC Hargs H Hok;
    simpl in H.
  - injection H as _ <- _. exact HC.
  - inversion Hargs as [|? ? Harg Hargs']; subst.
    destruct c as [id vector|arg].
    + destruct (run (add this id vector) calls w) as [[rs1 st1] w1] eqn:R.
      injection H as <- <- <-. inversion Hok; subst.
      apply (IH (add this id vector) st1 w w1 rs1); try assumption.
      * simpl. apply Map_set_keys_NoDup, Hnd.
      * intro B. discriminate.
    + destruct (build this arg w) as [[r this1] w1] eqn:B.
      destruct (run this1 calls w1) as [[rs1 st1] w2] eqn:R.
      injection H as <- <- <-. inversion Hok as [|? ? Hr Hok']; subst.
      assert (Hcfg : config this1 = config this /\
                     vectors this1 = match arg with
                                     | Some vs => vs
                                     | None => vectors this
                                     end).
      { apply (build_frame this this1 arg w w1 _ B). }
      destruct Hcfg as [Hc Hv].
      assert (Hnd1 : NoDup (Map_keys (vectors this1))).
      { rewrite Hv. destruct arg as [vs|]; [apply Harg | exact Hnd]. }
      apply (IH this1 st1 w1 w2 rs1); try assumption; [rewrite Hc; exact Hit|].
      destruct (vectors this1) as [|e vs1] eqn:Ev.
      * (* nothing to build: the call returned at the emptiness check *)
        destruct arg as [vs|]; [destruct Harg as [Hne _]; congruence|].
        unfold build in B. rewrite <- Hv in B. simpl in B.
        injection B as <- _. exact HC.
      * intros _.
        destruct (build_consistent this this1 arg w w1 Hit B) as (Hb & P & L & Cn).
        { rewrite Ev. discriminate. }
        split; [|split; [|split; assumption]].
        -- apply (Permutation_NoDup (Permutation_sym P)). rewrite Ev. exact Hnd1.
        -- intro x. split; intro Hx.
           ++ apply (Permutation_in x P Hx).
           ++ apply (Permutation_in x (Permutation_sym P) Hx).
Qed.

End IVFFacts.

(** C5, evaluated at the failing input.  After [add("a", [1])] and
    [build()], the call [build(new Map())] replaces the vector map by the
    empty one and returns at the emptiness check: the index is still marked
    built, [size()] is 0, and posting list 0 still holds "a". *)
Theorem ivf_build_empty_map_stays_built (w : World) :
  let index := IVF.add (IVF.new {| IVF.cfg_nClusters := None;
                                   IVF.cfg_nProbe := None;
                                   IVF.cfg_maxIter := None |})
                       "a" [1] in
  let '(r1, built_once, w1) := IVF.build index None w in
  let '(r2, stale, w2) := IVF.build built_once (Some []) w1 in
  r1 = Ok tt /\ r2 = Ok tt
  /\ IVF.built stale = true
  /\ IVF.size stale = 0%nat
  /\ IVF.clusters stale = [(0%nat, ["a"%string])]
  /\ length (IVF.postings stale) = 1%nat
  /\ length (IVF.centroids stale) = length (IVF.clusters stale).
Proof.
  vm_compute. repeat split.
Qed.

(** ** Embedding *)

Lemma Array_set_length {A : Type} (a : list A) (i : nat) (v : A) :
  length (Array_set a i v) = length a.
Proof.
  revert i. induction a as [|x a IH]; intros [|i]; simpl; auto.
Qed.

Lemma embedText_length (text : string) (dimensions : nat) :
  length (Embedding.embedText text dimensions) = dimensions.
Proof.
  unfold Embedding.embedText.
  set (step := fun (vector : list float) (entry : string * nat) => _).
  assert (H : forall entries v, length v = dimensions ->
                length (fold_left step entries v) = dimensions).
  { induction entries as [|[token freq] entries IH]; intros v Hv; simpl;
      [exact Hv|].
    apply IH. unfold step, Embedding.numHashes. simpl.
    rewrite !Array_set_length. exact Hv. }
  destruct (gtb _ 0).
  - rewrite length_map. apply H, repeat_length.
  - apply H, repeat_length.
Qed.

Section EmbeddingNumbers.
Import Embedding.

Lemma Map_set_Forall {V : Type} (P : string * V -> Prop)
    (m : list (string * V)) (k : string) (v : V) :
  Forall P m -> P (k, v) -> Forall P (Map_set m k v).
Proof.
  intros Hm Hv. induction Hm as [|[k' v'] m Hx Hm IH]; simpl.
  - constructor; [exact Hv|constructor].
  - destruct (String.eqb k' k); constructor; assumption.
Qed.

Lemma Map_get_Forall {V : Type} (P : V -> Prop)
    (m : list (string * V)) (k : string) (v : V) :
  Forall (fun entry => P (snd entry)) m -> Map_get m k = Some v -> P v.
Proof.
  intros Hm. induction Hm as [|[k' v'] m Hx Hm IH]; simpl; [discriminate|].
  destruct (String.eqb k' k); [|exact IH].
  intro E. injection E as <-. exact Hx.
Qed.

(** Every term frequency is at least 1 and at most the number of tokens. *)
Lemma countTerms_bounds (tokens : list string) :
  Forall (fun entry => (0 < snd entry <= length tokens)%nat)
         (countTerms tokens).
Proof.
  unfold countTerms.
  assert (G : forall rest done (termFreq : list (string * nat)),
            Forall (fun entry => (0 < snd entry <= done)%nat) termFreq ->
            Forall (fun entry => (0 < snd entry <= done + length rest)%nat)
              (fold_left
                 (fun termFreq token =>
                    Map_set termFreq token
                      (match Map_get termFreq token with
                       | Some n => n
                       | None => O
                       end + 1)%nat)
                 rest termFreq)).
  { induction rest as [|token rest IH]; intros done termFreq H; simpl.
    - rewrite Nat.add_0_r. exact H.
    - replace (done + S (length rest))%nat with (S done + length rest)%nat
        by lia.
      apply IH. apply Map_set_Forall.
      + eapply Forall_impl; [|exact H]. simpl. intros a Ha. lia.
      + simpl. destruct (Map_get termFreq token) as [n|] eqn:G; [|lia].
        pose proof (Map_get_Forall (fun n => (0 < n <= done)%nat)
                      termFreq token n H G). simpl in H0. lia. }
  apply (G tokens 0%nat []). constructor.
Qed.

Lemma Forall_Array_set {A : Type} (P : A -> Prop) (a : list A) (i : nat)
    (v : A) :
  Forall P a -> P v -> Forall P (Array_set a i v).
Proof.
  intros Ha Hv. revert i.
  induction Ha as [|x a Hx Ha IH]; intros [|i]; simpl;
    try constructor; auto.
Qed.

Lemma Forall_nth_default {A : Type} (P : A -> Prop) (a : list A) (i : nat)
    (d : A) :
  Forall P a -> P d -> P (nth i a d).
Proof.
  intros Ha Hd. revert i.
  induction Ha as [|x a Hx Ha IH]; intros [|i]; simpl; auto.
Qed.

(** The amount added to a component: plus or minus a third of a term
    frequency, which is at most 1. *)
Lemma term_within (sign : float) (freq n : nat) :
  sign = 1 \/ sign = -1 ->
  (0 < freq)%nat -> (0 < n)%nat ->
  (Z.of_nat freq < 2 ^ 32)%Z -> (Z.of_nat n < 2 ^ 32)%Z ->
  within 1 32 (Prim2SF (sign * (Num freq / Num n) / Num numHashes)).
Proof.
  intros Hs Hf Hn Bf Bn.
  assert (P32 : (2 ^ 32 < 2 ^ 53)%Z) by reflexivity.
  destruct (Num_within freq 32 Hf ltac:(lia) ltac:(lia) ltac:(lia)) as [Wf _].
  destruct (Num_within n 32 Hn ltac:(lia) ltac:(lia) ltac:(lia)) as [_ Ln].
  destruct (Num_within numHashes 2 ltac:(unfold numHashes; lia) ltac:(lia)
              ltac:(simpl; lia) ltac:(simpl; lia)) as [_ L3].
  rewrite div_spec, mul_spec, div_spec.
  apply SFdiv_within; [|exact L3|lia].
  change 32%Z with (0 + 32)%Z.
  apply SFmul_within; [|apply SFdiv_within; [exact Wf|exact Ln|lia]|lia].
  destruct Hs as [-> | ->]; cbv; split; congruence.
Qed.

Lemma accumulate_within (vector : list float) (idx : nat) (term : float) :
  componentsWithin vector ->
  within 1 32 (Prim2SF term) ->
  componentsWithin (Array_set vector idx (fround (nth idx vector 0 + term))).
Proof.
  intros Hv Ht. apply Forall_Array_set; [exact Hv|].
  apply fround_within. rewrite add_spec.
  apply SFadd_within; try apply Prim2SF_valid; [|exact Ht].
  apply (Forall_nth_default (fun x => within 1 100 (Prim2SF x)));
    [exact Hv | exact I].
Qed.

(** Before the normalisation every component is a number within 2^100. *)
Lemma embedText_accumulated (tokens : list string) (dimensions : nat) :
  (Z.of_nat (length tokens) < 2 ^ 32)%Z ->
  componentsWithin
    (fold_left
       (fun (vector : list float) (entry : string * nat) =>
          let '(token, freq) := entry in
          let tf := Num freq / Num (length tokens) in
          fold_left
            (fun (vector : list float) (h : nat) =>
               let idx :=
                 Z.to_nat (Z.abs (simpleHash token (Z.of_nat h))
                           mod Z.of_nat dimensions) in
               let sign :=
                 if Z.even (simpleHash token (Z.of_nat h + 1000)) then 1
                 else -1 in
               Array_set vector idx
                 (fround (nth idx vector 0 + sign * tf / Num numHashes)))
            (seq 0 numHashes) vector)
       (countTerms tokens) (repeat 0 dimensions)).
Proof.
  intro Hlen.
  pose proof (countTerms_bounds tokens) as Hc.
  assert (H0 : componentsWithin (repeat 0 dimensions)).
  { unfold componentsWithin. apply Forall_forall. intros x Hx.
    apply repeat_spec in Hx. subst x. exact I. }
  revert H0. generalize (repeat 0 dimensions).
  induction Hc as [|[token freq] entries Hx Hc IH]; intros vector Hv;
    [exact Hv|].
  cbn [fold_left]. apply IH. simpl in Hx.
  generalize (seq 0 numHashes). intro hs. revert vector Hv.
  induction hs as [|h hs IHh]; intros vector Hv; [exact Hv|].
  cbn [fold_left]. apply IHh. apply accumulate_within; [exact Hv|].
  apply term_within; try lia.
  destruct (Z.even _); auto.
Qed.

(** No component of an embedding is NaN. *)
Lemma embedText_not_nan (text : string) (dimensions : nat) :
  (Z.of_nat (length (tokenize text)) < 2 ^ 32)%Z ->
  Forall (fun x => is_nan x = false) (embedText text dimensions).
Proof.
  intro Hlen. unfold embedText.
  pose proof (embedText_accumulated (tokenize text) dimensions Hlen) as Hv.
  set (vector := fold_left _ (countTerms (tokenize text)) _) in *.
  set (norm := sqrt _).
  destruct (gtb norm 0) eqn:En.
  - apply Forall_forall. intros y Hy. apply in_map_iff in Hy.
    destruct Hy as (x & <- & Hx).
    apply is_nan_false, fround_not_nan, div_positive_not_nan; [|exact En].
    unfold componentsWithin in Hv. rewrite Forall_forall in Hv. apply Hv, Hx.
  - eapply Forall_impl; [|exact Hv]. intros x Hx.
    apply is_nan_false. eapply within_not_nan, Hx.
Qed.

End EmbeddingNumbers.



(** ** Matcher *)

Lemma string_append_assoc (a b c : string) :
  ((a ++ b) ++ c)%string = (a ++ (b ++ c))%string.
Proof.
  induction a as [|x a IH]; simpl; [reflexivity|]. rewrite IH. reflexivity.
Qed.

Section MatcherFacts.
Import Matcher.
Variables TemporalIndex QualityIndex TimeRange : Type.
Variable temporal_findInRange : TemporalIndex -> TimeRange -> list string.
Variable quality_findAbove : QualityIndex -> Z -> list string.
Variable Math_exp : float -> float.

#[local] Abbreviation Matcher_t :=
  (TrajectoryMatcher TemporalIndex QualityIndex).
#[local] Abbreviation predict_ :=
  (predict TemporalIndex QualityIndex TimeRange temporal_findInRange
     quality_findAbove Math_exp).
#[local] Abbreviation findCandidates_ :=
  (findCandidates TemporalIndex QualityIndex TimeRange temporal_findInRange
     quality_findAbove).

(** The evidence loop keeps the candidates' order: the evidence items are
    the items of a subsequence of the candidates, each with the id of the
    candidate's span and a score that is not below [minScore]. *)
Lemma collectEvidence_order (m : Matcher_t) (q : list float)
    (ids : list string) :
  forall ev, collectEvidence _ _ m q ids = Ok ev ->
    exists kept,
      subseq kept ids
      /\ Forall2
           (fun e c =>
              exists span,
                Map_get (spans _ _ m) c = Some span
                /\ ev_id e = span_id span
                /\ Embedding.cosineSimilarity q
                     (Embedding.embedText (spanToText span)
                        (embeddingDim (config _ _ m)))
                   = Ok (score e)
                /\ (score e <? minScore (config _ _ m)) = false)
           ev kept.
Proof.
  induction ids as [|c ids IH]; simpl; intros ev H.
  - injection H as <-. exists []. split; constructor.
  - destruct (Map_get (spans _ _ m) c) as [span|] eqn:G.
    + destruct (Embedding.cosineSimilarity q _) as [s|e] eqn:C; simpl in H;
        [|discriminate].
      destruct (collectEvidence _ _ m q ids) as [rest|e]; simpl in H;
        [|discriminate].
      destruct (IH rest eq_refl) as (kept & Hs & Hf).
      destruct (s <? minScore (config _ _ m)) eqn:Es.
      * injection H as <-. exists kept. split; [constructor; exact Hs|exact Hf].
      * injection H as <-. exists (c :: kept).
        split; [constructor; exact Hs|].
        constructor; [|exact Hf].
        exists span. simpl. auto.
    + destruct (IH ev H) as (kept & Hs & Hf).
      exists kept. split; [constructor; exact Hs|exact Hf].
Qed.

(** C3.  When the plan's [topK] is below the configured [minTopK] (3
    unless configured), [predict] returns at once a [low_confidence]
    prediction with confidence 10 and no trajectory, whatever the spans and
    the indices are. *)
Theorem predict_short_circuit_topK (m : Matcher_t) (context : Context)
    (action : string) (p : SearchPlan TimeRange) :
  (topK _ p < minTopK (config _ _ m))%Z ->
  predict_ m context action (Some p)
  = Ok {| output :=
            "Insufficient search parameters. Please request more results.";
          confidence := 10;
          trajectories_used := 0%nat;
          method := low_confidence;
          evidence := None;
          plan := Some p |}
  /\ forall c, cfg_minTopK c = None ->
       minTopK (config _ _ (new TemporalIndex QualityIndex c)) = 3%Z.
Proof.
  intro H. split.
  - unfold predict. apply Z.ltb_lt in H. rewrite H. reflexivity.
  - intros c Hc. simpl. rewrite Hc. reflexivity.
Qed.

(** Where the order of the returned evidence comes from.  When [predict]
    returns a non-empty evidence array, the array is the one the evidence
    loop collected from the first [topK] candidates, so its items follow
    the candidate list.  [synthesize] sorts a copy by score to choose the
    output and leaves the returned array as collected. *)
Lemma predict_evidence_in_candidate_order (m : Matcher_t)
    (context : Context) (action : string)
    (plan0 : option (SearchPlan TimeRange))
    (pred : Prediction TimeRange) (ev : list Evidence) :
  predict_ m context action plan0 = Ok pred ->
  evidence _ pred = Some ev ->
  ev <> [] ->
  let searchPlan :=
    match plan0 with
    | Some p => p
    | None => {| topK := defaultTopK (config _ _ m); minQuality := 60%Z;
                 timeRange := None; filters := None |}
    end in
  let queryEmbedding :=
    Embedding.embedText (contextToText context action)
      (embeddingDim (config _ _ m)) in
  exists candidateIds kept,
    findCandidates_ m queryEmbedding action searchPlan = Ok candidateIds
    /\ collectEvidence _ _ m queryEmbedding
         (Array_slice0 candidateIds (topK _ searchPlan)) = Ok ev
    /\ subseq kept (Array_slice0 candidateIds (topK _ searchPlan))
    /\ Forall2
         (fun e c =>
            exists span,
              Map_get (spans _ _ m) c = Some span
              /\ ev_id e = span_id span
              /\ Embedding.cosineSimilarity queryEmbedding
                   (Embedding.embedText (spanToText span)
                      (embeddingDim (config _ _ m)))
                 = Ok (score e)
              /\ (score e <? minScore (config _ _ m)) = false)
         ev kept
    /\ (output _ pred = synthesize ev
        \/ exists prefix, output _ pred = (prefix ++ synthesize ev)%string).
Proof.
  intros Hp He Hne searchPlan queryEmbedding.
  unfold predict in Hp. fold searchPlan in Hp. fold queryEmbedding in Hp.
  destruct (topK _ searchPlan <? minTopK (config _ _ m))%Z.
  { injection Hp as <-. discriminate. }
  destruct (findCandidates_ m queryEmbedding action searchPlan)
    as [candidateIds|e] eqn:Ec; simpl in Hp; [|discriminate].
  destruct (length candidateIds =? 0)%nat.
  { injection Hp as <-. discriminate. }
  destruct (collectEvidence _ _ m queryEmbedding _) as [evidence0|e] eqn:Ee;
    simpl in Hp; [|discriminate].
  assert (E : ev = evidence0 /\
              (output _ pred = synthesize ev
               \/ exists prefix,
                    output _ pred = (prefix ++ synthesize ev)%string)).
  { destruct (length evidence0 =? 0)%nat.
    - injection Hp as <-. simpl in He. injection He as <-. congruence.
    - destruct (_ <? minConfidence (config _ _ m)); injection Hp as <-;
        simpl in He; injection He as <-; (split; [reflexivity|]).
      + right. simpl output.
        exists ("Low confidence ("
                ++ toFixed0 (calculateConfidence Math_exp evidence0
                               (length candidateIds))
                ++ "%). Suggested answer: ")%string.
        rewrite !string_append_assoc. reflexivity.
      + left. reflexivity. }
  destruct E as [-> Ho].
  destruct (collectEvidence_order m queryEmbedding _ evidence0 Ee)
    as (kept & Hs & Hf).
  exists candidateIds, kept. auto.
Qed.

End MatcherFacts.

Lemma predict_short_circuit_topK_witness :
  let p := {| Matcher.topK := 1%Z; Matcher.minQuality := 60%Z;
              Matcher.timeRange := @None unit; Matcher.filters := None |} in
  Scenario.predict Scenario.deploy_matcher Scenario.no_context
    "deploy service" (Some p)
  = Ok {| Matcher.output :=
            "Insufficient search parameters. Please request more results.";
          Matcher.confidence := 10;
          Matcher.trajectories_used := 0%nat;
          Matcher.method := Matcher.low_confidence;
          Matcher.evidence := None;
          Matcher.plan := Some p |}.
Proof.
  intro p.
  apply (predict_short_circuit_topK unit unit unit (fun _ _ => [])
           (fun _ _ => []) Math_exp_ref Scenario.deploy_matcher
           Scenario.no_context "deploy service" p).
  reflexivity.
Defined.

(** C2.  The evidence that [predict] returns is not ranked by score.  A
    matcher with the default configuration and no index is given span1
    (user deploy database done) and then span2 (user deploy service
    deployed).  For the action "deploy service" the prediction carries the
    evidence in insertion order, span1 with score 0.354 before span2 with
    score 0.707: ascending, where the claim has it descending.  The
    ranking exists in the code: [synthesize] sorts by score descending,
    but it sorts a copy, and the sorted copy of this evidence has span2
    first. *)
Lemma predict_evidence_not_sorted :
  exists (pred : Matcher.Prediction unit) (ev : list Matcher.Evidence),
    Scenario.predict Scenario.deploy_matcher Scenario.no_context
      "deploy service" None = Ok pred
    /\ Matcher.evidence _ pred = Some ev
    /\ ev <> []
    /\ map Matcher.ev_id ev = ["span1"%string; "span2"%string]
    /\ map Matcher.score ev = [0.35355339059327373; 0.70710678118654746]
    /\ Matcher.sortedByScoreDesc ev = false
    /\ map Matcher.ev_id (Array_sort Matcher.byScoreDesc ev)
       = ["span2"%string; "span1"%string]
    /\ Matcher.sortedByScoreDesc (Array_sort Matcher.byScoreDesc ev) = true.
Proof.
  eexists. eexists. split; [vm_compute; reflexivity|].
  split; [reflexivity|]. split; [discriminate|].
  split; [reflexivity|]. split; [reflexivity|].
  split; [reflexivity|]. split; vm_compute; reflexivity.
Qed.

(** ** HNSW index *)

Section HNSWFacts.
Import HNSW.

Lemma firstn_In {A : Type} (n : nat) (l : list A) (x : A) :
  In x (firstn n l) -> In x l.
Proof.
  intro H. rewrite <- (firstn_skipn n l). apply in_or_app. left. exact H.
Qed.

Lemma removelast_In {A : Type} (l : list A) (x : A) :
  In x (removelast l) -> In x l.
Proof.
  rewrite removelast_firstn_len. apply firstn_In.
Qed.

Lemma nth_Array_set_eq {A : Type} (a : list A) (i : nat) (v d : A) :
  (i < length a)%nat -> nth i (Array_set a i v) d = v.
Proof.
  revert i. induction a as [|x a IH]; intros [|i] H; simpl in *; try lia.
  - reflexivity.
  - apply IH. lia.
Qed.

Lemma nth_Array_set_ne {A : Type} (a : list A) (i j : nat) (v d : A) :
  i <> j -> nth j (Array_set a i v) d = nth j a d.
Proof.
  revert i j. induction a as [|x a IH]; intros [|i] [|j] H; simpl; try reflexivity.
  - lia.
  - apply IH. lia.
Qed.

Lemma setConnections_nth (node node' : HNSWNode) (l : nat) (c : list string) :
  setConnections node l c = Some node' ->
  forall l', nth l' (connections node') []
             = if (l' =? l)%nat then c else nth l' (connections node) [].
Proof.
  unfold setConnections. destruct (l <? length (connections node))%nat eqn:E;
    [|discriminate].
  intros H l'. injection H as <-. simpl. apply Nat.ltb_lt in E.
  destruct (l' =? l)%nat eqn:El.
  - apply Nat.eqb_eq in El. subst l'. apply nth_Array_set_eq, E.
  - apply Nat.eqb_neq in El. apply nth_Array_set_ne. congruence.
Qed.

Lemma Map_has_set {V : Type} (m : list (string * V)) (k k' : string) (v : V) :
  Map_has (Map_set m k v) k' = String.eqb k k' || Map_has m k'.
Proof.
  unfold Map_has. rewrite Map_get_set. destruct (String.eqb k k'); reflexivity.
Qed.

(** Replacing the node stored under [nid]. *)
Lemma neighborsAt_set (this : HNSWIndex) (nid : string) (node' : HNSWNode)
    (u : string) (l : nat) :
  neighborsAt {| config := config this;
                 nodes := Map_set (nodes this) nid node';
                 entryPoint := entryPoint this |} u l
  = if String.eqb nid u then nth l (connections node') []
    else neighborsAt this u l.
Proof.
  unfold neighborsAt. simpl. rewrite Map_get_set.
  destruct (String.eqb nid u); reflexivity.
Qed.


Lemma setConnections_writes (this : HNSWIndex) (n : string)
    (node node' : HNSWNode) (l : nat) (c : list string) :
  Map_get (nodes this) n = Some node ->
  setConnections node l c = Some node' ->
  writes this
    {| config := config this; nodes := Map_set (nodes this) n node';
       entryPoint := entryPoint this |} n l c.
Proof.
  intros G S. repeat split; simpl; try reflexivity.
  - intros u l'. rewrite neighborsAt_set.
    destruct (String.eqb n u) eqn:E; simpl; [|reflexivity].
    apply String.eqb_eq in E. subst u.
    rewrite (setConnections_nth _ _ _ _ S).
    destruct (l' =? l)%nat; [reflexivity|].
    unfold neighborsAt. rewrite G. reflexivity.
  - intro k. rewrite Map_has_set.
    destruct (String.eqb n k) eqn:E; simpl; [|reflexivity].
    apply String.eqb_eq in E. subst k. unfold Map_has. rewrite G. reflexivity.
Qed.

Lemma pushConnection_writes (this this' : HNSWIndex) (n : string) (l : nat)
    (x : string) :
  pushConnection this n l x = Ok this' ->
  writes this this' n l (neighborsAt this n l ++ [x])
  /\ Map_has (nodes this) n = true.
Proof.
  unfold pushConnection, getNode.
  destruct (Map_get (nodes this) n) as [node|] eqn:G; simpl; [|discriminate].
  destruct (setConnections node l _) as [node'|] eqn:S; [|discriminate].
  intro H. injection H as <-. split.
  - unfold neighborsAt at 1. rewrite G.
    apply (setConnections_writes this n node node' l _ G S).
  - unfold Map_has. rewrite G. reflexivity.
Qed.

Lemma mapResult_tagged {A B : Type} (f : A -> Result (A * B)) (l : list A) :
  (forall x y, f x = Ok y -> fst y = x) ->
  forall ys, mapResult f l = Ok ys -> map fst ys = l.
Proof.
  intro Hf. induction l as [|x l IH]; simpl; intros ys H.
  - injection H as <-. reflexivity.
  - destruct (f x) as [y|e] eqn:E; simpl in H; [|discriminate].
    destruct (mapResult f l) as [ys'|e]; simpl in H; [|discriminate].
    injection H as <-. simpl. rewrite (Hf x y E), (IH ys' eq_refl).
    reflexivity.
Qed.

Lemma tagged_by_distance (this : HNSWIndex) (v : Vector) (x : string)
    (y : string * float) :
  bind (getNode this x)
       (fun node => bind (distanceBetween v (vector node))
                         (fun dist => Ok (x, dist))) = Ok y ->
  fst y = x.
Proof.
  destruct (getNode this x) as [node|]; simpl; [|discriminate].
  destruct (distanceBetween v (vector node)); simpl; [|discriminate].
  intro H. injection H as <-. reflexivity.
Qed.

(** The [M0] closest of a list that is longer than [M0]: a selection of
    exactly [M0] of its ids. *)
Lemma closest_selection (sorted : list (string * float)) (M0 : nat) :
  incl (map fst (firstn M0 (Array_sort byDist sorted))) (map fst sorted)
  /\ length (map fst (firstn M0 (Array_sort byDist sorted)))
     = Nat.min M0 (length sorted).
Proof.
  split.
  - intros x Hx. apply in_map_iff in Hx. destruct Hx as (y & <- & Hy).
    apply in_map. apply (Permutation_in y (Array_sort_perm byDist sorted)).
    eapply firstn_In, Hy.
  - rewrite length_map, length_firstn, Array_sort_length. reflexivity.
Qed.

Lemma selectNeighbors_spec (this : HNSWIndex) (v : Vector)
    (candidates neighbors : list string) (M0 : nat) :
  selectNeighbors this v candidates M0 = Ok neighbors ->
  incl neighbors candidates /\ (length neighbors <= M0)%nat.
Proof.
  unfold selectNeighbors.
  destruct (length candidates <=? M0)%nat eqn:E.
  - intro H. injection H as <-. apply Nat.leb_le in E.
    split; [apply incl_refl | exact E].
  - destruct (mapResult _ candidates) as [sorted|] eqn:S; simpl; [|discriminate].
    intro H. injection H as <-.
    apply mapResult_tagged in S; [|intros x y; apply tagged_by_distance].
    destruct (closest_selection sorted M0) as [I L].
    rewrite S in I. split; [exact I | rewrite L; lia].
Qed.

Lemma pruneConnections_spec (this : HNSWIndex) (node : HNSWNode) (l M0 : nat)
    (pruned : list string) :
  (M0 < length (nth l (connections node) []))%nat ->
  pruneConnections this node l M0 = Ok pruned ->
  incl pruned (nth l (connections node) []) /\ length pruned = M0.
Proof.
  intro Hlen. unfold pruneConnections.
  destruct (length _ <=? M0)%nat eqn:E; [apply Nat.leb_le in E; lia|].
  destruct (mapResult _ _) as [sorted|] eqn:S; simpl; [|discriminate].
  intro H. injection H as <-.
  pose proof (mapResult_length _ _ _ S) as SL.
  apply mapResult_tagged in S; [|intros x y; apply tagged_by_distance].
  destruct (closest_selection sorted M0) as [I L].
  rewrite S in I. split; [exact I | rewrite L; lia].
Qed.

(** The effect of connecting the new node with one neighbour. *)
Lemma connect_spec (this this' : HNSWIndex) (newId nb : string) (lc M0 : nat) :
  connect this newId lc M0 nb = (Ok tt, this') ->
  nb <> newId ->
  neighborsAt this' newId lc = neighborsAt this newId lc ++ [nb]
  /\ ((neighborsAt this' nb lc = neighborsAt this nb lc ++ [newId]
       /\ (length (neighborsAt this nb lc ++ [newId]) <= M0)%nat)
      \/ (incl (neighborsAt this' nb lc) (neighborsAt this nb lc ++ [newId])
          /\ length (neighborsAt this' nb lc) = M0))
  /\ (forall u l, (u <> newId /\ u <> nb) \/ l <> lc ->
                  neighborsAt this' u l = neighborsAt this u l)
  /\ (forall k, Map_has (nodes this') k = Map_has (nodes this) k)
  /\ config this' = config this
  /\ entryPoint this' = entryPoint this
  /\ Map_has (nodes this) nb = true
  /\ Map_has (nodes this) newId = true.
Proof.
  intros H Hne. unfold connect in H.
  destruct (pushConnection this newId lc nb) as [this1|] eqn:P1;
    [|inversion H].
  destruct (pushConnection this1 nb lc newId) as [this2|] eqn:P2;
    [|inversion H].
  destruct (pushConnection_writes _ _ _ _ _ P1) as [(W1 & K1 & C1 & E1) H1].
  destruct (pushConnection_writes _ _ _ _ _ P2) as [(W2 & K2 & C2 & E2) H2].
  assert (Nnew : String.eqb newId nb = false)
    by (apply String.eqb_neq; congruence).
  assert (Nnb : String.eqb nb newId = false)
    by (apply String.eqb_neq; congruence).
  assert (A2new : neighborsAt this2 newId lc = neighborsAt this newId lc ++ [nb]).
  { rewrite W2, Nnb. simpl. rewrite W1, String.eqb_refl, Nat.eqb_refl.
    reflexivity. }
  assert (A2nb : neighborsAt this2 nb lc = neighborsAt this nb lc ++ [newId]).
  { rewrite W2, String.eqb_refl, Nat.eqb_refl. simpl.
    rewrite W1, Nnew. reflexivity. }
  assert (A2else : forall u l, (u <> newId /\ u <> nb) \/ l <> lc ->
                     neighborsAt this2 u l = neighborsAt this u l).
  { intros u l Hul. rewrite W2.
    destruct Hul as [[Hu1 Hu2]|Hl].
    - apply not_eq_sym, String.eqb_neq in Hu1.
      apply not_eq_sym, String.eqb_neq in Hu2.
      rewrite Hu2. simpl. rewrite W1, Hu1. reflexivity.
    - apply Nat.eqb_neq in Hl. rewrite Hl, andb_false_r.
      rewrite W1, Hl, andb_false_r. reflexivity. }
  assert (Hkeys : forall k, Map_has (nodes this2) k = Map_has (nodes this) k)
    by (intro k; rewrite K2, K1; reflexivity).
  assert (Hnb : Map_has (nodes this) nb = true) by (rewrite <- K1; exact H2).
  unfold getNode in H.
  destruct (Map_get (nodes this2) nb) as [nbNode|] eqn:G; [|inversion H].
  assert (Gn : neighborsAt this2 nb lc = nth lc (connections nbNode) [])
    by (unfold neighborsAt; rewrite G; reflexivity).
  destruct (M0 <? length (nth lc (connections nbNode) []))%nat eqn:Elen.
  - apply Nat.ltb_lt in Elen.
    destruct (pruneConnections this2 nbNode lc M0) as [pruned|] eqn:Pr;
      [|inversion H].
    destruct (setConnections nbNode lc pruned) as [n'|] eqn:S; [|inversion H].
    injection H as <-.
    destruct (setConnections_writes this2 nb nbNode n' lc pruned G S)
      as (W3 & K3 & C3 & E3).
    destruct (pruneConnections_spec _ _ _ _ _ Elen Pr) as [I L].
    rewrite <- Gn, A2nb in I.
    repeat split.
    + rewrite W3, Nnb. simpl. exact A2new.
    + right. rewrite W3, String.eqb_refl, Nat.eqb_refl. simpl.
      split; assumption.
    + intros u l Hul. rewrite W3.
      destruct Hul as [[Hu1 Hu2]|Hl].
      * apply not_eq_sym, String.eqb_neq in Hu2. rewrite Hu2. simpl.
        apply A2else. left. split; [exact Hu1|].
        apply String.eqb_neq in Hu2. congruence.
      * pose proof Hl as Hl'. apply Nat.eqb_neq in Hl'.
        rewrite Hl', andb_false_r. apply A2else. right. exact Hl.
    + intro k. rewrite K3. apply Hkeys.
    + simpl. congruence.
    + simpl. congruence.
    + exact Hnb.
    + exact H1.
  - apply Nat.ltb_ge in Elen. injection H as <-.
    repeat split; try assumption; try congruence.
    left. split; [exact A2nb|]. rewrite <- A2nb, Gn. exact Elen.
Qed.


Lemma sameFrame_refl (this : HNSWIndex) : sameFrame this this.
Proof. repeat split. Qed.

Lemma sameFrame_trans (a b c : HNSWIndex) :
  sameFrame a b -> sameFrame b c -> sameFrame a c.
Proof.
  intros (C1 & E1 & K1) (C2 & E2 & K2).
  split; [congruence | split; [congruence|]].
  intro k. rewrite K2. apply K1.
Qed.

(** Connecting one more neighbour keeps the invariant of the layer. *)
Lemma connect_Mid (this this' : HNSWIndex) (newId nb : string) (lc : nat) :
  Mid this newId lc ->
  connect this newId lc (layerCap this lc) nb = (Ok tt, this') ->
  nb <> newId ->
  Mid this' newId lc
  /\ length (neighborsAt this' newId lc)
     = S (length (neighborsAt this newId lc))
  /\ sameFrame this this'.
Proof.
  intros HM HC Hne.
  destruct (connect_spec _ _ _ _ _ _ HC Hne)
    as (Fnew & Fnb & Felse & Fkeys & Fcfg & Fentry & Hnb & Hnew).
  assert (Fcap : forall l, layerCap this' l = layerCap this l)
    by (intro l; unfold layerCap; rewrite Fcfg; reflexivity).
  assert (Fnb_incl : incl (neighborsAt this' nb lc)
                          (neighborsAt this nb lc ++ [newId])).
  { destruct Fnb as [[-> _]|[I _]]; [apply incl_refl | exact I]. }
  assert (Origin : forall u l x, In x (neighborsAt this' u l) ->
            In x (neighborsAt this u l)
            \/ (u = newId /\ l = lc /\ x = nb)
            \/ (u = nb /\ l = lc /\ x = newId)).
  { intros u l x Hx.
    destruct (Nat.eq_dec l lc) as [->|Hl];
      [|rewrite Felse in Hx by (right; exact Hl); left; exact Hx].
    destruct (string_dec u newId) as [->|Hu1].
    - rewrite Fnew in Hx. apply in_app_or in Hx.
      destruct Hx as [Hx|[<-|[]]]; [left; exact Hx | right; left; auto].
    - destruct (string_dec u nb) as [->|Hu2].
      + apply Fnb_incl in Hx. apply in_app_or in Hx.
        destruct Hx as [Hx|[<-|[]]]; [left; exact Hx | right; right; auto].
      + rewrite Felse in Hx by (left; split; assumption). left. exact Hx. }
  assert (Keep : forall x, In x (neighborsAt this newId lc) ->
                           In x (neighborsAt this' newId lc)).
  { intros x Hx. rewrite Fnew. apply in_or_app. left. exact Hx. }
  split; [|split; [rewrite Fnew, length_app; simpl; lia
                   | split; [exact Fcfg | split; assumption]]].
  constructor.
  - (* cap *)
    intros u l Hul. rewrite Fcap.
    destruct (Nat.eq_dec l lc) as [->|Hl];
      [|rewrite Felse by (right; exact Hl); apply (mid_cap _ _ _ HM);
        right; exact Hl].
    destruct Hul as [Hu|Hl]; [|congruence].
    destruct (string_dec u nb) as [->|Hu2].
    + destruct Fnb as [[-> L]|[_ L]]; [exact L | rewrite L; apply Nat.le_refl].
    + rewrite Felse by (left; split; assumption).
      apply (mid_cap _ _ _ HM). left. exact Hu.
  - (* edges *)
    intros u v l Hv Hvl. rewrite Fcap.
    destruct (Nat.eq_dec l lc) as [->|Hl].
    2:{ rewrite Felse in Hv by (right; exact Hl).
        rewrite !Felse by (right; exact Hl).
        apply (mid_edges _ _ _ HM); [exact Hv | right; exact Hl]. }
    destruct Hvl as [Hvn|Hl]; [|congruence].
    destruct (Origin _ _ _ Hv) as [Hold|[(-> & _ & ->)|(_ & _ & ->)]];
      [| |congruence].
    + destruct (mid_edges _ _ _ HM u v lc Hold (or_introl Hvn)) as [Hin|Hfull].
      * destruct (string_dec v nb) as [->|Hv2].
        -- destruct Fnb as [[-> L]|[_ L]]; [|right; exact L].
           left. apply in_or_app. left. exact Hin.
        -- rewrite Felse by (left; split; assumption). left.
           destruct (string_dec u newId) as [->|Hu1]; [exact Hin|].
           exact Hin.
      * destruct (string_dec v nb) as [->|Hv2].
        -- destruct Fnb as [[_ L]|[_ L]]; [|right; exact L].
           rewrite length_app in L. simpl in L. lia.
        -- rewrite Felse by (left; split; assumption). right. exact Hfull.
    + destruct Fnb as [[-> L]|[_ L]]; [|right; exact L].
      left. apply in_or_app. right. left. reflexivity.
  - (* edges into the new node *)
    intros u Hu.
    destruct (Origin _ _ _ Hu) as [Hold|[(_ & _ & E)|(-> & _ & _)]].
    + apply Keep, (mid_new _ _ _ HM), Hold.
    + congruence.
    + rewrite Fnew. apply in_or_app. right. left. reflexivity.
  - (* closed *)
    intros u v l Hv. rewrite Fkeys.
    destruct (Origin _ _ _ Hv) as [Hold|[(_ & _ & ->)|(_ & _ & ->)]].
    + apply (mid_closed _ _ _ HM u v l Hold).
    + exact Hnb.
    + exact Hnew.
  - (* entry *)
    intros ep Hep. rewrite Fkeys. rewrite Fentry in Hep.
    apply (mid_entry _ _ _ HM ep Hep).
  - (* below *)
    intros u l Hl. rewrite Felse by (right; lia).
    apply (mid_below _ _ _ HM u l Hl).
  - intros l Hl. rewrite Felse by (right; lia).
    apply (mid_new_below _ _ _ HM l Hl).
Qed.

Lemma connectAll_Mid (neighbors : list string) :
  forall (this this' : HNSWIndex) (newId : string) (lc M0 : nat),
    Mid this newId lc ->
    M0 = layerCap this lc ->
    (forall nb, In nb neighbors -> nb <> newId) ->
    connectAll this newId lc M0 neighbors = (Ok tt, this') ->
    Mid this' newId lc
    /\ length (neighborsAt this' newId lc)
       = (length (neighborsAt this newId lc) + length neighbors)%nat
    /\ sameFrame this this'.
Proof.
  induction neighbors as [|nb neighbors IH];
    intros this this' newId lc M0 HM HM0 Hne H; simpl in H.
  - injection H as <-.
    split; [exact HM | split; [simpl; lia | apply sameFrame_refl]].
  - destruct (connect this newId lc M0 nb) as [[[]|e] this1] eqn:C;
      [|inversion H].
    subst M0.
    destruct (connect_Mid _ _ _ _ _ HM C (Hne nb (or_introl eq_refl)))
      as (HM1 & L1 & F1).
    assert (Hcap : layerCap this lc = layerCap this1 lc)
      by (unfold layerCap; rewrite (proj1 F1); reflexivity).
    destruct (IH this1 this' newId lc _ HM1 Hcap
                (fun x Hx => Hne x (or_intror Hx)) H) as (HM' & L' & F').
    split; [exact HM' | split; [rewrite L', L1; simpl; lia|]].
    eapply sameFrame_trans; eassumption.
Qed.

Lemma Between_Mid (this : HNSWIndex) (newId : string) (lc : nat) :
  Between this newId (S lc) -> Mid this newId lc.
Proof.
  intros [HI Hb Hn]. constructor.
  - intros u l _. apply (inv_cap _ HI).
  - intros u v l Hv _. apply (inv_edges _ HI), Hv.
  - intros u Hu. exfalso. apply (Hb u lc (Nat.lt_succ_diag_r lc) Hu).
  - apply (inv_closed _ HI).
  - apply (inv_entry _ HI).
  - intros u l Hl. apply Hb. lia.
  - intros l Hl. apply Hn. lia.
Qed.

Lemma Mid_Between (this : HNSWIndex) (newId : string) (lc : nat) :
  Mid this newId lc ->
  (length (neighborsAt this newId lc) <= layerCap this lc)%nat ->
  Between this newId lc.
Proof.
  intros HM HL. constructor; [constructor|..].
  - intros u l.
    destruct (string_dec u newId) as [->|Hu];
      [|apply (mid_cap _ _ _ HM); left; exact Hu].
    destruct (Nat.eq_dec l lc) as [->|Hl];
      [exact HL | apply (mid_cap _ _ _ HM); right; exact Hl].
  - intros u v l Hv.
    destruct (string_dec v newId) as [->|Hvn];
      [|apply (mid_edges _ _ _ HM); [exact Hv | left; exact Hvn]].
    destruct (Nat.eq_dec l lc) as [->|Hl];
      [|apply (mid_edges _ _ _ HM); [exact Hv | right; exact Hl]].
    left. apply (mid_new _ _ _ HM), Hv.
  - apply (mid_closed _ _ _ HM).
  - apply (mid_entry _ _ _ HM).
  - apply (mid_below _ _ _ HM).
  - apply (mid_new_below _ _ _ HM).
Qed.

(** *** What [searchLayer] can return *)

Section SearchMembers.
Variables (this : HNSWIndex) (query : Vector) (layer ef : nat).
Variable P : string -> Prop.
Hypothesis P_listed : forall u x, In x (neighborsAt this u layer) -> P x.

Let ok (l : list (string * float)) : Prop := Forall (fun c => P (fst c)) l.

Lemma ok_sorted (l : list (string * float)) :
  ok l -> ok (Array_sort byDist l).
Proof.
  unfold ok. rewrite !Forall_forall. intros H c Hc. apply H.
  apply (Permutation_in c (Array_sort_perm byDist l) Hc).
Qed.

Lemma ok_removelast (l : list (string * float)) :
  ok l -> ok (removelast l).
Proof.
  unfold ok. rewrite !Forall_forall. intros H c Hc.
  apply H, removelast_In, Hc.
Qed.

Lemma ok_snoc (l : list (string * float)) (c : string * float) :
  ok l -> P (fst c) -> ok (l ++ [c]).
Proof.
  intros H Hc. apply Forall_app. split; [exact H|]. constructor; [exact Hc|].
  constructor.
Qed.

Lemma visit_members (st st' : SearchState) (nid : string) :
  P nid ->
  visit this query ef st nid = Ok st' ->
  ok (snd (fst st)) -> ok (snd st) ->
  ok (snd (fst st')) /\ ok (snd st').
Proof.
  intros Hn H Hc Hr. destruct st as [[visited cands] results].
  simpl in Hc, Hr. unfold visit in H.
  destruct (Set_has visited nid); [injection H as <-; auto|].
  destruct (getNode this nid) as [neighbor|]; simpl in H; [|discriminate].
  destruct (distanceBetween query (vector neighbor)) as [dist|]; simpl in H;
    [|discriminate].
  match type of H with
  | bind ?check _ = _ => destruct check as [[|]|]
  end; simpl in H; try discriminate.
  - injection H as <-. simpl. split.
    + apply ok_sorted, ok_snoc; assumption.
    + destruct (ef <? _)%nat; [apply ok_removelast|];
        apply ok_sorted, ok_snoc; assumption.
  - injection H as <-. auto.
Qed.

Lemma visitAll_members (neighbors : list string) :
  forall st st',
    Forall P neighbors ->
    visitAll this query ef neighbors st = Ok st' ->
    ok (snd (fst st)) -> ok (snd st) ->
    ok (snd (fst st')) /\ ok (snd st').
Proof.
  induction neighbors as [|nid neighbors IH]; intros st st' HP H Hc Hr;
    simpl in H.
  - injection H as <-. auto.
  - inversion HP as [|? ? Hn HP']; subst.
    destruct (visit this query ef st nid) as [st1|] eqn:V; simpl in H;
      [|discriminate].
    destruct (visit_members st st1 nid Hn V Hc Hr) as [Hc1 Hr1].
    apply (IH st1 st' HP' H Hc1 Hr1).
Qed.

Lemma searchLoop_members (fuel : nat) :
  forall st res,
    searchLoop fuel this query layer ef st = Ok res ->
    ok (snd (fst st)) -> ok (snd st) -> ok res.
Proof.
  induction fuel as [|fuel IH]; intros [[visited cands] results] res H Hc Hr;
    simpl in Hc, Hr; simpl in H;
    (destruct cands as [|current cands]; [injection H as <-; exact Hr|]);
    match type of H with
    | bind ?check _ = _ => destruct check as [[|]|]
    end; simpl in H; try discriminate;
    try (injection H as <-; exact Hr).
  destruct (getNode this (fst current)) as [node|] eqn:G; simpl in H;
    [|discriminate].
  destruct (visitAll this query ef _ (visited, cands, results)) as [st1|] eqn:V;
    simpl in H; [|discriminate].
  inversion Hc as [|? ? _ Hc']; subst.
  assert (HP : Forall P (nth layer (connections node) [])).
  { apply Forall_forall. intros x Hx. apply (P_listed (fst current)).
    unfold neighborsAt. unfold getNode in G.
    destruct (Map_get (nodes this) (fst current)); [|discriminate].
    injection G as ->. exact Hx. }
  destruct (visitAll_members _ _ _ HP V Hc' Hr) as [Hc1 Hr1].
  apply (IH st1 res H Hc1 Hr1).
Qed.

Lemma searchLayer_members (entryPoints res : list string) :
  Forall P entryPoints ->
  searchLayer this query entryPoints layer ef = Ok res ->
  Forall P res.
Proof.
  intros HP H. unfold searchLayer in H.
  destruct (mapResult _ entryPoints) as [initial|] eqn:M; simpl in H;
    [|discriminate].
  destruct (searchLoop _ this query layer ef _) as [results|] eqn:L;
    simpl in H; [|discriminate].
  injection H as <-.
  apply mapResult_tagged in M; [|intros x y; apply tagged_by_distance].
  assert (Hi : ok initial).
  { unfold ok. rewrite Forall_forall. intros c Hc.
    rewrite Forall_forall in HP. apply HP. rewrite <- M.
    apply in_map, Hc. }
  pose proof (searchLoop_members _ _ _ L (ok_sorted _ Hi) (ok_sorted _ Hi))
    as Hres.
  unfold ok in Hres. rewrite Forall_forall in Hres.
  apply Forall_forall. intros x Hx. apply in_map_iff in Hx.
  destruct Hx as (c & <- & Hc). apply Hres, Hc.
Qed.

End SearchMembers.

(** *** One insertion *)

Lemma descend_avoids (this : HNSWIndex) (query : Vector) (level0 : nat)
    (newId : string) (steps : nat) :
  forall nearest res,
    (forall u l, ~ In newId (neighborsAt this u l)) ->
    ~ In newId nearest ->
    descend steps this query level0 nearest = Ok res ->
    ~ In newId res.
Proof.
  induction steps as [|steps IH]; intros nearest res Hfree Hn H; simpl in H.
  - injection H as <-. exact Hn.
  - destruct (searchLayer this query nearest _ 1) as [found|] eqn:Hs;
      simpl in H; [|discriminate].
    apply (IH found res Hfree); [|exact H].
    assert (F : Forall (fun x => x <> newId) found).
    { eapply (searchLayer_members this query) with (P := fun x => x <> newId);
        [| |exact Hs].
      - intros u x Hx ->. apply (Hfree u _ Hx).
      - apply Forall_forall. intros x Hx ->. apply Hn, Hx. }
    rewrite Forall_forall in F. intro Hin. apply (F newId Hin). reflexivity.
Qed.

Lemma insertLayers_Inv (newId : string) (vector0 : Vector) (layers : nat) :
  forall this this' nearest,
    Between this newId layers ->
    ~ In newId nearest ->
    insertLayers layers this newId vector0 nearest = (Ok tt, this') ->
    Inv this' /\ sameFrame this this'.
Proof.
  induction layers as [|lc IH]; intros this this' nearest HB Hn H; simpl in H.
  - injection H as <-. split; [apply (btw_inv _ _ _ HB) | apply sameFrame_refl].
  - destruct (searchLayer this vector0 nearest lc _) as [candidates|] eqn:Hs;
      [|inversion H].
    set (M0 := if (lc =? 0)%nat then (M (config this) * 2)%nat
               else M (config this)) in H.
    destruct (selectNeighbors this vector0 candidates M0) as [neighbors|] eqn:N;
      [|inversion H].
    destruct (connectAll this newId lc M0 neighbors) as [[[]|e] this1] eqn:C;
      [|inversion H].
    assert (Fc : Forall (fun x => x <> newId) candidates).
    { eapply (searchLayer_members this vector0) with (P := fun x => x <> newId);
        [| |exact Hs].
      - intros u x Hx ->.
        apply (btw_below _ _ _ HB u lc (Nat.lt_succ_diag_r lc) Hx).
      - apply Forall_forall. intros x Hx ->. apply Hn, Hx. }
    rewrite Forall_forall in Fc.
    destruct (selectNeighbors_spec _ _ _ _ _ N) as [Hincl Hlen].
    pose proof (Between_Mid _ _ _ HB) as HM.
    destruct (connectAll_Mid neighbors this this1 newId lc M0 HM eq_refl
                (fun nb Hnb => Fc nb (Hincl nb Hnb)) C) as (HM1 & L1 & F1).
    rewrite (btw_new_below _ _ _ HB lc (Nat.lt_succ_diag_r lc)) in L1.
    simpl in L1.
    assert (Hcap : layerCap this1 lc = M0)
      by (unfold layerCap; rewrite (proj1 F1); reflexivity).
    assert (HB1 : Between this1 newId lc).
    { apply Mid_Between; [exact HM1 | rewrite L1, Hcap; exact Hlen]. }
    destruct (IH this1 this' candidates HB1) as [HI F2]; [|exact H|].
    + intro Hin. apply (Fc newId Hin). reflexivity.
    + split; [exact HI | eapply sameFrame_trans; eassumption].
Qed.

(** Storing a node under a fresh id changes no neighbour list. *)
Lemma putNode_fresh (this : HNSWIndex) (newId : string) (vector0 : Vector)
    (level0 : nat) :
  Inv this ->
  Map_has (nodes this) newId = false ->
  let this1 :=
    putNode this {| id := newId; vector := vector0; level := level0;
                    connections := repeat [] (level0 + 1) |} in
  (forall u l, neighborsAt this1 u l = neighborsAt this u l)
  /\ (forall k, Map_has (nodes this1) k
                = String.eqb newId k || Map_has (nodes this) k)
  /\ (forall layers, Between this1 newId layers)
  /\ (forall u l, ~ In newId (neighborsAt this1 u l)).
Proof.
  intros HI Hfresh this1.
  assert (Hsame : forall u l, neighborsAt this1 u l = neighborsAt this u l).
  { intros u l. unfold this1, putNode. simpl id. rewrite neighborsAt_set.
    destruct (String.eqb newId u) eqn:E; [|reflexivity].
    apply String.eqb_eq in E. subst u. simpl connections.
    rewrite nth_repeat. unfold neighborsAt. unfold Map_has in Hfresh.
    destruct (Map_get (nodes this) newId); [discriminate|reflexivity]. }
  assert (Hkeys : forall k, Map_has (nodes this1) k
                            = String.eqb newId k || Map_has (nodes this) k).
  { intro k. unfold this1, putNode. simpl. apply Map_has_set. }
  assert (Hfree : forall u l, ~ In newId (neighborsAt this1 u l)).
  { intros u l Hin. rewrite Hsame in Hin.
    pose proof (inv_closed _ HI u newId l Hin). congruence. }
  split; [exact Hsame|]. split; [exact Hkeys|]. split; [|exact Hfree].
  intro layers. constructor; [constructor|..].
  - intros u l. rewrite Hsame. apply (inv_cap _ HI).
  - intros u v l Hv. rewrite !Hsame in *. apply (inv_edges _ HI), Hv.
  - intros u v l Hv. rewrite Hsame in Hv. rewrite Hkeys.
    rewrite (inv_closed _ HI u v l Hv). apply orb_true_r.
  - intros ep Hep. rewrite Hkeys. unfold this1, putNode in Hep. simpl in Hep.
    rewrite (inv_entry _ HI ep Hep). apply orb_true_r.
  - intros u l _. apply Hfree.
  - intros l _. rewrite Hsame. unfold neighborsAt. unfold Map_has in Hfresh.
    destruct (Map_get (nodes this) newId); [discriminate|reflexivity].
Qed.

Lemma Inv_set_entry (this : HNSWIndex) (ep : string) :
  Inv this -> Map_has (nodes this) ep = true ->
  Inv {| config := config this; nodes := nodes this; entryPoint := Some ep |}.
Proof.
  intros HI Hep. constructor.
  - apply (inv_cap _ HI).
  - apply (inv_edges _ HI).
  - apply (inv_closed _ HI).
  - intros ep' H. simpl in H. injection H as <-. exact Hep.
Qed.

Lemma insert_Inv (this this' : HNSWIndex) (newId : string) (vector0 : Vector)
    (w w' : Levels) :
  Inv this ->
  Map_has (nodes this) newId = false ->
  insert this newId vector0 w = (Ok tt, this', w') ->
  Inv this'
  /\ config this' = config this
  /\ forall k, Map_has (nodes this') k
               = String.eqb newId k || Map_has (nodes this) k.
Proof.
  intros HI Hfresh H. unfold insert in H.
  destruct (selectLevel w) as [[level0|] w1]; [|inversion H].
  destruct (putNode_fresh this newId vector0 level0 HI Hfresh)
    as (Hsame & Hkeys & HB & Hfree).
  set (this1 := putNode this _) in *.
  assert (Hnew : Map_has (nodes this1) newId = true)
    by (rewrite Hkeys, String.eqb_refl; reflexivity).
  destruct (entryPoint this1) as [ep|] eqn:Eep.
  - destruct (getNode this1 ep) as [entryNode|]; [|inversion H].
    destruct (descend _ this1 vector0 level0 [ep]) as [nearest|] eqn:D;
      [|inversion H].
    destruct (insertLayers (level0 + 1) this1 newId vector0 nearest)
      as [[[]|e] this2] eqn:L; [|inversion H].
    assert (Hep : ep <> newId).
    { intros ->. unfold this1, putNode in Eep. simpl in Eep.
      pose proof (inv_entry _ HI newId Eep). congruence. }
    assert (Hn : ~ In newId nearest).
    { eapply (descend_avoids this1 vector0 level0 newId); [exact Hfree| |exact D].
      intros [E|[]]. congruence. }
    destruct (insertLayers_Inv newId vector0 _ this1 this2 nearest
                (HB _) Hn L) as (HI2 & C2 & E2 & K2).
    assert (Hres : Inv this2 /\ config this2 = config this
                   /\ forall k, Map_has (nodes this2) k
                                = String.eqb newId k || Map_has (nodes this) k).
    { split; [exact HI2|]. split; [rewrite C2; reflexivity|].
      intro k. rewrite K2. apply Hkeys. }
    destruct (level entryNode <? level0)%nat; injection H as <- _.
    + split; [|exact (proj2 Hres)].
      apply Inv_set_entry; [exact HI2|]. rewrite K2. exact Hnew.
    + exact Hres.
  - injection H as <- _. split; [|split; [reflexivity | exact Hkeys]].
    exact (Inv_set_entry this1 newId (btw_inv _ _ _ (HB O)) Hnew).
Qed.

Lemma Inv_new (c : HNSWConfig) : Inv (new c).
Proof.
  constructor; try (intros; simpl; apply Nat.le_0_l); try contradiction;
    discriminate.
Qed.

Lemma insertAll_Inv (calls : list (string * Vector)) :
  forall this st w w' rs,
    Inv this ->
    NoDup (map fst calls) ->
    (forall c, In c (map fst calls) -> Map_has (nodes this) c = false) ->
    insertAll this calls w = (rs, st, w') ->
    Forall (fun r => r = Ok tt) rs ->
    Inv st /\ config st = config this.
Proof.
  induction calls as [|[newId vector0] calls IH];
    intros this st w w' rs HI Hnd Hfresh H Hok; simpl in H.
  - injection H as _ <- _. split; [exact HI | reflexivity].
  - destruct (insert this newId vector0 w) as [[r this1] w1] eqn:I.
    destruct (insertAll this1 calls w1) as [[rs1 st1] w2] eqn:A.
    injection H as <- <- <-.
    inversion Hok as [|? ? Hr Hok1]; subst.
    simpl in Hnd. inversion Hnd as [|? ? Hnotin Hnd1]; subst.
    destruct (insert_Inv this this1 newId vector0 w w1 HI
                (Hfresh newId (or_introl eq_refl)) I) as (HI1 & C1 & K1).
    destruct (IH this1 st1 w1 w2 rs1 HI1 Hnd1) as [HIs Cs];
      [|exact A|exact Hok1|split; [exact HIs | congruence]].
    intros c Hc. rewrite K1.
    rewrite (Hfresh c (or_intror Hc)), orb_false_r.
    apply String.eqb_neq. intros ->. apply Hnotin, Hc.
Qed.

(** *** The bound of the search loop is never reached *)


Lemma bounded_bind {A B : Type} (r : Result A) (k : A -> Result B) :
  notExhausted r -> (forall a, r = Ok a -> notExhausted (k a)) -> notExhausted (bind r k).
Proof.
  intros Hr Hk. destruct r as [a|e]; simpl; [apply Hk; reflexivity|].
  intro H. apply Hr. injection H as ->. reflexivity.
Qed.

Lemma bounded_mapResult {A B : Type} (f : A -> Result B) (l : list A) :
  (forall x, notExhausted (f x)) -> notExhausted (mapResult f l).
Proof.
  intro Hf. induction l as [|x l IH]; simpl; [discriminate|].
  apply bounded_bind; [apply Hf|]. intros y _.
  apply bounded_bind; [exact IH|]. discriminate.
Qed.

Lemma bounded_getNode (this : HNSWIndex) (x : string) :
  notExhausted (getNode this x).
Proof. unfold getNode. destruct (Map_get _ _); discriminate. Qed.

Lemma bounded_distance (a b : Vector) : notExhausted (distanceBetween a b).
Proof.
  unfold distanceBetween, cosineSimilarity, Embedding.cosineSimilarity.
  destruct (negb _); [discriminate|].
  destruct (fold_left _ _ _) as [[d na] nb]. discriminate.
Qed.

Lemma bounded_worstDist (results : list (string * float)) :
  notExhausted (worstDist results).
Proof. unfold worstDist. destruct (last _ _); discriminate. Qed.

Lemma bounded_tagged (this : HNSWIndex) (v : Vector) (x : string) :
  notExhausted (bind (getNode this x)
             (fun node => bind (distanceBetween v (vector node))
                               (fun dist => Ok (x, dist)))).
Proof.
  apply bounded_bind; [apply bounded_getNode|]. intros node _.
  apply bounded_bind; [apply bounded_distance|]. discriminate.
Qed.


Lemma Map_get_key {V : Type} (m : list (string * V)) (k : string) (v : V) :
  Map_get m k = Some v -> In k (Map_keys m).
Proof.
  intro H. apply Map_get_In in H. apply (in_map fst) in H. exact H.
Qed.

Lemma unvisited_add (this : HNSWIndex) (visited : list string) (nid : string) :
  Set_has visited nid = false ->
  In nid (Map_keys (nodes this)) ->
  (S (unvisited this (visited ++ [nid])) <= unvisited this visited)%nat.
Proof.
  unfold unvisited. generalize (Map_keys (nodes this)) as keys.
  intros keys Hv Hin.
  assert (Hmono : forall ks,
            (length (filter (fun k => negb (Set_has (visited ++ [nid]) k)) ks)
             <= length (filter (fun k => negb (Set_has visited k)) ks))%nat).
  { induction ks as [|k ks IH]; simpl; [lia|].
    unfold Set_has at 1. rewrite existsb_app. fold (Set_has visited k).
    destruct (Set_has visited k); simpl; [exact IH|].
    destruct (String.eqb k nid); simpl; lia. }
  induction keys as [|k keys IH]; [contradiction|].
  simpl. destruct Hin as [->|Hin].
  - rewrite Hv. unfold Set_has at 1. rewrite existsb_app. simpl.
    rewrite String.eqb_refl, orb_true_r. simpl.
    specialize (Hmono keys). simpl. lia.
  - specialize (IH Hin).
    unfold Set_has at 1. rewrite existsb_app. fold (Set_has visited k).
    destruct (Set_has visited k); simpl; [exact IH|].
    destruct (String.eqb k nid); simpl; lia.
Qed.

Lemma visit_measure (this : HNSWIndex) (query : Vector) (ef : nat)
    (st st' : SearchState) (nid : string) :
  visit this query ef st nid = Ok st' ->
  (measure this st' <= measure this st)%nat.
Proof.
  destruct st as [[visited cands] results]. unfold visit, measure.
  destruct (Set_has visited nid) eqn:Hv; [intro H; injection H as <-; lia|].
  unfold getNode.
  destruct (Map_get (nodes this) nid) as [neighbor|] eqn:G; simpl;
    [|discriminate].
  pose proof (unvisited_add this visited nid Hv (Map_get_key _ _ _ G)) as U.
  destruct (distanceBetween query (vector neighbor)) as [dist|]; simpl;
    [|discriminate].
  intro H.
  match type of H with
  | bind ?check _ = _ => destruct check as [[|]|]
  end; simpl in H; try discriminate; injection H as <-; simpl.
  - rewrite Array_sort_length, length_app. simpl. lia.
  - lia.
Qed.

Lemma visitAll_measure (this : HNSWIndex) (query : Vector) (ef : nat)
    (neighbors : list string) :
  forall st st',
    visitAll this query ef neighbors st = Ok st' ->
    (measure this st' <= measure this st)%nat.
Proof.
  induction neighbors as [|nid neighbors IH]; intros st st' H; simpl in H.
  - injection H as <-. lia.
  - destruct (visit this query ef st nid) as [st1|] eqn:V; simpl in H;
      [|discriminate].
    pose proof (visit_measure _ _ _ _ _ _ V). pose proof (IH _ _ H). lia.
Qed.

Lemma bounded_visit (this : HNSWIndex) (query : Vector) (ef : nat)
    (st : SearchState) (nid : string) :
  notExhausted (visit this query ef st nid).
Proof.
  destruct st as [[visited cands] results]. unfold visit.
  destruct (Set_has visited nid); [discriminate|].
  apply bounded_bind; [apply bounded_getNode|]. intros neighbor _.
  apply bounded_bind; [apply bounded_distance|]. intros dist _.
  apply bounded_bind.
  - destruct (_ <? ef)%nat; [discriminate|].
    apply bounded_bind; [apply bounded_worstDist|]. discriminate.
  - intros [|] _; discriminate.
Qed.

Lemma bounded_visitAll (this : HNSWIndex) (query : Vector) (ef : nat)
    (neighbors : list string) :
  forall st, notExhausted (visitAll this query ef neighbors st).
Proof.
  induction neighbors as [|nid neighbors IH]; intro st; simpl;
    [discriminate|].
  apply bounded_bind; [apply bounded_visit|]. intros st1 _. apply IH.
Qed.

Lemma bounded_searchLoop (this : HNSWIndex) (query : Vector) (layer ef : nat)
    (fuel : nat) :
  forall st, (measure this st <= fuel)%nat ->
             notExhausted (searchLoop fuel this query layer ef st).
Proof.
  induction fuel as [|fuel IH]; intros [[visited cands] results] Hm;
    unfold measure in Hm; simpl in Hm; simpl;
    (destruct cands as [|current cands]; [discriminate|]); simpl in Hm;
    try lia.
  apply bounded_bind.
  - destruct (ef <=? _)%nat; [|discriminate].
    apply bounded_bind; [apply bounded_worstDist|]. discriminate.
  - intros [|] _; [discriminate|].
    apply bounded_bind; [apply bounded_getNode|]. intros node _.
    destruct (visitAll this query ef _ (visited, cands, results))
      as [st1|e] eqn:V.
    + simpl. apply IH.
      pose proof (visitAll_measure _ _ _ _ _ _ V) as Hle.
      unfold measure in Hle at 2. simpl in Hle. lia.
    + simpl. pose proof (bounded_visitAll this query ef
                           (nth layer (connections node) [])
                           (visited, cands, results)) as B.
      rewrite V in B. intro H. apply B. injection H as ->. reflexivity.
Qed.

(** [searchLayer] never stops at the bound: it returns, or throws what the
    source throws. *)
Lemma bounded_searchLayer (this : HNSWIndex) (query : Vector)
    (entryPoints : list string) (layer ef : nat) :
  notExhausted (searchLayer this query entryPoints layer ef).
Proof.
  unfold searchLayer.
  apply bounded_bind; [apply bounded_mapResult; intro; apply bounded_tagged|].
  intros initial _.
  apply bounded_bind; [|discriminate].
  apply bounded_searchLoop. unfold measure, unvisited. simpl.
  rewrite Array_sort_length.
  pose proof (filter_length_le
                (fun k => negb (Set_has (map fst initial) k))
                (Map_keys (nodes this))) as F.
  unfold Map_keys in *. rewrite length_map in F. lia.
Qed.

Lemma bounded_descend (this : HNSWIndex) (query : Vector) (level0 : nat)
    (steps : nat) :
  forall nearest, notExhausted (descend steps this query level0 nearest).
Proof.
  induction steps as [|steps IH]; intro nearest; simpl; [discriminate|].
  apply bounded_bind; [apply bounded_searchLayer|]. intros found _. apply IH.
Qed.

Lemma bounded_selectNeighbors (this : HNSWIndex) (v : Vector)
    (candidates : list string) (M0 : nat) :
  notExhausted (selectNeighbors this v candidates M0).
Proof.
  unfold selectNeighbors. destruct (_ <=? M0)%nat; [discriminate|].
  apply bounded_bind; [|discriminate].
  apply bounded_mapResult. intro. apply bounded_tagged.
Qed.

Lemma bounded_pruneConnections (this : HNSWIndex) (node : HNSWNode)
    (l M0 : nat) :
  notExhausted (pruneConnections this node l M0).
Proof.
  unfold pruneConnections. destruct (_ <=? M0)%nat; [discriminate|].
  apply bounded_bind; [|discriminate].
  apply bounded_mapResult. intro. apply bounded_tagged.
Qed.

Lemma bounded_pushConnection (this : HNSWIndex) (n : string) (l : nat)
    (x : string) :
  notExhausted (pushConnection this n l x).
Proof.
  unfold pushConnection.
  apply bounded_bind; [apply bounded_getNode|]. intros node _.
  destruct (setConnections _ _ _); discriminate.
Qed.

Lemma bounded_connect (this : HNSWIndex) (newId nb : string) (lc M0 : nat) :
  notExhausted (fst (connect this newId lc M0 nb)).
Proof.
  unfold connect.
  pose proof (bounded_pushConnection this newId lc nb) as B1.
  destruct (pushConnection this newId lc nb) as [this1|e]; simpl;
    [|intro H; apply B1; injection H as ->; reflexivity].
  pose proof (bounded_pushConnection this1 nb lc newId) as B2.
  destruct (pushConnection this1 nb lc newId) as [this2|e]; simpl;
    [|intro H; apply B2; injection H as ->; reflexivity].
  pose proof (bounded_getNode this2 nb) as B3.
  destruct (getNode this2 nb) as [nbNode|e]; simpl;
    [|intro H; apply B3; injection H as ->; reflexivity].
  destruct (M0 <? _)%nat; [|discriminate].
  pose proof (bounded_pruneConnections this2 nbNode lc M0) as B4.
  destruct (pruneConnections this2 nbNode lc M0) as [pruned|e]; simpl;
    [|intro H; apply B4; injection H as ->; reflexivity].
  destruct (setConnections nbNode lc pruned); discriminate.
Qed.

Lemma bounded_connectAll (newId : string) (lc M0 : nat)
    (neighbors : list string) :
  forall this, notExhausted (fst (connectAll this newId lc M0 neighbors)).
Proof.
  induction neighbors as [|nb neighbors IH]; intro this; simpl;
    [discriminate|].
  pose proof (bounded_connect this newId nb lc M0) as B.
  destruct (connect this newId lc M0 nb) as [[[]|e] this1]; simpl in *;
    [apply IH | exact B].
Qed.

Lemma bounded_insertLayers (newId : string) (vector0 : Vector) (layers : nat) :
  forall this nearest,
    notExhausted (fst (insertLayers layers this newId vector0 nearest)).
Proof.
  induction layers as [|lc IH]; intros this nearest; simpl; [discriminate|].
  pose proof (bounded_searchLayer this vector0 nearest lc
                (efConstruction (config this))) as B1.
  destruct (searchLayer this vector0 nearest lc _) as [candidates|e]; simpl;
    [|intro H; apply B1; injection H as ->; reflexivity].
  match goal with
  | |- context [selectNeighbors this vector0 candidates ?m] =>
      pose proof (bounded_selectNeighbors this vector0 candidates m) as B2;
      destruct (selectNeighbors this vector0 candidates m) as [neighbors|e];
      simpl; [|intro H; apply B2; injection H as ->; reflexivity];
      pose proof (bounded_connectAll newId lc m neighbors this) as B3;
      destruct (connectAll this newId lc m neighbors) as [[[]|e] this1];
      simpl in *; [apply IH | exact B3]
  end.
Qed.

(** [insert] and [search] return, or throw what the source throws: the
    model's loop bound plays no part in their outcome. *)
Lemma bounded_insert (this : HNSWIndex) (newId : string) (vector0 : Vector)
    (w : Levels) :
  notExhausted (fst (fst (insert this newId vector0 w))).
Proof.
  unfold insert. destruct (selectLevel w) as [[level0|] w1]; [|discriminate].
  set (this1 := putNode this _).
  destruct (entryPoint this1) as [ep|]; [|discriminate].
  pose proof (bounded_getNode this1 ep) as B1.
  destruct (getNode this1 ep) as [entryNode|e]; simpl;
    [|intro H; apply B1; injection H as ->; reflexivity].
  pose proof (bounded_descend this1 vector0 level0
                (level entryNode - level0) [ep]) as B2.
  destruct (descend _ this1 vector0 level0 [ep]) as [nearest|e]; simpl;
    [|intro H; apply B2; injection H as ->; reflexivity].
  pose proof (bounded_insertLayers newId vector0 (level0 + 1) this1 nearest)
    as B3.
  destruct (insertLayers (level0 + 1) this1 newId vector0 nearest)
    as [[[]|e] this2]; simpl in *; [discriminate | exact B3].
Qed.

Lemma bounded_search (this : HNSWIndex) (query : Vector) (k : Z) :
  notExhausted (search this query k).
Proof.
  assert (E : notExhausted (exactSearch this query k)).
  { unfold exactSearch. apply bounded_bind; [|discriminate].
    apply bounded_mapResult. intros [nid node].
    apply bounded_bind; [|discriminate].
    unfold cosineSimilarity, Embedding.cosineSimilarity.
    destruct (negb _); [discriminate|].
    destruct (fold_left _ _ _) as [[d na] nb]. discriminate. }
  unfold search. destruct (_ =? 0)%nat; [discriminate|].
  destruct (entryPoint this) as [ep|]; [|exact E].
  destruct (_ =? 1)%nat; [exact E|].
  apply bounded_bind; [apply bounded_getNode|]. intros entryNode _.
  apply bounded_bind; [apply bounded_descend|]. intros nearest _.
  apply bounded_bind; [apply bounded_searchLayer|]. intros found _.
  apply bounded_mapResult. intro nid.
  apply bounded_bind; [apply bounded_getNode|]. intros node _.
  apply bounded_bind; [apply bounded_distance|]. intros d _.
  apply bounded_bind; [|discriminate].
  unfold cosineSimilarity, Embedding.cosineSimilarity.
  destruct (negb _); [discriminate|].
  destruct (fold_left _ _ _) as [[d' na] nb]. discriminate.
Qed.

End HNSWFacts.

(** C1, as the code has it.  After any sequence of [insert] calls with
    pairwise distinct ids, each of which returned, no neighbour list is
    longer than the cap of its layer (2M at layer 0, M above), and every
    edge is bidirectional unless the list of its target is full: if [v] is
    in the layer-[l] list of [u], then [u] is in the layer-[l] list of [v]
    or that list has exactly the cap's length.  (An edge is written in
    both directions; pruning a list that exceeds the cap drops entries
    from that list only.) *)
Theorem hnsw_cap_and_edges_after_inserts
    (c : HNSW.HNSWConfig) (calls : list (string * HNSW.Vector))
    (w w' : HNSW.Levels) (outcomes : list (Result unit))
    (index : HNSW.HNSWIndex) :
  NoDup (map fst calls) ->
  HNSW.insertAll (HNSW.new c) calls w = (outcomes, index, w') ->
  Forall (fun r => r = Ok tt) outcomes ->
  forall (u : string) (l : nat),
    (length (HNSW.neighborsAt index u l) <= HNSW.layerCap index l)%nat
    /\ forall v,
         In v (HNSW.neighborsAt index u l) ->
         In u (HNSW.neighborsAt index v l)
         \/ length (HNSW.neighborsAt index v l) = HNSW.layerCap index l.
Proof.
  intros Hnd Hrun Hok u l.
  destruct (insertAll_Inv calls (HNSW.new c) index w w' outcomes
              (Inv_new c) Hnd (fun _ _ => eq_refl) Hrun Hok) as [HI _].
  split; [apply (HNSW.inv_cap _ HI) | intro v; apply (HNSW.inv_edges _ HI)].
Qed.

Lemma hnsw_cap_and_edges_after_inserts_witness :
  exists (index : HNSW.HNSWIndex),
    fst (HNSW.insertAll Scenario.hnsw2 Scenario.six_inserts Scenario.levels0)
    = ([Ok tt; Ok tt; Ok tt; Ok tt; Ok tt; Ok tt], index)
    /\ forall (u : string) (l : nat),
         (length (HNSW.neighborsAt index u l) <= HNSW.layerCap index l)%nat
         /\ forall v,
              In v (HNSW.neighborsAt index u l) ->
              In u (HNSW.neighborsAt index v l)
              \/ length (HNSW.neighborsAt index v l) = HNSW.layerCap index l.
Proof.
  destruct (HNSW.insertAll Scenario.hnsw2 Scenario.six_inserts
              Scenario.levels0) as [[outcomes index] w'] eqn:Run.
  assert (Hout : outcomes = [Ok tt; Ok tt; Ok tt; Ok tt; Ok tt; Ok tt]).
  { apply (f_equal (fun r => fst (fst r))) in Run. vm_compute in Run.
    symmetry. exact Run. }
  exists index. split; [simpl; rewrite Hout; reflexivity|].
  apply (hnsw_cap_and_edges_after_inserts
           {| HNSW.cfg_M := Some 2%nat; HNSW.cfg_efConstruction := None;
              HNSW.cfg_efSearch := None |}
           Scenario.six_inserts Scenario.levels0 w' outcomes index).
  - repeat constructor; simpl; intuition discriminate.
  - exact Run.
  - rewrite Hout. repeat constructor.
Defined.

(** A call whose drawn level is above the level of the entry node throws:
    the loop over the layers starts at the new node's level, where the
    entry node has no neighbour list.  The new node is stored by then, with
    the entry node already pushed onto its list. *)
Lemma hnsw_insert_above_entry_level_throws :
  let levels :=
    {| HNSW.level_at := fun n => match n with O => Some 0%nat | _ => Some 1%nat end;
       HNSW.levels_drawn := 0 |} in
  let '(outcomes, index, _) :=
    HNSW.insertAll Scenario.hnsw2 (firstn 2 Scenario.six_inserts) levels in
  outcomes = [Ok tt; Throw TypeError]
  /\ HNSW.entryPoint index = Some "n1"%string
  /\ HNSW.neighborsAt index "n2" 1 = ["n1"%string]
  /\ HNSW.neighborsAt index "n1" 1 = [].
Proof.
  vm_compute. repeat split.
Qed.

(** Inserting an id a second time replaces its node by a fresh one while
    the other nodes keep their entries for it.  Here n1 is the entry node,
    so the second [insert("n1", _)] searches from the fresh node itself and
    connects it to itself, twice; n2 still lists n1. *)
Lemma hnsw_reinsert_forgets_edges :
  let calls := firstn 2 Scenario.six_inserts ++ firstn 1 Scenario.six_inserts in
  let '(outcomes, index, _) :=
    HNSW.insertAll Scenario.hnsw2 calls Scenario.levels0 in
  outcomes = [Ok tt; Ok tt; Ok tt]
  /\ HNSW.neighborsAt index "n2" 0 = ["n1"%string]
  /\ HNSW.neighborsAt index "n1" 0 = ["n1"%string; "n1"%string]
  /\ HNSW.layerCap index 0 = 4%nat.
Proof.
  vm_compute. repeat split.
Qed.

(** C1 as stated fails.  With M = 2 the cap of layer 0 is 4.  Six nodes are
    inserted, all at level 0 (the level drawn whenever [Math.random()] is
    above 1/2), and every call returns.  The first five are connected to
    each other; inserting n6 adds n6 to the full list of n1, which is
    pruned to its four closest and drops n5: n1 stays in the list of n5,
    n5 is no longer in the list of n1. *)
Lemma hnsw_pruning_breaks_bidirectionality :
  let '(outcomes, index, _) :=
    HNSW.insertAll Scenario.hnsw2 Scenario.six_inserts Scenario.levels0 in
  outcomes = [Ok tt; Ok tt; Ok tt; Ok tt; Ok tt; Ok tt]
  /\ HNSW.neighborsAt index "n5" 0
     = ["n4"%string; "n3"%string; "n2"%string; "n1"%string]
  /\ HNSW.neighborsAt index "n1" 0
     = ["n6"%string; "n2"%string; "n3"%string; "n4"%string]
  /\ In "n1"%string (HNSW.neighborsAt index "n5" 0)
  /\ ~ In "n5"%string (HNSW.neighborsAt index "n1" 0).
Proof.
  vm_compute. repeat split; auto.
  intros [H|[H|[H|[H|[]]]]]; discriminate.
Qed.

(* ================================================================== *)
(** * Further properties                                                *)
(* ================================================================== *)

(** ** The embedding *)

(** X1.  [simpleHash] returns a non-negative integer below 2^53, whatever the
    string and the seed: a number that a double holds exactly, so that
    [Math.abs] leaves it alone and [%] is exact on it. *)
Theorem simpleHash_safe_integer (s : string) (seed : Z) :
  (0 <= Embedding.simpleHash s seed < 2 ^ 53)%Z.
Proof.
  unfold Embedding.simpleHash.
  destruct (fold_left _ (chars s) _) as [h1 h2].
  assert (Ha : forall x, (0 <= Embedding.ushr x 0 < 4294967296)%Z).
  { intro x. unfold Embedding.ushr, Embedding.u32. rewrite Z.shiftr_0_r.
    apply Z.mod_pos_bound. reflexivity. }
  assert (Hb : forall x, (0 <= Z.land 2097151 x < 2097152)%Z).
  { intro x. rewrite Z.land_comm. change 2097151%Z with (Z.ones 21).
    rewrite Z.land_ones by lia. apply Z.mod_pos_bound. reflexivity. }
  match goal with
  | |- (0 <= 4294967296 * Z.land 2097151 ?x + Embedding.ushr ?y 0 < _)%Z =>
      specialize (Ha y); specialize (Hb x)
  end.
  change (2 ^ 53)%Z with (4294967296 * 2097152)%Z. lia.
Qed.

(** The characters of a token: lower-case letters, digits and [_]. *)
Lemma lowered_word_char (c : ascii) :
  is_word (lower_char c) = true ->
  let n := nat_of_ascii (lower_char c) in
  (48 <= n <= 57 \/ 97 <= n <= 122 \/ n = 95)%nat.
Proof.
  destruct c as [[] [] [] [] [] [] [] []]; vm_compute; intro H;
    try discriminate H; lia.
Qed.

Lemma split_ws_chars (P : ascii -> Prop) (s : list ascii) :
  forall cur in_ws,
    Forall P cur ->
    Forall (fun c => is_space c = false -> P c) s ->
    Forall (fun token => Forall P (chars token))
           (Embedding.split_ws s cur in_ws).
Proof.
  induction s as [|c s IH]; intros cur in_ws Hcur Hs; simpl.
  - constructor; [|constructor]. rewrite chars_str.
    apply Forall_rev, Hcur.
  - inversion Hs as [|? ? Hc Hs']; subst.
    destruct (is_space c) eqn:E.
    + destruct in_ws.
      * apply IH; assumption.
      * constructor; [rewrite chars_str; apply Forall_rev, Hcur|].
        apply IH; [constructor | assumption].
    + apply IH; [constructor; [apply Hc; reflexivity | exact Hcur] | assumption].
Qed.

(** X2.  Every token that [tokenize] returns has at least three characters, all
    of them lower-case ASCII letters, digits or underscores, whatever the
    text. *)
Theorem tokenize_tokens_are_lowercase_words (text : string) :
  Forall (fun token =>
            (3 <= String.length token)%nat
            /\ Forall (fun c => let n := nat_of_ascii c in
                                (48 <= n <= 57 \/ 97 <= n <= 122 \/ n = 95)%nat)
                      (chars token))
         (Embedding.tokenize text).
Proof.
  unfold Embedding.tokenize. apply Forall_forall. intros token Hin.
  apply filter_In in Hin. destruct Hin as [Hin Hlen]. split.
  - apply Nat.ltb_lt in Hlen. lia.
  - clear Hlen. revert token Hin. apply Forall_forall.
    apply split_ws_chars; [constructor|].
    apply Forall_forall. intros c Hc Hsp.
    apply in_map_iff in Hc. destruct Hc as (c0 & <- & Hc0).
    apply in_map_iff in Hc0. destruct Hc0 as (c1 & <- & _).
    destruct (is_word (lower_char c1)) eqn:W.
    + simpl in *. apply lowered_word_char, W.
    + simpl in Hsp. destruct (is_space (lower_char c1)) eqn:S1; simpl in *.
      * congruence.
      * discriminate Hsp.
Qed.

Lemma zero_norm (dimensions : nat) :
  fold_left (fun norm x => norm + x * x) (repeat 0 dimensions) 0 = 0.
Proof.
  induction dimensions as [|n IH]; simpl; [reflexivity|].
  change (0 + 0 * 0) with 0. exact IH.
Qed.

(** X3.  A text without a token (no run of three or more word characters) is
    embedded as the zero vector: the normalisation is skipped when the
    norm is 0, so no entry is NaN. *)
Theorem embed_without_tokens_is_zero (text : string) (dimensions : nat) :
  Embedding.tokenize text = [] ->
  Embedding.embedText text dimensions = repeat 0 dimensions.
Proof.
  intro H. unfold Embedding.embedText. rewrite H. simpl.
  rewrite zero_norm. reflexivity.
Qed.

Lemma embed_without_tokens_is_zero_witness :
  Embedding.embedText "a b, it is!" 4 = repeat 0 4%nat.
Proof.
  apply (embed_without_tokens_is_zero "a b, it is!" 4). reflexivity.
Defined.

Lemma lower_char_idempotent (c : ascii) :
  lower_char (lower_char c) = lower_char c.
Proof.
  destruct c as [[] [] [] [] [] [] [] []]; reflexivity.
Qed.

(** X4.  The embedding ignores case: a text and its lower-cased copy tokenize
    alike, so they are embedded alike. *)
Theorem embed_ignores_case (text : string) (dimensions : nat) :
  Embedding.tokenize (toLowerCase text) = Embedding.tokenize text
  /\ Embedding.embedText (toLowerCase text) dimensions
     = Embedding.embedText text dimensions.
Proof.
  assert (T : Embedding.tokenize (toLowerCase text) = Embedding.tokenize text).
  { unfold Embedding.tokenize, toLowerCase. rewrite chars_str.
    rewrite (map_map lower_char lower_char).
    rewrite (map_ext _ lower_char lower_char_idempotent). reflexivity. }
  split; [exact T|].
  unfold Embedding.embedText. rewrite T. reflexivity.
Qed.

(** ** Floating-point facts *)

Lemma SFmul_comm (x y : spec_float) :
  SFmul prec emax x y = SFmul prec emax y x.
Proof.
  destruct x as [sx|sx| |sx mx ex], y as [sy|sy| |sy my ey]; simpl;
    try reflexivity; try (rewrite (xorb_comm sx sy); reflexivity).
  rewrite (xorb_comm sx sy), (Pos.mul_comm mx my), (Z.add_comm ex ey).
  reflexivity.
Qed.

Lemma float_mul_comm (x y : float) : x * y = y * x.
Proof.
  apply Prim2SF_inj. rewrite !mul_spec. apply SFmul_comm.
Qed.

Lemma cosine_sums_swap (a : list float) :
  forall b dotProduct normA normB,
    fold_left
      (fun (acc : float * float * float) (xy : float * float) =>
         let '(dotProduct, normA, normB) := acc in
         let '(x, y) := xy in
         (dotProduct + x * y, normA + x * x, normB + y * y))
      (combine b a) (dotProduct, normB, normA)
    = let '(d, na, nb) :=
        fold_left
          (fun (acc : float * float * float) (xy : float * float) =>
             let '(dotProduct, normA, normB) := acc in
             let '(x, y) := xy in
             (dotProduct + x * y, normA + x * x, normB + y * y))
          (combine a b) (dotProduct, normA, normB) in
      (d, nb, na).
Proof.
  induction a as [|x a IH]; intros b d na nb.
  - destruct b; reflexivity.
  - destruct b as [|y b]; [reflexivity|]. simpl.
    rewrite (float_mul_comm y x). apply IH.
Qed.

(** X5.  Cosine similarity is symmetric, bit for bit: swapping the arguments
    swaps the two norms and leaves every product as it was.  It throws
    exactly when the two vectors differ in length. *)
Theorem cosineSimilarity_symmetric (a b : list float) :
  Embedding.cosineSimilarity a b = Embedding.cosineSimilarity b a
  /\ ((exists e, Embedding.cosineSimilarity a b = Throw e)
      <-> length a <> length b).
Proof.
  unfold Embedding.cosineSimilarity. split.
  - rewrite (Nat.eqb_sym (length b) (length a)).
    destruct (length a =? length b)%nat; simpl; [|reflexivity].
    rewrite (cosine_sums_swap a b 0 0 0).
    destruct (fold_left _ (combine a b) (0, 0, 0)) as [[d na] nb].
    rewrite (float_mul_comm (sqrt nb) (sqrt na)). reflexivity.
  - destruct (length a =? length b)%nat eqn:E; simpl.
    + apply Nat.eqb_eq in E. split; [|congruence].
      intros [e H]. destruct (fold_left _ _ _) as [[d na] nb]. discriminate.
    + apply Nat.eqb_neq in E. split; [intros _; exact E|].
      intros _. eexists. reflexivity.
Qed.

(** ** Base64 transport *)

Section Base64Facts.
Import Embedding.
#[local] Open Scope nat_scope.

Lemma list_ind3 {A : Type} (P : list A -> Prop) :
  P [] -> (forall a, P [a]) -> (forall a b, P [a; b]) ->
  (forall a b c l, P l -> P (a :: b :: c :: l)) ->
  forall l, P l.
Proof.
  intros H0 H1 H2 H3.
  assert (H : forall l, P l /\ (forall a, P (a :: l))
                        /\ (forall a b, P (a :: b :: l))).
  { induction l as [|x l (IH0 & IH1 & IH2)].
    - split; [exact H0|]. split; [exact H1 | exact H2].
    - split; [apply IH1|]. split; [intro a; apply IH2|].
      intros a b. apply H3, IH0. }
  intro l. apply H.
Qed.

Lemma byte_bound (c : ascii) : nat_of_ascii c < 256.
Proof. apply nat_ascii_bounded. Qed.

Ltac euclid :=
  zify; Z.to_euclidean_division_equations; lia.

(** Every group is a 6-bit value. *)
Lemma sextets_bound (s : list ascii) : Forall (fun v => v < 64) (sextets s).
Proof.
  induction s as [|a|a b|a b c s IH] using list_ind3; cbn [sextets].
  - constructor.
  - pose proof (byte_bound a).
    constructor; [euclid|]. constructor; [euclid|]. constructor.
  - pose proof (byte_bound a). pose proof (byte_bound b).
    constructor; [euclid|]. constructor; [euclid|]. constructor; [euclid|].
    constructor.
  - pose proof (byte_bound a). pose proof (byte_bound b).
    pose proof (byte_bound c).
    constructor; [euclid|]. constructor; [euclid|]. constructor; [euclid|].
    constructor; [euclid|]. exact IH.
Qed.

Lemma sextets_length (s : list ascii) :
  length (sextets s) mod 4 <> 1
  /\ (length (sextets s) + length (padding (length s))) mod 4 = 0.
Proof.
  unfold padding.
  induction s as [|a|a b|a b c s [IH1 IH2]] using list_ind3;
    cbn [sextets length]; try (split; [discriminate | reflexivity]).
  replace (S (S (S (length s)))) with (length s + 1 * 3) by lia.
  rewrite Nat.Div0.mod_add.
  replace (S (S (S (S (length (sextets s))))))
    with (length (sextets s) + 1 * 4) by lia.
  split.
  - rewrite Nat.Div0.mod_add. exact IH1.
  - replace (length (sextets s) + 1 * 4
             + length match length s mod 3 with
                      | 0 => []
                      | 1 => ["="%char; "="%char]
                      | S (S _) => ["="%char]
                      end)
      with (length (sextets s)
            + length match length s mod 3 with
                     | 0 => []
                     | 1 => ["="%char; "="%char]
                     | S (S _) => ["="%char]
                     end + 1 * 4) by lia.
    rewrite Nat.Div0.mod_add. exact IH2.
Qed.

(** Decoding the groups of a byte string gives the bytes back. *)
Lemma decodeGroups_sextets (s : list ascii) : decodeGroups (sextets s) = s.
Proof.
  induction s as [|a|a b|a b c s IH] using list_ind3;
    cbn [sextets decodeGroups].
  - reflexivity.
  - pose proof (byte_bound a).
    replace (nat_of_ascii a / 4 * 4 + nat_of_ascii a mod 4 * 16 / 16)
      with (nat_of_ascii a) by euclid.
    rewrite ascii_nat_embedding. reflexivity.
  - pose proof (byte_bound a). pose proof (byte_bound b).
    replace (nat_of_ascii a / 4 * 4
             + (nat_of_ascii a mod 4 * 16 + nat_of_ascii b / 16) / 16)
      with (nat_of_ascii a) by euclid.
    replace ((nat_of_ascii a mod 4 * 16 + nat_of_ascii b / 16) mod 16 * 16
             + nat_of_ascii b mod 16 * 4 / 4)
      with (nat_of_ascii b) by euclid.
    rewrite !ascii_nat_embedding. reflexivity.
  - pose proof (byte_bound a). pose proof (byte_bound b).
    pose proof (byte_bound c).
    replace (nat_of_ascii a / 4 * 4
             + (nat_of_ascii a mod 4 * 16 + nat_of_ascii b / 16) / 16)
      with (nat_of_ascii a) by euclid.
    replace ((nat_of_ascii a mod 4 * 16 + nat_of_ascii b / 16) mod 16 * 16
             + (nat_of_ascii b mod 16 * 4 + nat_of_ascii c / 64) / 4)
      with (nat_of_ascii b) by euclid.
    replace ((nat_of_ascii b mod 16 * 4 + nat_of_ascii c / 64) mod 4 * 64
             + nat_of_ascii c mod 64)
      with (nat_of_ascii c) by euclid.
    rewrite !ascii_nat_embedding, IH. reflexivity.
Qed.

(** The characters of the alphabet: each has its index as value, none is
    whitespace, none is [=]. *)
Lemma base64Char_facts (i : nat) :
  i < 64 ->
  base64Value (base64Char i) = Some i
  /\ is_ascii_whitespace (base64Char i) = false
  /\ Ascii.eqb (base64Char i) "="%char = false.
Proof.
  intro H.
  assert (F : Forall (fun i => base64Value (base64Char i) = Some i
                               /\ is_ascii_whitespace (base64Char i) = false
                               /\ Ascii.eqb (base64Char i) "="%char = false)
                     (seq 0 64)).
  { repeat (constructor; [vm_compute; auto|]). constructor. }
  rewrite Forall_forall in F. apply F, in_seq. lia.
Qed.

Lemma base64Values_chars (vs : list nat) :
  Forall (fun v => v < 64) vs ->
  base64Values (map base64Char vs) = Some vs.
Proof.
  induction 1 as [|v vs Hv _ IH]; simpl; [reflexivity|].
  destruct (base64Char_facts v Hv) as (-> & _ & _). rewrite IH. reflexivity.
Qed.

Lemma padding_cases (n : nat) :
  padding n = [] \/ padding n = ["="%char] \/ padding n = ["="%char; "="%char].
Proof.
  unfold padding. destruct (n mod 3) as [|[|k]]; auto.
Qed.

Lemma no_whitespace (vs : list nat) (n : nat) :
  Forall (fun v => v < 64) vs ->
  filter (fun c => negb (is_ascii_whitespace c))
         (map base64Char vs ++ padding n)
  = map base64Char vs ++ padding n.
Proof.
  intro H. rewrite filter_app. f_equal.
  - induction H as [|v vs Hv _ IH]; simpl; [reflexivity|].
    destruct (base64Char_facts v Hv) as (_ & -> & _). simpl. rewrite IH.
    reflexivity.
  - destruct (padding_cases n) as [-> | [-> | ->]]; reflexivity.
Qed.

Lemma stripPadding_encoded (vs : list nat) (n : nat) :
  Forall (fun v => v < 64) vs ->
  stripPadding (map base64Char vs ++ padding n) = map base64Char vs.
Proof.
  intro H. unfold stripPadding.
  assert (L : match rev (map base64Char vs) with
              | c :: _ => Ascii.eqb c "="%char = false
              | [] => True
              end).
  { destruct (rev (map base64Char vs)) as [|c r] eqn:E; [exact I|].
    assert (Hc : In c (map base64Char vs)).
    { apply in_rev. rewrite E. left. reflexivity. }
    apply in_map_iff in Hc. destruct Hc as (v & <- & Hv).
    rewrite Forall_forall in H. apply (base64Char_facts v (H v Hv)). }
  destruct (padding_cases n) as [-> | [-> | ->]].
  - rewrite app_nil_r. destruct (rev (map base64Char vs)) as [|c r];
      [reflexivity | rewrite L; reflexivity].
  - rewrite rev_app_distr. simpl.
    destruct (rev (map base64Char vs)) as [|c r] eqn:E.
    + apply (f_equal (@rev ascii)) in E. rewrite rev_involutive in E.
      rewrite E. reflexivity.
    + rewrite L, <- E. apply rev_involutive.
  - rewrite rev_app_distr. simpl. apply rev_involutive.
Qed.

(** [atob] undoes [btoa]. *)
Lemma atob_btoa (s : string) : atob (btoa s) = Ok s.
Proof.
  unfold atob, btoa. rewrite chars_str, string_length_chars.
  pose proof (sextets_bound (chars s)) as B.
  destruct (sextets_length (chars s)) as [L1 L4].
  rewrite (no_whitespace _ _ B).
  rewrite length_app, length_map, L4. simpl (0 =? 0).
  cbv iota. rewrite (stripPadding_encoded _ _ B).
  rewrite length_map.
  destruct (length (sextets (chars s)) mod 4 =? 1) eqn:E;
    [apply Nat.eqb_eq in E; contradiction|].
  rewrite (base64Values_chars _ B), decodeGroups_sextets.
  unfold str, chars. rewrite string_of_list_ascii_of_string. reflexivity.
Qed.

End Base64Facts.

(** X6.  Encoding an embedding and decoding it again gives back the bytes
    of its buffer: [embeddingFromBase64(embeddingToBase64(e))] is an array
    over a buffer with the bytes of [e]'s, viewing all of it.  This needs
    the byte count to be a multiple of 4 and within the number of
    arguments a call may spread; with a byte count that is not a multiple
    of 4 the decoding throws a RangeError, and beyond the spread bound the
    encoding does. *)
Theorem embedding_base64_round_trip
    (maxArguments : nat) (embedding : Embedding.Float32Array) :
  let bytes := Embedding.buffer embedding in
  ((length bytes <= maxArguments)%nat ->
   (length bytes mod 4 = 0)%nat ->
   bind (Embedding.embeddingToBase64 maxArguments embedding)
        Embedding.embeddingFromBase64
   = Ok {| Embedding.buffer := bytes;
           Embedding.byteOffset := 0;
           Embedding.elements := (length bytes / 4)%nat |})
  /\ ((length bytes <= maxArguments)%nat ->
      (length bytes mod 4 <> 0)%nat ->
      bind (Embedding.embeddingToBase64 maxArguments embedding)
           Embedding.embeddingFromBase64
      = Throw RangeError)
  /\ ((maxArguments < length bytes)%nat ->
      Embedding.embeddingToBase64 maxArguments embedding = Throw RangeError).
Proof.
  cbv zeta. unfold Embedding.embeddingToBase64, Embedding.embeddingFromBase64.
  split; [|split].
  - intros Hmax H4. apply Nat.ltb_ge in Hmax. rewrite Hmax. cbn [bind].
    rewrite atob_btoa. cbn [bind]. rewrite chars_str, H4. reflexivity.
  - intros Hmax H4. apply Nat.ltb_ge in Hmax. rewrite Hmax. cbn [bind].
    rewrite atob_btoa. cbn [bind]. rewrite chars_str.
    apply Nat.eqb_neq in H4. rewrite H4. reflexivity.
  - intro Hmax. apply Nat.ltb_lt in Hmax. rewrite Hmax. reflexivity.
Qed.

Lemma embedding_base64_round_trip_witness :
  let e := {| Embedding.buffer := map ascii_of_nat [0; 0; 128; 63; 255; 1; 2; 3]%nat;
              Embedding.byteOffset := 0; Embedding.elements := 2 |} in
  bind (Embedding.embeddingToBase64 4096 e) Embedding.embeddingFromBase64
  = Ok {| Embedding.buffer := Embedding.buffer e;
          Embedding.byteOffset := 0;
          Embedding.elements := (length (Embedding.buffer e) / 4)%nat |}.
Proof.
  intro e.
  destruct (embedding_base64_round_trip 4096 e) as [H _].
  apply H; [vm_compute; lia | reflexivity].
Defined.

(** ** Conformal prediction, for every [alpha] *)

Section ConformalMore.
Import Conformal.

(** The product under the ceiling is NaN only when [alpha] is. *)
Lemma quantile_product_nan_iff (n : nat) (alpha : float) :
  (Z.of_nat n + 1 < 2 ^ 53)%Z ->
  Prim2SF (Num (n + 1) * (1 - alpha)) = S754_nan <-> is_nan alpha = true.
Proof.
  intro Hn. split.
  - intro H. destruct (is_nan alpha) eqn:E; [reflexivity|]. exfalso.
    apply is_nan_false in E. revert H.
    destruct (Num_finite (n + 1)) as (mx & ex & EX); [lia|lia|].
    rewrite mul_spec, sub_spec, EX.
    change (Prim2SF 1) with (S754_finite false 4503599627370496 (-52)).
    destruct (Prim2SF alpha) as [s|s| |s ma ea].
    + simpl. apply binary_round_aux_not_nan. lia.
    + simpl. discriminate.
    + congruence.
    + assert (Y : SF64sub (S754_finite false 4503599627370496 (-52))
                          (S754_finite s ma ea) <> S754_nan)
        by (unfold SF64sub, SFsub; apply binary_normalize_not_nan).
      destruct (SF64sub _ (S754_finite s ma ea)) as [s'|s'| |s' my ey];
        try discriminate; try congruence.
      unfold SF64mul, SFmul. apply binary_round_aux_not_nan. lia.
  - intro H. rewrite (sub_nan_r 1 alpha H).
    rewrite (mul_nan_r _ NaN) by reflexivity. reflexivity.
Qed.

Lemma calibrate_empty (scores : list float) (alpha : float) :
  (exists e, calibrate scores alpha = Throw e) <-> scores = [].
Proof.
  unfold calibrate. destruct scores as [|x l]; simpl.
  - split; [reflexivity | intros _; eexists; reflexivity].
  - split; [intros [e H]; discriminate | discriminate].
Qed.

Lemma calibrate_cases (scores : list float) (alpha : float) :
  scores <> [] ->
  (Z.of_nat (length scores) < 2 ^ 32)%Z ->
  (is_nan alpha = true -> calibrate scores alpha = Ok None)
  /\ (is_nan alpha = false ->
      exists q, calibrate scores alpha = Ok (Some q) /\ In q scores).
Proof.
  intros Hne Hlen.
  assert (Hn : (0 < length scores)%nat)
    by (destruct scores; simpl; [congruence|lia]).
  assert (H53 : (Z.of_nat (length scores) + 1 < 2 ^ 53)%Z).
  { assert (2 ^ 32 < 2 ^ 53)%Z by reflexivity. lia. }
  unfold calibrate.
  destruct (length scores =? 0)%nat eqn:E;
    [apply Nat.eqb_eq in E; lia|].
  rewrite Array_sort_length. split; intro Ha.
  - apply (quantile_product_nan_iff _ _ H53) in Ha.
    unfold quantileIndex, Math_ceil. rewrite Ha. reflexivity.
  - assert (Hc : Math_ceil (Num (length scores + 1) * (1 - alpha)) <> NaNI).
    { intro C. apply Math_ceil_nan in C.
      apply (quantile_product_nan_iff _ _ H53) in C. congruence. }
    destruct (quantileIndex_in_range _ alpha Hn Hc) as (k & Hk & Hlt).
    rewrite Hk. unfold Array_get.
    destruct (Z.of_nat k <? 0)%Z eqn:E2; [apply Z.ltb_lt in E2; lia|].
    rewrite Nat2Z.id.
    destruct (nth_error (Array_sort (fun a b => a - b) scores) k) as [q|] eqn:Hq.
    2:{ apply nth_error_None in Hq. rewrite Array_sort_length in Hq. lia. }
    exists q. split; [reflexivity|].
    apply (Permutation_in q (Array_sort_perm (fun a b => a - b) scores)).
    eapply nth_error_In, Hq.
Qed.

End ConformalMore.

(** X7.  [calibrate] accepts every [alpha]: on a non-empty array it returns an
    element of the array whenever [alpha] is a number, inside (0, 1) or
    not (the index is clamped), and [undefined] when [alpha] is NaN. *)
Theorem calibrate_any_alpha (scores : list float) (alpha : float) :
  scores <> [] ->
  (Z.of_nat (length scores) < 2 ^ 32)%Z ->
  (is_nan alpha = true -> Conformal.calibrate scores alpha = Ok None)
  /\ (is_nan alpha = false ->
      exists q, Conformal.calibrate scores alpha = Ok (Some q) /\ In q scores).
Proof. apply calibrate_cases. Qed.

Lemma calibrate_any_alpha_witness :
  (is_nan (-2.5) = false ->
   exists q, Conformal.calibrate [0.3; 0.1] (-2.5) = Ok (Some q)
             /\ In q [0.3; 0.1])
  /\ Conformal.calibrate [0.3; 0.1] NaN = Ok None.
Proof.
  destruct (calibrate_any_alpha [0.3; 0.1] (-2.5)) as [_ H];
    [discriminate | reflexivity |].
  split; [exact H|].
  destruct (calibrate_any_alpha [0.3; 0.1] NaN) as [H' _];
    [discriminate | reflexivity |].
  apply H'. reflexivity.
Defined.

(** X8.  [splitConformal] fails exactly when the calibration array is empty.
    Otherwise it returns the interval [newScore - q, newScore + q] for an
    element [q] of the array, with coverage [1 - alpha]; when [alpha] is
    NaN both bounds are NaN. *)
Theorem splitConformal_interval (calibrationScores : list float)
    (newScore alpha : float) :
  ((exists e, Conformal.splitConformal calibrationScores newScore alpha
              = Throw e)
   <-> calibrationScores = [])
  /\ (calibrationScores <> [] ->
      (Z.of_nat (length calibrationScores) < 2 ^ 32)%Z ->
      (is_nan alpha = false ->
       exists q,
         In q calibrationScores
         /\ Conformal.splitConformal calibrationScores newScore alpha
            = Ok {| Conformal.lower := newScore - q;
                    Conformal.upper := newScore + q;
                    Conformal.coverage := 1 - alpha |})
      /\ (is_nan alpha = true ->
          Conformal.splitConformal calibrationScores newScore alpha
          = Ok {| Conformal.lower := NaN;
                  Conformal.upper := NaN;
                  Conformal.coverage := NaN |})).
Proof.
  split.
  - rewrite <- (calibrate_empty calibrationScores alpha).
    unfold Conformal.splitConformal.
    destruct (Conformal.calibrate calibrationScores alpha) as [q|e]; simpl.
    + split; intros [e H]; discriminate.
    + split; intros _; eexists; reflexivity.
  - intros Hne Hlen.
    destruct (calibrate_cases calibrationScores alpha Hne Hlen) as [Hnan Hnum].
    unfold Conformal.splitConformal. split; intro Ha.
    + destruct (Hnum Ha) as (q & -> & Hin). exists q. split; [exact Hin|].
      reflexivity.
    + rewrite (Hnan Ha). simpl. unfold Conformal.interval. simpl.
      rewrite (sub_nan_r newScore NaN), (add_nan_r newScore NaN),
        (sub_nan_r 1 alpha Ha) by reflexivity.
      reflexivity.
Qed.

Lemma splitConformal_interval_witness :
  exists q,
    In q [0.3; 0.1]
    /\ Conformal.splitConformal [0.3; 0.1] 0.5 0.05
       = Ok {| Conformal.lower := 0.5 - q;
               Conformal.upper := 0.5 + q;
               Conformal.coverage := 1 - 0.05 |}.
Proof.
  destruct (splitConformal_interval [0.3; 0.1] 0.5 0.05) as [_ H].
  destruct H as [H _]; [discriminate | reflexivity |].
  apply H. reflexivity.
Defined.

Lemma push_labels (threshold : float) (scores : list (string * float)) :
  forall result,
    fold_left
      (fun (result : list string) (entry : string * float) =>
         let '(label, score) := entry in
         if score <=? threshold then result ++ [label] else result)
      scores result
    = result ++ map fst (filter (fun entry => snd entry <=? threshold) scores).
Proof.
  induction scores as [|[label score] scores IH]; intro result; simpl.
  - rewrite app_nil_r. reflexivity.
  - rewrite IH. destruct (score <=? threshold); simpl.
    + rewrite <- app_assoc. reflexivity.
    + reflexivity.
Qed.

(** X9.  [predictionSet] fails exactly when the calibration array is empty.
    Otherwise it returns, in the order of the score map, the labels whose
    score is at most the calibrated threshold, an element of the
    calibration array; when [alpha] is NaN the set is empty. *)
Theorem predictionSet_labels (scores : list (string * float))
    (calibrationScores : list float) (alpha : float) :
  ((exists e, Conformal.predictionSet scores calibrationScores alpha = Throw e)
   <-> calibrationScores = [])
  /\ (calibrationScores <> [] ->
      (Z.of_nat (length calibrationScores) < 2 ^ 32)%Z ->
      (is_nan alpha = false ->
       exists q,
         In q calibrationScores
         /\ Conformal.predictionSet scores calibrationScores alpha
            = Ok (map fst (filter (fun entry => snd entry <=? q) scores)))
      /\ (is_nan alpha = true ->
          Conformal.predictionSet scores calibrationScores alpha = Ok [])).
Proof.
  split.
  - rewrite <- (calibrate_empty calibrationScores alpha).
    unfold Conformal.predictionSet.
    destruct (Conformal.calibrate calibrationScores alpha) as [q|e]; simpl.
    + split; intros [e H]; discriminate.
    + split; intros _; eexists; reflexivity.
  - intros Hne Hlen.
    destruct (calibrate_cases calibrationScores alpha Hne Hlen) as [Hnan Hnum].
    unfold Conformal.predictionSet. split; intro Ha.
    + destruct (Hnum Ha) as (q & -> & Hin). exists q. split; [exact Hin|].
      simpl. rewrite push_labels. reflexivity.
    + rewrite (Hnan Ha). simpl. rewrite push_labels. simpl.
      f_equal. induction scores as [|[label score] scores IH]; simpl;
        [reflexivity|].
      rewrite (leb_nan_r score NaN) by reflexivity. exact IH.
Qed.

Lemma predictionSet_labels_witness :
  exists q,
    In q [0.3; 0.1]
    /\ Conformal.predictionSet [("a"%string, 0.2); ("b"%string, 0.7)]
         [0.3; 0.1] 0.05
       = Ok (map fst (filter (fun entry => snd entry <=? q)
                        [("a"%string, 0.2); ("b"%string, 0.7)])).
Proof.
  destruct (predictionSet_labels [("a"%string, 0.2); ("b"%string, 0.7)]
              [0.3; 0.1] 0.05) as [_ H].
  destruct H as [H _]; [discriminate | reflexivity |].
  apply H. reflexivity.
Defined.

Lemma ltb_leb (x y : float) : (x <? y) = true -> (x <=? y) = true.
Proof.
  rewrite ltb_spec, leb_spec. unfold SFltb, SFleb.
  destruct (SFcompare (Prim2SF x) (Prim2SF y)) as [[]|]; congruence.
Qed.

(** A number equal to 0 is one of the two zeros. *)
Lemma eqb_zero (x : float) : (x =? 0) = true -> x = 0 \/ x = -0.
Proof.
  rewrite eqb_spec. unfold SFeqb.
  change (Prim2SF 0) with (S754_zero false).
  destruct (Prim2SF x) as [s|s| |s m e] eqn:E; simpl;
    try (destruct s; discriminate); try discriminate.
  intros _. destruct s; [right|left]; apply Prim2SF_inj; rewrite E; reflexivity.
Qed.

(** [Math.max(0, Math.min(100, x))]: NaN for NaN, and otherwise a number
    of [0, 100]. *)
Lemma clamp_percent (x : float) :
  (is_nan x = true -> Math_max 0 (Math_min 100 x) = NaN)
  /\ (is_nan x = false ->
      (0 <=? Math_max 0 (Math_min 100 x)) = true
      /\ (Math_max 0 (Math_min 100 x) <=? 100) = true)
  /\ ((0 <? x) = true -> (x <? 100) = true ->
      Math_max 0 (Math_min 100 x) = x).
Proof.
  assert (Hmin : is_nan x = false ->
                 Math_min 100 x = if x <? 100 then x else 100).
  { intro H. unfold Math_min. rewrite H. reflexivity. }
  split; [|split].
  - intro H. unfold Math_min. rewrite H. reflexivity.
  - intro H. rewrite (Hmin H).
    destruct (x <? 100) eqn:L; [|split; reflexivity].
    unfold Math_max. rewrite H. simpl.
    destruct (x =? 0) eqn:Z0.
    + destruct (eqb_zero x Z0) as [-> | ->]; split; reflexivity.
    + change (0 =? 0) with true. cbv iota. simpl.
      destruct (0 <? x) eqn:P.
      * split; [apply ltb_leb, P | apply ltb_leb, L].
      * split; reflexivity.
  - intros P L.
    assert (H : is_nan x = false).
    { apply is_nan_false. intro N. rewrite ltb_spec, N in L.
      discriminate L. }
    rewrite (Hmin H), L. unfold Math_max. rewrite H. simpl.
    destruct (x =? 0) eqn:Z0.
    + destruct (eqb_zero x Z0) as [-> | ->]; discriminate P.
    + change (0 =? 0) with true. cbv iota. simpl. rewrite P. reflexivity.
Qed.

(** ** Platt scaling, further *)

Lemma filter_length_by_class {A : Type} (f : A -> bool) (l l' : list A) :
  map f l = map f l' -> length (filter f l) = length (filter f l').
Proof.
  revert l'. induction l as [|x l IH]; intros [|y l'] H; simpl in *;
    try discriminate; [reflexivity|].
  injection H as Hxy H. rewrite Hxy. destruct (f y); simpl; auto.
Qed.

Section PlattMore.
Variables Math_exp Math_log : float -> float.

Lemma gradients_by_class (hiTarget loTarget a0 b0 : float)
    (scores labels labels' : list float) :
  map (fun l => gtb l 0.5) labels = map (fun l => gtb l 0.5) labels' ->
  Platt.gradients Math_exp Math_log hiTarget loTarget a0 b0
    (combine scores labels)
  = Platt.gradients Math_exp Math_log hiTarget loTarget a0 b0
      (combine scores labels').
Proof.
  unfold Platt.gradients. generalize (0, 0, 0).
  revert labels labels'.
  induction scores as [|s scores IH]; intros labels labels' acc H;
    [reflexivity|].
  destruct labels as [|l labels], labels' as [|l' labels'];
    try discriminate; [reflexivity|].
  simpl in H. injection H as Hl H. simpl.
  destruct acc as [[gradA gradB] logLikelihood].
  rewrite Hl. apply IH, H.
Qed.

Lemma descend_by_class (hiTarget loTarget : float)
    (scores labels labels' : list float) :
  map (fun l => gtb l 0.5) labels = map (fun l => gtb l 0.5) labels' ->
  forall iters a0 b0,
    Platt.descend Math_exp Math_log iters hiTarget loTarget
      (combine scores labels) a0 b0
    = Platt.descend Math_exp Math_log iters hiTarget loTarget
        (combine scores labels') a0 b0.
Proof.
  intro H. induction iters as [|iters IH]; intros a0 b0; simpl;
    [reflexivity|].
  rewrite (gradients_by_class hiTarget loTarget a0 b0 scores labels labels' H).
  destruct (Platt.gradients _ _ _ _ _ _ _) as [[gradA gradB] ll].
  destruct (_ <? _); [reflexivity | apply IH].
Qed.

Lemma fitPlatt_by_class (scores labels labels' : list float) :
  map (fun l => gtb l 0.5) labels = map (fun l => gtb l 0.5) labels' ->
  Platt.fitPlatt Math_exp Math_log scores labels
  = Platt.fitPlatt Math_exp Math_log scores labels'.
Proof.
  intro H. unfold Platt.fitPlatt.
  assert (L : length labels = length labels').
  { rewrite <- (length_map (fun l => gtb l 0.5) labels), H.
    apply length_map. }
  rewrite (filter_length_by_class _ labels labels' H), L.
  rewrite (descend_by_class _ _ scores labels labels' H).
  reflexivity.
Qed.

End PlattMore.

(** X10.  [fitPlatt] reads a label only through the test [label > 0.5]: two
    label arrays that agree on that test, position by position, give the
    same outcome on the same scores: the same error or the same model,
    bit for bit. *)
Theorem fitPlatt_reads_labels_by_class
    (Math_exp Math_log : float -> float) (scores labels labels' : list float) :
  map (fun l => gtb l 0.5) labels = map (fun l => gtb l 0.5) labels' ->
  Platt.fitPlatt Math_exp Math_log scores labels
  = Platt.fitPlatt Math_exp Math_log scores labels'.
Proof. apply fitPlatt_by_class. Qed.

Lemma fitPlatt_reads_labels_by_class_witness :
  Platt.fitPlatt Math_exp_ref Math_log_ref [0.2; 0.9; 0.4] [0.7; 0.5; 3]
  = Platt.fitPlatt Math_exp_ref Math_log_ref [0.2; 0.9; 0.4] [1; 0; 1].
Proof.
  apply (fitPlatt_reads_labels_by_class Math_exp_ref Math_log_ref
           [0.2; 0.9; 0.4] [0.7; 0.5; 3] [1; 0; 1]).
  reflexivity.
Defined.

(** X11.  [trainCalibration] throws exactly when the two arrays differ in
    length; on arrays of equal length whose labels are all [true] or all
    [false] it returns the initial model (a = -1, b = 0); and in general it
    is [fitPlatt] on any numeric labels that are above 0.5 exactly where
    the boolean label is [true]. *)
Theorem trainCalibration_outcomes
    (Math_exp Math_log : float -> float) (scores : list float)
    (labels : list bool) :
  ((exists e, Platt.trainCalibration Math_exp Math_log scores labels = Throw e)
   <-> length scores <> length labels)
  /\ (length scores = length labels ->
      Forall (fun l => l = true) labels \/ Forall (fun l => l = false) labels ->
      Platt.trainCalibration Math_exp Math_log scores labels
      = Ok {| Platt.a := -1; Platt.b := 0 |})
  /\ (forall numeric,
        map (fun l => gtb l 0.5) numeric = labels ->
        Platt.trainCalibration Math_exp Math_log scores labels
        = Platt.fitPlatt Math_exp Math_log scores numeric).
Proof.
  unfold Platt.trainCalibration.
  set (numericLabels := map (fun l : bool => if l then 1 else 0) labels).
  assert (L : length numericLabels = length labels) by apply length_map.
  assert (C : map (fun l => gtb l 0.5) numericLabels = labels).
  { unfold numericLabels. rewrite map_map.
    rewrite <- (map_id labels) at 2. apply map_ext. intros []; reflexivity. }
  split; [|split].
  - rewrite <- L.
    destruct (Nat.eq_dec (length scores) (length numericLabels)) as [E|E].
    + destruct (fitPlatt_same_length Math_exp Math_log scores numericLabels E)
        as [m ->].
      split; [intros [e H]; discriminate | contradiction].
    + rewrite (fitPlatt_length_mismatch Math_exp Math_log _ _ E).
      split; [intros _; exact E | intros _; eexists; reflexivity].
  - intros Hlen Hcls. unfold Platt.fitPlatt.
    rewrite L, Hlen, Nat.eqb_refl. simpl negb. cbv iota.
    destruct (length labels =? 0)%nat eqn:E0; [reflexivity|].
    destruct Hcls as [Hall | Hnone].
    + rewrite filter_all_true, L, Nat.sub_diag, orb_true_r; [reflexivity|].
      unfold numericLabels. apply Forall_map.
      apply (Forall_impl _ (P := fun l => l = true)); [|exact Hall].
      intros l ->. reflexivity.
    + rewrite filter_all_false; [reflexivity|].
      unfold numericLabels. apply Forall_map.
      apply (Forall_impl _ (P := fun l => l = false)); [|exact Hnone].
      intros l ->. reflexivity.
  - intros numeric Hn. apply fitPlatt_by_class. rewrite C, Hn. reflexivity.
Qed.

Lemma trainCalibration_outcomes_witness :
  Platt.trainCalibration Math_exp_ref Math_log_ref [0.2; 0.9] [true; true]
  = Ok {| Platt.a := -1; Platt.b := 0 |}.
Proof.
  destruct (trainCalibration_outcomes Math_exp_ref Math_log_ref
              [0.2; 0.9] [true; true]) as (_ & H & _).
  apply H; [reflexivity | left; repeat constructor].
Defined.

(** X12.  Without a model, [calibrateConfidence] clamps the score to [0, 100]:
    the result is NaN when the score is NaN, a number of [0, 100]
    otherwise, and the score itself when it lies strictly between 0 and
    100. *)
Theorem calibrateConfidence_clamps
    (Math_exp : float -> float) (score : float) :
  (is_nan score = true ->
   Platt.calibrateConfidence Math_exp score None = NaN)
  /\ (is_nan score = false ->
      (0 <=? Platt.calibrateConfidence Math_exp score None) = true
      /\ (Platt.calibrateConfidence Math_exp score None <=? 100) = true)
  /\ ((0 <? score) = true -> (score <? 100) = true ->
      Platt.calibrateConfidence Math_exp score None = score).
Proof. apply clamp_percent. Qed.

Lemma calibrateConfidence_clamps_witness :
  (0 <=? Platt.calibrateConfidence Math_exp_ref 250 None) = true
  /\ (Platt.calibrateConfidence Math_exp_ref 250 None <=? 100) = true.
Proof.
  destruct (calibrateConfidence_clamps Math_exp_ref 250) as (_ & H & _).
  apply H. reflexivity.
Defined.

(** ** Inverted index, further *)

Section InvertedMore.
Import Inverted.

Lemma intersection_In (matches results : list string) (x : string) :
  forall acc,
    In x (fold_left
            (fun (intersection : list string) (id : string) =>
               if Set_has matches id then Set_add intersection id
               else intersection)
            results acc)
    <-> In x acc \/ (In x results /\ In x matches).
Proof.
  induction results as [|r results IH]; intro acc; simpl; [tauto|].
  rewrite IH. destruct (Set_has matches r) eqn:E.
  - apply Set_has_In in E. rewrite Set_add_In. split.
    + intros [[H| ->]|[H1 H2]]; auto.
    + intros [H|[[->|H1] H2]]; auto.
  - split.
    + intros [H|[H1 H2]]; auto.
    + intros [H|[[->|H1] H2]]; auto.
      apply Set_has_In in H2. congruence.
Qed.

Lemma intersection_NoDup (matches results : list string) :
  forall acc,
    NoDup acc ->
    NoDup (fold_left
             (fun (intersection : list string) (id : string) =>
                if Set_has matches id then Set_add intersection id
                else intersection)
             results acc).
Proof.
  induction results as [|r results IH]; intros acc H; simpl; [exact H|].
  apply IH. destruct (Set_has matches r); [apply Set_add_NoDup|]; exact H.
Qed.

(** The loop of [findAll] once [results] is a set; [step] is the body of
    the loop. *)
Lemma findAll_rest (indices : InvertedIndex)
    (step : option (list string) -> string * string -> option (list string)) :
  (forall results field value,
     step (Some results) (field, value)
     = Some (fold_left
               (fun (intersection : list string) (id : string) =>
                  if Set_has (fold_left Set_add (find indices field value) [])
                             id
                  then Set_add intersection id
                  else intersection)
               results [])) ->
  forall filters results,
    NoDup results ->
    exists final,
      fold_left step filters (Some results) = Some final
      /\ NoDup final
      /\ forall x, In x final
                   <-> In x results
                       /\ forall field value, In (field, value) filters ->
                                              In x (find indices field value).
Proof.
  intro Hstep.
  induction filters as [|[field value] filters IH]; intros results Hnd.
  - exists results. simpl. split; [reflexivity|]. split; [exact Hnd|].
    intro x. split; [intro H; split; [exact H | intros ? ? []] | tauto].
  - cbn [fold_left]. rewrite Hstep.
    destruct (IH (fold_left
                    (fun (intersection : list string) (id : string) =>
                       if Set_has
                            (fold_left Set_add (find indices field value) [])
                            id
                       then Set_add intersection id
                       else intersection)
                    results [])) as (final & E & Hfin & Hin).
    { apply intersection_NoDup. constructor. }
    exists final. split; [exact E|]. split; [exact Hfin|].
    intro x. rewrite Hin, intersection_In, fold_Set_add_In. simpl. split.
    + intros [[[]|[H1 [[]|H2]]] H3]. split; [exact H1|].
      intros f v [Heq|Hfv]; [inversion Heq; subst; exact H2 | apply H3, Hfv].
    + intros [H1 H2]. split.
      * right. split; [exact H1|]. right. apply H2. left. reflexivity.
      * intros f v Hfv. apply H2. right. exact Hfv.
Qed.

End InvertedMore.

(** X13.  [findAll] returns, without repetition, exactly the ids found under
    every one of the (field, value) filters, and nothing when there is no
    filter. *)
Theorem findAll_is_intersection
    (indices : Inverted.InvertedIndex) (filters : list (string * string)) :
  NoDup (Inverted.findAll indices filters)
  /\ (forall id,
        In id (Inverted.findAll indices filters)
        <-> filters <> []
            /\ forall field value, In (field, value) filters ->
                                   In id (Inverted.find indices field value))
  /\ Inverted.findAll indices [] = [].
Proof.
  assert (R : forall field value rest,
            exists final,
              Inverted.findAll indices ((field, value) :: rest) = final
              /\ NoDup final
              /\ forall x,
                   In x final
                   <-> In x (Inverted.find indices field value)
                       /\ forall f v, In (f, v) rest ->
                                      In x (Inverted.find indices f v)).
  { intros field value rest. unfold Inverted.findAll. cbn [fold_left].
    match goal with
    | |- context [fold_left ?step rest (Some ?r)] =>
        destruct (findAll_rest indices step (fun _ _ _ => eq_refl) rest r)
          as (final & -> & Hfin & Hin)
    end.
    { apply fold_Set_add_NoDup. constructor. }
    exists final. split; [reflexivity|]. split; [exact Hfin|].
    intro x. rewrite Hin, fold_Set_add_In. simpl. tauto. }
  split; [|split; [|reflexivity]].
  - destruct filters as [|[field value] rest]; [constructor|].
    destruct (R field value rest) as (final & -> & Hfin & _). exact Hfin.
  - intro id. destruct filters as [|[field value] rest].
    + simpl. split; [intros [] | intros [H _]; congruence].
    + destruct (R field value rest) as (final & -> & _ & Hin).
      rewrite Hin. split.
      * intros [H1 H2]. split; [discriminate|].
        intros f v [Heq|Hfv]; [inversion Heq; subst; exact H1 | apply H2, Hfv].
      * intros [_ H]. split.
        -- apply H. left. reflexivity.
        -- intros f v Hfv. apply H. right. exact Hfv.
Qed.

(** X14.  [filterByTags] returns, without repetition, exactly the ids found
    under at least one of the tags (and listed in the seed, when there is
    one); with no tag it returns nothing. *)
Theorem filterByTags_is_union
    (indices : Inverted.InvertedIndex) (seed : option (list string))
    (tags : list string) :
  NoDup (Inverted.filterByTags indices seed tags)
  /\ (forall id,
        In id (Inverted.filterByTags indices seed tags)
        <-> (exists tag, In tag tags
                         /\ In id (Inverted.find indices "tag" tag))
            /\ (forall ids, seed = Some ids -> In id ids))
  /\ Inverted.filterByTags indices seed [] = [].
Proof.
  assert (U : forall tgs acc id,
            In id (fold_left
                     (fun (matches : list string) (tag : string) =>
                        fold_left Set_add (Inverted.find indices "tag" tag)
                                  matches)
                     tgs acc)
            <-> In id acc
                \/ exists tag, In tag tgs
                               /\ In id (Inverted.find indices "tag" tag)).
  { induction tgs as [|t ts IH]; intros acc id; simpl.
    - split; [auto | intros [H|(tag & [] & _)]; exact H].
    - rewrite IH, fold_Set_add_In. split.
      + intros [[H|H]|(tag & H1 & H2)]; [auto| |].
        * right. exists t. auto.
        * right. exists tag. auto.
      + intros [H|(tag & [->|H1] & H2)]; [auto|auto|].
        right. exists tag. auto. }
  assert (N : forall tgs acc,
            NoDup acc ->
            NoDup (fold_left
                     (fun (matches : list string) (tag : string) =>
                        fold_left Set_add (Inverted.find indices "tag" tag)
                                  matches)
                     tgs acc)).
  { induction tgs as [|t ts IH]; intros acc H; simpl; [exact H|].
    apply IH, fold_Set_add_NoDup, H. }
  unfold Inverted.filterByTags. split; [|split].
  - apply intersectSeed_NoDup, N. constructor.
  - intro id. rewrite intersectSeed_In, U. simpl. split.
    + intros [[[]|H] Hs]. split; assumption.
    + intros [H Hs]. split; [right; exact H | exact Hs].
  - destruct seed; reflexivity.
Qed.

Section InvertedCounts.
Import Inverted.

Lemma Map_has_keys {V : Type} (m : list (string * V)) (k : string) :
  Map_has m k = Set_has (Map_keys m) k.
Proof.
  unfold Map_has, Set_has, Map_keys.
  induction m as [|[k0 v0] m IH]; simpl; [reflexivity|].
  rewrite (String.eqb_sym k k0).
  destruct (String.eqb k0 k); [reflexivity | exact IH].
Qed.

(** [set] adds the key at the end unless the map has it. *)
Lemma Map_keys_set {V : Type} (m : list (string * V)) (k : string) (v : V) :
  Map_keys (Map_set m k v) = Set_add (Map_keys m) k.
Proof.
  unfold Set_add. rewrite <- Map_has_keys. unfold Map_has, Map_keys.
  induction m as [|[k0 v0] m IH]; simpl; [reflexivity|].
  destruct (String.eqb k0 k) eqn:E; simpl.
  - apply String.eqb_eq in E. subst k0. reflexivity.
  - rewrite IH. destruct (Map_get m k); reflexivity.
Qed.

Lemma Set_add_present (s : list string) (k : string) :
  In k s -> Set_add s k = s.
Proof.
  intro H. unfold Set_add. apply Set_has_In in H. rewrite H. reflexivity.
Qed.

(** [getFieldValues] after one more [add]. *)
Lemma getFieldValues_add (indices : InvertedIndex)
    (spanId f v field : string) :
  getFieldValues (add indices spanId f v) field
  = if String.eqb f field then Set_add (getFieldValues indices field) v
    else getFieldValues indices field.
Proof.
  unfold getFieldValues, add, Map_has.
  rewrite Map_get_set.
  destruct (String.eqb f field) eqn:Ef.
  - apply String.eqb_eq in Ef. subst field.
    destruct (Map_get indices f) as [fi|] eqn:Gf; simpl;
      rewrite ?Gf, ?Map_get_set, ?String.eqb_refl; simpl.
    + destruct (Map_get fi v) as [ids|] eqn:Gv; simpl.
      * rewrite Map_keys_set. reflexivity.
      * rewrite Map_keys_set, Map_keys_set.
        rewrite (Set_add_present (Set_add (Map_keys fi) v) v);
          [reflexivity | apply Set_add_In; right; reflexivity].
    + rewrite ?String.eqb_refl. reflexivity.
  - destruct (Map_get indices f) as [fi|] eqn:Gf; simpl.
    + reflexivity.
    + rewrite Map_get_set, Ef. reflexivity.
Qed.

Lemma getFieldValues_addAll (calls : list AddCall) :
  forall (indices : InvertedIndex) (field : string),
    getFieldValues (addAll indices calls) field
    = fold_left Set_add
        (map call_value
           (filter (fun c => String.eqb (call_field c) field) calls))
        (getFieldValues indices field).
Proof.
  induction calls as [|c calls IH]; intros indices field; [reflexivity|].
  unfold addAll in *. cbn [fold_left]. rewrite IH, getFieldValues_add.
  simpl. destruct (String.eqb (call_field c) field); reflexivity.
Qed.

End InvertedCounts.

(** X15.  After any sequence of [add] calls on a new index, [getCount(field,
    value)] is the number of calls made with that field and value (a span
    added twice counts twice), and [getFieldValues(field)] lists the
    values added under the field once each, in the order in which they
    first came. *)
Theorem inverted_counts_and_values
    (calls : list Inverted.AddCall) (field value : string) :
  let index := Inverted.addAll Inverted.empty calls in
  Inverted.getCount index field value
  = length (filter (fun c => String.eqb (Inverted.call_field c) field
                             && String.eqb (Inverted.call_value c) value)
                   calls)
  /\ Inverted.getFieldValues index field
     = fold_left Set_add
         (map Inverted.call_value
            (filter (fun c => String.eqb (Inverted.call_field c) field) calls))
         []
  /\ NoDup (Inverted.getFieldValues index field)
  /\ (In value (Inverted.getFieldValues index field)
      <-> (0 < Inverted.getCount index field value)%nat).
Proof.
  cbv zeta.
  assert (C : Inverted.getCount (Inverted.addAll Inverted.empty calls)
                field value
              = length (filter (fun c =>
                                  String.eqb (Inverted.call_field c) field
                                  && String.eqb (Inverted.call_value c) value)
                               calls)).
  { unfold Inverted.getCount. rewrite find_addAll. simpl.
    apply length_map. }
  assert (V : Inverted.getFieldValues (Inverted.addAll Inverted.empty calls)
                field
              = fold_left Set_add
                  (map Inverted.call_value
                     (filter (fun c => String.eqb (Inverted.call_field c) field)
                             calls))
                  []).
  { rewrite getFieldValues_addAll. reflexivity. }
  split; [exact C|]. split; [exact V|]. split.
  - rewrite V. apply fold_Set_add_NoDup. constructor.
  - rewrite V, C, fold_Set_add_In, in_map_iff. simpl. split.
    + intros [[]|(c & Hv & Hc)]. apply filter_In in Hc.
      destruct Hc as [Hc Hf].
      assert (Hin : In c (filter (fun c =>
                                    String.eqb (Inverted.call_field c) field
                                    && String.eqb (Inverted.call_value c) value)
                                 calls)).
      { apply filter_In. split; [exact Hc|]. rewrite Hf, Hv.
        apply String.eqb_refl. }
      destruct (filter _ calls); [destruct Hin | simpl; lia].
    + intro H. right.
      destruct (filter (fun c => String.eqb (Inverted.call_field c) field
                                 && String.eqb (Inverted.call_value c) value)
                       calls) as [|c l] eqn:E; [simpl in H; lia|].
      assert (Hin : In c (c :: l)) by (left; reflexivity).
      rewrite <- E in Hin. apply filter_In in Hin. destruct Hin as [Hc Hfv].
      apply andb_true_iff in Hfv. destruct Hfv as [Hf Hv].
      apply String.eqb_eq in Hv. exists c. split; [exact Hv|].
      apply filter_In. split; assumption.
Qed.

(** X16.  Every id that the exact mode of [filterByAction] returns is also
    returned by the fuzzy mode, for the same seed and action: the fuzzy
    test holds of a stored action equal to the query. *)
Theorem filterByAction_fuzzy_covers_exact
    (indices : Inverted.InvertedIndex) (seed : option (list string))
    (action id : string) :
  In id (Inverted.filterByAction indices seed action false) ->
  In id (Inverted.filterByAction indices seed action true).
Proof.
  unfold Inverted.filterByAction. cbn [negb].
  rewrite intersectSeed_In. intros [Hfind Hseed].
  unfold Inverted.find in Hfind.
  destruct (Map_get indices "action") as [actionIndex|] eqn:G;
    [|destruct Hfind].
  destruct (Map_get actionIndex action) as [ids|] eqn:Ga; [|destruct Hfind].
  rewrite intersectSeed_In. split; [|exact Hseed].
  apply fuzzy_scan_In. right. exists action, ids.
  split; [apply Map_get_In, Ga|]. split; [|exact Hfind].
  unfold Inverted.fuzzyMatch, includes.
  assert (I : includes_chars (chars (toLowerCase action))
                             (chars (toLowerCase action)) = true).
  { apply includes_chars_spec. exists [], []. rewrite app_nil_r. reflexivity. }
  rewrite I. reflexivity.
Qed.

Lemma filterByAction_fuzzy_covers_exact_witness :
  In "span1"%string
     (Inverted.filterByAction
        (Inverted.add Inverted.empty "span1" "action" "Create")
        None "Create" true).
Proof.
  apply (filterByAction_fuzzy_covers_exact
           (Inverted.add Inverted.empty "span1" "action" "Create")
           None "Create" "span1").
  simpl. left. reflexivity.
Defined.

(** ** The edit distance *)

Section LevenshteinFacts.
Import Inverted.
#[local] Open Scope nat_scope.

Lemma rowOf_first (a : list ascii) : rowOf a [] (seq 0 (S (length a))).
Proof.
  split; [apply length_seq|].
  intros j Hj. rewrite seq_nth by lia. simpl.
  repeat split; try lia.
  - intros ->. reflexivity.
  - intro H. destruct j; [reflexivity|].
    destruct a; [simpl in Hj; lia | discriminate H].
Qed.

Lemma rowOf_next (a pre : list ascii) (bc : ascii) (prev : list nat) :
  rowOf a pre prev ->
  rowOf a (pre ++ [bc])
        (S (length pre) :: levenshteinRow a bc prev (S (length pre))).
Proof.
  intros [Hlen Hprev].
  destruct (levenshteinRow_cells a bc prev (S (length pre)) Hlen) as [L R].
  split; [exact L|].
  set (row := S (length pre) :: levenshteinRow a bc prev (S (length pre))) in *.
  rewrite length_app. simpl length.
  induction j as [|j IHj]; intro Hj.
  - split; [|simpl; lia]. simpl. split; [discriminate|].
    intro H. destruct pre; discriminate H.
  - destruct (IHj ltac:(lia)) as (Z1 & U1 & L1 & M1).
    destruct (Hprev j ltac:(lia)) as (Z0 & U0 & L0 & M0).
    destruct (Hprev (S j) Hj) as (Z2 & U2 & L2 & M2).
    rewrite (R j) by lia. rewrite (firstn_succ_snoc a j) by lia.
    destruct (Ascii.eqb bc (nth j a Ascii.zero)) eqn:E.
    + apply Ascii.eqb_eq in E. subst bc. repeat split; try lia.
      * intro H. apply Z0 in H. rewrite H. reflexivity.
      * intro H. apply app_inj_tail in H. apply Z0, H.
    + apply Ascii.eqb_neq in E. repeat split; try lia.
      intro H. apply app_inj_tail in H. destruct H as [_ H]. congruence.
Qed.

Lemma levenshteinMatrix_rows (a : list ascii) :
  forall b pre prev k,
    rowOf a pre prev ->
    (k <= length b)%nat ->
    rowOf a (pre ++ firstn k b)
          (nth k (prev :: levenshteinMatrix a b (S (length pre)) prev) []).
Proof.
  induction b as [|bc b IH]; intros pre prev k Hrow Hk.
  - simpl in Hk. replace k with 0%nat by lia. simpl.
    rewrite app_nil_r. exact Hrow.
  - destruct k as [|k].
    + simpl. rewrite app_nil_r. exact Hrow.
    + cbn [levenshteinMatrix nth firstn].
      replace (pre ++ bc :: firstn k b) with ((pre ++ [bc]) ++ firstn k b)
        by (rewrite <- app_assoc; reflexivity).
      replace (S (S (length pre))) with (S (length (pre ++ [bc])))
        by (rewrite length_app; simpl; lia).
      apply IH; [apply rowOf_next, Hrow | simpl in Hk; lia].
Qed.

Lemma levenshteinDistance_cell (a b : string) :
  let d := levenshteinDistance a b in
  (d = 0%nat <-> a = b)
  /\ (d <= Nat.max (String.length a) (String.length b))%nat
  /\ (String.length a - String.length b <= d)%nat
  /\ (String.length b - String.length a <= d)%nat.
Proof.
  unfold levenshteinDistance. rewrite !string_length_chars.
  pose proof (levenshteinMatrix_rows (chars a) (chars b) []
                (seq 0 (S (length (chars a)))) (length (chars b))
                (rowOf_first (chars a)) (Nat.le_refl _)) as [_ H].
  simpl length in H. rewrite firstn_all in H. simpl app in H.
  destruct (H (length (chars a)) (Nat.le_refl _)) as (Z & U & L & M).
  rewrite firstn_all in Z.
  repeat split; try lia.
  - intro E. apply chars_inj, Z, E.
  - intros ->. apply Z. reflexivity.
Qed.

End LevenshteinFacts.

(** X17.  The edit distance of two strings is 0 exactly when they are equal. *)
Theorem levenshteinDistance_zero_iff_equal (a b : string) :
  Inverted.levenshteinDistance a b = 0%nat <-> a = b.
Proof. apply (levenshteinDistance_cell a b). Qed.

(** X18.  The edit distance lies between the difference of the two lengths and
    the larger of them; against the empty string it is the length of the
    other string. *)
Theorem levenshteinDistance_bounds (a b : string) :
  (String.length a - String.length b <= Inverted.levenshteinDistance a b)%nat
  /\ (String.length b - String.length a
      <= Inverted.levenshteinDistance a b)%nat
  /\ (Inverted.levenshteinDistance a b
      <= Nat.max (String.length a) (String.length b))%nat
  /\ Inverted.levenshteinDistance a EmptyString = String.length a
  /\ Inverted.levenshteinDistance EmptyString b = String.length b.
Proof.
  destruct (levenshteinDistance_cell a b) as (_ & U & L & M).
  destruct (levenshteinDistance_cell a EmptyString) as (_ & U1 & L1 & _).
  destruct (levenshteinDistance_cell EmptyString b) as (_ & U2 & _ & M2).
  simpl in *. repeat split; lia.
Qed.

(** ** Searching the vector indices *)

Lemma mapResult_In {A B : Type} (f : A -> Result B) (l : list A) :
  forall ys, mapResult f l = Ok ys ->
    forall y, In y ys -> exists x, In x l /\ f x = Ok y.
Proof.
  induction l as [|x l IH]; simpl; intros ys H y Hy.
  - injection H as <-. destruct Hy.
  - destruct (f x) as [y0|e] eqn:E; simpl in H; [|discriminate].
    destruct (mapResult f l) as [ys'|e]; simpl in H; [|discriminate].
    injection H as <-. destruct Hy as [<-|Hy].
    + exists x. split; [left; reflexivity | exact E].
    + destruct (IH ys' eq_refl y Hy) as (x' & Hx' & E').
      exists x'. split; [right; exact Hx' | exact E'].
Qed.

Lemma mapResult_Throw {A B : Type} (f : A -> Result B) (l : list A) :
  (exists e, mapResult f l = Throw e)
  <-> exists x e, In x l /\ f x = Throw e.
Proof.
  induction l as [|x l IH]; simpl.
  - split; [intros [e H]; discriminate | intros (x & e & [] & _)].
  - destruct (f x) as [y|e0] eqn:E; simpl.
    + destruct (mapResult f l) as [ys|e1]; simpl.
      * split; [intros [e H]; discriminate|].
        intros (x' & e & [<-|Hx'] & E'); [congruence|].
        destruct IH as [_ IH]. destruct IH as [e1 H1];
          [exists x', e; auto | discriminate].
      * split; [|intros _; eexists; reflexivity].
        intros _. destruct IH as [IH _].
        destruct IH as (x' & e & Hx' & E'); [eexists; reflexivity|].
        exists x', e. auto.
    + split; [|intros _; eexists; reflexivity].
      intros _. exists x, e0. auto.
Qed.

Lemma Array_slice0_In {A : Type} (a : list A) (k : Z) (x : A) :
  In x (Array_slice0 a k) -> In x a.
Proof.
  unfold Array_slice0. destruct (k <? 0)%Z; apply firstn_In.
Qed.

Lemma Array_slice0_exact {A : Type} (a : list A) (k : Z) :
  (0 <= k)%Z -> length (Array_slice0 a k) = Nat.min (Z.to_nat k) (length a).
Proof.
  intro H. unfold Array_slice0.
  destruct (k <? 0)%Z eqn:E; [apply Z.ltb_lt in E; lia|].
  apply length_firstn.
Qed.

Lemma cosineSimilarity_Throw (a b : list float) (e : Exn) :
  Embedding.cosineSimilarity a b = Throw e -> length a <> length b.
Proof.
  unfold Embedding.cosineSimilarity.
  destruct (length a =? length b)%nat eqn:E; simpl.
  - destruct (fold_left _ _ _) as [[d na] nb]. discriminate.
  - intros _. apply Nat.eqb_neq, E.
Qed.

Lemma cosineSimilarity_mismatch (a b : list float) :
  length a <> length b ->
  Embedding.cosineSimilarity a b = Throw (Error "Vector dimensions must match").
Proof.
  intro H. unfold Embedding.cosineSimilarity.
  apply Nat.eqb_neq in H. rewrite H. reflexivity.
Qed.

Section IVFSearch.
Import IVF.

Lemma exactSearch_results (this : IVFIndex) (query : Vector) (k : Z)
    (rs : list SearchResult) :
  exactSearch this query k = Ok rs ->
  ((0 <= k)%Z -> length rs = Nat.min (Z.to_nat k) (size this))
  /\ forall r, In r rs ->
       exists v, In (result_id r, v) (vectors this)
                 /\ cosineSimilarity query v = Ok (similarity r)
                 /\ distance r = 1 - similarity r.
Proof.
  unfold exactSearch. intro H.
  destruct (mapResult _ (vectors this)) as [results|] eqn:M; simpl in H;
    [|discriminate].
  injection H as <-. split.
  - intro Hk. rewrite (Array_slice0_exact _ k Hk), Array_sort_length.
    rewrite (mapResult_length _ _ _ M). reflexivity.
  - intros r Hr. apply Array_slice0_In in Hr.
    apply (Permutation_in r (Array_sort_perm byDistance results)) in Hr.
    destruct (mapResult_In _ _ _ M r Hr) as ([id v] & Hin & E).
    destruct (cosineSimilarity query v) as [s|] eqn:C; simpl in E;
      [|discriminate].
    injection E as <-. exists v. simpl. auto.
Qed.

End IVFSearch.

(** X19.  The exact search of the cluster index throws exactly when a stored
    vector differs in length from the query, and the error is the one of
    the cosine similarity.  When it returns, it returns [min(k, size)]
    results (for [k >= 0]), each the id of a stored vector with its
    similarity to the query and the distance [1 - similarity]. *)
Theorem ivf_exactSearch_outcome
    (this : IVF.IVFIndex) (query : IVF.Vector) (k : Z) :
  ((exists e, IVF.exactSearch this query k = Throw e)
   <-> exists id v, In (id, v) (IVF.vectors this) /\ length v <> length query)
  /\ (forall e, IVF.exactSearch this query k = Throw e ->
                e = Error "Vector dimensions must match")
  /\ (forall rs, IVF.exactSearch this query k = Ok rs ->
        ((0 <= k)%Z -> length rs = Nat.min (Z.to_nat k) (IVF.size this))
        /\ forall r, In r rs ->
             exists v, In (IVF.result_id r, v) (IVF.vectors this)
                       /\ IVF.cosineSimilarity query v = Ok (IVF.similarity r)
                       /\ IVF.distance r = 1 - IVF.similarity r).
Proof.
  split; [|split; [|apply exactSearch_results]].
  - unfold IVF.exactSearch.
    match goal with
    | |- context [mapResult ?f (IVF.vectors this)] =>
        pose proof (mapResult_Throw f (IVF.vectors this)) as T;
        destruct (mapResult f (IVF.vectors this)) as [results|e0]
    end; simpl.
    + split; [intros [e H]; discriminate|].
      intros (id & v & Hin & Hlen). exfalso.
      destruct T as [_ T]. destruct T as [e H]; [|discriminate].
      exists (id, v). eexists. split; [exact Hin|]. simpl.
      unfold IVF.cosineSimilarity.
      rewrite cosineSimilarity_mismatch by congruence. reflexivity.
    + split; [|intros _; eexists; reflexivity].
      intros _. destruct T as [T _].
      destruct T as ([id v] & e & Hin & E); [eexists; reflexivity|].
      exists id, v. split; [exact Hin|]. simpl in E.
      destruct (IVF.cosineSimilarity query v) as [s|e'] eqn:C; simpl in E;
        [discriminate|].
      apply cosineSimilarity_Throw in C. congruence.
  - intros e. unfold IVF.exactSearch.
    assert (G : forall l e',
              mapResult
                (fun entry : string * IVF.Vector =>
                   let '(id, vector) := entry in
                   bind (IVF.cosineSimilarity query vector) (fun similarity =>
                   Ok {| IVF.result_id := id;
                         IVF.distance := 1 - similarity;
                         IVF.similarity := similarity |})) l = Throw e' ->
              e' = Error "Vector dimensions must match").
    { induction l as [|[id v] l IH]; simpl; intros e' H; [discriminate|].
      unfold IVF.cosineSimilarity, Embedding.cosineSimilarity in H.
      destruct (negb _); simpl in H; [congruence|].
      destruct (fold_left _ _ _) as [[d na] nb]. simpl in H.
      destruct (mapResult _ l) as [ys|e1] eqn:M; simpl in H; [discriminate|].
      injection H as <-. apply (IH e1). reflexivity. }
    destruct (mapResult _ (IVF.vectors this)) as [results|e0] eqn:M; simpl;
      [discriminate|].
    intro H. injection H as <-. apply (G _ _ M).
Qed.

(** X20.  [search] on the cluster index: nothing for an empty index; the exact
    search right after an [add] (which invalidates the clustering); and
    whenever it returns, at most [k] results (for [k >= 0]), each the id
    of a stored vector with its similarity to the query and the distance
    [1 - similarity]. *)
Theorem ivf_search_outcome
    (this : IVF.IVFIndex) (query : IVF.Vector) (k : Z) :
  (IVF.size this = 0%nat -> IVF.search this query k = Ok [])
  /\ (forall id v,
        IVF.search (IVF.add this id v) query k
        = IVF.exactSearch (IVF.add this id v) query k)
  /\ (forall rs, IVF.search this query k = Ok rs ->
        ((0 <= k)%Z -> (length rs <= Z.to_nat k)%nat)
        /\ forall r, In r rs ->
             exists v, In (IVF.result_id r, v) (IVF.vectors this)
                       /\ IVF.cosineSimilarity query v = Ok (IVF.similarity r)
                       /\ IVF.distance r = 1 - IVF.similarity r).
Proof.
  split; [|split].
  - intro H. unfold IVF.search. rewrite H. reflexivity.
  - intros id v. unfold IVF.search.
    assert (S : (IVF.size (IVF.add this id v) =? 0)%nat = false).
    { unfold IVF.size, IVF.add. simpl.
      destruct (IVF.vectors this) as [|[k0 v0] m]; simpl;
        [reflexivity|]. destruct (String.eqb k0 id); reflexivity. }
    rewrite S. reflexivity.
  - intros rs H. unfold IVF.search in H.
    destruct (IVF.size this =? 0)%nat.
    { injection H as <-. split; [intros _; simpl; lia | intros r []]. }
    destruct (negb (IVF.built this) || _).
    { destruct (exactSearch_results this query k rs H) as [L R].
      split; [intro Hk; rewrite (L Hk); lia | exact R]. }
    destruct (IVF.findNearestCentroids this query _) as [nearest|];
      simpl in H; [|discriminate].
    destruct (mapResult _ nearest) as [groups|] eqn:M; simpl in H;
      [|discriminate].
    injection H as <-. split.
    + intro Hk. rewrite (Array_slice0_exact _ k Hk). lia.
    + intros r Hr. apply Array_slice0_In in Hr.
      apply (Permutation_in r (Array_sort_perm IVF.byDistance (concat groups)))
        in Hr.
      apply in_concat in Hr. destruct Hr as (group & Hg & Hr).
      destruct (mapResult_In _ _ _ M group Hg) as (clusterIdx & _ & E).
      destruct (mapResult_In _ _ _ E r Hr) as (id & _ & Er).
      destruct (Map_get (IVF.vectors this) id) as [v|] eqn:G; [|discriminate].
      destruct (IVF.cosineSimilarity query v) as [s|] eqn:C; simpl in Er;
        [|discriminate].
      injection Er as <-. exists v. simpl.
      split; [apply Map_get_In, G | auto].
Qed.

(** X21.  [search] on the graph index: its loop ends (the bound of the model is
    never reached); nothing is returned for an empty index; and whenever
    it returns, it returns at most [k] results (for [k >= 0]), each the id
    of a stored node with its similarity to the query and the distance
    [1 - similarity]. *)
Theorem hnsw_search_outcome
    (this : HNSW.HNSWIndex) (query : HNSW.Vector) (k : Z) :
  notExhausted (HNSW.search this query k)
  /\ (HNSW.size this = 0%nat -> HNSW.search this query k = Ok [])
  /\ (forall rs, HNSW.search this query k = Ok rs ->
        ((0 <= k)%Z -> (length rs <= Z.to_nat k)%nat)
        /\ forall r, In r rs ->
             exists key node,
               In (key, node) (HNSW.nodes this)
               /\ HNSW.result_id r = HNSW.id node
               /\ HNSW.cosineSimilarity query (HNSW.vector node)
                  = Ok (HNSW.similarity r)
               /\ HNSW.distance r = 1 - HNSW.similarity r).
Proof.
  split; [apply bounded_search|]. split.
  - intro H. unfold HNSW.search. unfold HNSW.size in H. rewrite H.
    reflexivity.
  - intros rs H.
    assert (X : forall rs, HNSW.exactSearch this query k = Ok rs ->
                ((0 <= k)%Z -> (length rs <= Z.to_nat k)%nat)
                /\ forall r, In r rs ->
                     exists key node,
                       In (key, node) (HNSW.nodes this)
                       /\ HNSW.result_id r = HNSW.id node
                       /\ HNSW.cosineSimilarity query (HNSW.vector node)
                          = Ok (HNSW.similarity r)
                       /\ HNSW.distance r = 1 - HNSW.similarity r).
    { clear rs H. intros rs H. unfold HNSW.exactSearch in H.
      destruct (mapResult _ (HNSW.nodes this)) as [results|] eqn:M;
        simpl in H; [|discriminate].
      injection H as <-. split.
      - intro Hk. rewrite (Array_slice0_exact _ k Hk). lia.
      - intros r Hr. apply Array_slice0_In in Hr.
        apply (Permutation_in r (Array_sort_perm _ results)) in Hr.
        destruct (mapResult_In _ _ _ M r Hr) as ([key node] & Hin & E).
        simpl in E.
        destruct (HNSW.cosineSimilarity query (HNSW.vector node)) as [s|]
          eqn:C; simpl in E; [|discriminate].
        injection E as <-. exists key, node. simpl. auto. }
    unfold HNSW.search in H.
    destruct (length (HNSW.nodes this) =? 0)%nat.
    { injection H as <-. split; [intros _; simpl; lia | intros r []]. }
    destruct (HNSW.entryPoint this) as [ep|]; [|exact (X rs H)].
    destruct (length (HNSW.nodes this) =? 1)%nat; [exact (X rs H)|].
    destruct (HNSW.getNode this ep) as [entryNode|]; simpl in H;
      [|discriminate].
    destruct (HNSW.descend _ this query 0 [ep]) as [nearest|]; simpl in H;
      [|discriminate].
    destruct (HNSW.searchLayer this query nearest 0 _) as [found|];
      simpl in H; [|discriminate].
    split.
    + intro Hk. rewrite (mapResult_length _ _ _ H).
      rewrite (Array_slice0_exact _ k Hk). lia.
    + intros r Hr.
      destruct (mapResult_In _ _ _ H r Hr) as (nid & _ & E).
      destruct (HNSW.getNode this nid) as [node|] eqn:G; simpl in E;
        [|discriminate].
      unfold HNSW.distanceBetween in E.
      destruct (HNSW.cosineSimilarity query (HNSW.vector node)) as [s|]
        eqn:C; simpl in E; [|discriminate].
      injection E as <-. exists nid, node. simpl.
      split; [|auto]. apply Map_get_In. unfold HNSW.getNode in G.
      destruct (Map_get (HNSW.nodes this) nid); congruence.
Qed.

Section IVFBuild.
Import IVF.

Lemma pushTo_keys (cl : list (nat * list string)) (i : nat) (id : string) :
  forall cl', pushTo cl i id = Ok cl' -> map fst cl' = map fst cl.
Proof.
  induction cl as [|[j ids] cl IH]; simpl; intros cl' H; [discriminate|].
  destruct (j =? i)%nat.
  - injection H as <-. reflexivity.
  - destruct (pushTo cl i id) as [cl''|e]; simpl in H; [|discriminate].
    injection H as <-. simpl. f_equal. apply IH. reflexivity.
Qed.

Lemma assign_keys (cs : list (option Vector)) (entries : list (string * Vector)) :
  forall cl cl' r, assign cs entries cl = (r, cl') -> map fst cl' = map fst cl.
Proof.
  induction entries as [|[id v] entries IH]; simpl; intros cl cl' r H.
  - injection H as _ <-. reflexivity.
  - destruct (findNearestCentroidFrom v cs) as [idx|e].
    2:{ injection H as _ <-. reflexivity. }
    destruct (pushTo cl idx id) as [cl1|e] eqn:P.
    2:{ injection H as _ <-. reflexivity. }
    rewrite (IH cl1 cl' r H). apply (pushTo_keys _ _ _ _ P).
Qed.

End IVFBuild.

(** X22.  A [build] that runs the clustering and returns makes
    [min(nClusters, number of vectors)] clusters: that many centroids, and
    the posting lists numbered from 0 to that number less one. *)
Theorem ivf_build_cluster_count
    (this st' : IVF.IVFIndex) (arg : option (list (string * IVF.Vector)))
    (w w' : World) :
  (0 < IVF.maxIter (IVF.config this))%nat ->
  IVF.build this arg w = (Ok tt, st', w') ->
  IVF.vectors st' <> [] ->
  let k := Nat.min (IVF.nClusters (IVF.config this)) (IVF.size st') in
  IVF.built st' = true
  /\ length (IVF.centroids st') = k
  /\ map fst (IVF.clusters st') = seq 0 k.
Proof.
  intros Hit H Hne. cbv zeta. unfold IVF.build in H.
  set (this1 := match arg with
                | Some vs => _
                | None => this
                end) in H.
  assert (Hcfg : IVF.config this1 = IVF.config this)
    by (destruct arg; reflexivity).
  destruct (length (IVF.vectors this1) =? 0)%nat eqn:E0.
  - injection H as <- _. apply Nat.eqb_eq in E0.
    destruct (IVF.vectors this1); [congruence | discriminate].
  - destruct (IVF.kMeans (IVF.config this1) (map snd (IVF.vectors this1)) _ w)
      as [[cs|e] w1] eqn:K; [|inversion H].
    destruct (IVF.assign cs (IVF.vectors this1) _) as [r filled] eqn:A.
    destruct r as [[]|e]; [|inversion H].
    injection H as <- _. simpl.
    apply kMeans_length in K; [|rewrite Hcfg; exact Hit|apply Nat.le_min_r].
    apply assign_keys in A. rewrite map_map in A. simpl in A.
    rewrite map_id in A.
    unfold IVF.size. simpl. rewrite length_map, Hcfg in K, A.
    auto.
Qed.

Lemma ivf_build_cluster_count_witness :
  let this :=
    IVF.add (IVF.new {| IVF.cfg_nClusters := None; IVF.cfg_nProbe := None;
                        IVF.cfg_maxIter := None |}) "a" [1] in
  exists st' w',
    IVF.build this None {| random := fun _ => 0.5; drawn := 0 |}
    = (Ok tt, st', w')
    /\ IVF.built st' = true
    /\ length (IVF.centroids st')
       = Nat.min (IVF.nClusters (IVF.config this)) (IVF.size st')
    /\ map fst (IVF.clusters st')
       = seq 0 (Nat.min (IVF.nClusters (IVF.config this)) (IVF.size st')).
Proof.
  intro this.
  destruct (IVF.build this None {| random := fun _ => 0.5; drawn := 0 |})
    as [[r st'] w'] eqn:B.
  assert (Hr : r = Ok tt /\ IVF.vectors st' <> []).
  { apply (f_equal (fun x => (fst (fst x), IVF.vectors (snd (fst x))))) in B.
    vm_compute in B. injection B as E1 E2. split; [symmetry; exact E1|].
    assert (Hv : [("a"%string, [1])] = IVF.vectors st') by exact E2.
    rewrite <- Hv. discriminate. }
  destruct Hr as [-> Hne]. exists st', w'. split; [reflexivity|].
  apply (ivf_build_cluster_count this st' None
           {| random := fun _ => 0.5; drawn := 0 |} w');
    [simpl; lia | exact B | exact Hne].
Defined.

(** X23.  The invariant of the cluster index, on the paths that keep it.  After
    any sequence of [add], [build()] and [build(map)] calls on a new
    index, where every map passed is non-empty and every call returned: if
    the index is marked built, every id of the vector map is in exactly
    one posting list and the posting lists hold nothing else, and there
    are as many centroids as posting lists. *)
Theorem ivf_built_index_partitions_vectors
    (c : IVF.IVFConfig) (calls : list IVF.Call) (w w' : World)
    (outcomes : list (Result unit)) (index : IVF.IVFIndex) :
  Forall (fun call =>
            match call with
            | IVF.CallBuild (Some vs) => vs <> [] /\ NoDup (Map_keys vs)
            | _ => True
            end) calls ->
  IVF.run (IVF.new c) calls w = (outcomes, index, w') ->
  Forall (fun r => r = Ok tt) outcomes ->
  IVF.built index = true ->
  NoDup (IVF.postings index)
  /\ (forall id, In id (IVF.postings index)
                 <-> In id (Map_keys (IVF.vectors index)))
  /\ length (IVF.postings index) = IVF.size index
  /\ length (IVF.centroids index) = length (IVF.clusters index).
Proof.
  intros Hargs Hrun Hok Hb.
  apply (run_consistent calls (IVF.new c) index w w' outcomes);
    try assumption.
  - simpl. unfold IVF.orDefault. destruct (IVF.cfg_maxIter c) as [[|n]|]; lia.
  - constructor.
  - intro B. discriminate B.
Qed.

Lemma ivf_built_index_partitions_vectors_witness :
  exists index,
    fst (IVF.run (IVF.new {| IVF.cfg_nClusters := None; IVF.cfg_nProbe := None;
                             IVF.cfg_maxIter := None |})
           [IVF.CallAdd "a" [1]; IVF.CallAdd "b" [2]; IVF.CallBuild None]
           {| random := fun _ => 0.5; drawn := 0 |})
    = ([Ok tt; Ok tt; Ok tt], index)
    /\ NoDup (IVF.postings index)
    /\ length (IVF.postings index) = IVF.size index.
Proof.
  destruct (IVF.run (IVF.new {| IVF.cfg_nClusters := None;
                                IVF.cfg_nProbe := None;
                                IVF.cfg_maxIter := None |})
              [IVF.CallAdd "a" [1]; IVF.CallAdd "b" [2]; IVF.CallBuild None]
              {| random := fun _ => 0.5; drawn := 0 |})
    as [[outcomes index] w'] eqn:Run.
  assert (Hr : outcomes = [Ok tt; Ok tt; Ok tt] /\ IVF.built index = true).
  { apply (f_equal (fun x => (fst (fst x), IVF.built (snd (fst x))))) in Run.
    vm_compute in Run. injection Run as E1 E2.
    split; [symmetry; exact E1 | symmetry; exact E2]. }
  destruct Hr as [Hout Hb]. exists index.
  split; [simpl; rewrite Hout; reflexivity|].
  destruct (ivf_built_index_partitions_vectors
              {| IVF.cfg_nClusters := None; IVF.cfg_nProbe := None;
                 IVF.cfg_maxIter := None |}
              [IVF.CallAdd "a" [1]; IVF.CallAdd "b" [2]; IVF.CallBuild None]
              {| random := fun _ => 0.5; drawn := 0 |} w' outcomes index)
    as (H1 & _ & H3 & _).
  - repeat constructor.
  - exact Run.
  - rewrite Hout. repeat constructor.
  - exact Hb.
  - split; assumption.
Defined.

(** ** The graph index, further *)

Section HNSWMore.
Import HNSW.

Lemma Map_keys_set_present {V : Type} (m : list (string * V)) (k : string)
    (v v' : V) :
  Map_get m k = Some v' -> Map_keys (Map_set m k v) = Map_keys m.
Proof.
  unfold Map_keys. induction m as [|[k0 v0] m IH]; simpl; [discriminate|].
  destruct (String.eqb k0 k) eqn:E; simpl.
  - apply String.eqb_eq in E. subst k0. reflexivity.
  - intro H. rewrite (IH H). reflexivity.
Qed.

Lemma sameShape_refl (this : HNSWIndex) : sameShape this this.
Proof. repeat split. Qed.

Lemma sameShape_trans (a b c : HNSWIndex) :
  sameShape a b -> sameShape b c -> sameShape a c.
Proof.
  intros (C1 & E1 & K1 & S1) (C2 & E2 & K2 & S2).
  split; [congruence|]. split; [congruence|]. split; [congruence|].
  intro k. rewrite S2. apply S1.
Qed.

(** Replacing the neighbour list of a stored node keeps every shape. *)
Lemma rewire_shape (this : HNSWIndex) (n : string) (node node' : HNSWNode)
    (l : nat) (c : list string) :
  Map_get (nodes this) n = Some node ->
  setConnections node l c = Some node' ->
  sameShape this {| config := config this;
                    nodes := Map_set (nodes this) n node';
                    entryPoint := entryPoint this |}.
Proof.
  intros G S. unfold setConnections in S.
  destruct (l <? length (connections node))%nat; [|discriminate].
  injection S as <-.
  split; [reflexivity|]. split; [reflexivity|]. split.
  - simpl. apply (Map_keys_set_present _ _ _ node G).
  - intro k. unfold shapeAt. simpl. rewrite Map_get_set.
    destruct (String.eqb n k) eqn:E; [|reflexivity].
    apply String.eqb_eq in E. subst k. rewrite G. simpl.
    rewrite Array_set_length. reflexivity.
Qed.

Lemma getNode_get (this : HNSWIndex) (n : string) (node : HNSWNode) :
  getNode this n = Ok node <-> Map_get (nodes this) n = Some node.
Proof.
  unfold getNode. destruct (Map_get (nodes this) n); split; congruence.
Qed.

Lemma pushConnection_shape (this this' : HNSWIndex) (n : string) (l : nat)
    (x : string) :
  pushConnection this n l x = Ok this' -> sameShape this this'.
Proof.
  unfold pushConnection. intro H.
  destruct (getNode this n) as [node|] eqn:G; simpl in H; [|discriminate].
  apply getNode_get in G.
  destruct (setConnections node l _) as [node'|] eqn:S; [|discriminate].
  injection H as <-. apply (rewire_shape this n node node' l _ G S).
Qed.

Lemma connect_shape (this this' : HNSWIndex) (newId nb : string)
    (lc M0 : nat) (r : Result unit) :
  connect this newId lc M0 nb = (r, this') -> sameShape this this'.
Proof.
  unfold connect. intro H.
  destruct (pushConnection this newId lc nb) as [this1|] eqn:P1.
  2:{ injection H as _ <-. apply sameShape_refl. }
  apply pushConnection_shape in P1.
  destruct (pushConnection this1 nb lc newId) as [this2|] eqn:P2.
  2:{ injection H as _ <-. exact P1. }
  apply pushConnection_shape in P2.
  pose proof (sameShape_trans _ _ _ P1 P2) as P12.
  destruct (getNode this2 nb) as [neighborNode|] eqn:G.
  2:{ injection H as _ <-. exact P12. }
  apply getNode_get in G.
  destruct (M0 <? length (nth lc (connections neighborNode) []))%nat.
  2:{ injection H as _ <-. exact P12. }
  destruct (pruneConnections this2 neighborNode lc M0) as [pruned|].
  2:{ injection H as _ <-. exact P12. }
  destruct (setConnections neighborNode lc pruned) as [n'|] eqn:S.
  2:{ injection H as _ <-. exact P12. }
  injection H as _ <-.
  apply (sameShape_trans _ _ _ P12).
  apply (rewire_shape this2 nb neighborNode n' lc pruned G S).
Qed.

Lemma connectAll_shape (newId : string) (lc M0 : nat)
    (neighbors : list string) :
  forall this this' r,
    connectAll this newId lc M0 neighbors = (r, this') -> sameShape this this'.
Proof.
  induction neighbors as [|nb neighbors IH]; intros this this' r H; simpl in H.
  - injection H as _ <-. apply sameShape_refl.
  - destruct (connect this newId lc M0 nb) as [[[]|e] this1] eqn:C.
    + apply connect_shape in C.
      apply (sameShape_trans _ _ _ C), (IH _ _ _ H).
    + injection H as _ <-. apply (connect_shape _ _ _ _ _ _ _ C).
Qed.

Lemma insertLayers_shape (newId : string) (vector0 : Vector) (layers : nat) :
  forall this this' nearest r,
    insertLayers layers this newId vector0 nearest = (r, this') ->
    sameShape this this'.
Proof.
  induction layers as [|lc IH]; intros this this' nearest r H; simpl in H.
  - injection H as _ <-. apply sameShape_refl.
  - destruct (searchLayer this vector0 nearest lc _) as [candidates|].
    2:{ injection H as _ <-. apply sameShape_refl. }
    destruct (selectNeighbors this vector0 candidates _) as [neighbors|].
    2:{ injection H as _ <-. apply sameShape_refl. }
    destruct (connectAll this newId lc _ neighbors) as [[[]|e] this1] eqn:C.
    + apply connectAll_shape in C.
      apply (sameShape_trans _ _ _ C), (IH _ _ _ _ H).
    + injection H as _ <-. apply (connectAll_shape _ _ _ _ _ _ _ C).
Qed.

(** A search from the entry node alone, at a layer that the entry node
    does not have, finds the entry node and nothing else. *)
Lemma searchLayer_above_entry (this : HNSWIndex) (query : Vector)
    (ep : string) (entryNode : HNSWNode) (layer ef : nat)
    (res : list string) :
  Map_get (nodes this) ep = Some entryNode ->
  (length (connections entryNode) <= layer)%nat ->
  searchLayer this query [ep] layer ef = Ok res ->
  res = [ep].
Proof.
  intros G Hl H. unfold searchLayer in H. simpl in H.
  apply getNode_get in G. rewrite G in H. simpl in H.
  destruct (distanceBetween query (vector entryNode)) as [d|]; simpl in H;
    [|discriminate].
  rewrite G in H. cbn [bind] in H.
  rewrite (nth_overflow (connections entryNode) [] Hl) in H.
  cbn [visitAll bind] in H.
  assert (E : searchLoop (length (nodes this)) this query layer ef
                ([ep], [], [(ep, d)]) = Ok [(ep, d)])
    by (destruct (length (nodes this)); reflexivity).
  rewrite E in H.
  destruct (ef <=? 1)%nat; [destruct (gtb d d)|]; simpl in H;
    injection H as <-; reflexivity.
Qed.

(** Connecting a new node at a layer that the entry node does not have
    throws: the entry node has no neighbour list there to push onto. *)
Lemma insertLayers_above_entry (this this' : HNSWIndex) (newId ep : string)
    (entryNode : HNSWNode) (vector0 : Vector) (level0 : nat)
    (r : Result unit) :
  Map_get (nodes this) ep = Some entryNode ->
  (length (connections entryNode) <= level0)%nat ->
  ep <> newId ->
  (1 <= M (config this))%nat ->
  insertLayers (S level0) this newId vector0 [ep] = (r, this') ->
  r <> Ok tt.
Proof.
  intros G Hl Hne HM H. cbn [insertLayers] in H.
  destruct (searchLayer this vector0 [ep] level0 _) as [candidates|] eqn:Hs.
  2:{ injection H as <- _. discriminate. }
  apply (searchLayer_above_entry _ _ _ _ _ _ _ G Hl) in Hs. subst candidates.
  set (M0 := if (level0 =? 0)%nat then (M (config this) * 2)%nat
             else M (config this)) in H.
  assert (HM0 : (1 <= M0)%nat) by (unfold M0; destruct (level0 =? 0)%nat; lia).
  unfold selectNeighbors in H. simpl length in H.
  destruct (1 <=? M0)%nat eqn:E; [|apply Nat.leb_gt in E; lia].
  cbn [connectAll] in H. unfold connect in H.
  destruct (pushConnection this newId level0 ep) as [this1|] eqn:P1.
  2:{ injection H as <- _. discriminate. }
  assert (G1 : getNode this1 ep = Ok entryNode).
  { unfold pushConnection in P1.
    destruct (getNode this newId) as [node|]; simpl in P1; [|discriminate].
    destruct (setConnections node level0 _) as [node'|]; [|discriminate].
    injection P1 as <-. apply getNode_get. simpl. rewrite Map_get_set.
    destruct (String.eqb newId ep) eqn:E1; [|exact G].
    apply String.eqb_eq in E1. congruence. }
  unfold pushConnection in H at 1. rewrite G1 in H. simpl in H.
  unfold setConnections in H at 1.
  destruct (level0 <? length (connections entryNode))%nat eqn:E2;
    [apply Nat.ltb_lt in E2; lia|].
  injection H as <- _. discriminate.
Qed.

(** One returning [insert] on a levelled index: the new node is not above
    the entry node, the entry point stays (or is the new node, on an empty
    index), and nothing else changes shape. *)
Lemma insert_Levelled (this this' : HNSWIndex) (newId : string)
    (vector0 : Vector) (w w' : Levels) :
  Levelled this ->
  Map_has (nodes this) newId = false ->
  (1 <= M (config this))%nat ->
  insert this newId vector0 w = (Ok tt, this', w') ->
  Levelled this'
  /\ config this' = config this
  /\ entryPoint this'
     = match entryPoint this with
       | Some ep => Some ep
       | None => Some newId
       end
  /\ Map_keys (nodes this') = Map_keys (nodes this) ++ [newId]
  /\ (exists level0,
        level_at w (levels_drawn w) = Some level0
        /\ shapeAt this' newId = Some (newId, level0, (level0 + 1)%nat))
  /\ (forall k, k <> newId -> shapeAt this' k = shapeAt this k).
Proof.
  intros HL Hfresh HM H. unfold insert in H.
  unfold selectLevel in H. cbn [fst snd] in H.
  destruct (level_at w (levels_drawn w)) as [level0|] eqn:Ew; [|inversion H].
  set (node := {| id := newId; vector := vector0; level := level0;
                  connections := repeat [] (level0 + 1) |}) in H.
  set (this1 := putNode this node) in H.
  assert (Gnone : Map_get (nodes this) newId = None).
  { unfold Map_has in Hfresh. destruct (Map_get (nodes this) newId);
      [discriminate | reflexivity]. }
  assert (K1 : Map_keys (nodes this1) = Map_keys (nodes this) ++ [newId]).
  { unfold this1, putNode. simpl. rewrite Map_keys_set. unfold Set_add.
    rewrite <- Map_has_keys, Hfresh. reflexivity. }
  assert (S1new : shapeAt this1 newId = Some (newId, level0, (level0 + 1)%nat)).
  { unfold shapeAt, this1, putNode. simpl. rewrite Map_get_set.
    rewrite String.eqb_refl. simpl. rewrite repeat_length. reflexivity. }
  assert (S1old : forall k, k <> newId -> shapeAt this1 k = shapeAt this k).
  { intros k Hk. unfold shapeAt, this1, putNode. simpl. rewrite Map_get_set.
    destruct (String.eqb newId k) eqn:E; [|reflexivity].
    apply String.eqb_eq in E. congruence. }
  change (entryPoint this1) with (entryPoint this) in H.
  destruct (entryPoint this) as [ep|] eqn:Eep.
  - destruct (lev_entry _ HL ep Eep) as (entryNode & Gep & Hmax).
    assert (Hne : ep <> newId) by (intros ->; congruence).
    assert (G1 : Map_get (nodes this1) ep = Some entryNode).
    { unfold this1, putNode. simpl. rewrite Map_get_set.
      destruct (String.eqb newId ep) eqn:E; [|exact Gep].
      apply String.eqb_eq in E. congruence. }
    pose proof G1 as G1'. apply getNode_get in G1'. rewrite G1' in H.
    destruct (descend _ this1 vector0 level0 [ep]) as [nearest|] eqn:D;
      [|inversion H].
    destruct (insertLayers (level0 + 1) this1 newId vector0 nearest)
      as [[[]|e] this2] eqn:L; [|inversion H].
    destruct (lev_shape _ HL ep entryNode Gep) as [_ Hlen].
    assert (Hle : (level0 <= level entryNode)%nat).
    { destruct (Nat.le_gt_cases level0 (level entryNode)) as [|Hgt];
        [assumption|]. exfalso.
      replace (level entryNode - level0)%nat with 0%nat in D by lia.
      simpl in D. injection D as <-.
      rewrite Nat.add_1_r in L.
      apply (insertLayers_above_entry this1 this2 newId ep entryNode vector0
               level0 (Ok tt) G1); try assumption; [lia|reflexivity]. }
    destruct (level entryNode <? level0)%nat eqn:E;
      [apply Nat.ltb_lt in E; lia|].
    injection H as <- <-.
    destruct (insertLayers_shape _ _ _ _ _ _ _ L) as (C2 & E2 & K2 & S2).
    assert (Sh : forall k n, Map_get (nodes this2) k = Some n ->
                 shapeAt this1 k = Some (id n, level n, length (connections n))).
    { intros k n Gk. rewrite <- S2. unfold shapeAt. rewrite Gk. reflexivity. }
    assert (E2' : entryPoint this2 = Some ep) by (rewrite E2; exact Eep).
    split; [|split; [exact C2|split; [exact E2'|split; [congruence|split]]]].
    + constructor.
      * intros k n Gk. apply Sh in Gk.
        destruct (string_dec k newId) as [->|Hk].
        -- rewrite S1new in Gk. injection Gk as <- <- <-. split; reflexivity.
        -- rewrite (S1old k Hk) in Gk. unfold shapeAt in Gk.
           destruct (Map_get (nodes this) k) as [n0|] eqn:G0; [|discriminate].
           destruct (lev_shape _ HL k n0 G0) as [I0 L0].
           injection Gk as <- <- <-. split; assumption.
      * intros ep' Hep'. rewrite E2' in Hep'. injection Hep' as <-.
        pose proof (S2 ep) as Sep. unfold shapeAt in Sep. rewrite G1 in Sep.
        destruct (Map_get (nodes this2) ep) as [entryNode2|] eqn:G2;
          [|discriminate].
        injection Sep as _ Hlev _.
        exists entryNode2. split; [reflexivity|].
        intros k n Gk. rewrite Hlev. apply Sh in Gk.
        destruct (string_dec k newId) as [->|Hk].
        -- rewrite S1new in Gk. injection Gk as _ <- _. exact Hle.
        -- rewrite (S1old k Hk) in Gk. unfold shapeAt in Gk.
           destruct (Map_get (nodes this) k) as [n0|] eqn:G0; [|discriminate].
           injection Gk as _ <- _. apply (Hmax k n0 G0).
      * intro Hnone. rewrite E2' in Hnone. discriminate.
    + exists level0. split; [reflexivity|]. rewrite S2. exact S1new.
    + intros k Hk. rewrite S2. apply S1old, Hk.
  - injection H as <- <-.
    pose proof (lev_empty _ HL Eep) as Hnil.
    split; [|split; [reflexivity|split; [reflexivity|split; [exact K1|split]]]].
    + constructor; simpl.
      * intros k n Gk. unfold this1, putNode in Gk. simpl in Gk.
        rewrite Hnil in Gk. simpl in Gk.
        destruct (String.eqb newId k) eqn:E; [|discriminate].
        apply String.eqb_eq in E. injection Gk as <-. subst k. simpl.
        rewrite repeat_length. split; reflexivity.
      * intros ep' Hep'. injection Hep' as <-. exists node.
        unfold this1, putNode. simpl. rewrite Hnil. simpl.
        rewrite String.eqb_refl. split; [reflexivity|].
        intros k n Gk. destruct (String.eqb newId k); [|discriminate].
        injection Gk as <-. apply Nat.le_refl.
      * discriminate.
    + exists level0. split; [reflexivity | exact S1new].
    + exact S1old.
Qed.

Lemma Levelled_new (c : HNSWConfig) : Levelled (new c).
Proof.
  constructor; simpl; [discriminate | discriminate | reflexivity].
Qed.

Lemma M_new (c : HNSWConfig) : (1 <= M (config (new c)))%nat.
Proof.
  simpl. unfold IVF.orDefault. destruct (cfg_M c) as [[|n]|]; lia.
Qed.

(** Returning [insert] calls with fresh ids, one after the other. *)
Lemma insertAll_Levelled (calls : list (string * Vector)) :
  forall this st w w' rs,
    Levelled this ->
    (1 <= M (config this))%nat ->
    NoDup (map fst calls) ->
    (forall c, In c (map fst calls) -> Map_has (nodes this) c = false) ->
    insertAll this calls w = (rs, st, w') ->
    Forall (fun r => r = Ok tt) rs ->
    Levelled st
    /\ Map_keys (nodes st) = Map_keys (nodes this) ++ map fst calls
    /\ (forall ep, entryPoint this = Some ep -> entryPoint st = Some ep)
    /\ (forall k, ~ In k (map fst calls) -> shapeAt st k = shapeAt this k).
Proof.
  induction calls as [|[newId vector0] calls IH];
    intros this st w w' rs HL HM Hnd Hfresh H Hok; simpl in H.
  - injection H as _ <- _. simpl. rewrite app_nil_r. auto.
  - destruct (insert this newId vector0 w) as [[r this1] w1] eqn:I.
    destruct (insertAll this1 calls w1) as [[rs1 st1] w2] eqn:A.
    injection H as <- <- <-.
    inversion Hok as [|? ? Hr Hok1]; subst.
    simpl in Hnd. inversion Hnd as [|? ? Hnotin Hnd1]; subst.
    destruct (insert_Levelled this this1 newId vector0 w w1 HL
                (Hfresh newId (or_introl eq_refl)) HM I)
      as (HL1 & C1 & E1 & K1 & _ & S1).
    assert (F1 : forall c, In c (map fst calls) ->
                           Map_has (nodes this1) c = false).
    { intros c Hc. rewrite Map_has_keys, K1.
      destruct (Set_has (Map_keys (nodes this) ++ [newId]) c) eqn:E;
        [|reflexivity].
      apply Set_has_In, in_app_iff in E. destruct E as [E|[E|[]]].
      - apply Set_has_In in E. rewrite <- Map_has_keys in E.
        rewrite (Hfresh c (or_intror Hc)) in E. discriminate.
      - subst c. contradiction. }
    destruct (IH this1 st1 w1 w2 rs1 HL1 ltac:(rewrite C1; exact HM) Hnd1 F1
                A Hok1) as (HLs & Ks & Es & Ss).
    split; [exact HLs|]. split; [|split].
    + rewrite Ks, K1, <- app_assoc. reflexivity.
    + intros ep Hep. apply Es. rewrite E1, Hep. reflexivity.
    + intros k Hk. simpl in Hk. rewrite Ss by tauto. apply S1.
      intros ->. apply Hk. left. reflexivity.
Qed.

End HNSWMore.

(** X24.  The entry point never moves.  After any sequence of [insert] calls
    with pairwise distinct ids on a new index, each of which returned, the
    entry point is the first id inserted, that node has the level drawn for
    it, and no node is above it: a call that draws a level above the entry
    node's throws, so the update of the entry point is never reached by a
    call that returns.  The index holds the ids in insertion order. *)
Theorem hnsw_entry_point_never_moves
    (c : HNSW.HNSWConfig) (id0 : string) (vector0 : HNSW.Vector)
    (calls : list (string * HNSW.Vector)) (w w' : HNSW.Levels)
    (outcomes : list (Result unit)) (index : HNSW.HNSWIndex) :
  NoDup (id0 :: map fst calls) ->
  HNSW.insertAll (HNSW.new c) ((id0, vector0) :: calls) w
  = (outcomes, index, w') ->
  Forall (fun r => r = Ok tt) outcomes ->
  HNSW.entryPoint index = Some id0
  /\ Map_keys (HNSW.nodes index) = id0 :: map fst calls
  /\ HNSW.size index = S (length calls)
  /\ exists entryNode,
       Map_get (HNSW.nodes index) id0 = Some entryNode
       /\ HNSW.level_at w (HNSW.levels_drawn w) = Some (HNSW.level entryNode)
       /\ forall k n, Map_get (HNSW.nodes index) k = Some n ->
                      (HNSW.level n <= HNSW.level entryNode)%nat.
Proof.
  intros Hnd Hrun Hok. simpl in Hrun.
  destruct (HNSW.insert (HNSW.new c) id0 vector0 w) as [[r this1] w1] eqn:I.
  destruct (HNSW.insertAll this1 calls w1) as [[rs1 st1] w2] eqn:A.
  injection Hrun as <- <- <-.
  inversion Hok as [|? ? Hr Hok1]; subst.
  inversion Hnd as [|? ? Hnotin Hnd1]; subst.
  destruct (insert_Levelled (HNSW.new c) this1 id0 vector0 w w1
              (Levelled_new c) eq_refl (M_new c) I)
    as (HL1 & C1 & E1 & K1 & (level0 & Ew & S1) & _).
  simpl in E1, K1.
  assert (F1 : forall k, In k (map fst calls) ->
                         Map_has (HNSW.nodes this1) k = false).
  { intros k Hk. rewrite Map_has_keys, K1. simpl.
    destruct (String.eqb k id0) eqn:E; [|reflexivity].
    apply String.eqb_eq in E. subst k. contradiction. }
  destruct (insertAll_Levelled calls this1 st1 w1 w2 rs1 HL1
              ltac:(rewrite C1; apply M_new) Hnd1 F1 A Hok1)
    as (HLs & Ks & Es & Ss).
  pose proof (Es id0 E1) as Hentry.
  split; [exact Hentry|]. split; [rewrite Ks, K1; reflexivity|]. split.
  - unfold HNSW.size. rewrite <- (length_map fst (HNSW.nodes st1)).
    change (map fst (HNSW.nodes st1)) with (Map_keys (HNSW.nodes st1)).
    rewrite Ks, K1. simpl. rewrite length_map. reflexivity.
  - destruct (HNSW.lev_entry _ HLs id0 Hentry) as (entryNode & G & Hmax).
    exists entryNode. split; [exact G|]. split; [|exact Hmax].
    pose proof (Ss id0 Hnotin) as Sid. rewrite S1 in Sid.
    unfold HNSW.shapeAt in Sid. rewrite G in Sid.
    injection Sid as _ Hlev _. rewrite Ew, Hlev. reflexivity.
Qed.

Lemma hnsw_entry_point_never_moves_witness :
  exists index,
    fst (HNSW.insertAll Scenario.hnsw2 Scenario.six_inserts Scenario.levels0)
    = ([Ok tt; Ok tt; Ok tt; Ok tt; Ok tt; Ok tt], index)
    /\ HNSW.entryPoint index = Some "n1"%string
    /\ HNSW.size index = 6%nat.
Proof.
  destruct (HNSW.insertAll Scenario.hnsw2 Scenario.six_inserts
              Scenario.levels0) as [[outcomes index] w'] eqn:Run.
  assert (Hout : outcomes = [Ok tt; Ok tt; Ok tt; Ok tt; Ok tt; Ok tt]).
  { apply (f_equal (fun r => fst (fst r))) in Run. vm_compute in Run.
    symmetry. exact Run. }
  exists index. split; [simpl; rewrite Hout; reflexivity|].
  destruct (hnsw_entry_point_never_moves
              {| HNSW.cfg_M := Some 2%nat; HNSW.cfg_efConstruction := None;
                 HNSW.cfg_efSearch := None |}
              "n1" [1; 0] (tl Scenario.six_inserts) Scenario.levels0 w'
              outcomes index) as (H1 & _ & H3 & _).
  - repeat constructor; simpl; intuition discriminate.
  - exact Run.
  - rewrite Hout. repeat constructor.
  - split; [exact H1 | exact H3].
Defined.

(** ** The matcher, further *)

Lemma cosineSimilarity_same_length (a b : list float) :
  length a = length b -> exists s, Embedding.cosineSimilarity a b = Ok s.
Proof.
  intro H. unfold Embedding.cosineSimilarity. rewrite H, Nat.eqb_refl. simpl.
  destruct (fold_left _ _ _) as [[d na] nb]. eexists. reflexivity.
Qed.

Lemma Map_get_None_keys {V : Type} (m : list (string * V)) (k : string) :
  Map_get m k = None <-> ~ In k (Map_keys m).
Proof.
  unfold Map_keys. induction m as [|[k0 v0] m IH]; simpl; [tauto|].
  destruct (String.eqb k0 k) eqn:E.
  - apply String.eqb_eq in E. split; [discriminate | intro H; tauto].
  - apply String.eqb_neq in E. rewrite IH. tauto.
Qed.

Lemma Map_In_get {V : Type} (m : list (string * V)) (k : string) (v : V) :
  NoDup (Map_keys m) -> In (k, v) m -> Map_get m k = Some v.
Proof.
  unfold Map_keys. induction m as [|[k0 v0] m IH]; simpl; intros Hnd Hin;
    [destruct Hin|].
  inversion Hnd as [|? ? Hnot Hnd']; subst.
  destruct Hin as [Heq|Hin].
  - inversion Heq. subst. rewrite String.eqb_refl. reflexivity.
  - destruct (String.eqb k0 k) eqn:E; [|apply IH; assumption].
    apply String.eqb_eq in E. subst k0. exfalso. apply Hnot.
    apply (in_map fst) in Hin. exact Hin.
Qed.

(** The counting loop [counts.set(x, (counts.get(x) || 0) + 1)]. *)
Lemma counting_loop (xs : list string) :
  forall counts,
    NoDup (Map_keys counts) ->
    let counts' :=
      fold_left
        (fun counts x =>
           Map_set counts x
             (match Map_get counts x with Some n => n | None => O end + 1)%nat)
        xs counts in
    NoDup (Map_keys counts')
    /\ forall x,
         Map_get counts' x
         = match Map_get counts x with
           | Some n => Some (n + count_occ string_dec xs x)%nat
           | None => if (count_occ string_dec xs x =? 0)%nat then None
                     else Some (count_occ string_dec xs x)
           end.
Proof.
  induction xs as [|y xs IH]; intros counts Hnd; cbv zeta.
  - split; [exact Hnd|]. intro x. simpl.
    destruct (Map_get counts x); [f_equal; lia | reflexivity].
  - cbn [fold_left].
    destruct (IH (Map_set counts y
                    (match Map_get counts y with Some n => n | None => O end
                     + 1)%nat)) as [N G].
    { apply Map_set_keys_NoDup, Hnd. }
    split; [exact N|]. intro x. rewrite G, Map_get_set. simpl.
    destruct (string_dec y x) as [->|Hyx].
    + rewrite String.eqb_refl.
      destruct (Map_get counts x); [f_equal; lia|].
      simpl. f_equal.
    + apply String.eqb_neq in Hyx. rewrite Hyx. reflexivity.
Qed.

(** The loop that keeps the entry with the largest count, the first one
    among equals. *)
Lemma largest_count (entries : list (string * nat)) :
  forall best,
    let best' :=
      fold_left
        (fun (best : nat * string) (entry : string * nat) =>
           if (fst best <? snd entry)%nat then (snd entry, fst entry)
           else best)
        entries best in
    (fst best <= fst best')%nat
    /\ (forall o c, In (o, c) entries -> (c <= fst best')%nat)
    /\ (best' = best \/ In (snd best', fst best') entries).
Proof.
  induction entries as [|[o c] entries IH]; intro best; cbv zeta.
  - simpl. split; [lia|]. split; [intros ? ? []|left; reflexivity].
  - cbn [fold_left]. cbn [fst snd].
    destruct (fst best <? c)%nat eqn:E.
    + destruct (IH (c, o)) as (H1 & H2 & H3). cbn [fst snd] in *.
      apply Nat.ltb_lt in E. split; [lia|]. split.
      * intros o' c' [Heq|Hin]; [inversion Heq; subst; exact H1|].
        apply (H2 o' c' Hin).
      * right. destruct H3 as [->|H3]; [left; reflexivity | right; exact H3].
    + destruct (IH best) as (H1 & H2 & H3).
      apply Nat.ltb_ge in E. split; [exact H1|]. split.
      * intros o' c' [Heq|Hin]; [inversion Heq; subst; lia|].
        apply (H2 o' c' Hin).
      * destruct H3 as [->|H3]; [left; reflexivity | right; right; exact H3].
Qed.

Lemma findMostCommonOutcome_spec (outcomes : list string) :
  outcomes <> [] ->
  In (Matcher.findMostCommonOutcome outcomes) outcomes
  /\ forall o,
       (count_occ string_dec outcomes o
        <= count_occ string_dec outcomes
             (Matcher.findMostCommonOutcome outcomes))%nat.
Proof.
  intro Hne. destruct outcomes as [|first rest]; [congruence|].
  unfold Matcher.findMostCommonOutcome.
  set (outcomes := first :: rest).
  destruct (counting_loop outcomes []) as [N G]; [constructor|].
  set (counts := fold_left _ outcomes []) in *.
  assert (Gc : forall x, Map_get counts x
                         = if (count_occ string_dec outcomes x =? 0)%nat
                           then None
                           else Some (count_occ string_dec outcomes x))
    by (intro x; rewrite G; reflexivity).
  destruct (largest_count counts (O, first)) as (_ & H2 & H3).
  set (best := fold_left _ counts (O, first)) in *.
  assert (Hfirst : In (first, count_occ string_dec outcomes first) counts).
  { apply Map_get_In. rewrite Gc.
    destruct (count_occ string_dec outcomes first =? 0)%nat eqn:E;
      [|reflexivity].
    apply Nat.eqb_eq in E. unfold outcomes in E. simpl in E.
    destruct (string_dec first first); [discriminate | congruence]. }
  assert (Hpos : (0 < count_occ string_dec outcomes first)%nat).
  { unfold outcomes. simpl.
    destruct (string_dec first first); [lia | congruence]. }
  pose proof (H2 _ _ Hfirst) as Hge.
  assert (Hbest : In (snd best, fst best) counts).
  { destruct H3 as [E|H3]; [|exact H3]. rewrite E in Hge. cbn [fst] in Hge. lia. }
  apply (Map_In_get counts _ _ N) in Hbest. rewrite Gc in Hbest.
  destruct (count_occ string_dec outcomes (snd best) =? 0)%nat eqn:E0;
    [discriminate|].
  assert (Hb : fst best = count_occ string_dec outcomes (snd best))
    by congruence.
  clear Hbest. apply Nat.eqb_neq in E0. split.
  - apply (count_occ_In string_dec). lia.
  - intro o. rewrite <- Hb.
    destruct (count_occ string_dec outcomes o =? 0)%nat eqn:Eo.
    + apply Nat.eqb_eq in Eo. lia.
    + apply (H2 o). apply Map_get_In. rewrite Gc, Eo. reflexivity.
Qed.

(** X25.  On a non-empty list [findMostCommonOutcome] returns an outcome of
    the list that no other outcome outnumbers. *)
Theorem findMostCommonOutcome_is_most_frequent (outcomes : list string) :
  outcomes <> [] ->
  In (Matcher.findMostCommonOutcome outcomes) outcomes
  /\ forall o,
       (count_occ string_dec outcomes o
        <= count_occ string_dec outcomes
             (Matcher.findMostCommonOutcome outcomes))%nat.
Proof. apply findMostCommonOutcome_spec. Qed.

Lemma findMostCommonOutcome_is_most_frequent_witness :
  In (Matcher.findMostCommonOutcome ["ok"; "retry"; "ok"]%string)
     ["ok"; "retry"; "ok"]%string
  /\ forall o,
       (count_occ string_dec ["ok"; "retry"; "ok"]%string o
        <= count_occ string_dec ["ok"; "retry"; "ok"]%string
             (Matcher.findMostCommonOutcome ["ok"; "retry"; "ok"]%string))%nat.
Proof.
  apply (findMostCommonOutcome_is_most_frequent ["ok"; "retry"; "ok"]%string).
  discriminate.
Defined.

(** X26.  [synthesize] never invents text: for a non-empty evidence array the
    output is the content of one of the evidence items. *)
Theorem synthesize_returns_evidence_content (evidence : list Matcher.Evidence) :
  evidence <> [] ->
  In (Matcher.synthesize evidence) (map Matcher.content evidence).
Proof.
  intro Hne. unfold Matcher.synthesize.
  pose proof (Array_sort_perm Matcher.byScoreDesc evidence) as P.
  destruct (Array_sort Matcher.byScoreDesc evidence) as [|top sorted] eqn:E.
  - apply Permutation_nil in P. congruence.
  - assert (Htop : In (Matcher.content top) (map Matcher.content evidence)).
    { apply in_map, (Permutation_in top P). left. reflexivity. }
    destruct (gtb (Matcher.score top) 0.8); [exact Htop|].
    destruct (3 <=? length (top :: sorted))%nat; [|exact Htop].
    destruct (findMostCommonOutcome_spec
                (map Matcher.content (firstn 5 (top :: sorted))))
      as [Hin _]; [discriminate|].
    apply in_map_iff in Hin. destruct Hin as (e & <- & He).
    apply in_map, (Permutation_in e P), (firstn_In 5), He.
Qed.

Lemma synthesize_returns_evidence_content_witness :
  let e := {| Matcher.ev_id := "s1"; Matcher.score := 0.5;
              Matcher.content := "done"; Matcher.meta_action := None;
              Matcher.meta_status := None; Matcher.meta_quality := None;
              Matcher.meta_when := None |} in
  In (Matcher.synthesize [e]) (map Matcher.content [e]).
Proof.
  cbv zeta. apply synthesize_returns_evidence_content. discriminate.
Defined.

Lemma Array_slice0_length {A : Type} (a : list A) (k : Z) :
  (0 <= k)%Z -> (length (Array_slice0 a k) <= Z.to_nat k)%nat.
Proof.
  intro H. unfold Array_slice0.
  destruct (k <? 0)%Z eqn:E; [apply Z.ltb_lt in E; lia|].
  rewrite length_firstn. lia.
Qed.

Lemma subseq_length {A : Type} (l1 l2 : list A) :
  subseq l1 l2 -> (length l1 <= length l2)%nat.
Proof. induction 1; simpl; lia. Qed.

Section MatcherMore.
Import Matcher.
Variables TemporalIndex QualityIndex TimeRange : Type.
Variable temporal_findInRange : TemporalIndex -> TimeRange -> list string.
Variable quality_findAbove : QualityIndex -> Z -> list string.
Variable Math_exp : float -> float.

#[local] Abbreviation Matcher_t' :=
  (TrajectoryMatcher TemporalIndex QualityIndex).
#[local] Abbreviation predict_' :=
  (predict TemporalIndex QualityIndex TimeRange temporal_findInRange
     quality_findAbove Math_exp).

Lemma collectEvidence_returns (m : Matcher_t') (q : list float)
    (ids : list string) :
  length q = embeddingDim (config _ _ m) ->
  exists ev, collectEvidence _ _ m q ids = Ok ev.
Proof.
  intro Hq. induction ids as [|c ids [rest IH]]; simpl.
  - eexists. reflexivity.
  - destruct (Map_get (spans _ _ m) c) as [span|]; [|exists rest; exact IH].
    destruct (cosineSimilarity_same_length q
                (Embedding.embedText (spanToText span)
                   (embeddingDim (config _ _ m)))) as [s ->].
    { rewrite embedText_length. exact Hq. }
    simpl. rewrite IH. simpl.
    destruct (s <? minScore (config _ _ m)); eexists; reflexivity.
Qed.

Lemma collectEvidence_length (m : Matcher_t') (q : list float)
    (ids : list string) (ev : list Evidence) :
  collectEvidence _ _ m q ids = Ok ev -> (length ev <= length ids)%nat.
Proof.
  intro H.
  destruct (collectEvidence_order _ _ m q ids ev H) as (kept & Hs & Hf).
  apply Forall2_length in Hf. apply subseq_length in Hs. lia.
Qed.


Lemma calculateConfidence_clamped (evidence : list Evidence)
    (totalCandidates : nat) :
  let c := calculateConfidence Math_exp evidence totalCandidates in
  is_nan c = true \/ ((0 <=? c) = true /\ (c <=? 100) = true).
Proof.
  cbv zeta. unfold calculateConfidence.
  destruct (length evidence =? 0)%nat; [right; split; reflexivity|].
  match goal with
  | |- context [Math_max 0 (Math_min 100 ?x)] =>
      destruct (clamp_percent x) as (Hn & Hr & _);
      destruct (is_nan x) eqn:E
  end.
  - left. rewrite Hn; reflexivity.
  - right. apply Hr. reflexivity.
Qed.

(** X28.  The confidence computed from the evidence is NaN or a number of
    [0, 100], whatever the scores and whatever [Math.exp] returns; it is 0
    for no evidence. *)
Theorem calculateConfidence_range (evidence : list Evidence)
    (totalCandidates : nat) :
  let c := calculateConfidence Math_exp evidence totalCandidates in
  (is_nan c = true \/ ((0 <=? c) = true /\ (c <=? 100) = true))
  /\ (evidence = [] -> c = 0).
Proof.
  cbv zeta. split; [apply calculateConfidence_clamped|].
  intros ->. reflexivity.
Qed.

(** X29.  What every prediction satisfies.  The method is [low_confidence] or
    [trajectory_matching], never [synthesis] or [fallback]; the confidence
    is NaN or a number of [0, 100]; the evidence has at most [topK] items
    (for a [topK] that is not negative); and a [trajectory_matching]
    prediction carries a non-empty evidence array, counts its items as the
    trajectories used, and has a confidence that is not below
    [minConfidence]. *)
Theorem predict_outcome (m : Matcher_t') (context : Context)
    (action : string) (plan0 : option (SearchPlan TimeRange))
    (pred : Prediction TimeRange) :
  predict_' m context action plan0 = Ok pred ->
  let searchPlan :=
    match plan0 with
    | Some p => p
    | None => {| topK := defaultTopK (config _ _ m); minQuality := 60%Z;
                 timeRange := None; filters := None |}
    end in
  (method _ pred = low_confidence \/ method _ pred = trajectory_matching)
  /\ (is_nan (confidence _ pred) = true
      \/ ((0 <=? confidence _ pred) = true
          /\ (confidence _ pred <=? 100) = true))
  /\ plan _ pred = Some searchPlan
  /\ (forall ev, evidence _ pred = Some ev ->
        (0 <= topK _ searchPlan)%Z ->
        (length ev <= Z.to_nat (topK _ searchPlan))%nat)
  /\ (method _ pred = trajectory_matching ->
      exists ev,
        evidence _ pred = Some ev
        /\ ev <> []
        /\ trajectories_used _ pred = length ev
        /\ (confidence _ pred <? minConfidence (config _ _ m)) = false).
Proof.
  intros Hp searchPlan. unfold predict in Hp. fold searchPlan in Hp.
  destruct (topK _ searchPlan <? minTopK (config _ _ m))%Z.
  { injection Hp as <-. simpl.
    split; [left; reflexivity|]. split; [right; split; reflexivity|].
    split; [reflexivity|]. split; [discriminate | discriminate]. }
  destruct (findCandidates _ _ _ _ _ m _ action searchPlan) as [ids|e];
    simpl in Hp; [|discriminate].
  destruct (length ids =? 0)%nat.
  { injection Hp as <-. simpl.
    split; [left; reflexivity|]. split; [right; split; reflexivity|].
    split; [reflexivity|]. split; [discriminate | discriminate]. }
  destruct (collectEvidence _ _ m _ _) as [ev0|e] eqn:Ee; simpl in Hp;
    [|discriminate].
  assert (Hlen : (0 <= topK _ searchPlan)%Z ->
                 (length ev0 <= Z.to_nat (topK _ searchPlan))%nat).
  { intro H0. apply collectEvidence_length in Ee.
    pose proof (Array_slice0_length ids (topK _ searchPlan) H0). lia. }
  destruct (length ev0 =? 0)%nat eqn:E0.
  { injection Hp as <-. simpl.
    split; [left; reflexivity|]. split; [right; split; reflexivity|].
    split; [reflexivity|]. split; [|discriminate].
    intros ev H. injection H as <-. intros _. simpl. lia. }
  assert (Hne : ev0 <> []).
  { intros ->. discriminate E0. }
  pose proof (calculateConfidence_clamped ev0 (length ids)) as Hrange.
  destruct (_ <? minConfidence (config _ _ m)) eqn:Ec;
    injection Hp as <-; simpl.
  - split; [left; reflexivity|]. split; [exact Hrange|].
    split; [reflexivity|]. split; [|discriminate].
    intros ev H. injection H as <-. exact Hlen.
  - split; [right; reflexivity|]. split; [exact Hrange|].
    split; [reflexivity|]. split.
    + intros ev H. injection H as <-. exact Hlen.
    + intros _. exists ev0. auto.
Qed.

End MatcherMore.


Lemma predict_outcome_witness :
  exists pred,
    Scenario.predict Scenario.deploy_matcher Scenario.no_context
      "deploy service" None = Ok pred
    /\ (Matcher.method _ pred = Matcher.low_confidence
        \/ Matcher.method _ pred = Matcher.trajectory_matching)
    /\ (is_nan (Matcher.confidence _ pred) = true
        \/ ((0 <=? Matcher.confidence _ pred) = true
            /\ (Matcher.confidence _ pred <=? 100) = true)).
Proof.
  destruct (Scenario.predict Scenario.deploy_matcher Scenario.no_context
              "deploy service" None) as [pred|e] eqn:E.
  - exists pred. split; [reflexivity|].
    destruct (predict_outcome unit unit unit (fun _ _ => []) (fun _ _ => [])
                Math_exp_ref Scenario.deploy_matcher Scenario.no_context
                "deploy service" None pred E) as (H1 & H2 & _).
    split; assumption.
  - exfalso. vm_compute in E. discriminate E.
Defined.

Section MatcherAdd.
Import Matcher.
Variables TemporalIndex QualityIndex : Type.
Variable temporal_add : TemporalIndex -> string -> string -> TemporalIndex.
Variable quality_add : QualityIndex -> string -> float -> QualityIndex.

#[local] Abbreviation addSpan_ :=
  (addSpan TemporalIndex QualityIndex temporal_add quality_add).

(** X30.  What [addSpan] registers.  The span is stored under its id in
    every case, also when the insertion into the vector index throws; in
    that case the other indices are left untouched, so the span is stored
    but not indexed.  When the call returns and an inverted index is
    attached, the span's id is appended to the list of its action and to
    the list of its environment, where these are non-empty strings. *)
Theorem addSpan_registers
    (m m' : TrajectoryMatcher TemporalIndex QualityIndex) (span : Span)
    (w w' : HNSW.Levels) (r : Result unit) :
  addSpan_ m span w = (r, m', w') ->
  Map_get (spans _ _ m') (span_id span) = Some span
  /\ config _ _ m' = config _ _ m
  /\ (forall e, r = Throw e ->
        invertedIndex _ _ m' = invertedIndex _ _ m
        /\ temporalIndex _ _ m' = temporalIndex _ _ m
        /\ qualityIndex _ _ m' = qualityIndex _ _ m)
  /\ (r = Ok tt ->
      forall idx, invertedIndex _ _ m = Some idx ->
        exists idx',
          invertedIndex _ _ m' = Some idx'
          /\ (forall d, did span = Some d -> d <> EmptyString ->
                Inverted.find idx' "action" d
                = Inverted.find idx "action" d ++ [span_id span])
          /\ (forall env, environment span = Some env -> env <> EmptyString ->
                Inverted.find idx' "domain" env
                = Inverted.find idx "domain" env ++ [span_id span]))
  /\ (vectorIndex _ _ m = None -> r = Ok tt /\ vectorIndex _ _ m' = None).
Proof.
  intro H. unfold addSpan in H.
  assert (Hs : Map_get (Map_set (spans _ _ m) (span_id span) span)
                 (span_id span) = Some span)
    by (rewrite Map_get_set, String.eqb_refl; reflexivity).
  destruct (match vectorIndex _ _ m with
            | Some index => _
            | None => (Ok tt, None, w)
            end) as [[r0 vector1] w1] eqn:V.
  assert (Hv : vectorIndex _ _ m = None -> r0 = Ok tt /\ vector1 = None).
  { intro E. rewrite E in V. injection V as <- <- _. split; reflexivity. }
  destruct r0 as [[]|e].
  - injection H as <- <- <-. simpl.
    split; [exact Hs|]. split; [reflexivity|].
    split; [intros e E; discriminate|]. split; [|exact Hv].
    intros _ idx Hidx. rewrite Hidx.
    assert (T : forall s, truthy (Some s) = negb (String.eqb s EmptyString))
      by reflexivity.
    destruct (did span) as [d|] eqn:Ed; destruct (environment span) as [env|] eqn:Ee;
      rewrite ?T;
      repeat match goal with
             | |- context [String.eqb ?s EmptyString] =>
                 let E := fresh "E" in
                 destruct (String.eqb s EmptyString) eqn:E;
                 [apply String.eqb_eq in E | apply String.eqb_neq in E]
             end;
      simpl; eexists; (split; [reflexivity|]);
      (split; intros x Hx Hne; try discriminate Hx;
       try (injection Hx as <-); try congruence;
       rewrite ?find_add; simpl;
       rewrite ?String.eqb_refl; reflexivity).
  - injection H as <- <- <-. simpl.
    split; [exact Hs|]. split; [reflexivity|].
    split; [intros e' _; auto|]. split; [discriminate|].
    intro E. destruct (Hv E) as [E' _]. discriminate E'.
Qed.

End MatcherAdd.

Lemma addSpan_registers_witness :
  Map_get (Matcher.spans _ _ Scenario.deploy_matcher) "span2"
  = Some (Scenario.span "span2" "user" "deploy" "service" "deployed").
Proof.
  destruct (Matcher.addSpan unit unit (fun t _ _ => t) (fun q _ _ => q)
              (Scenario.addSpan (Matcher.new unit unit Scenario.defaults)
                 (Scenario.span "span1" "user" "deploy" "database" "done"))
              (Scenario.span "span2" "user" "deploy" "service" "deployed")
              Scenario.levels0) as [[r m'] w'] eqn:A.
  destruct (addSpan_registers unit unit (fun t _ _ => t) (fun q _ _ => q)
              _ m' _ _ w' r A) as [H _].
  unfold Scenario.deploy_matcher, Scenario.addSpan at 1. rewrite A. exact H.
Defined.
